(** * EzGM conditional-spectrum record selection: model and properties

    A shallow embedding of the statistical core of [CS_master.py]
    (class [cs_master], methods [create] and [select], and the helper
    functions [Baker_Jayaram_2008], [Sa_avg] and [rho_AvgSA_SA]).

    Numbers.  The program computes with IEEE doubles through numpy.  They
    are idealised here as real numbers: [+], [*], [/], [exp], [log],
    [sqrt], [cos] are the functions of the Standard Library's [Reals].
    Rounding, overflow and NaN are outside the model; the one place where
    a claim depends on an operation being undefined (the division inside
    the correlation model) is modelled with [option]. *)

From Stdlib Require Import Reals Lra Lia List ZArith Bool Arith Permutation.
From Stdlib Require String.
Import ListNotations.
Import String.StringSyntax.
Delimit Scope string_scope with string.
Bind Scope string_scope with String.string.

Local Open Scope R_scope.

(** ** Inter-period correlation model *)

Module Correlation.

(** The four intermediate coefficients of [Baker_Jayaram_2008], written
    as the source computes them from [t_min] and [t_max]. *)
Definition c1 (t_min t_max : R) : R :=
  1.0 - cos (PI / 2.0 - ln (t_max / Rmax t_min 0.109) * 0.366).

Definition c2 (t_min t_max : R) : R :=
  if Rlt_dec t_max 0.2 then
    1.0 - 0.105 * (1.0 - 1.0 / (1.0 + exp (100.0 * t_max - 5.0)))
          * (t_max - t_min) / (t_max - 0.0099)
  else 0.

Definition c3 (t_min t_max : R) : R :=
  if Rlt_dec t_max 0.109 then c2 t_min t_max else c1 t_min t_max.

Definition c4 (t_min t_max : R) : R :=
  c1 t_min t_max
  + 0.5 * (sqrt (c3 t_min t_max) - c3 t_min t_max)
        * (1.0 + cos (PI * t_min / 0.109)).

(** The value returned when every operation is defined. *)
Definition rho_value (T1 T2 : R) : R :=
  let t_min := Rmin T1 T2 in
  let t_max := Rmax T1 T2 in
  if Rle_dec t_max 0.109 then c2 t_min t_max
  else if Rgt_dec t_min 0.109 then c1 t_min t_max
  else if Rlt_dec t_max 0.2 then Rmin (c2 t_min t_max) (c4 t_min t_max)
  else c4 t_min t_max.

(** [c2] divides by [t_max - 0.0099] whenever [t_max < 0.2].  With Python
    floats that is a [ZeroDivisionError], with numpy scalars a NaN; either
    way no correlation coefficient is produced.  Every other divisor of the
    function is a non-zero constant, [Rmax t_min 0.109] or [1 + exp _]. *)
Definition Baker_Jayaram_2008 (T1 T2 : R) : option R :=
  let t_max := Rmax T1 T2 in
  if Rlt_dec t_max 0.2 then
    if Req_dec_T (t_max - 0.0099) 0 then None else Some (rho_value T1 T2)
  else Some (rho_value T1 T2).

End Correlation.

(** ** Python exceptions and numpy helpers *)

Inductive exn : Type :=
| IndexError          (* indexing an empty [np.where] result or an empty array *)
| ValueError          (* [np.max] of an empty array *)
| UnboundLocalError   (* reading a local variable that was never assigned *)
| AttributeError      (* reading an attribute that was deleted or never set *)
| SystemExit.         (* [sys.exit()] *)

Inductive res (A : Type) : Type :=
| Ok (a : A)
| Raise (e : exn).
Arguments Ok {A} a.
Arguments Raise {A} e.

Definition bind {A B : Type} (m : res A) (k : A -> res B) : res B :=
  match m with
  | Ok a => k a
  | Raise e => Raise e
  end.

Notation "x <- m ;; k" := (bind m (fun x => k))
  (at level 61, m at next level, right associativity).

Fixpoint mapM {A B : Type} (f : A -> res B) (l : list A) : res (list B) :=
  match l with
  | [] => Ok []
  | a :: l' => b <- f a ;; bs <- mapM f l' ;; Ok (b :: bs)
  end.

Module Np.

Definition Rltb (x y : R) : bool := if Rlt_dec x y then true else false.
Definition Rleb (x y : R) : bool := if Rle_dec x y then true else false.
Definition Reqb (x y : R) : bool := if Req_dec_T x y then true else false.

(** [np.sum], [np.mean] and [np.std] (population standard deviation, the
    numpy default [ddof = 0]) of a one-dimensional array. *)
Definition sum (l : list R) : R := fold_right Rplus 0 l.
Definition mean (l : list R) : R := sum l / INR (length l).
Definition std (l : list R) : R :=
  sqrt (mean (map (fun x => Rsqr (Rabs (x - mean l))) l)).

(** [np.min] and [np.max]; both raise on an empty array. *)
Fixpoint min (l : list R) : res R :=
  match l with
  | [] => Raise ValueError
  | x :: l' => match l' with
               | [] => Ok x
               | _ => m <- min l' ;; Ok (Rmin x m)
               end
  end.

Fixpoint max (l : list R) : res R :=
  match l with
  | [] => Raise ValueError
  | x :: l' => match l' with
               | [] => Ok x
               | _ => m <- max l' ;; Ok (Rmax x m)
               end
  end.

(** [np.where(p(a))[0][0]]: the first index whose entry satisfies [p]. *)
Fixpoint where_first (p : R -> bool) (l : list R) : res nat :=
  match l with
  | [] => Raise IndexError
  | x :: l' => if p x then Ok O else k <- where_first p l' ;; Ok (S k)
  end.

(** [np.argsort(a)[0]]: an index of a smallest entry; the first one, as
    the insertion sort numpy uses on short arrays gives.  No claim below
    depends on how ties are broken. *)
Fixpoint argmin_from (best : nat) (bestv : R) (k : nat) (l : list R) : nat :=
  match l with
  | [] => best
  | x :: l' => if Rltb x bestv then argmin_from k x (S k) l'
               else argmin_from best bestv (S k) l'
  end.

Definition argmin (l : list R) : res nat :=
  match l with
  | [] => Raise IndexError
  | x :: l' => Ok (argmin_from O x 1%nat l')
  end.

(** Column [k] of a two-dimensional array stored as a list of rows; the
    reductions along [axis = 0] apply [mean] and [std] to each column. *)
Definition column (k : nat) (m : list (list R)) : list R :=
  map (fun row => nth k row 0) m.

(** [a[i] = v], [np.delete(a, i)] and
    [np.concatenate((a[:i], [v], a[i:]))]. *)
Fixpoint upd {A : Type} (i : nat) (v : A) (l : list A) : list A :=
  match l, i with
  | [], _ => []
  | _ :: l', O => v :: l'
  | x :: l', S i' => x :: upd i' v l'
  end.

Definition delete {A : Type} (i : nat) (l : list A) : list A :=
  firstn i l ++ skipn (S i) l.

Definition insert {A : Type} (i : nat) (v : A) (l : list A) : list A :=
  firstn i l ++ v :: skipn i l.

(** Fancy indexing [a[ind]]. *)
Definition take (ind : list nat) (l : list R) : list R :=
  map (fun k => nth k l 0) ind.

End Np.

(** ** Average spectral acceleration and the target spectrum ([create]) *)

Module Target.
Import Correlation.

Section WithGMPE.

(** The ground-motion model is an external collaborator:
    [gmpe n t] stands for the mean and total standard deviation of
    [ln Sa(t)] that [bgmpe.get_mean_and_stddevs] returns for the contexts
    of scenario [n]. *)
Variable gmpe : nat -> R -> R * R.

(** Inside [create] the correlation model is evaluated where it is
    defined (no grid period equals 0.0099). *)
Definition rho_BJ (T1 T2 : R) : R := rho_value T1 T2.

(** [Sa_avg(bgmpe, scenario, T)]. *)
Definition Sa_avg (n : nat) (T : list R) : R * R :=
  let len := length T in
  let mu_lnSaTstar := map (fun t => fst (gmpe n t)) T in
  let ro_xy := 1 in
  let sigma_lnSaTstar :=
    map (fun t => ln (Rpower ((exp (snd (gmpe n t))) ^ 2 * (2 / (1 + ro_xy))) 0.5)) T in
  let MoC (i j : nat) := rho_BJ (nth i T 0) (nth j T 0) in
  let SPa_avg_meanLn := (1 / INR len) * fold_left Rplus mu_lnSaTstar 0 in
  let SPa_avg_std :=
    fold_left (fun acc i =>
      fold_left (fun acc j =>
        acc + MoC i j * nth i sigma_lnSaTstar 0 * nth j sigma_lnSaTstar 0)
        (seq 0 len) acc)
      (seq 0 len) 0 in
  let SPa_avg_std := SPa_avg_std * (1 / INR len) ^ 2 in
  (SPa_avg_meanLn, sqrt SPa_avg_std).

(** [rho_AvgSA_SA(bgmpe, scenario, T, Tstar)]. *)
Definition rho_AvgSA_SA (n : nat) (T : R) (Tstar : list R) : R :=
  let rho :=
    fold_left (fun rho tj => rho_BJ T tj * snd (gmpe n tj) + rho) Tstar 0 in
  let Avg_sig := snd (Sa_avg n Tstar) in
  rho / (INR (length Tstar) * Avg_sig).

(** Closed forms of the two loops above, used to reason about them: the
    variance of the average and the covariance of [ln Sa(t)] with the sum
    over the averaging periods. *)
Definition avg_var (n : nat) (Ts : list R) : R :=
  Np.sum (map (fun t =>
            Np.sum (map (fun u => rho_BJ t u * snd (gmpe n t) * snd (gmpe n u)) Ts))
          Ts)
  * (1 / INR (length Ts)) ^ 2.

Definition cross_sum (n : nat) (t : R) (Ts : list R) : R :=
  Np.sum (map (fun u => rho_BJ t u * snd (gmpe n u)) Ts).

(** The attributes [create] leaves on the object.  [Tstar] is deleted in
    the unconditional case and [im_Tstar] is only assigned in the
    conditional one. *)
Record target : Type := mkTarget {
  cond : nat;
  useVar : nat;
  Hcont : list R;
  T : list R;
  Tstar : option (list R);
  mu_ln : list R;
  sigma_ln : list R;
  cov : list (list R);
  im_Tstar : option R
}.

(** [a[np.abs(a) < 1e-10] = 1e-10], entry by entry. *)
Definition floor_small (v : R) : R :=
  if Np.Rltb (Rabs v) 1e-10 then 1e-10 else v.

(** Arguments of one call of [create].  [T_Tgt] is the slice of the
    database periods selected by [T_Tgt_range]; [Tstar0] is [self.Tstar] as
    set by the constructor; [nScenarios] is [len(rup_param['mag'])].  The
    model covers well-shaped calls: one hazard weight and (when given) one
    epsilon per scenario, and a non-empty [Tstar0]. *)
Record call : Type := mkCall {
  T_Tgt : list R;
  Tstar0 : list R;
  nScenarios : nat;
  Hcont_arg : option (list R);
  im_Tstar_arg : R;
  epsilon : option (list R);
  cond_arg : nat;
  useVar_arg : nat
}.

Section Create.

Variable c : call.

Definition nT : nat := length (T_Tgt c).

Definition Hcont_self : list R :=
  match Hcont_arg c with
  | None => repeat (1 / INR (nScenarios c)) (nScenarios c)
  | Some h => h
  end.

(** Index of the grid period nearest to [x]:
    [np.where(temp == np.min(temp))[0][0]] with [temp = |T_Tgt - x|]. *)
Definition nearest (x : R) : res nat :=
  let temp := map (fun t => Rabs (t - x)) (T_Tgt c) in
  m <- Np.min temp ;;
  Np.where_first (fun v => Np.Reqb v m) temp.

(** [self.Tstar] after the first block of [create]: unchanged for a single
    conditioning period, snapped to the grid for a range. *)
Definition Tstar_self : res (list R) :=
  if (length (Tstar0 c) =? 1)%nat then Ok (Tstar0 c)
  else
    Tlower <- Np.min (Tstar0 c) ;;
    idx1 <- nearest Tlower ;;
    Tupper <- Np.max (Tstar0 c) ;;
    idx2 <- nearest Tupper ;;
    Ok (skipn idx1 (firstn (idx2 + 1) (T_Tgt c))).

Section Scenario.
Variable Ts : list R.     (* [self.Tstar] *)
Variable n : nat.         (* scenario index *)

Definition mu_lnSaT (i : nat) : R := fst (gmpe n (nth i (T_Tgt c) 0)).
Definition sigma_lnSaT (i : nat) : R := snd (gmpe n (nth i (T_Tgt c) 0)).

Definition rho_T_Tstar (i : nat) : R :=
  if (cond_arg c =? 1)%nat then rho_AvgSA_SA n (nth i (T_Tgt c) 0) Ts else 0.

Definition rup_eps : R :=
  match epsilon c with
  | None => (ln (im_Tstar_arg c) - fst (Sa_avg n Ts)) / snd (Sa_avg n Ts)
  | Some e => nth n e 0
  end.

(** The conditional mean of scenario [n] with back-calculated epsilon, as
    a function of the period rather than of the grid index. *)
Definition cms (t : R) : R :=
  fst (gmpe n t)
  + rho_AvgSA_SA n t Ts
    * ((ln (im_Tstar_arg c) - fst (Sa_avg n Ts)) / snd (Sa_avg n Ts))
    * snd (gmpe n t).

(** Column [n] of [TgtMean]. *)
Definition TgtMean (i : nat) : R :=
  if (cond_arg c =? 1)%nat then
    mu_lnSaT i + rho_T_Tstar i * rup_eps * sigma_lnSaT i
  else if (cond_arg c =? 0)%nat then mu_lnSaT i
  else 0.

(** Entry [(i, j)] of the scenario covariance [Cov]. *)
Definition Cov (i j : nat) : R :=
  let var1 := sigma_lnSaT i ^ 2 in
  let var2 := sigma_lnSaT j ^ 2 in
  let sigma_Corr :=
    rho_BJ (nth i (T_Tgt c) 0) (nth j (T_Tgt c) 0) * sqrt (var1 * var2) in
  if (cond_arg c =? 1)%nat then
    let varTstar := snd (Sa_avg n Ts) ^ 2 in
    let sigma12_0 := rho_T_Tstar i * sqrt (var1 * varTstar) in
    let sigma12_1 := rho_T_Tstar j * sqrt (varTstar * var2) in
    sigma_Corr - sigma12_0 * 1 / varTstar * sigma12_1
  else if (cond_arg c =? 0)%nat then sigma_Corr
  else 0.

End Scenario.

(** [TgtCov] after the [useVar] overwrite. *)
Definition TgtCov (Ts : list R) (n i j : nat) : R :=
  if (useVar_arg c =? 0)%nat then 0 else Cov Ts n i j.

Definition TgtMean_fin (Ts : list R) (i : nat) : R :=
  Np.sum (map (fun n => TgtMean Ts n i * nth n Hcont_self 0) (seq 0 (nScenarios c))).

Definition cov_diag (Ts : list R) (ii : nat) : R :=
  Np.sum (map (fun kk =>
            (TgtCov Ts kk ii ii + (TgtMean Ts kk ii - TgtMean_fin Ts ii) ^ 2)
            * nth kk Hcont_self 0)
          (seq 0 (nScenarios c))).

(** Entry [(i, j)] of [TgtCov_fin]: scenario 0 off the diagonal, the
    mixture variance on it, then the floor on small magnitudes. *)
Definition TgtCov_fin (Ts : list R) (i j : nat) : R :=
  floor_small (if (i =? j)%nat then cov_diag Ts i else TgtCov Ts 0 i j).

(** Hazard-weighted squared deviation of the scenario means from the
    combined mean at period [i]: what is left of [cov_diag] when the
    scenario covariances are zero. *)
Definition between_scenarios (Ts : list R) (i : nat) : R :=
  Np.sum (map (fun kk =>
            (TgtMean Ts kk i - TgtMean_fin Ts i) ^ 2 * nth kk Hcont_self 0)
          (seq 0 (nScenarios c))).

(** [np.sqrt] of the diagonal; a NaN (negative variance) becomes 0. *)
Definition TgtSigma_fin (Ts : list R) (i : nat) : R :=
  let d := TgtCov_fin Ts i i in
  if Np.Rltb d 0 then 0 else sqrt d.

Definition mu_ln_fin (Ts : list R) : list R :=
  map (TgtMean_fin Ts) (seq 0 nT).

(** The indices [ind] of the conditioning periods in the grid. *)
Definition cond_indices (grid Ts : list R) : res (list nat) :=
  mapM (fun t => Np.where_first (fun x => Np.Reqb x t) grid) Ts.

Definition create : res target :=
  Ts <- (if (cond_arg c =? 0)%nat then Ok [] else Tstar_self) ;;
  if (nScenarios c =? 0)%nat then Raise IndexError else
  let mu := mu_ln_fin Ts in
  let sg := map (TgtSigma_fin Ts) (seq 0 nT) in
  let cv := map (fun i => map (TgtCov_fin Ts i) (seq 0 nT)) (seq 0 nT) in
  im <- (if (cond_arg c =? 1)%nat then
           match epsilon c with
           | None => Ok (Some (im_Tstar_arg c))
           | Some _ =>
               ind <- cond_indices (T_Tgt c) Ts ;;
               Ok (Some (exp (Np.sum (Np.take ind mu) / INR (length Ts))))
           end
         else Ok None) ;;
  Ok {| cond := cond_arg c; useVar := useVar_arg c; Hcont := Hcont_self;
        T := T_Tgt c;
        Tstar := if (cond_arg c =? 0)%nat then None else Some Ts;
        mu_ln := mu; sigma_ln := sg; cov := cv; im_Tstar := im |}.

End Create.


End WithGMPE.
End Target.

(** ** Greedy record selection ([select]) *)

Module Selector.
Import Target.

Record config : Type := mkConfig {
  nGM : nat;
  isScaled : nat;
  maxScale : R;
  weights : list R;
  nLoop : nat;
  tol : R;
  penalty : R
}.

(** The selection state: [recID], [finalScaleFac], [sampleSmall], and the
    local variable [minID] of Phase 2, unbound until a candidate is first
    accepted. *)
Record state : Type := mkState {
  recID : list Z;
  finalScaleFac : list R;
  sampleSmall : list (list R);
  minID : option nat
}.

(** What [select] leaves on the object, with the two error measures it
    prints. *)
Record selection : Type := mkSelection {
  rec_id : list Z;
  rec_scale : list R;
  rec_spec : list (list R);
  medianErr : R;
  stdErr : R
}.

(** A generic [for i in range(...)] loop over a state, stopping at the
    first exception. *)
Fixpoint for_each {S : Type} (body : S -> nat -> res S) (l : list nat) (s : S)
  : res S :=
  match l with
  | [] => Ok s
  | i :: l' => s' <- body s i ;; for_each body l' s'
  end.

Section Select.

(** [tgt] is the object after [create]; [sim_spec] the simulated spectra
    kept by [simulate_spectra] and [sampleBig] the logarithm of the
    filtered database spectra, one row per record, one column per period
    of [T tgt]. *)
Variable tgt : target.
Variable cfg : config.
Variable sim_spec : list (list R).
Variable sampleBig : list (list R).

Definition nBig : nat := length sampleBig.
Definition nT : nat := length (T tgt).
Definition lenTstar : nat :=
  match Tstar tgt with Some Ts => length Ts | None => O end.

(** [ind1] and [ind2] as the loop before Phase 1 fills them. *)
Definition indices : res (list nat * list nat) :=
  if (cond tgt =? 1)%nat then
    match Tstar tgt with
    | None => Raise AttributeError
    | Some Ts =>
        l <- mapM (fun t =>
               i1 <- Np.where_first (fun x => Np.Reqb x t) (T tgt) ;;
               i2 <- Np.where_first (fun x => negb (Np.Reqb x t)) (T tgt) ;;
               Ok (i1, i2)) Ts ;;
        Ok (map fst l, map snd l)
    end
  else Ok ([], []).

Section Phases.
Variable ind1 ind2 : list nat.
Variable im : R.          (* [self.im_Tstar] *)

(** [sampleBig[j, k]] and [self.sim_spec[i, k]]. *)
Definition big (j k : nat) : R := nth k (nth j sampleBig []) 0.
Definition sim (i k : nat) : R := nth k (nth i sim_spec []) 0.

(** *** Phase 1: initial subset *)

(** [scaleFac[j]] while row [i] is processed; the array starts as ones
    and is only written when [isScaled == 1]. *)

Definition scaleFac1 (i j : nat) : R :=
  if (isScaled cfg =? 1)%nat then
    if (cond tgt =? 1)%nat then
      let rec_iml := exp (Np.sum (Np.take ind1 (nth j sampleBig [])) / INR lenTstar) in
      im / rec_iml
    else if (cond tgt =? 0)%nat then
      Np.sum (map (fun k => exp (big j k) * exp (sim i k)) (seq 0 nT))
      / Np.sum (map (fun k => exp (big j k) ^ 2) (seq 0 nT))
    else 1
  else 1.

(** [np.any(recID == j)]. *)
Definition selected (ids : list Z) (j : nat) : bool :=
  existsb (Z.eqb (Z.of_nat j)) ids.

(** [err[j]] for row [i]. *)
Definition err1 (ids : list Z) (i j : nat) : R :=
  if selected ids j || Np.Rltb (maxScale cfg) (scaleFac1 i j) then 1000000
  else Np.sum (map (fun k => (ln (exp (big j k) * scaleFac1 i j) - sim i k) ^ 2)
                   (seq 0 nT)).

(** The body of the loop over the simulated rows.  [np.argsort] of an
    empty [err] cannot be indexed; [sys.exit()] is reached when the least
    error is at least 10^6. *)
Definition phase1_row (st : state) (i : nat) : res state :=
  let err := map (err1 (recID st) i) (seq 0 nBig) in
  r <- Np.argmin err ;;
  m <- Np.min err ;;
  if Np.Rleb 1000000 m then Raise SystemExit
  else
    let fs := if (isScaled cfg =? 1)%nat
              then Np.upd i (scaleFac1 i r) (finalScaleFac st)
              else finalScaleFac st in
    let row := map (fun k => ln (exp (big r k) * nth i fs 0)) (seq 0 nT) in
    Ok {| recID := Np.upd i (Z.of_nat r) (recID st);
          finalScaleFac := fs;
          sampleSmall := Np.upd i row (sampleSmall st);
          minID := minID st |}.

Definition init_state : state :=
  {| recID := repeat (-1)%Z (nGM cfg);
     finalScaleFac := repeat 1 (nGM cfg);
     sampleSmall := repeat (repeat 1 nT) (nGM cfg);
     minID := None |}.

Definition phase1 : res state :=
  for_each phase1_row (seq 0 (nGM cfg)) init_state.

(** *** Phase 2: greedy subset modification *)

(** [scaleFac[j]] while slot [i] is processed. *)
Definition scaleFac2 (i j : nat) : R :=
  if (isScaled cfg =? 1)%nat then
    if (cond tgt =? 1)%nat then
      let rec_Avg := exp (Np.sum (Np.take ind1 (nth j sampleBig [])) / INR lenTstar) in
      im / rec_Avg
    else if (cond tgt =? 0)%nat then
      Np.sum (map (fun k => exp (big j k) * exp (sim i k)) (seq 0 nT))
      / Np.sum (map (fun k => exp (big j k) ^ 2) (seq 0 nT))
    else 1
  else 1.

(** The row tried in (and finally put into) slot [i] for record [j]. *)
Definition cand_row (i j : nat) : list R :=
  map (fun k => big j k + ln (scaleFac2 i j)) (seq 0 nT).

(** Number of periods at which a row exceeds the target mean by more than
    three standard deviations. *)
Definition exceed (row : list R) : R :=
  Np.sum (map (fun k =>
            if Np.Rltb (exp (nth k (mu_ln tgt) 0 + 3 * nth k (sigma_ln tgt) 0))
                       (exp (nth k row 0))
            then 1 else 0) (seq 0 nT)).

(** Weighted deviation of a subset from the target statistics. *)
Definition dev_base (rows : list (list R)) : R :=
  let devMean := map (fun k => Np.mean (Np.column k rows) - nth k (mu_ln tgt) 0)
                     (seq 0 nT) in
  let devSig := map (fun k => Np.std (Np.column k rows) - nth k (sigma_ln tgt) 0)
                    (seq 0 nT) in
  nth 0 (weights cfg) 0 * Np.sum (map (fun d => d ^ 2) devMean)
  + nth 1 (weights cfg) 0 * Np.sum (map (fun d => d ^ 2) devSig).

(** The same with the penalty for spectra beyond three sigma. *)
Definition dev_pen (rows : list (list R)) : R :=
  if Np.Rltb 0 (penalty cfg) then
    fold_left (fun d row => d + exceed row * penalty cfg) rows (dev_base rows)
  else dev_base rows.

(** [devTotal] for candidate [j] in slot [i]; [small] and [ids] are
    [sampleSmall] and [recID] with entry [i] deleted. *)
Definition devTotal (small : list (list R)) (ids : list Z) (i j : nat) : R :=
  let d := dev_pen (small ++ [cand_row i j]) in
  if Np.Rltb (maxScale cfg) (scaleFac2 i j) || selected ids j
  then d + 1000000 else d.

(** The scan over the candidate pool: [minDev] starts at 100000, [minID]
    keeps whatever value it had before the scan. *)
Definition scan (small : list (list R)) (ids : list Z) (i : nat)
  (minID0 : option nat) : option nat * R :=
  fold_left (fun (acc : option nat * R) j =>
               let d := devTotal small ids i j in
               if Np.Rltb d (snd acc) then (Some j, d) else acc)
            (seq 0 nBig) (minID0, 100000).

(** The body of the loop over the slots: delete entry [i], scan, put the
    record [minID] back at position [i].  Reading [minID] before any
    candidate was ever accepted raises [UnboundLocalError]. *)
Definition phase2_slot (st : state) (i : nat) : res state :=
  let small := Np.delete i (sampleSmall st) in
  let ids := Np.delete i (recID st) in
  match fst (scan small ids i (minID st)) with
  | None => Raise UnboundLocalError
  | Some m =>
      Ok {| recID := Np.insert i (Z.of_nat m) ids;
            finalScaleFac :=
              Np.upd i (if (isScaled cfg =? 1)%nat then scaleFac2 i m else 1)
                     (finalScaleFac st);
            sampleSmall := Np.insert i (cand_row i m) small;
            minID := Some m |}
  end.

Definition phase2_pass (st : state) : res state :=
  for_each phase2_slot (seq 0 (nGM cfg)) st.

(** *** Convergence check *)

(** Percent errors of the median and of the dispersion at period [k]. *)
Definition median_err_at (rows : list (list R)) (k : nat) : R :=
  Rabs (exp (Np.mean (Np.column k rows)) - exp (nth k (mu_ln tgt) 0))
  / exp (nth k (mu_ln tgt) 0).

Definition std_err_at (rows : list (list R)) (k : nat) : R :=
  Rabs (Np.std (Np.column k rows) - nth k (sigma_ln tgt) 0)
  / nth k (sigma_ln tgt) 0.

(** The periods the check looks at. *)
Definition checked_periods : list nat :=
  if (cond tgt =? 1)%nat && (length ind1 =? 1)%nat then ind2 else seq 0 nT.

Definition errors (rows : list (list R)) : res (R * R) :=
  m <- Np.max (map (median_err_at rows) checked_periods) ;;
  s <- Np.max (map (std_err_at rows) checked_periods) ;;
  Ok (m * 100, s * 100).

Definition within_tol (e : R * R) : bool :=
  Np.Rltb (fst e) (tol cfg) && Np.Rltb (snd e) (tol cfg).

(** The pass loop with its early [break]; [last] holds the errors of the
    last completed pass, if any. *)
Fixpoint passes (n : nat) (st : state) (last : option (R * R))
  : res (state * option (R * R)) :=
  match n with
  | O => Ok (st, last)
  | S n' =>
      st' <- phase2_pass st ;;
      e <- errors (sampleSmall st') ;;
      if within_tol e then Ok (st', Some e)
      else passes n' st' (Some e)
  end.

End Phases.

(** [select], from the computation of [ind1] and [ind2] on.  The level
    [self.im_Tstar] is read in conditional mode when a scale factor is
    computed, that is with [isScaled = 1] for the first candidate of the
    first row; [create] sets it exactly in conditional mode.  Where it is
    not read no scale factor depends on it, and it stands as 0 outside
    conditional mode and as 1 when it is absent.  After the loop the method
    prints [medianErr], which is unbound when [nLoop = 0]. *)
Definition select : res selection :=
  ii <- indices ;;
  im <- (if (cond tgt =? 1)%nat then
           match im_Tstar tgt with
           | Some v => Ok v
           | None =>
               if (isScaled cfg =? 1)%nat && (0 <? nGM cfg)%nat
                  && (0 <? nBig)%nat
               then Raise AttributeError
               else Ok 1
           end
         else Ok 0) ;;
  st1 <- phase1 (fst ii) im ;;
  r <- passes (fst ii) (snd ii) im (nLoop cfg) st1 None ;;
  match snd r with
  | None => Raise UnboundLocalError
  | Some e =>
      Ok {| rec_id := recID (fst r);
            rec_scale := finalScaleFac (fst r);
            rec_spec := sampleSmall (fst r);
            medianErr := fst e;
            stdErr := snd e |}
  end.

End Select.
End Selector.

(** ** Invariants of the two phases, and the specification's wording of
    two computations *)

Module Invariant.
Import Target Selector.

Section Inv.
Variable tgt : target.
Variable cfg : config.
Variable sim_spec sampleBig : list (list R).
Variable ind1 : list nat.
Variable im : R.

(** What holds in Phase 1 after rows [0 .. k-1] have been assigned: the
    later entries still have their initial values, the assigned records
    are distinct pool indices within the scaling limit, and each assigned
    row of [sampleSmall] is the scaled spectrum of its record. *)
Definition phase1_inv (k : nat) (st : state) : Prop :=
  length (recID st) = nGM cfg
  /\ length (finalScaleFac st) = nGM cfg
  /\ length (sampleSmall st) = nGM cfg
  /\ minID st = None
  /\ (forall i, (k <= i)%nat -> nth i (recID st) (-1)%Z = (-1)%Z)
  /\ (forall i, (k <= i)%nat -> nth i (finalScaleFac st) 1 = 1)
  /\ NoDup (firstn k (recID st))
  /\ forall i, (i < k)%nat ->
       exists r,
         nth i (recID st) (-1)%Z = Z.of_nat r /\ (r < nBig sampleBig)%nat
         /\ Np.Rltb (maxScale cfg)
                    (scaleFac1 tgt cfg sim_spec sampleBig ind1 im i r) = false
         /\ nth i (finalScaleFac st) 1
            = scaleFac1 tgt cfg sim_spec sampleBig ind1 im i r
         /\ nth i (sampleSmall st) []
            = map (fun kk => ln (exp (big sampleBig r kk)
                                 * scaleFac1 tgt cfg sim_spec sampleBig ind1 im i r))
                  (seq 0 (nT tgt)).

(** What holds between the slots of Phase 2: the selected records are
    distinct pool indices within the scaling limit, row [i] of
    [sampleSmall] is the scaled spectrum of record [recID[i]], and once a
    candidate has been accepted the weighted deviation of the selection is
    below the initial [minDev]. *)
Definition phase2_inv (st : state) : Prop :=
  length (recID st) = nGM cfg
  /\ length (finalScaleFac st) = nGM cfg
  /\ length (sampleSmall st) = nGM cfg
  /\ NoDup (recID st)
  /\ (forall i, (i < nGM cfg)%nat ->
        exists r,
          nth i (recID st) (-1)%Z = Z.of_nat r /\ (r < nBig sampleBig)%nat
          /\ Np.Rltb (maxScale cfg)
                     (scaleFac2 tgt cfg sim_spec sampleBig ind1 im i r) = false
          /\ nth i (finalScaleFac st) 1
             = scaleFac2 tgt cfg sim_spec sampleBig ind1 im i r
          /\ nth i (sampleSmall st) []
             = cand_row tgt cfg sim_spec sampleBig ind1 im i r)
  /\ (minID st = None \/ dev_pen tgt cfg (sampleSmall st) < 100000).

(** The states at the end of a pass: after Phase 1, and after each
    completed pass of Phase 2. *)
Inductive after_pass : state -> Prop :=
| after_phase1 (st : state) :
    phase1 tgt cfg sim_spec sampleBig ind1 im = Ok st -> after_pass st
| after_phase2 (st st' : state) :
    after_pass st ->
    phase2_pass tgt cfg sim_spec sampleBig ind1 im st = Ok st' ->
    after_pass st'.

(** The claimed invariant of the selector. *)
Definition selection_ok (st : state) : Prop :=
  length (recID st) = nGM cfg
  /\ NoDup (recID st)
  /\ (forall x, In x (recID st) ->
        (0 <= x < Z.of_nat (nBig sampleBig))%Z)
  /\ length (finalScaleFac st) = nGM cfg
  /\ (forall s, In s (finalScaleFac st) -> s <= maxScale cfg).

(** The Phase 2 scale factor as the specification words it: the rule of
    Phase 1 with the target mean [mu_ln] in the place of the simulated
    row. *)
Definition scaleFac2_target_spec (j : nat) : R :=
  if (isScaled cfg =? 1)%nat then
    if (cond tgt =? 1)%nat then
      im / exp (Np.sum (Np.take ind1 (nth j sampleBig [])) / INR (lenTstar tgt))
    else if (cond tgt =? 0)%nat then
      Np.sum (map (fun k => exp (big sampleBig j k) * exp (nth k (mu_ln tgt) 0))
                  (seq 0 (nT tgt)))
      / Np.sum (map (fun k => exp (big sampleBig j k) ^ 2) (seq 0 (nT tgt)))
    else 1
  else 1.

(** The periods of the convergence check as the specification words
    them: every grid period, except those equal to the conditioning period
    when the target is conditioned on a single period. *)
Definition spec_checked_periods : list nat :=
  match Tstar tgt with
  | Some [t] =>
      if (cond tgt =? 1)%nat
      then filter (fun k => negb (Np.Reqb (nth k (T tgt) 0) t)) (seq 0 (nT tgt))
      else seq 0 (nT tgt)
  | _ => seq 0 (nT tgt)
  end.

Definition spec_errors (rows : list (list R)) : res (R * R) :=
  m <- Np.max (map (median_err_at tgt rows) spec_checked_periods) ;;
  s <- Np.max (map (std_err_at tgt rows) spec_checked_periods) ;;
  Ok (m * 100, s * 100).

(** The records that the scaling limit leaves usable for at least one
    simulated row (in conditional mode the scale factor of a record is the
    same for every row). *)
Definition usable : list nat :=
  filter (fun j =>
            existsb (fun i =>
                       negb (Np.Rltb (maxScale cfg)
                               (scaleFac1 tgt cfg sim_spec sampleBig ind1 im i j)))
                    (seq 0 (nGM cfg)))
         (seq 0 (nBig sampleBig)).

End Inv.
End Invariant.

(** ** Concrete inputs used by the examples below *)

Module Demo.
Import Target Selector.

(** A one-period grid conditioned on its only period, one scenario,
    explicit epsilon. *)
Definition demo_gmpe : nat -> R -> R * R := fun _ _ => (0, 1).

(** One scenario, unconditional, variance switched off. *)
Definition demo_call_novar : call :=
  {| T_Tgt := [1]; Tstar0 := [1]; nScenarios := 1; Hcont_arg := Some [1];
     im_Tstar_arg := 2; epsilon := None; cond_arg := 0; useVar_arg := 0 |}.

(** One scenario, conditioned on the only grid period, epsilon
    back-calculated from the target level 2 g. *)
Definition demo_call_cond : call :=
  {| T_Tgt := [1]; Tstar0 := [1]; nScenarios := 1; Hcont_arg := Some [1];
     im_Tstar_arg := 2; epsilon := None; cond_arg := 1; useVar_arg := 1 |}.

(** A one-period unconditional target with mean 0 and dispersion 1. *)
Definition demo_target : target :=
  {| cond := 0; useVar := 1; Hcont := [1]; T := [1]; Tstar := None;
     mu_ln := [0]; sigma_ln := [1]; cov := [[1]]; im_Tstar := None |}.

(** Two unscaled records, default weights, two passes, tolerance 10 percent. *)
Definition demo_cfg_short : config :=
  {| nGM := 2; isScaled := 0; maxScale := 4; weights := [1; 2; 0.3];
     nLoop := 2; tol := 10; penalty := 0 |}.

(** One scaled record, scale factors capped at 4. *)
Definition demo_cfg_scaled : config :=
  {| nGM := 1; isScaled := 1; maxScale := 4; weights := [1; 2; 0.3];
     nLoop := 2; tol := 10; penalty := 0 |}.

(** A three-period target conditioned on its middle period, and a pool of
    two records whose sample mean matches the target at the first period
    only. *)
Definition demo_target3 : target :=
  {| cond := 1; useVar := 1; Hcont := [1]; T := [0.5; 1; 2];
     Tstar := Some [1]; mu_ln := [0; 0; 0]; sigma_ln := [1; 1; 1];
     cov := [[1; 0; 0]; [0; 1; 0]; [0; 0; 1]]; im_Tstar := Some 1 |}.

Definition demo_rows3 : list (list R) := [[1; 0; 5]; [-1; 0; 5]].

(** A family of small runs: one period, unconditional, unscaled, two
    records to select from a pool of one-period spectra [xs] (log values);
    the target has mean [mu0] and dispersion 1, the weights are
    [[w0, 0, 0.3]], no penalty, tolerance 10 percent. *)
Definition uni_target (mu0 : R) : target :=
  {| cond := 0; useVar := 1; Hcont := [1]; T := [1]; Tstar := None;
     mu_ln := [mu0]; sigma_ln := [1]; cov := [[1]]; im_Tstar := None |}.

Definition pair_cfg (w0 : R) : config :=
  {| nGM := 2; isScaled := 0; maxScale := 4; weights := [w0; 0; 0.3];
     nLoop := 2; tol := 10; penalty := 0 |}.

Definition pool (xs : list R) : list (list R) := map (fun x => [x]) xs.

(** A pool of four records and the two simulated spectra of the run used
    for the refinement examples. *)
Definition pool4 : list R := [-1; 1.04; -1.06; 1.07].
Definition sims4 : list (list R) := [[1.04]; [-1]].


(** The same family with the default weights [[1, 2, 0.3]] of [select],
    and two pools of four records with their simulated spectra, for runs
    that are carried one pass beyond convergence. *)
Definition default_pair_cfg : config :=
  {| nGM := 2; isScaled := 0; maxScale := 4; weights := [1; 2; 0.3];
     nLoop := 2; tol := 10; penalty := 0 |}.

Definition pool5 : list R := [1.1; 1; -0.92; -0.8].
Definition sims5 : list (list R) := [[1]; [-0.8]].

Definition pool6 : list R := [0.92; 1.04; -0.9; -1.2].
Definition sims6 : list (list R) := [[1.04]; [-1.2]].

End Demo.


(** ** What every selection state records, whatever the weights *)

Module Consistency.
Import Target Selector.

Section Inv.
Variable tgt : target.
Variable cfg : config.
Variable sim_spec sampleBig : list (list R).
Variable ind1 : list nat.
Variable im : R.

(** Entry [i] of the three arrays describes one and the same pool record:
    [recID[i]] is a pool index, [finalScaleFac[i]] is the scale factor the
    slot computes for that record, and row [i] of [sampleSmall] is the
    log-spectrum of the record shifted by the logarithm of that factor.
    Once bound, [minID] is a pool index. *)
Definition consistent (st : state) : Prop :=
  length (recID st) = nGM cfg
  /\ length (finalScaleFac st) = nGM cfg
  /\ length (sampleSmall st) = nGM cfg
  /\ (forall i, (i < nGM cfg)%nat ->
        exists r,
          nth i (recID st) (-1)%Z = Z.of_nat r /\ (r < nBig sampleBig)%nat
          /\ nth i (finalScaleFac st) 1
             = scaleFac2 tgt cfg sim_spec sampleBig ind1 im i r
          /\ nth i (sampleSmall st) []
             = cand_row tgt cfg sim_spec sampleBig ind1 im i r)
  /\ (forall m, minID st = Some m -> (m < nBig sampleBig)%nat).

End Inv.
End Consistency.

(** ** The period grid of the target *)

Module Grid.
Import Target.

(** [np.where(temp == np.min(temp))[0][0]] with
    [temp = np.abs(periods - x)]: the first index of a period nearest to
    [x]. *)
Definition nearest_index (periods : list R) (x : R) : res nat :=
  let temp := map (fun t => Rabs (t - x)) periods in
  m <- Np.min temp ;;
  Np.where_first (fun v => Np.Reqb v m) temp.

(** The slice [T_Tgt] that [create] cuts out of the database periods for
    the argument [T_Tgt_range]. *)
Definition T_Tgt_of (periods T_Tgt_range : list R) : res (list R) :=
  lo <- Np.min T_Tgt_range ;;
  idx1 <- nearest_index periods lo ;;
  hi <- Np.max T_Tgt_range ;;
  idx2 <- nearest_index periods hi ;;
  Ok (skipn idx1 (firstn (idx2 + 1) periods)).

(** Period arrays in non-decreasing and in increasing order. *)
Definition nondecreasing (l : list R) : Prop :=
  forall i j, (i <= j < length l)%nat -> nth i l 0 <= nth j l 0.

Definition increasing (l : list R) : Prop :=
  forall i j, (i < j < length l)%nat -> nth i l 0 < nth j l 0.

End Grid.

(** ** Calls of [create] whose lists have one entry per scenario *)

Module Shapes.
Import Target.

(** The lists that [create] indexes by the scenario number have an entry
    for every scenario: one hazard weight per scenario and, when epsilon
    is given, at least one value per scenario.  (On shorter lists the
    method stops with [IndexError], on other lengths of [Hcont] the
    product with the scenario means does not have the shape the model
    gives it.) *)
Definition well_shaped (c : call) : Prop :=
  length (Hcont_self c) = nScenarios c
  /\ forall e, epsilon c = Some e -> (nScenarios c <= length e)%nat.

End Shapes.

(** ** Rotated spectra ([get_RotDxx]) *)

Module Rotation.

(** [np.linspace(start, stop, num)], end point included. *)
Definition linspace (start stop : R) (num : nat) : list R :=
  match num with
  | O => []
  | S O => [start]
  | _ => map (fun j => start + INR j * ((stop - start) / INR (num - 1)))
             (seq 0 num)
  end.

(** Sorting in non-decreasing order, by insertion. *)
Fixpoint insert_sorted (x : R) (l : list R) : list R :=
  match l with
  | [] => [x]
  | y :: l' => if Rle_dec x y then x :: l else y :: insert_sorted x l'
  end.

Definition sort (l : list R) : list R := fold_right insert_sorted [] l.

(** [np.percentile(a, q)] of a one-dimensional array for an integer [q],
    with numpy's default linear interpolation between the two order
    statistics around the position [q / 100 * (n - 1)]; a [q] outside
    [0, 100] is refused.  The array is taken to have at least one entry,
    as it has whenever [num_theta] is positive. *)
Definition percentile (a : list R) (q : Z) : res R :=
  if ((q <? 0) || (100 <? q))%Z then Raise ValueError
  else
    let s := sort a in
    let n := length a in
    let pos := (q * Z.of_nat (n - 1))%Z in
    let lo := Z.to_nat (pos / 100) in
    let hi := Nat.min (lo + 1) (n - 1) in
    let gamma := IZR (pos mod 100) / 100 in
    Ok (nth lo s 0 + gamma * (nth hi s 0 - nth lo s 0)).

(** Row [j] of [Rot] for record [i]: the two spectra combined with the
    cosine and the sine of the angle. *)
Definition rotated (Sa_1 Sa_2 : list (list R)) (i : nat) (th : R) (k : nat) : R :=
  nth k (nth i Sa_1 []) 0 * cos th + nth k (nth i Sa_2 []) 0 * sin th.

Definition get_RotDxx (Sa_1 Sa_2 : list (list R)) (xx : Z) (num_theta : nat)
  : res (list (list R)) :=
  let nGM := length Sa_1 in
  let nT := length (hd [] Sa_1) in
  let theta := linspace 0 PI num_theta in
  mapM (fun i =>
          let Rot := map (fun th => map (rotated Sa_1 Sa_2 i th) (seq 0 nT)) theta in
          mapM (fun k => percentile (Np.column k Rot) xx) (seq 0 nT))
       (seq 0 nGM).

End Rotation.

(** ** The record database and its filtering ([search_database]) *)

Module Database.
Import Rotation.

(** The dictionary loaded from the metadata file.  The arrays of a
    database are rectangular and aligned: one row of each spectral array
    and one entry of each metadata array per record, one column per
    period. *)
Record database : Type := mkDatabase {
  Name : String.string;
  Periods : list R;
  Sa_1 : list (list R);
  Sa_2 : list (list R);
  Sa_RotD50 : list (list R);
  soil_Vs30 : list R;
  magnitude : list R;
  Rjb : list R;
  mechanism : list Z;
  Filename_1 : list String.string;
  Filename_2 : list String.string;
  NGA_num : list nat
}.

(** The attributes of the object that [search_database] reads. *)
Record filters : Type := mkFilters {
  selection : nat;
  Sa_def : String.string;
  Vs30_lim : option (list R);
  Mw_lim : option (list R);
  Rjb_lim : option (list R);
  fault_lim : option Z
}.

(** The local arrays after the first block of the method.  [Filename_2]
    is bound for two-component selection only, [NGA_num] for the database
    [NGA_W2] only. *)
Record known : Type := mkKnown {
  SaKnown : list (list R);
  k_Vs30 : list R;
  k_Mw : list R;
  k_Rjb : list R;
  k_fault : list Z;
  k_Filename_1 : list String.string;
  k_Filename_2 : option (list String.string);
  k_NGA_num : option (list nat)
}.

(** What the method returns. *)
Record pool : Type := mkPool {
  sampleBig : list (list R);
  p_Vs30 : list R;
  p_Mw : list R;
  p_Rjb : list R;
  p_fault : list Z;
  p_Filename_1 : list String.string;
  p_Filename_2 : option (list String.string);
  p_NGA_num : option (list nat)
}.

(** [l[k]] and [l[ks]] for non-negative indices. *)
Definition index {A : Type} (l : list A) (k : nat) : res A :=
  match nth_error l k with
  | Some a => Ok a
  | None => Raise IndexError
  end.

Definition fancy {A : Type} (l : list A) (ks : list nat) : res (list A) :=
  mapM (index l) ks.

(** Membership of a row number in a list of row numbers. *)
Definition mem (i : nat) (l : list nat) : bool := existsb (Nat.eqb i) l.

(** Truth value of a string in a condition. *)
Definition truthy (s : String.string) : bool := negb (String.eqb s "").

(** Element-wise [np.sqrt(a * b)] of two arrays of the same shape. *)
Definition geo_mean (a b : list (list R)) : list (list R) :=
  map (fun rows => map (fun xy => sqrt (fst xy * snd xy))
                       (combine (fst rows) (snd rows)))
      (combine a b).

Section Search.

(** Python's [int] on a string. *)
Variable py_int : String.string -> res Z.

Variable db : database.
Variable f : filters.

(** The grid periods [self.T]. *)
Variable T : list R.

Definition is_W2 : bool := String.eqb (Name db) "NGA_W2".

(** The first block: which spectra and metadata are searched. *)
Definition gather : res known :=
  if (selection f =? 1)%nat then
    if String.prefix "NGA" (Name db) then
      Ok {| SaKnown := Sa_1 db ++ Sa_2 db;
            k_Vs30 := soil_Vs30 db ++ soil_Vs30 db;
            k_Mw := magnitude db ++ magnitude db;
            k_Rjb := Rjb db ++ Rjb db;
            k_fault := mechanism db ++ mechanism db;
            k_Filename_1 := Filename_1 db ++ Filename_2 db;
            k_Filename_2 := None;
            k_NGA_num := if is_W2 then Some (NGA_num db ++ NGA_num db) else None |}
    else if String.prefix "EXSIM" (Name db) then
      Ok {| SaKnown := Sa_1 db;
            k_Vs30 := soil_Vs30 db;
            k_Mw := magnitude db;
            k_Rjb := Rjb db;
            k_fault := mechanism db;
            k_Filename_1 := Filename_1 db;
            k_Filename_2 := None;
            k_NGA_num := None |}
    else Raise UnboundLocalError
  else if (selection f =? 2)%nat then
    sa <- (if String.eqb (Sa_def f) "GeoMean" then Ok (geo_mean (Sa_1 db) (Sa_2 db))
           else if truthy "RotD50"%string then Ok (Sa_RotD50 db)
           else if String.eqb (String.substring 0 4 (Sa_def f)) "RotD" then
             xx <- py_int (String.substring 4 (String.length (Sa_def f) - 4) (Sa_def f)) ;;
             get_RotDxx (Sa_1 db) (Sa_2 db) xx 100
           else Raise UnboundLocalError) ;;
    Ok {| SaKnown := sa;
          k_Vs30 := soil_Vs30 db;
          k_Mw := magnitude db;
          k_Rjb := Rjb db;
          k_fault := mechanism db;
          k_Filename_1 := Filename_1 db;
          k_Filename_2 := Some (Filename_2 db);
          k_NGA_num := if is_W2 then Some (NGA_num db) else None |}
  else Raise UnboundLocalError.

(** [np.unique(np.where(SaKnown <= 0)[0])]: the rows with an ordinate
    that is not positive. *)
Definition nonpositive_rows (Sa : list (list R)) : list nat :=
  filter (fun i => existsb (fun v => Np.Rleb v 0) (nth i Sa []))
         (seq 0 (length Sa)).

(** The three index blocks removed from [NGA_W2]. *)
Definition w2_excluded : list nat :=
  seq (Z.to_nat 4576) (Z.to_nat 263) ++ seq (Z.to_nat 6992) (Z.to_nat 1063)
  ++ [Z.to_nat 9193].

Definition w2_rows : res (list nat) :=
  if is_W2 then
    if (selection f =? 1)%nat then
      match NGA_num db with
      | [] => Raise IndexError
      | n :: ns =>
          Ok (w2_excluded ++ map (fun x => (last (n :: ns) O + x)%nat) w2_excluded)
      end
    else Ok w2_excluded
  else Ok [].

(** Indices of the entries that are not strictly between the smallest
    and the largest element of [lim]. *)
Definition outside (lim : option (list R)) (xs : list R) : res (list nat) :=
  match lim with
  | None => Ok []
  | Some l =>
      lo <- Np.min l ;;
      hi <- Np.max l ;;
      Ok (filter (fun i => negb (Np.Rltb lo (nth i xs 0) && Np.Rltb (nth i xs 0) hi))
                 (seq 0 (length xs)))
  end.

Definition other_fault (lim : option Z) (xs : list Z) : list nat :=
  match lim with
  | None => []
  | Some m => filter (fun i => negb (Z.eqb (nth i xs 0%Z) m)) (seq 0 (length xs))
  end.

(** [list.remove]: the first occurrence goes, a missing element is an
    error. *)
Fixpoint list_remove (i : nat) (l : list nat) : res (list nat) :=
  match l with
  | [] => Raise ValueError
  | x :: l' => if (x =? i)%nat then Ok l'
               else r <- list_remove i l' ;; Ok (x :: r)
  end.

(** [Allowed]: the row numbers with every element of
    [set(notAllowed)] removed, one after the other. *)
Definition allowed_rows (nrows : nat) (notAllowed : list nat) : res (list nat) :=
  fold_left (fun acc i => a <- acc ;; list_remove i a)
            (nodup Nat.eq_dec notAllowed) (Ok (seq 0 nrows)).

Definition not_allowed (kn : known) : res (list nat) :=
  w2 <- w2_rows ;;
  vs <- outside (Vs30_lim f) (k_Vs30 kn) ;;
  mw <- outside (Mw_lim f) (k_Mw kn) ;;
  rj <- outside (Rjb_lim f) (k_Rjb kn) ;;
  Ok (nonpositive_rows (SaKnown kn) ++ w2 ++ vs ++ mw ++ rj
      ++ other_fault (fault_lim f) (k_fault kn)).

(** [recPer]: the database column of every grid period. *)
Definition recPer : res (list nat) :=
  mapM (fun t => Np.where_first (fun x => Np.Reqb x t) (Periods db)) T.

Definition search_database : res pool :=
  kn <- gather ;;
  na <- not_allowed kn ;;
  al <- allowed_rows (length (SaKnown kn)) na ;;
  sa <- fancy (SaKnown kn) al ;;
  vs <- fancy (k_Vs30 kn) al ;;
  mw <- fancy (k_Mw kn) al ;;
  rj <- fancy (k_Rjb kn) al ;;
  fl <- fancy (k_fault kn) al ;;
  f1 <- fancy (k_Filename_1 kn) al ;;
  f2 <- (if (selection f =? 1)%nat then Ok None
         else match k_Filename_2 kn with
              | Some l => l' <- fancy l al ;; Ok (Some l')
              | None => Raise UnboundLocalError
              end) ;;
  ng <- (if is_W2 then
           match k_NGA_num kn with
           | Some l => l' <- fancy l al ;; Ok (Some l')
           | None => Raise UnboundLocalError
           end
         else Ok None) ;;
  rp <- recPer ;;
  big <- mapM (fun row => fancy row rp) sa ;;
  Ok {| sampleBig := big; p_Vs30 := vs; p_Mw := mw; p_Rjb := rj; p_fault := fl;
        p_Filename_1 := f1; p_Filename_2 := f2; p_NGA_num := ng |}.

End Search.

(** The same settings with another spectrum definition. *)
Definition with_Sa_def (f : filters) (s : String.string) : filters :=
  {| selection := selection f; Sa_def := s; Vs30_lim := Vs30_lim f;
     Mw_lim := Mw_lim f; Rjb_lim := Rjb_lim f; fault_lim := fault_lim f |}.

(** A record that no block of [not_allowed] lists: all its ordinates are
    positive, it is outside the [NGA_W2] blocks, inside every limit that
    is set, and of the mechanism asked for. *)
Definition admissible (db : database) (f : filters) (kn : known) (i : nat)
  : Prop :=
  (forall v, In v (nth i (SaKnown kn) []) -> 0 < v)
  /\ (forall w2, w2_rows db f = Ok w2 -> ~ In i w2)
  /\ (forall lim lo hi, Vs30_lim f = Some lim ->
        Np.min lim = Ok lo -> Np.max lim = Ok hi -> lo < nth i (k_Vs30 kn) 0 < hi)
  /\ (forall lim lo hi, Mw_lim f = Some lim ->
        Np.min lim = Ok lo -> Np.max lim = Ok hi -> lo < nth i (k_Mw kn) 0 < hi)
  /\ (forall lim lo hi, Rjb_lim f = Some lim ->
        Np.min lim = Ok lo -> Np.max lim = Ok hi -> lo < nth i (k_Rjb kn) 0 < hi)
  /\ (forall m, fault_lim f = Some m -> nth i (k_fault kn) 0%Z = m).

End Database.

(** ** Simulated spectra ([simulate_spectra]) and the whole method *)

Module Method.
Import Target Selector Database.

(** What the method [select] leaves on the object: the selection and the
    metadata of the selected records. *)
Record chosen : Type := mkChosen {
  picked : Selector.selection;
  rec_Vs30 : list R;
  rec_Rjb : list R;
  rec_Mw : list R;
  rec_fault : list Z;
  rec_h1 : list String.string;
  rec_h2 : option (list String.string);
  rec_rsn : option (list nat)
}.

(** [a[ids]] for a list of Python integers: a negative index counts from
    the end. *)
Definition index_int {A : Type} (l : list A) (z : Z) : res A :=
  if (z <? 0)%Z then
    if (z <? - Z.of_nat (length l))%Z then Raise IndexError
    else index l (Z.to_nat (Z.of_nat (length l) + z))
  else index l (Z.to_nat z).

Definition fancy_int {A : Type} (l : list A) (ids : list Z) : res (list A) :=
  mapM (index_int l) ids.

(** [np.argmin] of a one-dimensional array: the first index of a smallest
    entry; it refuses an empty array. *)
Definition np_argmin (l : list R) : res nat :=
  match l with
  | [] => Raise ValueError
  | x :: l' => Ok (Np.argmin_from O x 1%nat l')
  end.

(** The seed handed to [np.random.seed]: 0 for every [seedValue] other
    than 0, the sum of the first six fields of [gmtime()] otherwise. *)
Definition seed_of (seedValue clock : Z) : Z :=
  if negb (seedValue =? 0)%Z then 0%Z else clock.

(** The same settings with another value of [selection]. *)
Definition with_selection (f : filters) (s : nat) : filters :=
  {| selection := s; Sa_def := Sa_def f; Vs30_lim := Vs30_lim f;
     Mw_lim := Mw_lim f; Rjb_lim := Rjb_lim f; fault_lim := fault_lim f |}.

Section WithSampler.

(** The random sampler and the skewness estimator are external:
    [mvn seed mu cov k] stands for the [k]-th vector that
    [np.random.multivariate_normal(mu, cov)] returns after
    [np.random.seed(seed)], and [skew] for [scipy.stats.skew] of a
    one-dimensional sample. *)
Variable mvn : Z -> list R -> list (list R) -> nat -> list R.
Variable skew : list R -> R.
Variable py_int : String.string -> res Z.

Variable tgt : target.
Variable cfg : config.
Variable nTrials : nat.

Section Seeded.
Variable seed : Z.

(** [specDict[j]]: the exponentials of [nGM] vectors drawn in a row.  A
    vector of another length than the grid does not fit into its row. *)
Definition specDict (j : nat) : res (list (list R)) :=
  mapM (fun i =>
          let v := mvn seed (mu_ln tgt) (cov tgt) (j * nGM cfg + i) in
          if (length v =? nT tgt)%nat then Ok (map exp v) else Raise ValueError)
       (seq 0 (nGM cfg)).

(** [devTotalSim[j]] of a set of spectra. *)
Definition devTotalSim_of (spec : list (list R)) : res R :=
  let logs := map (map ln) spec in
  let devMeanSim :=
    map (fun k => Np.mean (Np.column k logs) - nth k (mu_ln tgt) 0) (seq 0 (nT tgt)) in
  let devSigSim :=
    map (fun k => Np.std (Np.column k logs) - nth k (sigma_ln tgt) 0) (seq 0 (nT tgt)) in
  let devSkewSim := map (fun k => skew (Np.column k logs)) (seq 0 (nT tgt)) in
  w0 <- index (weights cfg) 0 ;;
  w1 <- index (weights cfg) 1 ;;
  w2 <- index (weights cfg) 2 ;;
  Ok (w0 * Np.sum (map (fun d => d ^ 2) devMeanSim)
      + w1 * Np.sum (map (fun d => d ^ 2) devSigSim)
      + 0.1 * w2 * Np.sum (map (fun d => d ^ 2) devSkewSim)).

Definition trial (j : nat) : res (list (list R) * R) :=
  spec <- specDict j ;;
  d <- devTotalSim_of spec ;;
  Ok (spec, d).

(** The loop over the trials, then the choice of the set of least
    absolute deviation; [sim_spec] is its logarithm. *)
Definition simulate_seeded : res (list (list R)) :=
  trials <- mapM trial (seq 0 nTrials) ;;
  recUse <- np_argmin (map (fun t => Rabs (snd t)) trials) ;;
  Ok (map (map ln) (fst (nth recUse trials ([], 0)))).

End Seeded.

Definition simulate_spectra (seedValue clock : Z) : res (list (list R)) :=
  simulate_seeded (seed_of seedValue clock).

(** The method [select]: the settings, the simulation, the search, the
    logarithm of the pool, the two phases, and the metadata of the
    selected records. *)
Definition select_method (db : database) (f : filters) (seedValue clock : Z)
  : res chosen :=
  let f' := if String.prefix "EXSIM" (Name db) then with_selection f 1 else f in
  sim_spec <- simulate_spectra seedValue clock ;;
  pl <- search_database py_int db f' (T tgt) ;;
  let big := map (map ln) (sampleBig pl) in
  sel <- select tgt cfg sim_spec big ;;
  vs <- fancy_int (p_Vs30 pl) (rec_id sel) ;;
  rj <- fancy_int (p_Rjb pl) (rec_id sel) ;;
  mw <- fancy_int (p_Mw pl) (rec_id sel) ;;
  fl <- fancy_int (p_fault pl) (rec_id sel) ;;
  h1 <- fancy_int (p_Filename_1 pl) (rec_id sel) ;;
  h2 <- (if (selection f' =? 1)%nat then Ok None
         else if (selection f' =? 2)%nat then
           match p_Filename_2 pl with
           | Some l => l' <- fancy_int l (rec_id sel) ;; Ok (Some l')
           | None => Raise UnboundLocalError
           end
         else Ok None) ;;
  rsn <- (if is_W2 db then
            match p_NGA_num pl with
            | Some l => l' <- fancy_int l (rec_id sel) ;; Ok (Some l')
            | None => Raise UnboundLocalError
            end
          else Ok None) ;;
  Ok {| picked := sel; rec_Vs30 := vs; rec_Rjb := rj; rec_Mw := mw;
        rec_fault := fl; rec_h1 := h1; rec_h2 := h2; rec_rsn := rsn |}.

End WithSampler.
End Method.

(** ** The object across calls *)

Module Object.
Import Target Database Grid.

(** The attributes that matter between the constructor, [create] and
    [select]: [self.Tstar] (absent once deleted), the database, and the
    target once [create] has built it. *)
Record cs_master : Type := mkObject {
  self_Tstar : option (list R);
  self_database : database;
  self_target : option target
}.

(** The arguments of [create] that the target depends on;
    [n_scenarios] is [len(rup_param['mag'])]. *)
Record create_args : Type := mkCreateArgs {
  T_Tgt_range : list R;
  n_scenarios : nat;
  Hcont_a : option (list R);
  im_Tstar_a : R;
  epsilon_a : option (list R);
  cond_a : nat;
  useVar_a : nat
}.

Section WithGMPE.
Variable gmpe : nat -> R -> R * R.

(** The method [create] on the object: the grid is cut out of the
    database periods, [self.Tstar] is read (deleted for [cond = 0], its
    length taken otherwise), and the target is built. *)
Definition create_method (self : cs_master) (a : create_args) : res cs_master :=
  grid <- T_Tgt_of (Periods (self_database self)) (T_Tgt_range a) ;;
  ts <- match self_Tstar self with
        | Some ts => Ok ts
        | None => Raise AttributeError
        end ;;
  t <- create gmpe {| T_Tgt := grid; Tstar0 := ts; nScenarios := n_scenarios a;
                      Hcont_arg := Hcont_a a; im_Tstar_arg := im_Tstar_a a;
                      epsilon := epsilon_a a; cond_arg := cond_a a;
                      useVar_arg := useVar_a a |} ;;
  Ok {| self_Tstar := Tstar t; self_database := self_database self;
        self_target := Some t |}.

End WithGMPE.
End Object.

(** ** The constructor: the conditioning period is put on the period array *)

Module Loader.
Import Database Object.

(** The argument [Tstar]: a number, a list, or anything else. *)
Inductive tstar_arg : Type :=
| TNumber (x : R)
| TList (l : list R)
| TOther.

(** [np.argsort]: the positions of the entries in non-decreasing order of
    the entries; equal entries keep their order. *)
Fixpoint insert_by (p : R * nat) (l : list (R * nat)) : list (R * nat) :=
  match l with
  | [] => [p]
  | q :: l' => if Rle_dec (fst p) (fst q) then p :: l else q :: insert_by p l'
  end.

Definition argsort (x : list R) : list nat :=
  map snd (fold_right insert_by [] (combine x (seq 0 (length x)))).

(** [np.searchsorted(x, v)] on a sorted array: the number of entries
    below [v]. *)
Definition searchsorted (x : list R) (v : R) : nat :=
  length (filter (fun t => Np.Rltb t v) x).

(** [interpolate.interp1d(x, y, axis=1)(x_new)] with scipy's defaults and
    one abscissa [x_new], for a two-dimensional [y]: the constructor
    refuses rows that have not one entry per abscissa; the abscissae are
    sorted and the columns of [y] with them, every row is read off the
    straight segment between the columns [lo] and [hi] around [x_new], and
    an abscissa outside the range of [x] is refused.  The index [lo] is
    [-1] only when [x] has a single entry, which is then entry 0 as
    well. *)
Definition interp1d (x : list R) (y : list (list R)) (x_new : R)
  : res (list R) :=
  if negb (forallb (fun row => (length row =? length x)%nat) y)
  then Raise ValueError
  else
  match x with
  | [] => Raise ValueError
  | _ =>
    let ind := argsort x in
    let xs := Np.take ind x in
    let n := length xs in
    let idx := Nat.min (Nat.max (searchsorted xs x_new) 1) (n - 1) in
    let lo := (idx - 1)%nat in
    let hi := idx in
    let x_lo := nth lo xs 0 in
    let x_hi := nth hi xs 0 in
    let y_new :=
      map (fun row =>
             let ys := Np.take ind row in
             let slope := (nth hi ys 0 - nth lo ys 0) / (x_hi - x_lo) in
             slope * (x_new - x_lo) + nth lo ys 0) y in
    if Np.Rltb x_new (nth 0 xs 0) || Np.Rltb (nth (n - 1) xs 0) x_new
    then Raise ValueError
    else Ok y_new
  end.

(** One spectral array of the database with the column for [t] appended
    and the columns put in the order of the periods:
    [np.append(Sa, Sa_int, axis=1)[:, np.argsort(Periods)]].  The
    database is loaded with [squeeze_me=True]: the spectral array of a
    database of one record has lost its first dimension, and
    [interp1d(..., axis=1)] stops on it with [IndexError]. *)
Definition add_column (periods : list R) (t : R) (Sa : list (list R))
  : res (list (list R)) :=
  match Sa with
  | [_] => Raise IndexError
  | _ =>
      Sa_int <- interp1d periods Sa t ;;
      let order := argsort (periods ++ [t]) in
      Ok (map (fun p => Np.take order (fst p ++ [snd p])) (combine Sa Sa_int))
  end.

(** The part of [__init__] that sets [self.Tstar] and the database, for
    the default [T_resample = [0, 0.05]] (no resampling): [loaded] is the
    dictionary that [loadmat] returns, with at least two periods (a single
    period would be squeezed to a number).  A single conditioning period
    that is not a database period is added to the period array, with
    interpolated spectra; for the databases whose name starts with [NGA]
    the second component and the RotD50 spectra are treated alike. *)
Definition init_Tstar (Tstar : tstar_arg) (name : String.string)
  (loaded : database) : res cs_master :=
  let self_Tstar := match Tstar with
                    | TNumber x => Some [x]
                    | TList l => Some l
                    | TOther => None
                    end in
  ts <- match self_Tstar with
        | Some ts => Ok ts
        | None => Raise AttributeError
        end ;;
  t <- match ts with
       | [] => Raise IndexError
       | t :: _ => Ok t
       end ;;
  db <- (if negb (existsb (Np.Reqb t) (Periods loaded))
            && (length ts =? 1)%nat
         then
           s1 <- add_column (Periods loaded) t (Sa_1 loaded) ;;
           s23 <- (if String.prefix "NGA" name
                   then
                     s2 <- add_column (Periods loaded) t (Sa_2 loaded) ;;
                     s3 <- add_column (Periods loaded) t (Sa_RotD50 loaded) ;;
                     Ok (s2, s3)
                   else Ok (Sa_2 loaded, Sa_RotD50 loaded)) ;;
           let P := Periods loaded ++ [t] in
           Ok {| Name := name; Periods := Np.take (argsort P) P;
                 Sa_1 := s1; Sa_2 := fst s23; Sa_RotD50 := snd s23;
                 soil_Vs30 := soil_Vs30 loaded; magnitude := magnitude loaded;
                 Rjb := Rjb loaded; mechanism := mechanism loaded;
                 Filename_1 := Filename_1 loaded;
                 Filename_2 := Filename_2 loaded; NGA_num := NGA_num loaded |}
         else
           Ok {| Name := name; Periods := Periods loaded;
                 Sa_1 := Sa_1 loaded; Sa_2 := Sa_2 loaded;
                 Sa_RotD50 := Sa_RotD50 loaded;
                 soil_Vs30 := soil_Vs30 loaded; magnitude := magnitude loaded;
                 Rjb := Rjb loaded; mechanism := mechanism loaded;
                 Filename_1 := Filename_1 loaded;
                 Filename_2 := Filename_2 loaded; NGA_num := NGA_num loaded |}) ;;
  Ok {| self_Tstar := Some ts; self_database := db; self_target := None |}.

(** The ordinate of a row on the segment between the columns [m - 1] and
    [m], and a spectral array with that ordinate put in at column [m] of
    every row. *)
Definition on_segment (periods : list R) (m : nat) (t : R) (row : list R) : R :=
  (nth m row 0 - nth (m - 1) row 0)
  / (nth m periods 0 - nth (m - 1) periods 0)
  * (t - nth (m - 1) periods 0)
  + nth (m - 1) row 0.

Definition with_column (periods : list R) (m : nat) (t : R)
  (Sa : list (list R)) : list (list R) :=
  map (fun row => Np.insert m (on_segment periods m t row) row) Sa.

(** Every row of a spectral array has one ordinate per period. *)
Definition rectangular (periods : list R) (Sa : list (list R)) : Prop :=
  forall row, In row Sa -> length row = length periods.

(** The loaded arrays have the shapes the constructor relies on: at
    least two periods, and spectral arrays that are two-dimensional (not
    of exactly one record) with one column per period; the second
    component and the RotD50 spectra are read for the databases whose name
    starts with [NGA] only. *)
Definition well_formed (name : String.string) (db : database) : Prop :=
  (2 <= length (Periods db))%nat
  /\ rectangular (Periods db) (Sa_1 db) /\ length (Sa_1 db) <> 1%nat
  /\ (String.prefix "NGA" name = true ->
      rectangular (Periods db) (Sa_2 db) /\ length (Sa_2 db) <> 1%nat
      /\ rectangular (Periods db) (Sa_RotD50 db)
      /\ length (Sa_RotD50 db) <> 1%nat).

End Loader.

(** ** Elapsed time ([RunTime]) *)

Module Clock.

(** Python's [int] of a float: truncation towards zero. *)
Definition int_of_float (x : R) : Z :=
  if Rle_dec 0 x then Zfloor x else Zceil x.

(** The three values that [RunTime] hands to [print]; [startTime] is the
    module-level variable and [finishTime] the reading of the clock. *)
Definition RunTime (startTime finishTime : R) : Z * Z * R :=
  let timeSeconds := finishTime - startTime in
  let timeMinutes := int_of_float (timeSeconds / 60) in
  let timeHours := int_of_float (timeSeconds / 3600) in
  let timeMinutes := (timeMinutes - timeHours * 60)%Z in
  let timeSeconds :=
    timeSeconds - IZR timeMinutes * 60 - IZR timeHours * 3600 in
  (timeHours, timeMinutes, timeSeconds).

End Clock.

(** ** Further concrete inputs *)

Module Samples.
Import Target Selector.

(** One scenario, two grid periods, unconditional, default hazard weights,
    variance kept; the ground-motion model is [Demo.demo_gmpe]. *)
Definition call_uncond : call :=
  {| T_Tgt := [1; 2]; Tstar0 := [1]; nScenarios := 1; Hcont_arg := None;
     im_Tstar_arg := 2; epsilon := None; cond_arg := 0; useVar_arg := 1 |}.

(** Conditioning on the average over a period range, on a grid of four
    periods. *)
Definition call_range : call :=
  {| T_Tgt := [1; 2; 3; 4]; Tstar0 := [1.9; 3.2]; nScenarios := 1;
     Hcont_arg := None; im_Tstar_arg := 2; epsilon := Some [0];
     cond_arg := 1; useVar_arg := 1 |}.

(** A simulated database of three one-component records on two periods:
    the second record has a negative ordinate, the third a stiff site. *)
Definition db_small : Database.database :=
  {| Database.Name := "EXSIM_demo";
     Database.Periods := [1; 2];
     Database.Sa_1 := [[1; 2]; [3; -1]; [2; 2]];
     Database.Sa_2 := [];
     Database.Sa_RotD50 := [];
     Database.soil_Vs30 := [500; 600; 900];
     Database.magnitude := [6; 6.5; 7];
     Database.Rjb := [10; 20; 30];
     Database.mechanism := [1; 1; 1]%Z;
     Database.Filename_1 := ["a_acc.txt"; "b_acc.txt"; "c_acc.txt"]%string;
     Database.Filename_2 := [];
     Database.NGA_num := [] |}.

(** One-component selection with limits on Vs30 only. *)
Definition f_small : Database.filters :=
  {| Database.selection := 1; Database.Sa_def := "RotD50";
     Database.Vs30_lim := Some [800; 400]; Database.Mw_lim := None;
     Database.Rjb_lim := None; Database.fault_lim := None |}.

(** No string is read as a number. *)
Definition no_int (s : String.string) : res Z := Raise ValueError.

(** An [NGA_W2] database without records, two-component selection. *)
Definition db_w2_empty : Database.database :=
  {| Database.Name := "NGA_W2";
     Database.Periods := [1; 2];
     Database.Sa_1 := []; Database.Sa_2 := []; Database.Sa_RotD50 := [];
     Database.soil_Vs30 := []; Database.magnitude := []; Database.Rjb := [];
     Database.mechanism := []; Database.Filename_1 := [];
     Database.Filename_2 := []; Database.NGA_num := [] |}.

Definition f_two : Database.filters :=
  {| Database.selection := 2; Database.Sa_def := "RotD100";
     Database.Vs30_lim := None; Database.Mw_lim := None;
     Database.Rjb_lim := None; Database.fault_lim := None |}.

(** A sampler that returns the two rows of [Demo.sims4] and nothing
    else, whatever the seed, and a skewness estimator that is constant. *)
Definition mvn_pair (seed : Z) (mu : list R) (cv : list (list R)) (k : nat)
  : list R :=
  nth k Demo.sims4 [].

Definition skew_zero (l : list R) : R := 0.

(** A simulated database of four one-component records on one period
    whose log-spectra are [Demo.pool4], and a search without limits. *)
Definition db_four : Database.database :=
  {| Database.Name := "EXSIM_four";
     Database.Periods := [1];
     Database.Sa_1 := [[exp (-1)]; [exp 1.04]; [exp (-1.06)]; [exp 1.07]];
     Database.Sa_2 := [];
     Database.Sa_RotD50 := [];
     Database.soil_Vs30 := [500; 600; 700; 800];
     Database.magnitude := [6; 6.5; 7; 7.5];
     Database.Rjb := [10; 20; 30; 40];
     Database.mechanism := [1; 2; 3; 1]%Z;
     Database.Filename_1 := ["a_acc.txt"; "b_acc.txt"; "c_acc.txt"; "d_acc.txt"]%string;
     Database.Filename_2 := [];
     Database.NGA_num := [] |}.

Definition f_open : Database.filters :=
  {| Database.selection := 2; Database.Sa_def := "RotD50";
     Database.Vs30_lim := None; Database.Mw_lim := None;
     Database.Rjb_lim := None; Database.fault_lim := None |}.

(** An object on the four-period database right after its construction
    for the conditioning period 2 s, and two calls of [create]. *)
Definition db_grid : Database.database :=
  {| Database.Name := "EXSIM_grid";
     Database.Periods := [1; 2; 3; 4];
     Database.Sa_1 := []; Database.Sa_2 := []; Database.Sa_RotD50 := [];
     Database.soil_Vs30 := []; Database.magnitude := []; Database.Rjb := [];
     Database.mechanism := []; Database.Filename_1 := [];
     Database.Filename_2 := []; Database.NGA_num := [] |}.

Definition fresh_object : Object.cs_master :=
  {| Object.self_Tstar := Some [2]; Object.self_database := db_grid;
     Object.self_target := None |}.

Definition args_uncond : Object.create_args :=
  {| Object.T_Tgt_range := [2; 3]; Object.n_scenarios := 1;
     Object.Hcont_a := None; Object.im_Tstar_a := 2; Object.epsilon_a := None;
     Object.cond_a := 0; Object.useVar_a := 1 |}.

(** A two-period target conditioned on its first period at the level
    2 g, one pass over one slot, and a pool of one record whose ordinates
    are 1 g, so that the record is scaled by 2. *)
Definition target_level2 : target :=
  {| cond := 1; useVar := 1; Hcont := [1]; T := [1; 2]; Tstar := Some [1];
     mu_ln := [ln 2; ln 2]; sigma_ln := [1; 1]; cov := [[1; 0]; [0; 1]];
     im_Tstar := Some 2 |}.

Definition cfg_scaled_one : config :=
  {| nGM := 1; isScaled := 1; maxScale := 4; weights := [1; 2; 0.3];
     nLoop := 1; tol := 10; penalty := 0 |}.

Definition rows_unit : list (list R) := [[0; 0]].
Definition sims_level2 : list (list R) := [[ln 2; ln 2]].

(** A loaded database of two two-component records with the periods 1,
    2 and 4 s, and a conditional call of [create] on the range from 2 to
    4 s. *)
Definition db_loaded : Database.database :=
  {| Database.Name := String.EmptyString;
     Database.Periods := [1; 2; 4];
     Database.Sa_1 := [[10; 20; 40]; [5; 6; 8]];
     Database.Sa_2 := [[1; 2; 4]; [2; 4; 8]];
     Database.Sa_RotD50 := [[3; 6; 12]; [3; 5; 7]];
     Database.soil_Vs30 := [500; 600]; Database.magnitude := [6; 7];
     Database.Rjb := [10; 20]; Database.mechanism := [1%Z; 2%Z];
     Database.Filename_1 := ["a_1.AT2"%string; "b_1.AT2"%string];
     Database.Filename_2 := ["a_2.AT2"%string; "b_2.AT2"%string];
     Database.NGA_num := [1%nat; 2%nat] |}.

Definition args_cond : Object.create_args :=
  {| Object.T_Tgt_range := [2; 4]; Object.n_scenarios := 1;
     Object.Hcont_a := None; Object.im_Tstar_a := 2;
     Object.epsilon_a := Some [0]; Object.cond_a := 1; Object.useVar_a := 1 |}.

End Samples.
(** * Properties *)

(** ** The correlation model *)

Section CorrelationFacts.
Import Correlation.

Lemma Rltb_true (x y : R) : Np.Rltb x y = true <-> x < y.
Proof. unfold Np.Rltb; destruct (Rlt_dec x y); split; intros; auto; discriminate. Qed.

Lemma Rltb_false (x y : R) : Np.Rltb x y = false <-> y <= x.
Proof.
  unfold Np.Rltb; destruct (Rlt_dec x y); split; intros; auto; try discriminate; lra.
Qed.

Lemma Rleb_true (x y : R) : Np.Rleb x y = true <-> x <= y.
Proof. unfold Np.Rleb; destruct (Rle_dec x y); split; intros; auto; discriminate. Qed.

Lemma Rleb_false (x y : R) : Np.Rleb x y = false <-> y < x.
Proof.
  unfold Np.Rleb; destruct (Rle_dec x y); split; intros; auto; try discriminate; lra.
Qed.

Lemma Reqb_true (x y : R) : Np.Reqb x y = true <-> x = y.
Proof. unfold Np.Reqb; destruct (Req_dec_T x y); split; intros; auto; discriminate. Qed.

Lemma Reqb_refl (x : R) : Np.Reqb x x = true.
Proof. now apply Reqb_true. Qed.

(** The logistic factor of [c2] lies strictly between 0 and 1. *)
Lemma logistic_bounds (x : R) : 0 < 1.0 - 1.0 / (1.0 + exp x) < 1.
Proof.
  pose proof (exp_pos x) as He.
  assert (Hd : 0 < 1.0 + exp x) by lra.
  assert (Hi : 0 < / (1.0 + exp x)) by now apply Rinv_0_lt_compat.
  assert (Hm : (1.0 + exp x) * / (1.0 + exp x) = 1) by (apply Rinv_r; lra).
  unfold Rdiv. split; nra.
Qed.

Lemma c2_range (t_min t_max : R) :
  0.0099 <= t_min -> t_min <= t_max -> 0.0099 < t_max -> t_max < 0.2 ->
  0.895 <= c2 t_min t_max <= 1.
Proof.
  intros Hlo Hle Hmx Hhi. unfold c2.
  destruct (Rlt_dec t_max 0.2) as [_|]; [|lra].
  destruct (logistic_bounds (100.0 * t_max - 5.0)) as [Hg0 Hg1].
  set (g := 1.0 - 1.0 / (1.0 + exp (100.0 * t_max - 5.0))) in *.
  assert (Hd : 0 < t_max - 0.0099) by lra.
  assert (Hi : 0 < / (t_max - 0.0099)) by now apply Rinv_0_lt_compat.
  assert (Hm : (t_max - 0.0099) * / (t_max - 0.0099) = 1) by (apply Rinv_r; lra).
  set (q := (t_max - t_min) * / (t_max - 0.0099)).
  assert (Hq : 0 <= q <= 1) by (unfold q; split; nra).
  replace (1.0 - 0.105 * g * (t_max - t_min) / (t_max - 0.0099))
    with (1 - 0.105 * (g * q)) by (unfold q, Rdiv; nra).
  assert (0 <= g * q <= 1) by nra.
  lra.
Qed.

Lemma c1_bounds (t_min t_max : R) : 0 <= c1 t_min t_max <= 2.
Proof.
  unfold c1.
  pose proof (COS_bound (PI / 2.0 - ln (t_max / Rmax t_min 0.109) * 0.366)).
  lra.
Qed.

(** [exp 8 >= 918], from [exp (1/4) >= 5/4]. *)
Lemma exp_8_lower : 918 <= exp 8.
Proof.
  pose proof (exp_ineq1_le (1 / 4)) as Hq.
  pose proof (exp_pos (1 / 4)) as Hq0.
  assert (E1 : exp 1 = exp (1 / 4) * exp (1 / 4) * (exp (1 / 4) * exp (1 / 4))).
  { rewrite <- !exp_plus. f_equal. lra. }
  assert (E2 : exp 2 = exp 1 * exp 1) by (rewrite <- exp_plus; f_equal; lra).
  assert (E4 : exp 4 = exp 2 * exp 2) by (rewrite <- exp_plus; f_equal; lra).
  assert (E8 : exp 8 = exp 4 * exp 4) by (rewrite <- exp_plus; f_equal; lra).
  assert (Hh : 1.5625 <= exp (1 / 4) * exp (1 / 4)) by nra.
  assert (H1 : 2.44 <= exp 1) by nra.
  assert (H2 : 5.95 <= exp 2) by nra.
  assert (H4 : 35.4 <= exp 4) by nra.
  rewrite E8. nra.
Qed.

Lemma PI_ge_3 : 3 < PI.
Proof. pose proof PI2_3_2. lra. Qed.

(** On the published range of the model [c1] is a cosine of an angle in
    the right half plane. *)
Lemma c1_range (t_min t_max : R) :
  0 < t_min -> 0.109 <= t_max -> t_min <= t_max -> t_max <= 100 ->
  0 <= c1 t_min t_max <= 1.
Proof.
  intros Hpos Hlo Hle Hhi. split; [apply c1_bounds|].
  unfold c1.
  set (d := Rmax t_min 0.109).
  assert (Hd : 0.109 <= d) by (unfold d; apply Rmax_r).
  assert (Hd' : d <= t_max) by (unfold d; apply Rmax_lub; lra).
  assert (Hid : 0 < / d) by (apply Rinv_0_lt_compat; lra).
  assert (Hmd : d * / d = 1) by (apply Rinv_r; lra).
  assert (Hr1 : 1 <= t_max / d) by (unfold Rdiv; nra).
  assert (Hr2 : t_max / d <= exp 8).
  { apply Rle_trans with 918; [|apply exp_8_lower]. unfold Rdiv.
    assert (/ d <= / 0.109) by (apply Rinv_le_contravar; lra).
    assert (/ 0.109 <= 9.18) by lra. nra. }
  assert (Hl0 : 0 <= ln (t_max / d)).
  { rewrite <- ln_1. destruct Hr1 as [Hr1|Hr1].
    - left; apply ln_increasing; lra.
    - rewrite <- Hr1; lra. }
  assert (Hl1 : ln (t_max / d) <= 8).
  { rewrite <- (ln_exp 8). destruct Hr2 as [Hr2|Hr2].
    - left; apply ln_increasing; lra.
    - rewrite Hr2; lra. }
  pose proof PI_ge_3.
  assert (0 <= cos (PI / 2.0 - ln (t_max / d) * 0.366)).
  { apply cos_ge_0; lra. }
  lra.
Qed.

Lemma c4_range (t_min t_max : R) :
  0 < t_min -> 0.109 <= t_max -> t_min <= t_max -> t_max <= 100 ->
  0 <= c4 t_min t_max <= 1.
Proof.
  intros Hpos Hlo Hle Hhi. unfold c4, c3.
  destruct (Rlt_dec t_max 0.109); [lra|].
  destruct (c1_range t_min t_max Hpos Hlo Hle Hhi) as [H0 H1].
  set (c := c1 t_min t_max) in *.
  pose proof (COS_bound (PI * t_min / 0.109)) as Hc.
  set (w := cos (PI * t_min / 0.109)) in *.
  assert (Hs0 : 0 <= sqrt c) by apply sqrt_pos.
  assert (Hss : sqrt c * sqrt c = c) by (apply sqrt_sqrt; lra).
  assert (Hs1 : sqrt c <= 1) by nra.
  assert (Hsc : c <= sqrt c) by nra.
  split; nra.
Qed.

Lemma rho_value_sym (T1 T2 : R) : rho_value T1 T2 = rho_value T2 T1.
Proof. unfold rho_value. now rewrite (Rmin_comm T1 T2), (Rmax_comm T1 T2). Qed.

Lemma Baker_Jayaram_2008_sym (T1 T2 : R) :
  Baker_Jayaram_2008 T1 T2 = Baker_Jayaram_2008 T2 T1.
Proof.
  unfold Baker_Jayaram_2008. now rewrite (Rmax_comm T1 T2), (rho_value_sym T1 T2).
Qed.

Lemma rho_value_diag (T : R) : rho_value T T = 1.
Proof.
  unfold rho_value. rewrite Rmin_left, Rmax_left by lra.
  destruct (Rle_dec T 0.109) as [Hle|Hgt].
  - unfold c2. destruct (Rlt_dec T 0.2); [|lra].
    replace (T - T) with 0 by ring.
    unfold Rdiv. rewrite Rmult_0_r, Rmult_0_l. lra.
  - destruct (Rgt_dec T 0.109) as [Hg|]; [|lra].
    unfold c1. rewrite Rmax_left by lra.
    unfold Rdiv at 2. rewrite Rinv_r by lra. rewrite ln_1.
    replace (PI / 2.0 - 0 * 0.366) with (PI / 2) by lra.
    rewrite cos_PI2. lra.
Qed.

Lemma Baker_Jayaram_2008_diag (T : R) :
  T <> 0.0099 -> Baker_Jayaram_2008 T T = Some 1.
Proof.
  intros HT. unfold Baker_Jayaram_2008. rewrite Rmax_left by lra.
  rewrite rho_value_diag.
  destruct (Rlt_dec T 0.2); [|reflexivity].
  destruct (Req_dec_T (T - 0.0099) 0); [lra|reflexivity].
Qed.

Lemma rho_value_range (T1 T2 : R) :
  0.0099 < T1 <= 100 -> 0.0099 < T2 <= 100 -> -1 <= rho_value T1 T2 <= 1.
Proof.
  intros H1 H2. unfold rho_value.
  set (t_min := Rmin T1 T2). set (t_max := Rmax T1 T2).
  assert (Hmin : 0.0099 < t_min) by (unfold t_min; apply Rmin_glb_lt; lra).
  assert (Hmax : t_max <= 100) by (unfold t_max; apply Rmax_lub; lra).
  assert (Hle : t_min <= t_max).
  { unfold t_min, t_max. apply Rle_trans with T1; [apply Rmin_l|apply Rmax_l]. }
  destruct (Rle_dec t_max 0.109) as [Ha|Ha].
  - pose proof (c2_range t_min t_max). lra.
  - destruct (Rgt_dec t_min 0.109) as [Hb|Hb].
    + pose proof (c1_range t_min t_max). lra.
    + assert (Hc4 : 0 <= c4 t_min t_max <= 1) by (apply c4_range; lra).
      destruct (Rlt_dec t_max 0.2) as [Hc|Hc]; [|lra].
      pose proof (c2_range t_min t_max).
      unfold Rmin. destruct (Rle_dec (c2 t_min t_max) (c4 t_min t_max)); lra.
Qed.

Lemma Baker_Jayaram_2008_defined (T1 T2 : R) :
  Rmax T1 T2 <> 0.0099 -> Baker_Jayaram_2008 T1 T2 = Some (rho_value T1 T2).
Proof.
  intros H. unfold Baker_Jayaram_2008.
  destruct (Rlt_dec (Rmax T1 T2) 0.2); [|reflexivity].
  destruct (Req_dec_T (Rmax T1 T2 - 0.0099) 0); [lra|reflexivity].
Qed.

End CorrelationFacts.

Section CorrelationClaim.
Import Correlation.

(** C8 (as amended).  In exact arithmetic the correlation model is
    symmetric in its two periods, whatever they are (where it divides by
    zero it does so for both orders); the correlation of a period with
    itself is 1 for every period other than 0.0099 s; and for two periods
    above 0.0099 s and up to 100 s the coefficient lies in [-1, 1]. *)
Theorem C8_correlation_contract (T1 T2 : R) :
  Baker_Jayaram_2008 T1 T2 = Baker_Jayaram_2008 T2 T1
  /\ (T1 <> 0.0099 -> Baker_Jayaram_2008 T1 T1 = Some 1)
  /\ (0.0099 < T1 <= 100 -> 0.0099 < T2 <= 100 ->
      exists r, Baker_Jayaram_2008 T1 T2 = Some r /\ -1 <= r <= 1).
Proof.
  split; [apply Baker_Jayaram_2008_sym|split].
  - apply Baker_Jayaram_2008_diag.
  - intros H1 H2. exists (rho_value T1 T2). split.
    + apply Baker_Jayaram_2008_defined.
      assert (T1 <= Rmax T1 T2) by apply Rmax_l. lra.
    + now apply rho_value_range.
Qed.

Lemma C8_correlation_contract_witness :
  Baker_Jayaram_2008 1 2 = Baker_Jayaram_2008 2 1
  /\ (exists r, Baker_Jayaram_2008 1 2 = Some r /\ -1 <= r <= 1)
  /\ Baker_Jayaram_2008 1 1 = Some 1.
Proof.
  destruct (C8_correlation_contract 1 2) as (Hs & Hd & Hr).
  split; [exact Hs|]. split; [apply Hr; lra | apply Hd; lra].
Defined.

(** C8 as stated fails for strictly positive periods outside that box:
    at 0.0099 s the model divides by zero, just below it the coefficient
    exceeds 1, and for periods far enough apart it exceeds 1 as well. *)
Lemma C8_correlation_counterexample :
  (0 < 0.0099 /\ Baker_Jayaram_2008 0.0099 0.0099 = None)
  /\ (0 < 0.001 /\ 0 < 0.005 /\
      exists r, Baker_Jayaram_2008 0.001 0.005 = Some r /\ 1 < r)
  /\ (0 < 1 /\ 0 < 200000 /\
      exists r, Baker_Jayaram_2008 1 200000 = Some r /\ 1 < r).
Proof.
  split; [|split].
  - split; [lra|]. unfold Baker_Jayaram_2008. rewrite Rmax_left by lra.
    destruct (Rlt_dec 0.0099 0.2); [|lra].
    destruct (Req_dec_T (0.0099 - 0.0099) 0); [reflexivity|lra].
  - split; [lra|split; [lra|]]. exists (rho_value 0.001 0.005). split.
    + apply Baker_Jayaram_2008_defined. rewrite Rmax_right by lra. lra.
    + unfold rho_value. rewrite Rmin_left, Rmax_right by lra.
      destruct (Rle_dec 0.005 0.109); [|lra].
      unfold c2. destruct (Rlt_dec 0.005 0.2); [|lra].
      destruct (logistic_bounds (100.0 * 0.005 - 5.0)) as [Hg _].
      set (g := 1.0 - 1.0 / (1.0 + exp (100.0 * 0.005 - 5.0))) in *.
      assert (Hi : / (0.005 - 0.0099) < 0) by (apply Rinv_lt_0_compat; lra).
      unfold Rdiv. nra.
  - split; [lra|split; [lra|]]. exists (rho_value 1 200000). split.
    + apply Baker_Jayaram_2008_defined. rewrite Rmax_right by lra. lra.
    + unfold rho_value. rewrite Rmin_left, Rmax_right by lra.
      destruct (Rle_dec 200000 0.109); [lra|].
      destruct (Rgt_dec 1 0.109); [|lra].
      unfold c1. rewrite Rmax_left by lra.
      replace (200000 / 1) with 200000 by lra.
      assert (Hlo : 11 < ln 200000).
      { rewrite <- (ln_exp 11). apply ln_increasing; [apply exp_pos|].
        pose proof exp_le_3 as H3. pose proof (exp_pos 1) as H0.
        assert (E2 : exp 2 = exp 1 * exp 1) by (rewrite <- exp_plus; f_equal; lra).
        assert (E4 : exp 4 = exp 2 * exp 2) by (rewrite <- exp_plus; f_equal; lra).
        assert (E8 : exp 8 = exp 4 * exp 4) by (rewrite <- exp_plus; f_equal; lra).
        assert (E11 : exp 11 = exp 8 * (exp 2 * exp 1)).
        { rewrite <- !exp_plus. f_equal. lra. }
        pose proof (exp_pos 2). pose proof (exp_pos 4). pose proof (exp_pos 8).
        assert (exp 2 <= 9) by nra.
        assert (exp 4 <= 81) by nra.
        assert (exp 8 <= 6561) by nra.
        assert (exp 2 * exp 1 <= 27) by nra.
        rewrite E11. nra. }
      assert (Hhi : ln 200000 < 16).
      { rewrite <- (ln_exp 16). apply ln_increasing; [lra|].
        assert (E16 : exp 16 = exp 8 * exp 8) by (rewrite <- exp_plus; f_equal; lra).
        pose proof exp_8_lower. rewrite E16. nra. }
      pose proof PI_ge_3. pose proof PI_4.
      rewrite <- cos_neg.
      assert (cos (- (PI / 2.0 - ln 200000 * 0.366)) < 0).
      { apply cos_lt_0; lra. }
      lra.
Qed.

End CorrelationClaim.

(** ** Sums and array helpers *)

Section ArrayFacts.

Lemma nth_map_seq {A : Type} (f : nat -> A) (n i : nat) (d : A) :
  (i < n)%nat -> nth i (map f (seq 0 n)) d = f i.
Proof.
  intros Hi. rewrite (nth_indep _ d (f O)) by now rewrite length_map, length_seq.
  rewrite (map_nth f (seq 0 n) O i), seq_nth by assumption. reflexivity.
Qed.

Lemma map_nth_seq {A B : Type} (f : A -> B) (l : list A) (d : A) :
  map (fun k => f (nth k l d)) (seq 0 (length l)) = map f l.
Proof.
  induction l as [|a l IH]; [reflexivity|].
  cbn [length seq map nth]. f_equal.
  rewrite <- seq_shift, map_map. exact IH.
Qed.

Lemma sum_map_ext {A : Type} (f g : A -> R) (l : list A) :
  (forall a, In a l -> f a = g a) -> Np.sum (map f l) = Np.sum (map g l).
Proof.
  intros H. f_equal. apply map_ext_in. exact H.
Qed.

Lemma sum_map_plus {A : Type} (f g : A -> R) (l : list A) :
  Np.sum (map (fun a => f a + g a) l) = Np.sum (map f l) + Np.sum (map g l).
Proof.
  unfold Np.sum. induction l as [|a l IH]; cbn [map fold_right]; [lra|].
  rewrite IH. lra.
Qed.

Lemma sum_map_scal_l {A : Type} (c : R) (f : A -> R) (l : list A) :
  Np.sum (map (fun a => c * f a) l) = c * Np.sum (map f l).
Proof.
  unfold Np.sum. induction l as [|a l IH]; cbn [map fold_right]; [lra|].
  rewrite IH. lra.
Qed.

Lemma sum_map_scal_r {A : Type} (c : R) (f : A -> R) (l : list A) :
  Np.sum (map (fun a => f a * c) l) = Np.sum (map f l) * c.
Proof.
  unfold Np.sum. induction l as [|a l IH]; cbn [map fold_right]; [lra|].
  rewrite IH. lra.
Qed.

Lemma sum_map_const {A : Type} (c : R) (l : list A) :
  Np.sum (map (fun _ => c) l) = INR (length l) * c.
Proof.
  unfold Np.sum. induction l as [|a l IH]; [cbn; lra|].
  cbn [map fold_right]. rewrite IH. change (length (a :: l)) with (S (length l)).
  rewrite S_INR. lra.
Qed.

Lemma sum_map_zero {A : Type} (f : A -> R) (l : list A) :
  (forall a, In a l -> f a = 0) -> Np.sum (map f l) = 0.
Proof.
  intros H. rewrite (sum_map_ext f (fun _ => 0)) by exact H.
  rewrite sum_map_const. lra.
Qed.

Lemma sum_map_nonneg {A : Type} (f : A -> R) (l : list A) :
  (forall a, In a l -> 0 <= f a) -> 0 <= Np.sum (map f l).
Proof.
  unfold Np.sum. induction l as [|a l IH]; intros H; cbn [map fold_right]; [lra|].
  assert (0 <= f a) by (apply H; now left).
  assert (0 <= fold_right Rplus 0 (map f l)) by (apply IH; intros; apply H; now right).
  lra.
Qed.

Lemma sum_swap {A B : Type} (f : A -> B -> R) (la : list A) (lb : list B) :
  Np.sum (map (fun a => Np.sum (map (fun b => f a b) lb)) la)
  = Np.sum (map (fun b => Np.sum (map (fun a => f a b) la)) lb).
Proof.
  induction la as [|a la IH].
  - cbn [map]. symmetry. apply sum_map_zero. reflexivity.
  - cbn [map]. change (Np.sum (?x :: ?l)) with (x + Np.sum l).
    rewrite IH.
    rewrite <- sum_map_plus. apply sum_map_ext. intros b _. reflexivity.
Qed.

(** The accumulating loops of the source are left folds; they compute the
    same sums. *)
Lemma fold_left_sum {A : Type} (f : A -> R) (l : list A) (acc : R) :
  fold_left (fun s a => s + f a) l acc = acc + Np.sum (map f l).
Proof.
  revert acc. induction l as [|a l IH]; intros acc; cbn [fold_left map].
  - unfold Np.sum; cbn; lra.
  - rewrite IH. change (Np.sum (?x :: ?l)) with (x + Np.sum l). lra.
Qed.

Lemma fold_left_Rplus (l : list R) (acc : R) :
  fold_left Rplus l acc = acc + Np.sum l.
Proof.
  rewrite <- (map_id l) at 2. exact (fold_left_sum (fun x => x) l acc).
Qed.

End ArrayFacts.

(** ** The target spectrum *)

Section TargetFacts.
Import Target.

Variable gmpe : nat -> R -> R * R.

Lemma bind_Ok_inv {A B : Type} (m : res A) (k : A -> res B) (b : B) :
  bind m k = Ok b -> exists a, m = Ok a /\ k a = Ok b.
Proof. destruct m as [a|e]; cbn; intros H; [eauto|discriminate]. Qed.

(** What a successful call of [create] leaves on the object. *)
Lemma create_Ok_inv (c : call) (t : target) :
  create gmpe c = Ok t ->
  exists Ts,
    (if (cond_arg c =? 0)%nat then Ok [] else Tstar_self c) = Ok Ts
    /\ nScenarios c <> O
    /\ cond t = cond_arg c /\ useVar t = useVar_arg c /\ T t = T_Tgt c
    /\ Hcont t = Hcont_self c
    /\ Tstar t = (if (cond_arg c =? 0)%nat then None else Some Ts)
    /\ mu_ln t = mu_ln_fin gmpe c Ts
    /\ sigma_ln t = map (TgtSigma_fin gmpe c Ts) (seq 0 (nT c))
    /\ cov t = map (fun i => map (TgtCov_fin gmpe c Ts i) (seq 0 (nT c)))
                   (seq 0 (nT c))
    /\ (if (cond_arg c =? 1)%nat then
          match epsilon c with
          | None => Ok (Some (im_Tstar_arg c))
          | Some _ =>
              ind <- cond_indices (T_Tgt c) Ts ;;
              Ok (Some (exp (Np.sum (Np.take ind (mu_ln t)) / INR (length Ts))))
          end
        else Ok None) = Ok (im_Tstar t).
Proof.
  unfold create. intros H.
  apply bind_Ok_inv in H. destruct H as (Ts & HTs & H).
  exists Ts. split; [exact HTs|].
  destruct (Nat.eqb_spec (nScenarios c) 0) as [|HnS]; [discriminate|].
  apply bind_Ok_inv in H. destruct H as (imv & Him & H).
  injection H as <-. cbn [cond useVar T Hcont Tstar mu_ln sigma_ln cov im_Tstar].
  repeat (split; [first [assumption|reflexivity]|]).
  exact Him.
Qed.


End TargetFacts.

(** ** Target built without variance *)

Section NoVariance.
Import Target Demo.

Variable gmpe : nat -> R -> R * R.

Lemma floor_small_neq_0 (v : R) : floor_small v <> 0.
Proof.
  unfold floor_small. destruct (Np.Rltb (Rabs v) 1e-10) eqn:E; [lra|].
  apply Rltb_false in E. intros ->. rewrite Rabs_R0 in E. lra.
Qed.

Lemma floor_small_0 : floor_small 0 = 1e-10.
Proof.
  unfold floor_small. rewrite Rabs_R0.
  destruct (Np.Rltb 0 1e-10) eqn:E; [reflexivity|].
  apply Rltb_false in E. lra.
Qed.

Lemma useVar0_TgtCov_fin (c : call) (Ts : list R) (i j : nat) :
  useVar_arg c = O ->
  TgtCov_fin gmpe c Ts i j
  = if (i =? j)%nat then floor_small (between_scenarios gmpe c Ts i) else 1e-10.
Proof.
  intros Huv. unfold TgtCov_fin, cov_diag, TgtCov. rewrite Huv. cbn [Nat.eqb].
  destruct (i =? j)%nat.
  - f_equal. unfold between_scenarios. apply sum_map_ext. intros kk _. lra.
  - apply floor_small_0.
Qed.

Lemma sqrt_1e10 : sqrt 1e-10 = 1e-5.
Proof. apply sqrt_lem_1; lra. Qed.

Lemma between_single (c : call) (Ts : list R) (i : nat) :
  nScenarios c = 1%nat -> Hcont_self c = [1] -> between_scenarios gmpe c Ts i = 0.
Proof.
  intros HnS HH. unfold between_scenarios, TgtMean_fin. rewrite HnS, HH.
  cbn [seq map nth Np.sum fold_right]. lra.
Qed.

(** C3 (as amended).  With [useVar = 0] every scenario covariance is
    overwritten with zeros, and the floor then lifts the zeros: each
    off-diagonal entry of the final covariance is 1e-10, each diagonal
    entry is the between-scenario variance of the means lifted to 1e-10
    when its magnitude is smaller, no entry is zero, and [sigma_ln] is the
    square root of the diagonal.  For a single scenario of weight 1 the
    covariance is 1e-10 everywhere and [sigma_ln] is 1e-5 everywhere. *)
Theorem C3_useVar_zero_floor (c : call) (t : target)
  (Huv : useVar_arg c = O) (Hcreate : create gmpe c = Ok t) :
  exists Ts,
    (if (cond_arg c =? 0)%nat then Ts = [] else Tstar t = Some Ts)
    /\ (forall i j, (i < nT c)%nat -> (j < nT c)%nat ->
          nth j (nth i (cov t) []) 0
          = (if (i =? j)%nat then floor_small (between_scenarios gmpe c Ts i)
             else 1e-10)
          /\ nth j (nth i (cov t) []) 0 <> 0)
    /\ (forall i, (i < nT c)%nat ->
          nth i (sigma_ln t) 0
          = (let d := floor_small (between_scenarios gmpe c Ts i) in
             if Np.Rltb d 0 then 0 else sqrt d))
    /\ (nScenarios c = 1%nat -> Hcont_self c = [1] ->
          forall i j, (i < nT c)%nat -> (j < nT c)%nat ->
            nth j (nth i (cov t) []) 0 = 1e-10 /\ nth i (sigma_ln t) 0 = 1e-5).
Proof.
  pose proof (create_Ok_inv gmpe _ _ Hcreate)
    as (Ts & HTs & HnS & Hcnd & Huv' & HT & HH & HTstar & Hmu & Hsg & Hcv & Him).
  exists Ts.
  assert (Hentry : forall i j, (i < nT c)%nat -> (j < nT c)%nat ->
            nth j (nth i (cov t) []) 0 = TgtCov_fin gmpe c Ts i j).
  { intros i j Hi Hj. rewrite Hcv.
    rewrite (nth_map_seq (fun i => map (TgtCov_fin gmpe c Ts i) (seq 0 (nT c))))
      by assumption.
    now rewrite nth_map_seq. }
  assert (Hsig : forall i, (i < nT c)%nat ->
            nth i (sigma_ln t) 0 = TgtSigma_fin gmpe c Ts i).
  { intros i Hi. rewrite Hsg. now rewrite nth_map_seq. }
  split; [|split; [|split]].
  - destruct (cond_arg c =? 0)%nat; [now injection HTs as <-|exact HTstar].
  - intros i j Hi Hj. rewrite Hentry by assumption.
    rewrite useVar0_TgtCov_fin by assumption. split; [reflexivity|].
    destruct (i =? j)%nat; [apply floor_small_neq_0|lra].
  - intros i Hi. rewrite Hsig by assumption. unfold TgtSigma_fin.
    rewrite useVar0_TgtCov_fin by assumption. now rewrite Nat.eqb_refl.
  - intros H1 HH1 i j Hi Hj. rewrite Hentry, Hsig by assumption.
    unfold TgtSigma_fin. rewrite !useVar0_TgtCov_fin by assumption.
    rewrite Nat.eqb_refl, between_single, floor_small_0 by assumption.
    split.
    + now destruct (i =? j)%nat.
    + destruct (Np.Rltb 1e-10 0) eqn:E; [apply Rltb_true in E; lra|].
      apply sqrt_1e10.
Qed.

End NoVariance.

Section NoVarianceExamples.
Import Target Demo.

Lemma demo_call_novar_created :
  exists t, create demo_gmpe demo_call_novar = Ok t.
Proof. unfold create. cbn. eexists. reflexivity. Qed.

Lemma C3_useVar_zero_floor_witness :
  exists t,
    create demo_gmpe demo_call_novar = Ok t
    /\ forall i j, (i < 1)%nat -> (j < 1)%nat ->
         nth j (nth i (cov t) []) 0 = 1e-10 /\ nth i (sigma_ln t) 0 = 1e-5.
Proof.
  destruct demo_call_novar_created as [t Ht]. exists t. split; [exact Ht|].
  destruct (C3_useVar_zero_floor demo_gmpe demo_call_novar t eq_refl Ht)
    as (Ts & _ & _ & _ & H).
  exact (H eq_refl eq_refl).
Defined.

(** C3 as stated fails on the smallest target there is: one scenario,
    one period, [useVar = 0]; the covariance entry is 1e-10 and
    [sigma_ln] is 1e-5, neither is zero. *)
Lemma C3_useVar_zero_counterexample :
  exists t,
    create demo_gmpe demo_call_novar = Ok t
    /\ useVar t = O
    /\ nth 0 (nth 0 (cov t) []) 0 = 1e-10 /\ nth 0 (nth 0 (cov t) []) 0 <> 0
    /\ nth 0 (sigma_ln t) 0 = 1e-5 /\ nth 0 (sigma_ln t) 0 <> 0.
Proof.
  destruct demo_call_novar_created as [t Ht]. exists t. split; [exact Ht|].
  pose proof (create_Ok_inv demo_gmpe _ _ Ht)
    as (Ts & HTs & HnS & Hcnd & Huv' & HT & HH & HTstar & Hmu & Hsg & Hcv & Him).
  assert (Hc : nth 0 (nth 0 (cov t) []) 0 = 1e-10).
  { rewrite Hcv. cbn [nT demo_call_novar T_Tgt length seq map nth].
    rewrite useVar0_TgtCov_fin by reflexivity. cbn [Nat.eqb].
    rewrite between_single by reflexivity. apply floor_small_0. }
  assert (Hs : nth 0 (sigma_ln t) 0 = 1e-5).
  { rewrite Hsg. cbn [nT demo_call_novar T_Tgt length seq map nth].
    unfold TgtSigma_fin. rewrite !useVar0_TgtCov_fin by reflexivity.
    cbn [Nat.eqb]. rewrite between_single, floor_small_0 by reflexivity.
    destruct (Np.Rltb 1e-10 0) eqn:E; [apply Rltb_true in E; lra|].
    apply sqrt_1e10. }
  rewrite Hc, Hs. repeat split; try lra. exact Huv'.
Qed.

End NoVarianceExamples.

(** ** Conditioning round trip *)

Section RoundTrip.
Import Target.

Variable gmpe : nat -> R -> R * R.

Lemma fold_left_sum_r {A : Type} (f : A -> R) (l : list A) (acc : R) :
  fold_left (fun s a => f a + s) l acc = acc + Np.sum (map f l).
Proof.
  revert acc. induction l as [|a l IH]; intros acc; cbn [fold_left map].
  - unfold Np.sum; cbn; lra.
  - rewrite IH. change (Np.sum (?x :: ?l)) with (x + Np.sum l). lra.
Qed.

Lemma fold_left_double {A B : Type} (F : A -> B -> R) (l1 : list A)
  (l2 : list B) (acc : R) :
  fold_left (fun acc i => fold_left (fun acc j => acc + F i j) l2 acc) l1 acc
  = acc + Np.sum (map (fun i => Np.sum (map (F i) l2)) l1).
Proof.
  revert acc. induction l1 as [|a l1 IH]; intros acc; cbn [fold_left map].
  - unfold Np.sum; cbn; lra.
  - rewrite IH, fold_left_sum.
    change (Np.sum (?x :: ?l)) with (x + Np.sum l). lra.
Qed.

(** With [ro_xy = 1] the conversion to the arbitrary-component sigma is
    the identity. *)
Lemma sigma_arb_id (s : R) :
  ln (Rpower ((exp s) ^ 2 * (2 / (1 + 1))) 0.5) = s.
Proof.
  replace ((exp s) ^ 2 * (2 / (1 + 1))) with (exp (s + s)).
  - unfold Rpower. rewrite !ln_exp. f_equal. lra.
  - rewrite exp_plus. field.
Qed.

Lemma Sa_avg_mean (n : nat) (Ts : list R) :
  fst (Sa_avg gmpe n Ts)
  = 1 / INR (length Ts) * Np.sum (map (fun t => fst (gmpe n t)) Ts).
Proof.
  unfold Sa_avg. cbn [fst]. rewrite fold_left_Rplus. lra.
Qed.

Lemma Sa_avg_sigma (n : nat) (Ts : list R) :
  snd (Sa_avg gmpe n Ts) = sqrt (avg_var gmpe n Ts).
Proof.
  unfold Sa_avg, avg_var. cbn [snd]. f_equal. f_equal.
  rewrite fold_left_double, Rplus_0_l.
  rewrite <- (map_nth_seq
    (fun t => Np.sum (map (fun u => rho_BJ t u * snd (gmpe n t) * snd (gmpe n u)) Ts))
    Ts 0).
  apply sum_map_ext. intros i Hi. apply in_seq in Hi.
  rewrite <- (map_nth_seq
    (fun u => rho_BJ (nth i Ts 0) u * snd (gmpe n (nth i Ts 0)) * snd (gmpe n u))
    Ts 0).
  apply sum_map_ext. intros j Hj. apply in_seq in Hj.
  set (sg := fun t => ln (Rpower (exp (snd (gmpe n t)) ^ 2 * (2 / (1 + 1))) 0.5)).
  assert (Hn : forall k, (k < length Ts)%nat ->
            nth k (map sg Ts) 0 = snd (gmpe n (nth k Ts 0))).
  { intros k Hk. rewrite (nth_indep _ 0 (sg 0)) by now rewrite length_map.
    rewrite map_nth. apply sigma_arb_id. }
  rewrite !Hn by lia. reflexivity.
Qed.

Lemma rho_AvgSA_SA_closed (n : nat) (t : R) (Ts : list R) :
  rho_AvgSA_SA gmpe n t Ts
  = cross_sum gmpe n t Ts / (INR (length Ts) * sqrt (avg_var gmpe n Ts)).
Proof.
  unfold rho_AvgSA_SA, cross_sum. rewrite fold_left_sum_r, Rplus_0_l.
  now rewrite Sa_avg_sigma.
Qed.

(** The covariances with the sum add up to [m^2] times the variance of
    the average. *)
Lemma cross_sum_total (n : nat) (Ts : list R) :
  Np.sum (map (fun t => cross_sum gmpe n t Ts * snd (gmpe n t)) Ts)
  * (1 / INR (length Ts)) ^ 2
  = avg_var gmpe n Ts.
Proof.
  unfold avg_var, cross_sum. f_equal.
  apply sum_map_ext. intros t _.
  rewrite <- sum_map_scal_r. apply sum_map_ext. intros u _. lra.
Qed.

Lemma where_first_spec (p : R -> bool) (l : list R) (k : nat) :
  Np.where_first p l = Ok k -> (k < length l)%nat /\ p (nth k l 0) = true.
Proof.
  revert k. induction l as [|x l IH]; intros k H; cbn in H; [discriminate|].
  destruct (p x) eqn:Hp.
  - injection H as <-. cbn. split; [lia|exact Hp].
  - apply bind_Ok_inv in H. destruct H as (k' & Hk' & H). injection H as <-.
    destruct (IH _ Hk') as [Hlt Hpk]. cbn. split; [lia|exact Hpk].
Qed.

Lemma cond_indices_spec (grid Ts : list R) (ind : list nat) :
  cond_indices grid Ts = Ok ind ->
  map (fun k => nth k grid 0) ind = Ts
  /\ Forall (fun k => (k < length grid)%nat) ind.
Proof.
  unfold cond_indices. revert ind.
  induction Ts as [|t Ts IH]; intros ind H; cbn [mapM] in H.
  - injection H as <-. split; constructor.
  - apply bind_Ok_inv in H. destruct H as (k & Hk & H).
    apply bind_Ok_inv in H. destruct H as (ks & Hks & H). injection H as <-.
    destruct (IH _ Hks) as [Hm Hf].
    apply where_first_spec in Hk. destruct Hk as [Hlt Heq].
    apply Reqb_true in Heq. cbn [map]. split.
    + now rewrite Heq, Hm.
    + now constructor.
Qed.

Lemma TgtMean_cms (c : call) (Ts : list R) (n i : nat) :
  cond_arg c = 1%nat -> epsilon c = None ->
  TgtMean gmpe c Ts n i = cms gmpe c Ts n (nth i (T_Tgt c) 0).
Proof.
  intros Hc He. unfold TgtMean, rho_T_Tstar, rup_eps, mu_lnSaT, sigma_lnSaT, cms.
  now rewrite Hc, He.
Qed.

(** Summed over the conditioning periods, the conditional mean of one
    scenario is [m] times the logarithm of the target level. *)
Lemma cms_sum (c : call) (Ts : list R) (n : nat) :
  0 < snd (Sa_avg gmpe n Ts) ->
  Np.sum (map (cms gmpe c Ts n) Ts) = INR (length Ts) * ln (im_Tstar_arg c).
Proof.
  intros HS. rewrite Sa_avg_sigma in HS.
  assert (HV : 0 < avg_var gmpe n Ts).
  { destruct (Rlt_dec 0 (avg_var gmpe n Ts)) as [|Hn]; [assumption|].
    rewrite sqrt_neg_0 in HS by lra. lra. }
  assert (Hm : 0 < INR (length Ts)).
  { destruct Ts as [|t0 Ts']; [|apply lt_0_INR; cbn; lia].
    unfold avg_var in HV. cbn in HV. lra. }
  set (m := INR (length Ts)) in *.
  set (S := sqrt (avg_var gmpe n Ts)) in *.
  set (L := ln (im_Tstar_arg c)).
  set (A := Np.sum (map (fun t => fst (gmpe n t)) Ts)).
  set (D := Np.sum (map (fun t => cross_sum gmpe n t Ts * snd (gmpe n t)) Ts)).
  assert (HSS : S * S = avg_var gmpe n Ts) by (apply sqrt_sqrt; lra).
  assert (HD : D * (1 / m) ^ 2 = S * S).
  { rewrite HSS. apply cross_sum_total. }
  assert (HDm : D = m * m * (S * S)).
  { rewrite <- HD. field. lra. }
  transitivity (A + ((L - 1 / m * A) / S / (m * S)) * D).
  - unfold A, D. rewrite <- sum_map_scal_l, <- sum_map_plus.
    apply sum_map_ext. intros t _. unfold cms.
    rewrite rho_AvgSA_SA_closed, Sa_avg_mean, Sa_avg_sigma.
    fold m S L A. field. lra.
  - rewrite HDm. field. lra.
Qed.

Lemma sum_take_map (f : nat -> R) (n : nat) (ind : list nat) :
  Forall (fun k => (k < n)%nat) ind ->
  Np.sum (Np.take ind (map f (seq 0 n))) = Np.sum (map f ind).
Proof.
  intros HF. unfold Np.take. apply sum_map_ext. intros k Hk.
  rewrite Forall_forall in HF. now apply nth_map_seq, HF.
Qed.

(** The combined mean summed over the conditioning indices. *)
Lemma mu_ln_cond_sum (c : call) (Ts : list R) (ind : list nat) :
  cond_arg c = 1%nat -> epsilon c = None ->
  cond_indices (T_Tgt c) Ts = Ok ind ->
  (forall n, (n < nScenarios c)%nat -> 0 < snd (Sa_avg gmpe n Ts)) ->
  Np.sum (Np.take ind (mu_ln_fin gmpe c Ts))
  = INR (length Ts) * ln (im_Tstar_arg c)
    * Np.sum (map (fun n => nth n (Hcont_self c) 0) (seq 0 (nScenarios c))).
Proof.
  intros Hc He Hind Hpos.
  destruct (cond_indices_spec _ _ _ Hind) as [Hmap HF].
  unfold mu_ln_fin. rewrite sum_take_map by exact HF.
  unfold TgtMean_fin. rewrite sum_swap.
  rewrite <- sum_map_scal_l. apply sum_map_ext. intros n Hn. apply in_seq in Hn.
  rewrite sum_map_scal_r. f_equal.
  rewrite <- (cms_sum c Ts n) by (apply Hpos; lia).
  transitivity (Np.sum (map (cms gmpe c Ts n) (map (fun k => nth k (T_Tgt c) 0) ind)));
    [|now rewrite Hmap].
  rewrite map_map. apply sum_map_ext. intros k _. now apply TgtMean_cms.
Qed.

End RoundTrip.

Section RoundTripClaim.
Import Target Demo.

(** C6.  For a conditional target whose epsilon is back-calculated, with
    hazard weights (one per scenario) summing to 1, a positive target
    level and a positive average-IM sigma in every scenario, the
    exponential of the mean of [mu_ln] over the conditioning indices is the
    target level [im_Tstar] (in exact arithmetic), which is also the level
    stored on the object. *)
Theorem C6_conditioning_round_trip (gmpe : nat -> R -> R * R) (c : call)
  (t : target) (Ts : list R) (ind : list nat)
  (Hcond : cond_arg c = 1%nat) (Heps : epsilon c = None)
  (Him : 0 < im_Tstar_arg c)
  (Hcreate : create gmpe c = Ok t)
  (Hlen : length (Hcont t) = nScenarios c)
  (Hsum : Np.sum (Hcont t) = 1)
  (HTs : Tstar t = Some Ts)
  (Hsig : forall n, (n < nScenarios c)%nat -> 0 < snd (Sa_avg gmpe n Ts))
  (Hind : cond_indices (T t) Ts = Ok ind) :
  exp (Np.sum (Np.take ind (mu_ln t)) / INR (length Ts)) = im_Tstar_arg c
  /\ im_Tstar t = Some (im_Tstar_arg c).
Proof.
  pose proof (create_Ok_inv gmpe _ _ Hcreate)
    as (Ts' & HTs' & HnS & Hcnd & Huv & HT & HH & HTstar & Hmu & Hsg & Hcv & Hi).
  rewrite Hcond in HTstar, Hi. cbn [Nat.eqb] in HTstar, Hi.
  rewrite Heps in Hi. rewrite HTs in HTstar. injection HTstar as <-.
  split; [|now injection Hi as <-].
  rewrite HT in Hind. rewrite HH in Hlen, Hsum.
  rewrite Hmu, (mu_ln_cond_sum gmpe c Ts ind Hcond Heps Hind Hsig).
  rewrite <- Hlen, (map_nth_seq (fun x => x) (Hcont_self c) 0), map_id, Hsum.
  assert (Hm : 0 < INR (length Ts)).
  { destruct Ts as [|t0 Ts0]; [|apply lt_0_INR; cbn; lia].
    assert (H0 : (0 < nScenarios c)%nat) by lia.
    specialize (Hsig _ H0). rewrite Sa_avg_sigma in Hsig.
    unfold avg_var in Hsig. cbn in Hsig. rewrite Rmult_0_l, sqrt_0 in Hsig. lra. }
  replace (INR (length Ts) * ln (im_Tstar_arg c) * 1 / INR (length Ts))
    with (ln (im_Tstar_arg c)) by (field; lra).
  now apply exp_ln.
Qed.

Lemma demo_Sa_avg_sigma (n : nat) : snd (Sa_avg demo_gmpe n [1]) = 1.
Proof.
  rewrite Sa_avg_sigma. unfold avg_var, demo_gmpe, rho_BJ.
  cbn [map Np.sum fold_right snd length INR]. rewrite rho_value_diag.
  replace ((1 * 1 * 1 + 0 + 0) * (1 / 1) ^ 2) with 1 by lra.
  apply sqrt_1.
Qed.

Lemma C6_conditioning_round_trip_witness :
  exists t,
    create demo_gmpe demo_call_cond = Ok t
    /\ exp (Np.sum (Np.take [O] (mu_ln t)) / INR 1) = 2
    /\ im_Tstar t = Some 2.
Proof.
  assert (H : exists t, create demo_gmpe demo_call_cond = Ok t).
  { unfold create, Tstar_self, demo_call_cond.
    cbn [length Nat.eqb bind T_Tgt Tstar0 nScenarios cond_arg epsilon].
    eexists. reflexivity. }
  destruct H as [t Ht]. exists t. split; [exact Ht|].
  assert (Hc : cond_indices [1] [1] = Ok [O]).
  { unfold cond_indices. cbn [mapM Np.where_first].
    rewrite Reqb_refl. reflexivity. }
  pose proof (create_Ok_inv demo_gmpe _ _ Ht)
    as (Ts' & HTs' & HnS & Hcnd & Huv & HT & HH & HTstar & _).
  cbn in HTs'. injection HTs' as <-.
  apply (C6_conditioning_round_trip demo_gmpe demo_call_cond t [1] [O]);
    try reflexivity; try assumption.
  - cbn. lra.
  - now rewrite HH.
  - rewrite HH. cbn. lra.
  - intros n _. rewrite demo_Sa_avg_sigma. lra.
  - now rewrite HT.
Defined.

End RoundTripClaim.

(** ** Array updates, minima and loops *)

Section LoopFacts.

Lemma length_upd {A : Type} (i : nat) (v : A) (l : list A) :
  length (Np.upd i v l) = length l.
Proof.
  revert i. induction l as [|x l IH]; intros [|i]; cbn; auto.
Qed.

Lemma nth_upd_eq {A : Type} (i : nat) (v d : A) (l : list A) :
  (i < length l)%nat -> nth i (Np.upd i v l) d = v.
Proof.
  revert i. induction l as [|x l IH]; intros [|i] H; cbn in *; try lia; auto.
  apply IH. lia.
Qed.

Lemma nth_upd_neq {A : Type} (i j : nat) (v d : A) (l : list A) :
  i <> j -> nth j (Np.upd i v l) d = nth j l d.
Proof.
  revert i j. induction l as [|x l IH]; intros [|i] [|j] H; cbn; auto; try lia.
Qed.

Lemma firstn_S_upd {A : Type} (i : nat) (v : A) (l : list A) :
  (i < length l)%nat -> firstn (S i) (Np.upd i v l) = firstn i l ++ [v].
Proof.
  revert i. induction l as [|x l IH]; intros [|i] H; cbn in *; try lia; auto.
  f_equal. apply IH. lia.
Qed.

Lemma min_spec (l : list R) :
  l <> [] -> exists m, Np.min l = Ok m /\ In m l /\ forall x, In x l -> m <= x.
Proof.
  induction l as [|x l IH]; intros Hne; [congruence|].
  destruct l as [|y l].
  - exists x. cbn. repeat split; auto. intros z [<-|[]]. lra.
  - destruct IH as (m & Hm & Hin & Hle); [discriminate|].
    exists (Rmin x m). change (Np.min (x :: y :: l))
      with (m0 <- Np.min (y :: l) ;; Ok (Rmin x m0)).
    rewrite Hm. cbn [bind]. split; [reflexivity|]. split.
    + unfold Rmin. destruct (Rle_dec x m); [now left|now right].
    + intros z [<-|Hz]; [apply Rmin_l|].
      apply Rle_trans with m; [apply Rmin_r|now apply Hle].
Qed.

Lemma argmin_from_spec (pre l : list R) (best : nat) :
  (best < length pre)%nat ->
  (forall x, In x pre -> nth best pre 0 <= x) ->
  let r := Np.argmin_from best (nth best pre 0) (length pre) l in
  (r < length (pre ++ l))%nat
  /\ forall x, In x (pre ++ l) -> nth r (pre ++ l) 0 <= x.
Proof.
  revert pre best. induction l as [|y l IH]; intros pre best Hb Hmin; cbn zeta.
  - cbn [Np.argmin_from]. rewrite app_nil_r. auto.
  - cbn [Np.argmin_from].
    assert (Hsplit : pre ++ y :: l = (pre ++ [y]) ++ l) by now rewrite <- app_assoc.
    assert (Hlen : length (pre ++ [y]) = S (length pre)).
    { rewrite length_app. cbn. lia. }
    destruct (Np.Rltb y (nth best pre 0)) eqn:E.
    + apply Rltb_true in E.
      assert (Hy : nth (length pre) (pre ++ [y]) 0 = y).
      { rewrite app_nth2 by lia. now rewrite Nat.sub_diag. }
      specialize (IH (pre ++ [y]) (length pre)).
      rewrite Hy, Hlen in IH. rewrite Hsplit. apply IH; [lia|].
      intros x Hx. apply in_app_or in Hx. destruct Hx as [Hx|[<-|[]]]; [|lra].
      specialize (Hmin _ Hx). lra.
    + apply Rltb_false in E.
      assert (Hy : nth best (pre ++ [y]) 0 = nth best pre 0).
      { now rewrite app_nth1. }
      specialize (IH (pre ++ [y]) best).
      rewrite Hy, Hlen in IH. rewrite Hsplit. apply IH; [lia|].
      intros x Hx. apply in_app_or in Hx. destruct Hx as [Hx|[<-|[]]]; [|lra].
      now apply Hmin.
Qed.

Lemma argmin_spec (l : list R) :
  l <> [] ->
  exists r, Np.argmin l = Ok r /\ (r < length l)%nat
            /\ forall x, In x l -> nth r l 0 <= x.
Proof.
  destruct l as [|x l]; [congruence|]. intros _.
  exists (Np.argmin_from O x 1%nat l). split; [reflexivity|].
  apply (argmin_from_spec [x] l O); cbn; [lia|].
  intros z [<-|[]]. lra.
Qed.

(** The minimum is the value at the index [argmin] returns. *)
Lemma argmin_min (l : list R) (r : nat) (m : R) :
  Np.argmin l = Ok r -> Np.min l = Ok m -> (r < length l)%nat /\ nth r l 0 = m.
Proof.
  intros Hr Hm.
  assert (Hne : l <> []) by (intros ->; discriminate).
  destruct (argmin_spec l Hne) as (r' & Hr' & Hlt & Hle).
  destruct (min_spec l Hne) as (m' & Hm' & Hin & Hle').
  rewrite Hr in Hr'. injection Hr' as <-. rewrite Hm in Hm'. injection Hm' as <-.
  split; [assumption|].
  assert (nth r l 0 <= m) by now apply Hle.
  assert (m <= nth r l 0) by (apply Hle', nth_In; assumption).
  lra.
Qed.

(** Induction over a [for i in range(a, a + n)] loop. *)
Lemma for_each_seq_ind {S : Type} (body : S -> nat -> res S)
  (P : nat -> S -> Prop) (a n : nat) (s s' : S) :
  P a s ->
  (forall i x y, (a <= i < a + n)%nat -> P i x -> body x i = Ok y -> P (Datatypes.S i) y) ->
  Selector.for_each body (seq a n) s = Ok s' ->
  P (a + n)%nat s'.
Proof.
  revert a s. induction n as [|n IH]; intros a s HP Hstep Hrun; cbn in Hrun.
  - injection Hrun as <-. now rewrite Nat.add_0_r.
  - apply bind_Ok_inv in Hrun. destruct Hrun as (s1 & Hs1 & Hrun).
    replace (a + Datatypes.S n)%nat with (Datatypes.S a + n)%nat by lia.
    apply (IH (Datatypes.S a) s1).
    + apply (Hstep a s s1); [lia|assumption|assumption].
    + intros i x y Hi. apply Hstep. lia.
    + exact Hrun.
Qed.

End LoopFacts.

(** ** Phase 1 *)

Section Phase1Facts.
Import Target Selector.

Variable tgt : target.
Variable cfg : config.
Variable sim_spec sampleBig : list (list R).
Variable ind1 : list nat.
Variable im : R.

Local Abbreviation nBig := (nBig sampleBig).
Local Abbreviation nT := (nT tgt).
Local Abbreviation big := (big sampleBig).
Local Abbreviation scaleFac1 := (scaleFac1 tgt cfg sim_spec sampleBig ind1 im).
Local Abbreviation err1 := (err1 tgt cfg sim_spec sampleBig ind1 im).
Local Abbreviation phase1_row := (phase1_row tgt cfg sim_spec sampleBig ind1 im).
Local Abbreviation phase1 := (phase1 tgt cfg sim_spec sampleBig ind1 im).
Local Abbreviation phase1_inv :=
  (Invariant.phase1_inv tgt cfg sim_spec sampleBig ind1 im).

Lemma In_firstn {A : Type} (n : nat) (l : list A) (x : A) :
  In x (firstn n l) -> In x l.
Proof.
  revert l. induction n as [|n IH]; intros [|y l] H; cbn in *; try contradiction.
  destruct H as [H|H]; [now left|right; now apply IH].
Qed.

Lemma selected_true (ids : list Z) (j : nat) :
  selected ids j = true <-> In (Z.of_nat j) ids.
Proof.
  unfold selected. rewrite existsb_exists. split.
  - intros (x & Hx & He). apply Z.eqb_eq in He. now subst.
  - intros H. exists (Z.of_nat j). split; [assumption|apply Z.eqb_refl].
Qed.

Lemma selected_false (ids : list Z) (j : nat) :
  selected ids j = false <-> ~ In (Z.of_nat j) ids.
Proof.
  rewrite <- selected_true. destruct (selected ids j); split; intros; congruence.
Qed.

(** Excluded candidates get the error 10^6. *)
Lemma err1_excluded (ids : list Z) (i j : nat) :
  selected ids j = true \/ maxScale cfg < scaleFac1 i j ->
  err1 ids i j = 1000000.
Proof.
  intros H. unfold Selector.err1.
  destruct (selected ids j); [reflexivity|].
  destruct H as [H|H]; [discriminate|].
  apply Rltb_true in H. now rewrite H.
Qed.

Lemma err1_admissible (ids : list Z) (i j : nat) :
  err1 ids i j <> 1000000 ->
  selected ids j = false /\ Np.Rltb (maxScale cfg) (scaleFac1 i j) = false.
Proof.
  unfold Selector.err1. intros H.
  destruct (selected ids j); [now cbn in H|].
  destruct (Np.Rltb (maxScale cfg) (scaleFac1 i j)); [now cbn in H|]. auto.
Qed.

Lemma err_list_nth (ids : list Z) (i j : nat) :
  (j < nBig)%nat -> nth j (map (err1 ids i) (seq 0 nBig)) 0 = err1 ids i j.
Proof. apply nth_map_seq. Qed.

(** Outcome of one row of Phase 1. *)
Lemma phase1_row_cases (st : state) (i : nat) :
  let err := map (err1 (recID st) i) (seq 0 nBig) in
  (nBig = O /\ phase1_row st i = Raise IndexError)
  \/ (exists r m,
        (0 < nBig)%nat /\ Np.argmin err = Ok r /\ Np.min err = Ok m
        /\ (r < nBig)%nat /\ err1 (recID st) i r = m
        /\ (forall j, (j < nBig)%nat -> m <= err1 (recID st) i j)
        /\ ((1000000 <= m /\ phase1_row st i = Raise SystemExit)
            \/ (m < 1000000
                /\ exists st', phase1_row st i = Ok st'
                     /\ recID st' = Np.upd i (Z.of_nat r) (recID st)))).
Proof.
  cbn zeta. unfold Selector.phase1_row.
  set (err := map (err1 (recID st) i) (seq 0 nBig)).
  destruct (Nat.eq_dec nBig 0) as [H0|H0].
  - left. split; [assumption|]. unfold err. rewrite H0. reflexivity.
  - right.
    assert (Hlen : length err = nBig) by (unfold err; now rewrite length_map, length_seq).
    assert (Hne : err <> []) by (intros E; rewrite E in Hlen; cbn in Hlen; lia).
    destruct (argmin_spec err Hne) as (r & Hr & Hlt & Hle).
    destruct (min_spec err Hne) as (m & Hm & Hin & Hle').
    destruct (argmin_min err r m Hr Hm) as [_ Hv].
    exists r, m. rewrite Hr, Hm. cbn [bind].
    rewrite Hlen in Hlt. unfold err in Hv. rewrite err_list_nth in Hv by assumption.
    repeat (split; [first [assumption|reflexivity|lia]|]).
    split.
    + intros j Hj. apply Hle'. unfold err.
      rewrite <- (err_list_nth (recID st) i j Hj). apply nth_In.
      now rewrite length_map, length_seq.
    + destruct (Np.Rleb 1000000 m) eqn:E.
      * apply Rleb_true in E. now left.
      * apply Rleb_false in E. right. split; [assumption|].
        eexists. split; reflexivity.
Qed.

Lemma phase1_inv_init : phase1_inv 0 (init_state tgt cfg).
Proof.
  unfold Invariant.phase1_inv, init_state.
  cbn [recID finalScaleFac sampleSmall minID firstn].
  rewrite !repeat_length.
  repeat (split; [reflexivity|]).
  split; [|split; [|split; [constructor|intros i Hi; lia]]].
  - intros i _. destruct (Nat.lt_ge_cases i (nGM cfg)).
    + now rewrite nth_repeat_lt.
    + now rewrite nth_overflow by now rewrite repeat_length.
  - intros i _. destruct (Nat.lt_ge_cases i (nGM cfg)).
    + now rewrite nth_repeat_lt.
    + now rewrite nth_overflow by now rewrite repeat_length.
Qed.

Lemma scaleFac1_unscaled (i j : nat) :
  isScaled cfg <> 1%nat -> scaleFac1 i j = 1.
Proof.
  intros H. unfold Selector.scaleFac1.
  destruct (Nat.eqb_spec (isScaled cfg) 1); [contradiction|reflexivity].
Qed.

Lemma phase1_inv_step (k : nat) (st st' : state) :
  (k < nGM cfg)%nat -> phase1_inv k st -> phase1_row st k = Ok st' ->
  phase1_inv (S k) st'.
Proof.
  intros Hk (Hl1 & Hl2 & Hl3 & Hmin & Hrest & Hones & Hnd & Hsel) Hrow.
  destruct (phase1_row_cases st k) as [[_ Hr]|(r & m & Hpos & Har & Hmn & Hlt & Hv & Hle & Hc)];
    [congruence|].
  destruct Hc as [[_ Hr]|(Hm & st1 & Hst1 & _)]; [congruence|].
  clear st1 Hst1.
  assert (Hadm : selected (recID st) r = false
                 /\ Np.Rltb (maxScale cfg) (scaleFac1 k r) = false).
  { apply err1_admissible. lra. }
  destruct Hadm as [Hns Hsc]. apply selected_false in Hns.
  unfold Selector.phase1_row in Hrow. rewrite Har, Hmn in Hrow. cbn [bind] in Hrow.
  destruct (Np.Rleb 1000000 m) eqn:E; [discriminate|].
  injection Hrow as <-. unfold Invariant.phase1_inv.
  cbn [recID finalScaleFac sampleSmall minID].
  set (fs := if (isScaled cfg =? 1)%nat
             then Np.upd k (scaleFac1 k r) (finalScaleFac st)
             else finalScaleFac st).
  assert (Hfs_len : length fs = nGM cfg).
  { unfold fs. destruct (isScaled cfg =? 1)%nat; [rewrite length_upd|]; assumption. }
  assert (Hfs_k : nth k fs 1 = scaleFac1 k r).
  { unfold fs. destruct (Nat.eqb_spec (isScaled cfg) 1) as [Hs|Hs].
    - apply nth_upd_eq. lia.
    - rewrite scaleFac1_unscaled by assumption. apply Hones. lia. }
  assert (Hfs_other : forall i, i <> k -> nth i fs 1 = nth i (finalScaleFac st) 1).
  { intros i Hi. unfold fs. destruct (isScaled cfg =? 1)%nat; [|reflexivity].
    apply nth_upd_neq. lia. }
  rewrite !length_upd.
  repeat (split; [assumption|]).
  split; [|split; [|split]].
  - intros i Hi. rewrite nth_upd_neq by lia. apply Hrest. lia.
  - intros i Hi. rewrite Hfs_other by lia. apply Hones. lia.
  - rewrite firstn_S_upd by lia. apply NoDup_app; [assumption|repeat constructor; auto|].
    intros x Hx [<-|[]]. apply Hns. eapply In_firstn; eassumption.
  - intros i Hi. destruct (Nat.eq_dec i k) as [->|Hne].
    + exists r. rewrite !nth_upd_eq by lia.
      repeat (split; [first [assumption|reflexivity]|]).
      rewrite (nth_indep fs 0 1) by lia. now rewrite Hfs_k.
    + destruct (Hsel i) as (r' & H1 & H2 & H3 & H4 & H5); [lia|].
      exists r'. rewrite !nth_upd_neq by lia. rewrite Hfs_other by assumption.
      auto.
Qed.

Lemma phase1_inv_final (st : state) :
  phase1 = Ok st -> phase1_inv (nGM cfg) st.
Proof.
  intros H. apply (for_each_seq_ind phase1_row phase1_inv 0 (nGM cfg) (init_state tgt cfg) st).
  - apply phase1_inv_init.
  - intros i x y Hi. apply phase1_inv_step. lia.
  - exact H.
Qed.

(** Phase 1 stops with [sys.exit()] unless the pool is empty. *)
Lemma phase1_rows_raise (l : list nat) (st : state) (e : exn) :
  (0 < nBig)%nat -> for_each phase1_row l st = Raise e -> e = SystemExit.
Proof.
  intros Hpos. revert st. induction l as [|i l IH]; intros st H; cbn in H.
  - discriminate.
  - destruct (phase1_row st i) as [st1|e1] eqn:Hrow; cbn [bind] in H.
    + now apply (IH st1).
    + injection H as <-.
      destruct (phase1_row_cases st i) as [[H0 _]|(r & m & _ & _ & _ & _ & _ & _ & Hc)];
        [lia|].
      destruct Hc as [[_ Hr]|(_ & st1 & Hst1 & _)]; congruence.
Qed.

Lemma phase1_selected_usable (st : state) :
  phase1 = Ok st ->
  length (recID st) = nGM cfg /\ NoDup (recID st)
  /\ incl (recID st)
          (map Z.of_nat (Invariant.usable tgt cfg sim_spec sampleBig ind1 im)).
Proof.
  intros H. apply phase1_inv_final in H.
  destruct H as (Hl1 & Hl2 & Hl3 & Hmin & Hrest & Hones & Hnd & Hsel).
  split; [assumption|]. split.
  - rewrite <- Hl1, firstn_all in Hnd. exact Hnd.
  - intros x Hx. apply (In_nth _ _ (-1)%Z) in Hx. destruct Hx as (i & Hi & <-).
    destruct (Hsel i) as (r & -> & Hr & Hsc & _); [lia|].
    apply in_map. unfold Invariant.usable. apply filter_In. split.
    + apply in_seq. lia.
    + apply existsb_exists. exists i. split; [apply in_seq; lia|].
      now rewrite Hsc.
Qed.

End Phase1Facts.

Section Phase1Claim.
Import Target Selector Demo.

(** C5 (as amended).  In Phase 1 a candidate that is already selected
    or whose scale factor exceeds [maxScale] gets the error 10^6; on a
    pool that is not empty the row takes a candidate of minimum error and
    the run stops with [sys.exit()] exactly when that minimum is at least
    10^6; on an empty pool there is no candidate to take and the row stops
    with [IndexError] before that test.  When fewer records than [nGM] are
    usable under the scaling limit Phase 1 never returns a selection,
    short or not: it raises, with [sys.exit()] unless the pool is empty. *)
Theorem C5_phase1_exclusion_and_failure (tgt : target) (cfg : config)
  (sim_spec sampleBig : list (list R)) (ind1 : list nat) (im : R) :
  (forall ids i j,
      selected ids j = true
      \/ maxScale cfg < scaleFac1 tgt cfg sim_spec sampleBig ind1 im i j ->
      err1 tgt cfg sim_spec sampleBig ind1 im ids i j = 1000000)
  /\ (forall st i, (0 < nBig sampleBig)%nat ->
        let err := map (err1 tgt cfg sim_spec sampleBig ind1 im (recID st) i)
                       (seq 0 (nBig sampleBig)) in
        exists r m,
          Np.argmin err = Ok r /\ Np.min err = Ok m /\ (r < nBig sampleBig)%nat
          /\ err1 tgt cfg sim_spec sampleBig ind1 im (recID st) i r = m
          /\ (forall j, (j < nBig sampleBig)%nat ->
                m <= err1 tgt cfg sim_spec sampleBig ind1 im (recID st) i j)
          /\ (phase1_row tgt cfg sim_spec sampleBig ind1 im st i = Raise SystemExit
              <-> 1000000 <= m)
          /\ (m < 1000000 ->
              exists st',
                phase1_row tgt cfg sim_spec sampleBig ind1 im st i = Ok st'
                /\ recID st' = Np.upd i (Z.of_nat r) (recID st)))
  /\ (forall st i, nBig sampleBig = O ->
        phase1_row tgt cfg sim_spec sampleBig ind1 im st i = Raise IndexError)
  /\ ((length (Invariant.usable tgt cfg sim_spec sampleBig ind1 im) < nGM cfg)%nat ->
      exists e,
        phase1 tgt cfg sim_spec sampleBig ind1 im = Raise e
        /\ ((0 < nBig sampleBig)%nat -> e = SystemExit)).
Proof.
  split; [|split; [|split]].
  - apply err1_excluded.
  - intros st i Hpos.
    destruct (phase1_row_cases tgt cfg sim_spec sampleBig ind1 im st i)
      as [[H0 _]|(r & m & _ & Har & Hmn & Hlt & Hv & Hle & Hc)]; [lia|].
    exists r, m. repeat (split; [assumption|]).
    destruct Hc as [[Hm Hr]|(Hm & st1 & Hst1 & Hid)]; split.
    + split; auto.
    + intros Hm'. lra.
    + split; [congruence|lra].
    + intros _. now exists st1.
  - intros st i H0.
    destruct (phase1_row_cases tgt cfg sim_spec sampleBig ind1 im st i)
      as [[_ Hr]|(r & m & Hpos & _)]; [exact Hr|lia].
  - intros Hshort.
    destruct (phase1 tgt cfg sim_spec sampleBig ind1 im) as [st|e] eqn:Hrun.
    + destruct (phase1_selected_usable _ _ _ _ _ _ _ Hrun) as (Hlen & Hnd & Hincl).
      pose proof (NoDup_incl_length Hnd Hincl) as Hle.
      rewrite length_map in Hle. lia.
    + exists e. split; [reflexivity|]. intros Hpos.
      now apply (phase1_rows_raise tgt cfg sim_spec sampleBig ind1 im
                   (seq 0 (nGM cfg)) (init_state tgt cfg)).
Qed.

Lemma C5_phase1_exclusion_and_failure_witness :
  exists e, phase1 demo_target demo_cfg_short [[0]; [0]] [[0]] [] 0 = Raise e
            /\ e = SystemExit.
Proof.
  destruct (C5_phase1_exclusion_and_failure demo_target demo_cfg_short
              [[0]; [0]] [[0]] [] 0) as (_ & _ & _ & H).
  destruct H as (e & He & Hx).
  - unfold Invariant.usable. cbn [nBig length seq filter].
    match goal with |- context [if ?b then _ else _] => destruct b end; cbn; lia.
  - exists e. split; [exact He|]. apply Hx. cbn. lia.
Defined.

(** C5 as stated fails on the empty pool: no record is usable, fewer
    than [nGM], but what stops the run is the [IndexError] of
    [np.argsort(err)[0]], not the fatal exit of the 10^6 test. *)
Lemma C5_phase1_empty_pool_counterexample :
  lt (length (Invariant.usable demo_target demo_cfg_short [[0]; [0]] [] [] 0))
     (nGM demo_cfg_short)
  /\ phase1 demo_target demo_cfg_short [[0]; [0]] [] [] 0 = Raise IndexError
  /\ select demo_target demo_cfg_short [[0]; [0]] [] = Raise IndexError
  /\ Raise IndexError <> @Raise state SystemExit.
Proof.
  split; [cbn; lia|]. split; [reflexivity|]. split; [reflexivity|discriminate].
Qed.

End Phase1Claim.

(** ** The scale factor of Phase 2 *)

Section ScaleFactor.
Import Target Selector Invariant Demo.

Lemma sum_sq_expand {A : Type} (a b : A -> R) (s : R) (l : list A) :
  Np.sum (map (fun k => (s * a k - b k) ^ 2) l)
  = s * s * Np.sum (map (fun k => a k ^ 2) l)
    - 2 * s * Np.sum (map (fun k => a k * b k) l)
    + Np.sum (map (fun k => b k ^ 2) l).
Proof.
  unfold Np.sum. induction l as [|k l IH]; cbn [map fold_right]; [lra|].
  rewrite IH. ring.
Qed.

(** The quotient used in unconditional mode minimises the squared error
    between the scaled record and the reference spectrum (both in linear
    units). *)
Lemma lsq_optimal {A : Type} (a b : A -> R) (l : list A) (s : R) :
  0 < Np.sum (map (fun k => a k ^ 2) l) ->
  let s0 := Np.sum (map (fun k => a k * b k) l)
            / Np.sum (map (fun k => a k ^ 2) l) in
  Np.sum (map (fun k => (s0 * a k - b k) ^ 2) l)
  <= Np.sum (map (fun k => (s * a k - b k) ^ 2) l).
Proof.
  intros HA s0. rewrite !sum_sq_expand.
  set (SA := Np.sum (map (fun k => a k ^ 2) l)) in *.
  set (SC := Np.sum (map (fun k => a k * b k) l)) in *.
  assert (HC : SC = s0 * SA) by (unfold s0; field; lra).
  rewrite HC.
  assert (0 <= SA * ((s - s0) * (s - s0))).
  { apply Rmult_le_pos; [lra|]. apply Rle_0_sqr. }
  lra.
Qed.

Lemma sum_exp_sq_pos (f : nat -> R) (n : nat) :
  (0 < n)%nat -> 0 < Np.sum (map (fun k => exp (f k) ^ 2) (seq 0 n)).
Proof.
  intros Hn. destruct n as [|n]; [lia|].
  cbn [seq map]. change (Np.sum (?x :: ?l)) with (x + Np.sum l).
  assert (0 <= Np.sum (map (fun k => exp (f k) ^ 2) (seq 1 n))).
  { apply sum_map_nonneg. intros k _. apply pow2_ge_0. }
  pose proof (exp_pos (f O)). nra.
Qed.

(** C1 (as amended).  In every Phase 2 pass the replacement scale factor
    of record [j] for slot [i] is computed by exactly the rule of Phase 1:
    in conditional mode the stored conditioning level over the record's
    own average IM over T*, in unconditional mode the least-squares scalar
    with respect to simulated row [i] (not the target statistics), which
    minimises the squared error between the scaled record and that row. *)
Theorem C1_phase2_scale_factor (tgt : target) (cfg : config)
  (sim_spec sampleBig : list (list R)) (ind1 : list nat) (im : R) (i j : nat) :
  scaleFac2 tgt cfg sim_spec sampleBig ind1 im i j
  = scaleFac1 tgt cfg sim_spec sampleBig ind1 im i j
  /\ (isScaled cfg = 1%nat -> cond tgt = 1%nat ->
      scaleFac2 tgt cfg sim_spec sampleBig ind1 im i j
      = im / exp (Np.sum (Np.take ind1 (nth j sampleBig [])) / INR (lenTstar tgt)))
  /\ (isScaled cfg = 1%nat -> cond tgt = 0%nat ->
      scaleFac2 tgt cfg sim_spec sampleBig ind1 im i j
      = Np.sum (map (fun k => exp (big sampleBig j k) * exp (sim sim_spec i k))
                    (seq 0 (nT tgt)))
        / Np.sum (map (fun k => exp (big sampleBig j k) ^ 2) (seq 0 (nT tgt)))
      /\ ((0 < nT tgt)%nat -> forall s,
            Np.sum (map (fun k =>
                      (scaleFac2 tgt cfg sim_spec sampleBig ind1 im i j
                       * exp (big sampleBig j k) - exp (sim sim_spec i k)) ^ 2)
                    (seq 0 (nT tgt)))
            <= Np.sum (map (fun k =>
                         (s * exp (big sampleBig j k) - exp (sim sim_spec i k)) ^ 2)
                       (seq 0 (nT tgt))))).
Proof.
  split; [reflexivity|]. split.
  - intros Hs Hc. unfold scaleFac2. now rewrite Hs, Hc.
  - intros Hs Hc.
    assert (E : scaleFac2 tgt cfg sim_spec sampleBig ind1 im i j
                = Np.sum (map (fun k => exp (big sampleBig j k) * exp (sim sim_spec i k))
                              (seq 0 (nT tgt)))
                  / Np.sum (map (fun k => exp (big sampleBig j k) ^ 2) (seq 0 (nT tgt)))).
    { unfold scaleFac2. now rewrite Hs, Hc. }
    split; [exact E|]. intros HnT s. rewrite E.
    apply (lsq_optimal (fun k => exp (big sampleBig j k))
                       (fun k => exp (sim sim_spec i k))).
    now apply sum_exp_sq_pos.
Qed.

(** C1 as stated fails in unconditional mode: with target mean [ln 1],
    simulated row [ln 2] and a record of spectrum 1 the code scales by 2
    (towards the simulated row) where the target would give 1. *)
Lemma C1_phase2_scale_factor_counterexample :
  scaleFac2 demo_target demo_cfg_scaled [[ln 2]] [[0]] [] 0 0 0 = 2
  /\ scaleFac2_target_spec demo_target demo_cfg_scaled [[0]] [] 0 0 = 1
  /\ scaleFac2 demo_target demo_cfg_scaled [[ln 2]] [[0]] [] 0 0 0
     <> scaleFac2_target_spec demo_target demo_cfg_scaled [[0]] [] 0 0.
Proof.
  assert (H2 : scaleFac2 demo_target demo_cfg_scaled [[ln 2]] [[0]] [] 0 0 0 = 2).
  { unfold scaleFac2, big, sim. cbn. rewrite exp_0, exp_ln by lra. field. }
  assert (H1 : scaleFac2_target_spec demo_target demo_cfg_scaled [[0]] [] 0 0 = 1).
  { unfold scaleFac2_target_spec, big. cbn. rewrite exp_0. field. }
  rewrite H2, H1. repeat split; lra.
Qed.

Lemma C1_phase2_scale_factor_witness :
  scaleFac2 demo_target demo_cfg_scaled [[ln 2]] [[0]] [] 0 0 0
  = scaleFac1 demo_target demo_cfg_scaled [[ln 2]] [[0]] [] 0 0 0
  /\ forall s,
       Np.sum (map (fun k =>
                 (scaleFac2 demo_target demo_cfg_scaled [[ln 2]] [[0]] [] 0 0 0
                  * exp (big [[0]] 0 k) - exp (sim [[ln 2]] 0 k)) ^ 2)
               (seq 0 (nT demo_target)))
       <= Np.sum (map (fun k => (s * exp (big [[0]] 0 k) - exp (sim [[ln 2]] 0 k)) ^ 2)
                      (seq 0 (nT demo_target))).
Proof.
  destruct (C1_phase2_scale_factor demo_target demo_cfg_scaled [[ln 2]] [[0]] [] 0 0 0)
    as (H1 & _ & H3).
  split; [exact H1|].
  destruct (H3 eq_refl eq_refl) as [_ H]. apply H. cbn. lia.
Defined.

End ScaleFactor.

(** ** The convergence check *)

Section Convergence.
Import Target Selector Invariant Demo.

Lemma mapM_length {A B : Type} (f : A -> res B) (l : list A) (l' : list B) :
  mapM f l = Ok l' -> length l' = length l.
Proof.
  revert l'. induction l as [|a l IH]; intros l' H; cbn in H.
  - now injection H as <-.
  - apply bind_Ok_inv in H. destruct H as (b & _ & H).
    apply bind_Ok_inv in H. destruct H as (bs & Hbs & H). injection H as <-.
    cbn. f_equal. now apply IH.
Qed.

Lemma indices_lengths (tgt : target) (Ts : list R) (i1 i2 : list nat) :
  cond tgt = 1%nat -> Tstar tgt = Some Ts -> indices tgt = Ok (i1, i2) ->
  length i1 = length Ts /\ length i2 = length Ts.
Proof.
  intros Hc HT H. unfold indices in H. rewrite Hc, HT in H. cbn [Nat.eqb] in H.
  apply bind_Ok_inv in H. destruct H as (l & Hl & H). injection H as <- <-.
  apply mapM_length in Hl. now rewrite !length_map.
Qed.

Lemma demo_col0_mean : Np.mean (Np.column 0 demo_rows3) = 0.
Proof. unfold Np.mean, Np.sum. cbn. lra. Qed.

Lemma demo_col0_std : Np.std (Np.column 0 demo_rows3) = 1.
Proof.
  unfold Np.std. rewrite demo_col0_mean. cbn [demo_rows3 Np.column map nth].
  rewrite <- !Rsqr_abs. unfold Np.mean, Np.sum, Rsqr. cbn.
  replace (((1 - 0) * (1 - 0) + ((-1 - 0) * (-1 - 0) + 0)) / (1 + 1)) with 1 by lra.
  apply sqrt_1.
Qed.

Lemma demo_col2_mean : Np.mean (Np.column 2 demo_rows3) = 5.
Proof. unfold Np.mean, Np.sum. cbn. lra. Qed.

Lemma demo_median_err_0 : median_err_at demo_target3 demo_rows3 0 = 0.
Proof.
  unfold median_err_at. rewrite demo_col0_mean. cbn [demo_target3 mu_ln nth].
  rewrite Rminus_diag, Rabs_R0. unfold Rdiv. apply Rmult_0_l.
Qed.

Lemma demo_std_err_0 : std_err_at demo_target3 demo_rows3 0 = 0.
Proof.
  unfold std_err_at. rewrite demo_col0_std. cbn [demo_target3 sigma_ln nth].
  rewrite Rminus_diag, Rabs_R0. unfold Rdiv. apply Rmult_0_l.
Qed.

Lemma demo_median_err_2 : 5 <= median_err_at demo_target3 demo_rows3 2.
Proof.
  unfold median_err_at. rewrite demo_col2_mean. cbn [demo_target3 mu_ln nth].
  rewrite exp_0. pose proof (exp_ineq1_le 5).
  rewrite Rabs_right by lra. lra.
Qed.

Lemma Reqb_neq (x y : R) : x <> y -> Np.Reqb x y = false.
Proof. intros H. unfold Np.Reqb. now destruct (Req_dec_T x y). Qed.

Lemma demo_indices3 : indices demo_target3 = Ok ([1%nat], [O]).
Proof.
  unfold indices. cbn [demo_target3 cond Tstar T Nat.eqb mapM Np.where_first].
  rewrite (Reqb_neq 0.5 1) by lra. rewrite Reqb_refl. reflexivity.
Qed.

Lemma demo_spec_periods3 : spec_checked_periods demo_target3 = [O; 2%nat].
Proof.
  unfold spec_checked_periods.
  cbn [demo_target3 Tstar cond T nT Nat.eqb length seq filter nth].
  rewrite (Reqb_neq 0.5 1), Reqb_refl, (Reqb_neq 2 1) by lra. reflexivity.
Qed.

(** Outside the single-period conditional case the check of the code
    covers every grid period, as the specification says. *)
Lemma checked_periods_agree (tgt : target) (i1 i2 : list nat) :
  indices tgt = Ok (i1, i2) ->
  ~ (cond tgt = 1%nat /\ exists t, Tstar tgt = Some [t]) ->
  checked_periods tgt i1 i2 = spec_checked_periods tgt
  /\ checked_periods tgt i1 i2 = seq 0 (nT tgt).
Proof.
  intros Hi Hns. unfold checked_periods, spec_checked_periods.
  destruct (Nat.eqb_spec (cond tgt) 1) as [Hc|Hc].
  - destruct (Tstar tgt) as [Ts|] eqn:HT.
    + destruct (indices_lengths tgt Ts i1 i2 Hc HT Hi) as [H1 _]. rewrite H1.
      destruct Ts as [|t [|t' Ts]]; cbn [length Nat.eqb andb]; auto.
      exfalso. apply Hns. split; [assumption|]. now exists t.
    + unfold indices in Hi. rewrite Hc, HT in Hi. discriminate.
  - cbn [andb]. destruct (Tstar tgt) as [[|t [|t' Ts]]|]; auto.
Qed.

End Convergence.

(** ** Order of the rows does not matter to the deviation *)

Section PermutationFacts.
Import Target Selector.

Lemma sum_perm (l l' : list R) : Permutation l l' -> Np.sum l = Np.sum l'.
Proof.
  unfold Np.sum. induction 1; cbn [fold_right]; lra.
Qed.

Lemma mean_perm (l l' : list R) : Permutation l l' -> Np.mean l = Np.mean l'.
Proof.
  intros H. unfold Np.mean.
  now rewrite (sum_perm _ _ H), (Permutation_length H).
Qed.

Lemma std_perm (l l' : list R) : Permutation l l' -> Np.std l = Np.std l'.
Proof.
  intros H. unfold Np.std. f_equal. rewrite (mean_perm _ _ H).
  apply mean_perm. now apply Permutation_map.
Qed.

Lemma column_perm (k : nat) (m m' : list (list R)) :
  Permutation m m' -> Permutation (Np.column k m) (Np.column k m').
Proof. apply Permutation_map. Qed.

Lemma dev_base_perm (tgt : target) (cfg : config) (m m' : list (list R)) :
  Permutation m m' -> dev_base tgt cfg m = dev_base tgt cfg m'.
Proof.
  intros H. unfold dev_base.
  assert (Hm : forall k, Np.mean (Np.column k m) = Np.mean (Np.column k m')).
  { intros k. apply mean_perm. now apply column_perm. }
  assert (Hs : forall k, Np.std (Np.column k m) = Np.std (Np.column k m')).
  { intros k. apply std_perm. now apply column_perm. }
  f_equal; f_equal; f_equal; f_equal; apply map_ext; intros k;
    now rewrite ?Hm, ?Hs.
Qed.

Lemma dev_pen_closed (tgt : target) (cfg : config) (m : list (list R)) :
  dev_pen tgt cfg m
  = dev_base tgt cfg m
    + (if Np.Rltb 0 (penalty cfg)
       then Np.sum (map (fun row => exceed tgt row * penalty cfg) m) else 0).
Proof.
  unfold dev_pen. destruct (Np.Rltb 0 (penalty cfg)); [|lra].
  apply (fold_left_sum (fun row => exceed tgt row * penalty cfg)).
Qed.

Lemma dev_pen_perm (tgt : target) (cfg : config) (m m' : list (list R)) :
  Permutation m m' -> dev_pen tgt cfg m = dev_pen tgt cfg m'.
Proof.
  intros H. rewrite !dev_pen_closed, (dev_base_perm _ _ _ _ H).
  destruct (Np.Rltb 0 (penalty cfg)); [|reflexivity].
  f_equal. apply sum_perm. now apply Permutation_map.
Qed.

(** With non-negative weights the deviation is non-negative. *)
Lemma exceed_nonneg (tgt : target) (row : list R) : 0 <= exceed tgt row.
Proof.
  unfold exceed. apply sum_map_nonneg. intros k _.
  destruct (Np.Rltb _ _); lra.
Qed.

Lemma dev_pen_nonneg (tgt : target) (cfg : config) (m : list (list R)) :
  0 <= nth 0 (weights cfg) 0 -> 0 <= nth 1 (weights cfg) 0 ->
  0 <= dev_pen tgt cfg m.
Proof.
  intros H0 H1. rewrite dev_pen_closed.
  assert (0 <= dev_base tgt cfg m).
  { unfold dev_base.
    apply Rplus_le_le_0_compat; apply Rmult_le_pos; try assumption;
      apply sum_map_nonneg; intros d _; apply pow2_ge_0. }
  destruct (Np.Rltb 0 (penalty cfg)) eqn:E; [|lra].
  apply Rltb_true in E.
  assert (0 <= Np.sum (map (fun row => exceed tgt row * penalty cfg) m)).
  { apply sum_map_nonneg. intros row _. apply Rmult_le_pos; [apply exceed_nonneg|lra]. }
  lra.
Qed.

(** [np.delete] followed by the re-insertion at the same place is an
    update in place, and a permutation of appending at the end. *)
Lemma insert_delete {A : Type} (i : nat) (x : A) (l : list A) :
  (i < length l)%nat -> Np.insert i x (Np.delete i l) = Np.upd i x l.
Proof.
  revert i. induction l as [|y l IH]; intros [|i] H; cbn in *; try lia; auto.
  unfold Np.insert, Np.delete in *. cbn. f_equal. apply IH. lia.
Qed.

Lemma upd_nth {A : Type} (i : nat) (d : A) (l : list A) :
  (i < length l)%nat -> Np.upd i (nth i l d) l = l.
Proof.
  revert i. induction l as [|y l IH]; intros [|i] H; cbn in *; try lia; auto.
  f_equal. apply IH. lia.
Qed.

Lemma insert_perm {A : Type} (i : nat) (x : A) (l : list A) :
  Permutation (Np.insert i x l) (l ++ [x]).
Proof.
  unfold Np.insert. rewrite <- (firstn_skipn i l) at 3.
  rewrite <- app_assoc. apply Permutation_app_head.
  change (x :: skipn i l) with ([x] ++ skipn i l). apply Permutation_app_comm.
Qed.

Lemma NoDup_delete_nth {A : Type} (i : nat) (d : A) (l : list A) :
  (i < length l)%nat -> NoDup l ->
  NoDup (Np.delete i l) /\ ~ In (nth i l d) (Np.delete i l).
Proof.
  intros Hi Hnd.
  assert (E : l = firstn i l ++ nth i l d :: skipn (S i) l).
  { rewrite <- (firstn_skipn i l) at 1. f_equal.
    clear Hnd. revert i Hi. induction l as [|y l IH]; intros [|i] H; cbn in *;
      try lia; auto. apply IH. lia. }
  rewrite E in Hnd. apply NoDup_remove in Hnd. exact Hnd.
Qed.

End PermutationFacts.

(** ** Phase 2 *)

Section Phase2Facts.
Import Target Selector.

Variable tgt : target.
Variable cfg : config.
Variable sim_spec sampleBig : list (list R).
Variable ind1 : list nat.
Variable im : R.

Local Abbreviation nBig := (nBig sampleBig).
Local Abbreviation nT := (nT tgt).
Local Abbreviation big := (big sampleBig).
Local Abbreviation scaleFac1 := (scaleFac1 tgt cfg sim_spec sampleBig ind1 im).
Local Abbreviation scaleFac2 := (scaleFac2 tgt cfg sim_spec sampleBig ind1 im).
Local Abbreviation cand_row := (cand_row tgt cfg sim_spec sampleBig ind1 im).
Local Abbreviation devTotal := (devTotal tgt cfg sim_spec sampleBig ind1 im).
Local Abbreviation scan := (scan tgt cfg sim_spec sampleBig ind1 im).
Local Abbreviation phase2_slot := (phase2_slot tgt cfg sim_spec sampleBig ind1 im).
Local Abbreviation phase2_pass := (phase2_pass tgt cfg sim_spec sampleBig ind1 im).
Local Abbreviation phase1 := (phase1 tgt cfg sim_spec sampleBig ind1 im).
Local Abbreviation dev := (dev_pen tgt cfg).
Local Abbreviation phase2_inv :=
  (Invariant.phase2_inv tgt cfg sim_spec sampleBig ind1 im).

(** The scan keeps the first candidate of least deviation, provided that
    deviation is below the starting value; otherwise it changes nothing. *)
Lemma scan_fold_spec (d : nat -> R) (l : list nat) (m0 : option nat) (v0 : R) :
  let r := fold_left (fun (acc : option nat * R) j =>
                        if Np.Rltb (d j) (snd acc) then (Some j, d j) else acc)
                     l (m0, v0) in
  (r = (m0, v0) /\ forall j, In j l -> v0 <= d j)
  \/ (exists j, In j l /\ r = (Some j, d j) /\ d j < v0
                /\ forall j', In j' l -> d j <= d j').
Proof.
  revert m0 v0. induction l as [|a l IH]; intros m0 v0; cbn zeta.
  - left. split; [reflexivity|]. intros j [].
  - cbn [fold_left snd]. destruct (Np.Rltb (d a) v0) eqn:E.
    + apply Rltb_true in E. right.
      destruct (IH (Some a) (d a)) as [[Hr Hall]|(j & Hj & Hr & Hlt & Hall)].
      * exists a. split; [now left|]. split; [exact Hr|]. split; [exact E|].
        intros j' [<-|Hj']; [lra|now apply Hall].
      * exists j. split; [now right|]. split; [exact Hr|]. split; [lra|].
        intros j' [<-|Hj']; [lra|now apply Hall].
    + apply Rltb_false in E.
      destruct (IH m0 v0) as [[Hr Hall]|(j & Hj & Hr & Hlt & Hall)].
      * left. split; [exact Hr|]. intros j [<-|Hj]; [exact E|now apply Hall].
      * right. exists j. split; [now right|]. split; [exact Hr|].
        split; [exact Hlt|]. intros j' [<-|Hj']; [lra|now apply Hall].
Qed.

Lemma scan_spec (small : list (list R)) (ids : list Z) (i : nat)
  (m0 : option nat) :
  (scan small ids i m0 = (m0, 100000)
   /\ forall j, (j < nBig)%nat -> 100000 <= devTotal small ids i j)
  \/ (exists j, (j < nBig)%nat
        /\ scan small ids i m0 = (Some j, devTotal small ids i j)
        /\ devTotal small ids i j < 100000
        /\ forall j', (j' < nBig)%nat ->
             devTotal small ids i j <= devTotal small ids i j').
Proof.
  unfold Selector.scan.
  destruct (scan_fold_spec (devTotal small ids i) (seq 0 nBig) m0 100000)
    as [[Hr Hall]|(j & Hj & Hr & Hlt & Hall)].
  - left. split; [exact Hr|]. intros j Hj. apply Hall, in_seq. lia.
  - right. exists j. apply in_seq in Hj. split; [lia|]. split; [exact Hr|].
    split; [exact Hlt|]. intros j' Hj'. apply Hall, in_seq. lia.
Qed.


Lemma devTotal_admissible (small : list (list R)) (ids : list Z) (i j : nat) :
  Np.Rltb (maxScale cfg) (scaleFac2 i j) = false -> selected ids j = false ->
  devTotal small ids i j = dev (small ++ [cand_row i j]).
Proof. intros H1 H2. unfold Selector.devTotal. now rewrite H1, H2. Qed.

Lemma devTotal_cases (small : list (list R)) (ids : list Z) (i j : nat) :
  (Np.Rltb (maxScale cfg) (scaleFac2 i j) = false /\ selected ids j = false
   /\ devTotal small ids i j = dev (small ++ [cand_row i j]))
  \/ devTotal small ids i j = dev (small ++ [cand_row i j]) + 1000000.
Proof.
  unfold Selector.devTotal.
  destruct (Np.Rltb (maxScale cfg) (scaleFac2 i j)); [now right|].
  destruct (selected ids j); [now right|now left].
Qed.

Lemma scaleFac2_unscaled (i j : nat) :
  isScaled cfg <> 1%nat -> scaleFac2 i j = 1.
Proof.
  intros H. unfold Selector.scaleFac2.
  destruct (Nat.eqb_spec (isScaled cfg) 1); [contradiction|reflexivity].
Qed.

(** Scale factors are positive for a positive conditioning level and a
    non-empty grid. *)
Lemma scaleFac2_pos (i j : nat) :
  (cond tgt = 1%nat -> 0 < im) -> (0 < nT)%nat -> 0 < scaleFac2 i j.
Proof.
  intros Him HnT. unfold Selector.scaleFac2.
  destruct (isScaled cfg =? 1)%nat; [|lra].
  destruct (Nat.eqb_spec (cond tgt) 1) as [Hc|Hc].
  - apply Rdiv_lt_0_compat; [auto|apply exp_pos].
  - destruct (cond tgt =? 0)%nat; [|lra].
    apply Rdiv_lt_0_compat; [|now apply sum_exp_sq_pos].
    destruct nT as [|n] eqn:En; [lia|].
    cbn [seq map]. change (Np.sum (?x :: ?l)) with (x + Np.sum l).
    assert (0 <= Np.sum (map (fun k => exp (big j k) * exp (sim sim_spec i k))
                             (seq 1 n))).
    { apply sum_map_nonneg. intros k _.
      pose proof (exp_pos (big j k)). pose proof (exp_pos (sim sim_spec i k)). nra. }
    pose proof (exp_pos (big j 0)). pose proof (exp_pos (sim sim_spec i 0)). nra.
Qed.

(** The rows written by Phase 1 are the rows Phase 2 would write. *)
Lemma phase1_row_cand_row (i r : nat) :
  (cond tgt = 1%nat -> 0 < im) -> (0 < nT)%nat ->
  map (fun kk => ln (exp (big r kk) * scaleFac1 i r)) (seq 0 nT) = cand_row i r.
Proof.
  intros Him HnT. unfold Selector.cand_row. apply map_ext. intros k.
  change (scaleFac1 i r) with (scaleFac2 i r).
  rewrite ln_mult, ln_exp; [reflexivity|apply exp_pos|now apply scaleFac2_pos].
Qed.

Lemma phase1_phase2_inv (st : state) :
  (cond tgt = 1%nat -> 0 < im) -> (0 < nT)%nat ->
  phase1 = Ok st -> phase2_inv st.
Proof.
  intros Him HnT H. apply phase1_inv_final in H.
  destruct H as (Hl1 & Hl2 & Hl3 & Hmin & Hrest & Hones & Hnd & Hsel).
  unfold Invariant.phase2_inv. repeat (split; [assumption|]).
  split; [|split; [|now left]].
  - rewrite <- Hl1, firstn_all in Hnd. exact Hnd.
  - intros i Hi. destruct (Hsel i Hi) as (r & H1 & H2 & H3 & H4 & H5).
    exists r. repeat (split; [assumption|]).
    rewrite H5. now apply phase1_row_cand_row.
Qed.

Section Step.
Hypothesis Hw0 : 0 <= nth 0 (weights cfg) 0.
Hypothesis Hw1 : 0 <= nth 1 (weights cfg) 0.

(** One slot of Phase 2 from a state satisfying the invariant: either a
    candidate is accepted, the invariant is kept and the deviation does
    not grow, or nothing was ever accepted and [minID] is read unbound. *)
Lemma phase2_slot_step (st : state) (i : nat) :
  (i < nGM cfg)%nat -> phase2_inv st ->
  (exists st',
      phase2_slot st i = Ok st' /\ phase2_inv st'
      /\ dev (sampleSmall st') < 100000
      /\ dev (sampleSmall st') <= dev (sampleSmall st))
  \/ (phase2_slot st i = Raise UnboundLocalError
      /\ minID st = None /\ 100000 <= dev (sampleSmall st)).
Proof.
  intros Hi (Hl1 & Hl2 & Hl3 & Hnd & Hent & Hdev).
  destruct (Hent i Hi) as (r & Hr & Hrlt & Hrsc & Hrfs & Hrrow).
  set (small := Np.delete i (sampleSmall st)).
  set (ids := Np.delete i (recID st)).
  destruct (NoDup_delete_nth i (-1)%Z (recID st)) as [Hnd' Hnin]; [lia|assumption|].
  rewrite Hr in Hnin. fold ids in Hnd', Hnin.
  assert (Hperm : forall row,
            Permutation (Np.upd i row (sampleSmall st)) (small ++ [row])).
  { intros row. unfold small. rewrite <- insert_delete by lia. apply insert_perm. }
  assert (Hold : devTotal small ids i r = dev (sampleSmall st)).
  { rewrite devTotal_admissible; [|assumption|now apply selected_false].
    symmetry. apply dev_pen_perm.
    rewrite <- (upd_nth i [] (sampleSmall st)) at 1 by lia.
    rewrite Hrrow. apply Hperm. }
  unfold Selector.phase2_slot. fold small ids.
  destruct (scan_spec small ids i (minID st))
    as [[Hs Hall]|(j & Hj & Hs & Hlt & Hmin)]; rewrite Hs; cbn [fst].
  - right. specialize (Hall r Hrlt). rewrite Hold in Hall.
    destruct Hdev as [Hn|Hd]; [|lra]. rewrite Hn. auto.
  - left. eexists. split; [reflexivity|].
    destruct (devTotal_cases small ids i j) as [(Hsc & Hsel & Hd)|Hd].
    2:{ pose proof (dev_pen_nonneg tgt cfg (small ++ [cand_row i j]) Hw0 Hw1). lra. }
    assert (HD : dev (Np.insert i (cand_row i j) small)
                 = devTotal small ids i j).
    { rewrite Hd. apply dev_pen_perm, insert_perm. }
    split; [|split].
    + unfold Invariant.phase2_inv. cbn [recID finalScaleFac sampleSmall minID].
      unfold small, ids. rewrite !insert_delete by lia. rewrite !length_upd.
      repeat (split; [assumption|]). split; [|split].
      * rewrite <- insert_delete by lia. fold ids.
        apply (Permutation_NoDup (l := ids ++ [Z.of_nat j])).
        { symmetry. apply insert_perm. }
        apply NoDup_app; [assumption|repeat constructor; auto|].
        intros x Hx [<-|[]]. apply selected_false in Hsel. contradiction.
      * intros k Hk. destruct (Nat.eq_dec k i) as [->|Hne].
        { exists j. rewrite !nth_upd_eq by lia.
          repeat (split; [first [assumption|reflexivity]|]).
          split; [|reflexivity].
          destruct (Nat.eqb_spec (isScaled cfg) 1) as [Hsc1|Hsc1]; [reflexivity|].
          now rewrite scaleFac2_unscaled. }
        { destruct (Hent k Hk) as (r' & H1 & H2 & H3 & H4 & H5).
          exists r'. rewrite !nth_upd_neq by lia. auto. }
      * right. rewrite <- insert_delete by lia. fold small. rewrite HD. exact Hlt.
    + cbn [sampleSmall]. rewrite HD. exact Hlt.
    + cbn [sampleSmall]. rewrite HD, <- Hold. now apply Hmin.
Qed.


(** A run of consecutive slots. *)
Lemma phase2_slots_step (n a : nat) (st : state) :
  (a + n <= nGM cfg)%nat -> phase2_inv st ->
  (exists st',
      for_each phase2_slot (seq a n) st = Ok st' /\ phase2_inv st'
      /\ dev (sampleSmall st') <= dev (sampleSmall st)
      /\ ((0 < n)%nat -> dev (sampleSmall st') < 100000))
  \/ (for_each phase2_slot (seq a n) st = Raise UnboundLocalError
      /\ minID st = None /\ 100000 <= dev (sampleSmall st)).
Proof.
  revert a st. induction n as [|n IH]; intros a st Hle Hinv.
  - left. exists st. cbn [seq for_each].
    split; [reflexivity|]. split; [assumption|]. split; [lra|intros; lia].
  - cbn [seq for_each].
    destruct (phase2_slot_step st a) as [(st1 & H1 & Hinv1 & Hd1 & Hle1)|(Hr & Hn & Hd)];
      [lia|assumption| |].
    + rewrite H1. cbn [bind].
      destruct (IH (S a) st1) as [(st' & H' & Hinv' & Hle' & _)|(_ & _ & Hd')];
        [lia|assumption| |lra].
      left. exists st'.
      split; [assumption|]. split; [assumption|]. split; [lra|intros _; lra].
    + right. rewrite Hr. auto.
Qed.

Lemma phase2_pass_step (st : state) :
  phase2_inv st ->
  (exists st',
      phase2_pass st = Ok st' /\ phase2_inv st'
      /\ dev (sampleSmall st') <= dev (sampleSmall st)
      /\ ((0 < nGM cfg)%nat -> dev (sampleSmall st') < 100000))
  \/ (phase2_pass st = Raise UnboundLocalError
      /\ minID st = None /\ 100000 <= dev (sampleSmall st)).
Proof. intros H. apply (phase2_slots_step (nGM cfg) 0 st); [lia|assumption]. Qed.

End Step.

End Phase2Facts.

(** ** The invariant along the passes *)

Section Passes.
Import Target Selector Invariant.

Variable tgt : target.
Variable cfg : config.
Variable sim_spec sampleBig : list (list R).
Variable ind1 : list nat.
Variable im : R.

Local Abbreviation phase1 := (phase1 tgt cfg sim_spec sampleBig ind1 im).
Local Abbreviation phase2_pass := (phase2_pass tgt cfg sim_spec sampleBig ind1 im).
Local Abbreviation phase2_inv := (phase2_inv tgt cfg sim_spec sampleBig ind1 im).
Local Abbreviation after_pass := (after_pass tgt cfg sim_spec sampleBig ind1 im).
Local Abbreviation selection_ok := (selection_ok cfg sampleBig).
Local Abbreviation dev := (dev_pen tgt cfg).

Lemma phase1_selection_ok (st : state) : phase1 = Ok st -> selection_ok st.
Proof.
  intros H. apply phase1_inv_final in H.
  destruct H as (Hl1 & Hl2 & Hl3 & Hmin & Hrest & Hones & Hnd & Hsel).
  unfold Invariant.selection_ok. split; [assumption|]. split; [|split; [|split]].
  - rewrite <- Hl1, firstn_all in Hnd. exact Hnd.
  - intros x Hx. apply (In_nth _ _ (-1)%Z) in Hx. destruct Hx as (i & Hi & <-).
    destruct (Hsel i) as (r & -> & Hr & _); lia.
  - assumption.
  - intros s Hs. apply (In_nth _ _ 1) in Hs. destruct Hs as (i & Hi & <-).
    destruct (Hsel i) as (r & _ & _ & Hsc & -> & _); [lia|].
    now apply Rltb_false.
Qed.

Lemma phase2_inv_selection_ok (st : state) : phase2_inv st -> selection_ok st.
Proof.
  intros (Hl1 & Hl2 & Hl3 & Hnd & Hent & _).
  unfold Invariant.selection_ok. repeat (split; [assumption|]).
  split; [|split; [assumption|]].
  - intros x Hx. apply (In_nth _ _ (-1)%Z) in Hx. destruct Hx as (i & Hi & <-).
    destruct (Hent i) as (r & -> & Hr & _); lia.
  - intros s Hs. apply (In_nth _ _ 1) in Hs. destruct Hs as (i & Hi & <-).
    destruct (Hent i) as (r & _ & _ & Hsc & -> & _); [lia|].
    now apply Rltb_false.
Qed.

Section NonNegative.
Hypothesis Hw0 : 0 <= nth 0 (weights cfg) 0.
Hypothesis Hw1 : 0 <= nth 1 (weights cfg) 0.
Hypothesis Him : cond tgt = 1%nat -> 0 < im.
Hypothesis HnT : (0 < nT tgt)%nat.

Lemma after_pass_inv (st : state) : after_pass st -> phase2_inv st.
Proof.
  induction 1 as [st H|st st' _ IH H].
  - now apply phase1_phase2_inv.
  - destruct (phase2_pass_step tgt cfg sim_spec sampleBig ind1 im Hw0 Hw1 st IH)
      as [(st1 & H1 & Hinv & _)|(Hr & _)]; [|congruence].
    rewrite H in H1. now injection H1 as <-.
Qed.

(** From a state at the end of a pass whose deviation is below the
    starting [minDev], one more pass completes and does not increase the
    deviation. *)
Lemma extra_pass (st : state) :
  after_pass st -> dev (sampleSmall st) < 100000 ->
  exists st', phase2_pass st = Ok st'
              /\ dev (sampleSmall st') <= dev (sampleSmall st)
              /\ after_pass st'.
Proof.
  intros Hst Hd. pose proof (after_pass_inv st Hst) as Hinv.
  destruct (phase2_pass_step tgt cfg sim_spec sampleBig ind1 im Hw0 Hw1 st Hinv)
    as [(st1 & H1 & _ & Hle & _)|(_ & _ & Hge)]; [|lra].
  exists st1. repeat split; try assumption.
  now apply (after_phase2 tgt cfg sim_spec sampleBig ind1 im st st1).
Qed.

Lemma pass_deviation_small (st st' : state) :
  after_pass st -> phase2_pass st = Ok st' -> (0 < nGM cfg)%nat ->
  dev (sampleSmall st') < 100000.
Proof.
  intros Hst H Hn. pose proof (after_pass_inv st Hst) as Hinv.
  destruct (phase2_pass_step tgt cfg sim_spec sampleBig ind1 im Hw0 Hw1 st Hinv)
    as [(st1 & H1 & _ & _ & Hlt)|(Hr & _)]; [|congruence].
  rewrite H in H1. injection H1 as <-. now apply Hlt.
Qed.



End NonNegative.

(** The pass loop only ever applies whole passes. *)
Lemma passes_after_pass (ind2 : list nat) (n : nat) (st st' : state)
  (last last' : option (R * R)) :
  after_pass st ->
  passes tgt cfg sim_spec sampleBig ind1 ind2 im n st last = Ok (st', last') ->
  after_pass st'.
Proof.
  revert st last. induction n as [|n IH]; intros st last Hst H; cbn [passes] in H.
  - now injection H as <- _.
  - apply bind_Ok_inv in H. destruct H as (st1 & H1 & H).
    apply bind_Ok_inv in H. destruct H as (e & He & H).
    assert (Hst1 : after_pass st1)
      by now apply (after_phase2 tgt cfg sim_spec sampleBig ind1 im st st1).
    destruct (within_tol cfg e).
    + now injection H as <- _.
    + now apply (IH st1 (Some e)).
Qed.

(** A stale winner that is still selected elsewhere gives a repeated
    index. *)
Lemma insert_dup (i : nat) (x : Z) (l : list Z) :
  In x l -> ~ NoDup (Np.insert i x l).
Proof.
  intros Hin Hnd.
  apply (Permutation_NoDup (insert_perm i x l)) in Hnd.
  apply NoDup_remove_2 in Hnd. rewrite app_nil_r in Hnd. contradiction.
Qed.

End Passes.

(** ** Picking a record: rows and slots with a unique best candidate *)

Section Picks.
Import Target Selector.

Variable tgt : target.
Variable cfg : config.
Variable sim_spec sampleBig : list (list R).
Variable ind1 : list nat.
Variable im : R.

Local Abbreviation nBig := (nBig sampleBig).
Local Abbreviation err1 := (err1 tgt cfg sim_spec sampleBig ind1 im).
Local Abbreviation devTotal := (devTotal tgt cfg sim_spec sampleBig ind1 im).
Local Abbreviation scaleFac1 := (scaleFac1 tgt cfg sim_spec sampleBig ind1 im).
Local Abbreviation scaleFac2 := (scaleFac2 tgt cfg sim_spec sampleBig ind1 im).
Local Abbreviation cand_row := (cand_row tgt cfg sim_spec sampleBig ind1 im).
Local Abbreviation phase1_row := (phase1_row tgt cfg sim_spec sampleBig ind1 im).
Local Abbreviation phase2_slot := (phase2_slot tgt cfg sim_spec sampleBig ind1 im).

Lemma phase1_row_pick (st : state) (i r : nat) :
  (r < nBig)%nat ->
  err1 (recID st) i r < 1000000 ->
  (forall j, (j < nBig)%nat -> j <> r -> err1 (recID st) i r < err1 (recID st) i j) ->
  phase1_row st i
  = Ok {| recID := Np.upd i (Z.of_nat r) (recID st);
          finalScaleFac :=
            (if (isScaled cfg =? 1)%nat
             then Np.upd i (scaleFac1 i r) (finalScaleFac st)
             else finalScaleFac st);
          sampleSmall :=
            Np.upd i
              (map (fun k =>
                      ln (exp (big sampleBig r k)
                          * nth i (if (isScaled cfg =? 1)%nat
                                   then Np.upd i (scaleFac1 i r) (finalScaleFac st)
                                   else finalScaleFac st) 0))
                   (seq 0 (nT tgt)))
              (sampleSmall st);
          minID := minID st |}.
Proof.
  intros Hr Hlt Huniq.
  destruct (phase1_row_cases tgt cfg sim_spec sampleBig ind1 im st i)
    as [[H0 _]|(r' & m & _ & Har & Hmn & Hlt' & Hv & Hle & _)]; [lia|].
  assert (r' = r).
  { destruct (Nat.eq_dec r' r) as [|Hne]; [assumption|].
    specialize (Huniq r' Hlt' Hne). specialize (Hle r Hr). lra. }
  subst r'. unfold Selector.phase1_row. rewrite Har, Hmn. cbn [bind].
  destruct (Np.Rleb 1000000 m) eqn:E; [apply Rleb_true in E; lra|reflexivity].
Qed.

Lemma phase2_slot_pick (st : state) (i j : nat) :
  let small := Np.delete i (sampleSmall st) in
  let ids := Np.delete i (recID st) in
  (j < nBig)%nat ->
  devTotal small ids i j < 100000 ->
  (forall j', (j' < nBig)%nat -> j' <> j ->
     devTotal small ids i j < devTotal small ids i j') ->
  phase2_slot st i
  = Ok {| recID := Np.insert i (Z.of_nat j) ids;
          finalScaleFac :=
            Np.upd i (if (isScaled cfg =? 1)%nat then scaleFac2 i j else 1)
                   (finalScaleFac st);
          sampleSmall := Np.insert i (cand_row i j) small;
          minID := Some j |}.
Proof.
  intros small ids Hj Hlt Huniq. unfold Selector.phase2_slot. fold small ids.
  destruct (scan_spec tgt cfg sim_spec sampleBig ind1 im small ids i (minID st))
    as [[Hs Hall]|(j' & Hj' & Hs & Hlt' & Hmin)].
  - specialize (Hall j Hj). lra.
  - assert (j' = j).
    { destruct (Nat.eq_dec j' j) as [|Hne]; [assumption|].
      specialize (Huniq j' Hj' Hne). specialize (Hmin j Hj). lra. }
    subst j'. rewrite Hs. reflexivity.
Qed.


End Picks.

(** ** The one-period, two-record family *)

Section PairFamily.
Import Target Selector Demo.

Variable mu0 w0 : R.
Variable xs : list R.
Variable sims : list (list R).

Local Abbreviation tgt := (uni_target mu0).
Local Abbreviation cfg := (pair_cfg w0).

Lemma big_pool (j : nat) : big (pool xs) j 0 = nth j xs 0.
Proof.
  unfold big, pool. revert j. induction xs as [|x l IH]; intros [|j]; cbn; auto.
Qed.

Lemma nBig_pool : nBig (pool xs) = length xs.
Proof. unfold nBig, pool. apply length_map. Qed.

Lemma pair_err1 (ids : list Z) (i j : nat) :
  err1 tgt cfg sims (pool xs) [] 0 ids i j
  = if selected ids j then 1000000 else (nth j xs 0 - sim sims i 0) ^ 2.
Proof.
  unfold err1, scaleFac1. cbn [pair_cfg isScaled maxScale Nat.eqb].
  destruct (selected ids j); [reflexivity|]. cbn [orb].
  destruct (Np.Rltb 4 1) eqn:E; [apply Rltb_true in E; lra|].
  cbn [uni_target nT T length seq map Np.sum fold_right].
  rewrite big_pool, Rmult_1_r, ln_exp. lra.
Qed.

Lemma pair_cand_row (i j : nat) :
  cand_row tgt cfg sims (pool xs) [] 0 i j = [nth j xs 0].
Proof.
  unfold cand_row, scaleFac2. cbn [pair_cfg isScaled Nat.eqb].
  cbn [uni_target nT T length seq map]. rewrite big_pool, ln_1. f_equal. lra.
Qed.

Lemma pair_phase1_sample (r : nat) (fs : list R) (i : nat) :
  nth i fs 0 = 1 ->
  map (fun k => ln (exp (big (pool xs) r k) * nth i fs 0)) (seq 0 (nT tgt))
  = [nth r xs 0].
Proof.
  intros H. cbn [uni_target nT T length seq map].
  rewrite big_pool, H, Rmult_1_r, ln_exp. reflexivity.
Qed.

Lemma mean_pair (a b : R) : Np.mean [a; b] = (a + b) / 2.
Proof. unfold Np.mean, Np.sum. cbn. lra. Qed.

Lemma std_pair (a b : R) : Np.std [a; b] = Rabs (a - b) / 2.
Proof.
  unfold Np.std. rewrite mean_pair. cbn [map]. rewrite <- !Rsqr_abs.
  unfold Np.mean, Np.sum. cbn [fold_right length INR].
  replace ((Rsqr (a - (a + b) / 2) + (Rsqr (b - (a + b) / 2) + 0)) / (1 + 1))
    with (Rsqr ((a - b) / 2)) by (unfold Rsqr; lra).
  rewrite sqrt_Rsqr_abs. unfold Rdiv. rewrite Rabs_mult.
  f_equal. apply Rabs_right. lra.
Qed.

Lemma pair_dev (a b : R) :
  dev_pen tgt cfg [[a]; [b]] = w0 * ((a + b) / 2 - mu0) ^ 2.
Proof.
  unfold dev_pen. cbn [pair_cfg penalty].
  destruct (Np.Rltb 0 0) eqn:E; [apply Rltb_true in E; lra|].
  unfold dev_base.
  cbn [pair_cfg weights uni_target nT T mu_ln sigma_ln length seq map nth
       Np.column Np.sum fold_right].
  rewrite mean_pair. lra.
Qed.

Lemma pair_devTotal (a : R) (ids : list Z) (i j : nat) :
  devTotal tgt cfg sims (pool xs) [] 0 [[a]] ids i j
  = w0 * ((a + nth j xs 0) / 2 - mu0) ^ 2
    + (if selected ids j then 1000000 else 0).
Proof.
  unfold devTotal. rewrite pair_cand_row. cbn [app]. rewrite pair_dev.
  unfold scaleFac2. cbn [pair_cfg isScaled maxScale Nat.eqb].
  destruct (Np.Rltb 4 1) eqn:E; [apply Rltb_true in E; lra|]. cbn [orb].
  destruct (selected ids j); lra.
Qed.

(** The two error measures of a two-row selection. *)
Lemma pair_errors (a b : R) :
  errors tgt [] [] [[a]; [b]]
  = Ok (Rabs (exp ((a + b) / 2) - exp mu0) / exp mu0 * 100,
        Rabs (Rabs (a - b) / 2 - 1) / 1 * 100).
Proof.
  unfold errors, checked_periods.
  cbn [uni_target cond Nat.eqb andb nT T length seq map Np.max bind].
  unfold median_err_at, std_err_at.
  cbn [uni_target mu_ln sigma_ln nth Np.column map].
  now rewrite mean_pair, std_pair.
Qed.

End PairFamily.

(** ** Concrete runs *)

Section Runs.
Import Target Selector Invariant Demo.

Ltac eval_selected :=
  repeat match goal with
  | |- context [selected ?ids ?j] =>
      let b := eval vm_compute in (selected ids j) in
      change (selected ids j) with b
  end.

(** Closes the side conditions of the pick lemmas in the pair family:
    bounds on, and comparisons between, the scores of the candidates. *)
Ltac pair_scores :=
  cbn zeta; cbn [Np.delete firstn skipn app sampleSmall recID];
  intros;
  rewrite ?nBig_pool in *; cbn [length] in *;
  rewrite ?pair_err1, ?pair_devTotal;
  try match goal with
  | H : (?j < _)%nat |- _ =>
      is_var j; destruct j as [|[|[|[|[|j]]]]]; try (exfalso; lia)
  end;
  eval_selected; unfold sim; cbn [nth]; try lia; try lra; try nra.

(** Negative weights: the excluded record wins both slots. *)
Lemma run_negative_phase1 :
  phase1 (uni_target 0) (pair_cfg (-1000000)) [[0]; [2]] (pool [0; 2]) [] 0
  = Ok (mkState [0; 1]%Z [1; 1] [[0]; [2]] None).
Proof.
  unfold phase1. cbn [pair_cfg nGM seq for_each].
  rewrite (phase1_row_pick _ _ _ _ _ _ _ 0 0) by pair_scores.
  cbn [bind init_state pair_cfg nGM isScaled Nat.eqb repeat recID finalScaleFac
       sampleSmall minID Np.upd].
  rewrite (pair_phase1_sample 0 [0; 2] 0 [1; 1] 0 eq_refl). cbn [nth].
  rewrite (phase1_row_pick _ _ _ _ _ _ _ 1 1) by pair_scores.
  cbn [bind pair_cfg isScaled Nat.eqb recID finalScaleFac sampleSmall minID Np.upd].
  rewrite (pair_phase1_sample 0 [0; 2] 1 [1; 1] 1 eq_refl). cbn [nth].
  reflexivity.
Qed.

Ltac slot_done :=
  cbn [bind pair_cfg isScaled Nat.eqb recID finalScaleFac sampleSmall minID
       Np.upd Np.insert Np.delete firstn skipn app Z.of_nat Pos.of_succ_nat
       Pos.succ];
  rewrite ?pair_cand_row; cbn [nth].

Lemma run_negative_pass :
  phase2_pass (uni_target 0) (pair_cfg (-1000000)) [[0]; [2]] (pool [0; 2]) [] 0
              (mkState [0; 1]%Z [1; 1] [[0]; [2]] None)
  = Ok (mkState [1; 1]%Z [1; 1] [[2]; [2]] (Some 1%nat)).
Proof.
  unfold phase2_pass. cbn [pair_cfg nGM seq for_each].
  rewrite (phase2_slot_pick _ _ _ _ _ _ _ 0 1) by pair_scores. slot_done.
  rewrite (phase2_slot_pick _ _ _ _ _ _ _ 1 1) by pair_scores. slot_done.
  reflexivity.
Qed.

(** The refinement run: Phase 1 and a first pass that converges. *)
Lemma run4_phase1 :
  phase1 (uni_target 0) (pair_cfg 1) sims4 (pool pool4) [] 0
  = Ok (mkState [1; 0]%Z [1; 1] [[1.04]; [-1]] None).
Proof.
  unfold phase1, sims4, pool4. cbn [pair_cfg nGM seq for_each].
  rewrite (phase1_row_pick _ _ _ _ _ _ _ 0 1) by pair_scores.
  cbn [bind init_state pair_cfg nGM isScaled Nat.eqb repeat recID finalScaleFac
       sampleSmall minID Np.upd].
  rewrite (pair_phase1_sample 0 _ 1 [1; 1] 0 eq_refl). cbn [nth].
  rewrite (phase1_row_pick _ _ _ _ _ _ _ 1 0) by pair_scores.
  cbn [bind pair_cfg isScaled Nat.eqb recID finalScaleFac sampleSmall minID Np.upd].
  rewrite (pair_phase1_sample 0 _ 0 [1; 1] 1 eq_refl). cbn [nth].
  reflexivity.
Qed.

Lemma run4_pass1 :
  phase2_pass (uni_target 0) (pair_cfg 1) sims4 (pool pool4) [] 0
              (mkState [1; 0]%Z [1; 1] [[1.04]; [-1]] None)
  = Ok (mkState [1; 2]%Z [1; 1] [[1.04]; [-1.06]] (Some 2%nat)).
Proof.
  unfold phase2_pass, sims4, pool4. cbn [pair_cfg nGM seq for_each].
  rewrite (phase2_slot_pick _ _ _ _ _ _ _ 0 1) by pair_scores. slot_done.
  rewrite (phase2_slot_pick _ _ _ _ _ _ _ 1 2) by pair_scores. slot_done.
  reflexivity.
Qed.






(** The error measures of the refinement run after the first pass (within
    the tolerance) and after one more pass. *)
Lemma run4_std_err1 : Rabs (Rabs (1.04 - -1.06) / 2 - 1) / 1 * 100 = 5.
Proof.
  rewrite (Rabs_right (1.04 - -1.06)) by lra. rewrite Rabs_right by lra. lra.
Qed.

Lemma run4_within_tol :
  within_tol (pair_cfg 1)
    (Rabs (exp ((1.04 + -1.06) / 2) - exp 0) / exp 0 * 100,
     Rabs (Rabs (1.04 - -1.06) / 2 - 1) / 1 * 100) = true.
Proof.
  unfold within_tol. cbn [fst snd pair_cfg tol]. rewrite run4_std_err1.
  assert (Hm : Rabs (exp ((1.04 + -1.06) / 2) - exp 0) / exp 0 * 100 < 10).
  { rewrite exp_0. pose proof (exp_ineq1_le ((1.04 + -1.06) / 2)) as Hlo.
    assert (Hhi : exp ((1.04 + -1.06) / 2) < 1).
    { rewrite <- exp_0. apply exp_increasing. lra. }
    rewrite Rabs_left by lra. lra. }
  apply Rltb_true in Hm. rewrite Hm.
  assert (Hs : Np.Rltb 5 10 = true) by (apply Rltb_true; lra).
  now rewrite Hs.
Qed.

(** [select] on the refinement run stops after the first pass. *)
Lemma run4_select :
  select (uni_target 0) (pair_cfg 1) sims4 (pool pool4)
  = Ok {| rec_id := [1; 2]%Z; rec_scale := [1; 1];
          rec_spec := [[1.04]; [-1.06]];
          medianErr := Rabs (exp ((1.04 + -1.06) / 2) - exp 0) / exp 0 * 100;
          stdErr := Rabs (Rabs (1.04 - -1.06) / 2 - 1) / 1 * 100 |}.
Proof.
  unfold select, indices. cbn [uni_target cond Nat.eqb bind fst snd].
  rewrite run4_phase1. cbn [bind pair_cfg nLoop passes].
  rewrite run4_pass1. cbn [bind sampleSmall].
  rewrite pair_errors. cbn [bind]. rewrite run4_within_tol. reflexivity.
Qed.

(** With the negative weight both passes run (the dispersion error is 100
    percent) and [select] returns record 1 twice. *)
Lemma run_negative_pass_again :
  phase2_pass (uni_target 0) (pair_cfg (-1000000)) [[0]; [2]] (pool [0; 2]) [] 0
              (mkState [1; 1]%Z [1; 1] [[2]; [2]] (Some 1%nat))
  = Ok (mkState [1; 1]%Z [1; 1] [[2]; [2]] (Some 1%nat)).
Proof.
  unfold phase2_pass. cbn [pair_cfg nGM seq for_each].
  rewrite (phase2_slot_pick _ _ _ _ _ _ _ 0 1) by pair_scores. slot_done.
  rewrite (phase2_slot_pick _ _ _ _ _ _ _ 1 1) by pair_scores. slot_done.
  reflexivity.
Qed.

Lemma run_negative_not_within_tol (m : R) :
  within_tol (pair_cfg (-1000000)) (m, Rabs (Rabs (2 - 2) / 2 - 1) / 1 * 100)
  = false.
Proof.
  unfold within_tol. cbn [fst snd pair_cfg tol].
  replace (2 - 2) with 0 by lra. rewrite Rabs_R0, Rabs_left by lra.
  assert (E : Np.Rltb (- (0 / 2 - 1) / 1 * 100) 10 = false)
    by (apply Rltb_false; lra).
  rewrite E. apply andb_false_r.
Qed.

Lemma run_negative_select :
  exists sel,
    select (uni_target 0) (pair_cfg (-1000000)) [[0]; [2]] (pool [0; 2]) = Ok sel
    /\ rec_id sel = [1; 1]%Z.
Proof.
  unfold select, indices. cbn [uni_target cond Nat.eqb bind fst snd].
  rewrite run_negative_phase1. cbn [bind pair_cfg nLoop passes].
  rewrite run_negative_pass. cbn [bind sampleSmall].
  rewrite pair_errors. cbn [bind]. rewrite run_negative_not_within_tol.
  rewrite run_negative_pass_again. cbn [bind sampleSmall].
  rewrite pair_errors. cbn [bind]. rewrite run_negative_not_within_tol.
  eexists. split; reflexivity.
Qed.

End Runs.

(** ** The pair family under the default weights *)

Section DefaultPair.
Import Np Target Selector Invariant Demo.

Variable xs : list R.
Variable sims : list (list R).

Local Abbreviation tgt := (uni_target 0).
Local Abbreviation cfg := default_pair_cfg.

Lemma dpair_err1 (ids : list Z) (i j : nat) :
  err1 tgt cfg sims (pool xs) [] 0 ids i j
  = if selected ids j then 1000000 else (nth j xs 0 - sim sims i 0) ^ 2.
Proof. exact (pair_err1 0 1 xs sims ids i j). Qed.

Lemma dpair_cand_row (i j : nat) :
  cand_row tgt cfg sims (pool xs) [] 0 i j = [nth j xs 0].
Proof. exact (pair_cand_row 0 1 xs sims i j). Qed.

Lemma dpair_dev (a b : R) :
  dev_pen tgt cfg [[a]; [b]]
  = ((a + b) / 2) ^ 2 + 2 * (Rabs (a - b) / 2 - 1) ^ 2.
Proof.
  unfold dev_pen. cbn [default_pair_cfg penalty].
  destruct (Np.Rltb 0 0) eqn:E; [apply Rltb_true in E; lra|].
  unfold dev_base.
  cbn [default_pair_cfg weights uni_target nT T mu_ln sigma_ln length seq map nth
       Np.column Np.sum fold_right].
  rewrite mean_pair, std_pair. lra.
Qed.

Lemma dpair_devTotal (a : R) (ids : list Z) (i j : nat) :
  devTotal tgt cfg sims (pool xs) [] 0 [[a]] ids i j
  = ((a + nth j xs 0) / 2) ^ 2 + 2 * (Rabs (a - nth j xs 0) / 2 - 1) ^ 2
    + (if selected ids j then 1000000 else 0).
Proof.
  unfold devTotal. rewrite dpair_cand_row. cbn [app]. rewrite dpair_dev.
  unfold scaleFac2. cbn [default_pair_cfg isScaled maxScale Nat.eqb].
  destruct (Np.Rltb 4 1) eqn:E; [apply Rltb_true in E; lra|]. cbn [orb].
  destruct (selected ids j); lra.
Qed.

End DefaultPair.

(** ** Two runs with the default weights, carried one pass further *)

Section DefaultRuns.
Import Target Selector Invariant Demo.

Ltac eval_selected :=
  repeat match goal with
  | |- context [selected ?ids ?j] =>
      let b := eval vm_compute in (selected ids j) in
      change (selected ids j) with b
  end.

Ltac eval_abs :=
  repeat match goal with
  | |- context [Rabs ?x] =>
      first [rewrite (Rabs_right x) by lra | rewrite (Rabs_left x) by lra]
  end.

Ltac dpair_scores :=
  cbn zeta; cbn [Np.delete firstn skipn app sampleSmall recID];
  intros;
  rewrite ?nBig_pool in *; cbn [length] in *;
  rewrite ?dpair_err1, ?dpair_devTotal;
  try match goal with
  | H : (?j < _)%nat |- _ =>
      is_var j; destruct j as [|[|[|[|[|j]]]]]; try (exfalso; lia)
  end;
  eval_selected; unfold sim; cbn [nth]; eval_abs; try lia; try lra; try nra.

Ltac dslot_done :=
  cbn [bind default_pair_cfg isScaled Nat.eqb recID finalScaleFac sampleSmall
       minID Np.upd Np.insert Np.delete firstn skipn app Z.of_nat
       Pos.of_succ_nat Pos.succ];
  rewrite ?dpair_cand_row; cbn [nth].

Lemma run5_phase1 :
  phase1 (uni_target 0) default_pair_cfg sims5 (pool pool5) [] 0
  = Ok (mkState [1; 3]%Z [1; 1] [[1]; [-0.8]] None).
Proof.
  unfold phase1, sims5, pool5. cbn [default_pair_cfg nGM seq for_each].
  rewrite (phase1_row_pick _ _ _ _ _ _ _ 0 1) by dpair_scores.
  cbn [bind init_state default_pair_cfg nGM isScaled Nat.eqb repeat recID
       finalScaleFac sampleSmall minID Np.upd].
  rewrite (pair_phase1_sample 0 _ 1 [1; 1] 0 eq_refl). cbn [nth].
  rewrite (phase1_row_pick _ _ _ _ _ _ _ 1 3) by dpair_scores.
  cbn [bind default_pair_cfg isScaled Nat.eqb recID finalScaleFac sampleSmall
       minID Np.upd].
  rewrite (pair_phase1_sample 0 _ 3 [1; 1] 1 eq_refl). cbn [nth].
  reflexivity.
Qed.

Lemma run5_pass1 :
  phase2_pass (uni_target 0) default_pair_cfg sims5 (pool pool5) [] 0
              (mkState [1; 3]%Z [1; 1] [[1]; [-0.8]] None)
  = Ok (mkState [0; 2]%Z [1; 1] [[1.1]; [-0.92]] (Some 2%nat)).
Proof.
  unfold phase2_pass, sims5, pool5. cbn [default_pair_cfg nGM seq for_each].
  rewrite (phase2_slot_pick _ _ _ _ _ _ _ 0 0) by dpair_scores. dslot_done.
  rewrite (phase2_slot_pick _ _ _ _ _ _ _ 1 2) by dpair_scores. dslot_done.
  reflexivity.
Qed.

Lemma run5_pass2 :
  phase2_pass (uni_target 0) default_pair_cfg sims5 (pool pool5) [] 0
              (mkState [0; 2]%Z [1; 1] [[1.1]; [-0.92]] (Some 2%nat))
  = Ok (mkState [1; 2]%Z [1; 1] [[1]; [-0.92]] (Some 2%nat)).
Proof.
  unfold phase2_pass, sims5, pool5. cbn [default_pair_cfg nGM seq for_each].
  rewrite (phase2_slot_pick _ _ _ _ _ _ _ 0 1) by dpair_scores. dslot_done.
  rewrite (phase2_slot_pick _ _ _ _ _ _ _ 1 2) by dpair_scores. dslot_done.
  reflexivity.
Qed.

Lemma run6_phase1 :
  phase1 (uni_target 0) default_pair_cfg sims6 (pool pool6) [] 0
  = Ok (mkState [1; 3]%Z [1; 1] [[1.04]; [-1.2]] None).
Proof.
  unfold phase1, sims6, pool6. cbn [default_pair_cfg nGM seq for_each].
  rewrite (phase1_row_pick _ _ _ _ _ _ _ 0 1) by dpair_scores.
  cbn [bind init_state default_pair_cfg nGM isScaled Nat.eqb repeat recID
       finalScaleFac sampleSmall minID Np.upd].
  rewrite (pair_phase1_sample 0 _ 1 [1; 1] 0 eq_refl). cbn [nth].
  rewrite (phase1_row_pick _ _ _ _ _ _ _ 1 3) by dpair_scores.
  cbn [bind default_pair_cfg isScaled Nat.eqb recID finalScaleFac sampleSmall
       minID Np.upd].
  rewrite (pair_phase1_sample 0 _ 3 [1; 1] 1 eq_refl). cbn [nth].
  reflexivity.
Qed.

Lemma run6_pass1 :
  phase2_pass (uni_target 0) default_pair_cfg sims6 (pool pool6) [] 0
              (mkState [1; 3]%Z [1; 1] [[1.04]; [-1.2]] None)
  = Ok (mkState [0; 2]%Z [1; 1] [[0.92]; [-0.9]] (Some 2%nat)).
Proof.
  unfold phase2_pass, sims6, pool6. cbn [default_pair_cfg nGM seq for_each].
  rewrite (phase2_slot_pick _ _ _ _ _ _ _ 0 0) by dpair_scores. dslot_done.
  rewrite (phase2_slot_pick _ _ _ _ _ _ _ 1 2) by dpair_scores. dslot_done.
  reflexivity.
Qed.

Lemma run6_pass2 :
  phase2_pass (uni_target 0) default_pair_cfg sims6 (pool pool6) [] 0
              (mkState [0; 2]%Z [1; 1] [[0.92]; [-0.9]] (Some 2%nat))
  = Ok (mkState [1; 2]%Z [1; 1] [[1.04]; [-0.9]] (Some 2%nat)).
Proof.
  unfold phase2_pass, sims6, pool6. cbn [default_pair_cfg nGM seq for_each].
  rewrite (phase2_slot_pick _ _ _ _ _ _ _ 0 1) by dpair_scores. dslot_done.
  rewrite (phase2_slot_pick _ _ _ _ _ _ _ 1 2) by dpair_scores. dslot_done.
  reflexivity.
Qed.

Lemma exp_below (x b : R) : 0 < b -> 1 <= b * (1 - x) -> exp x <= b.
Proof.
  intros Hb H. pose proof (exp_ineq1_le (- x)) as Hlo.
  pose proof (exp_pos x) as Px. pose proof (exp_pos (- x)) as Pn.
  assert (E : exp x * exp (- x) = 1)
    by (rewrite <- exp_plus, <- exp_0; f_equal; lra).
  assert (H1 : exp x * (1 + - x) <= exp x * exp (- x))
    by (apply Rmult_le_compat_l; lra).
  assert (H2 : 0 < 1 - x) by nra.
  assert (H3 : (b - exp x) * (1 - x) >= 0) by nra.
  nra.
Qed.

Lemma mean_err_value (m : R) :
  0 <= m -> Rabs (exp m - exp 0) / exp 0 * 100 = (exp m - 1) * 100.
Proof.
  intros Hm. rewrite exp_0. pose proof (exp_ineq1_le m).
  rewrite Rabs_right by lra. lra.
Qed.

Lemma run5_errors1 :
  errors (uni_target 0) [] [] [[1.1]; [-0.92]] = Ok ((exp 0.09 - 1) * 100, 1).
Proof.
  rewrite pair_errors. f_equal. f_equal.
  - replace ((1.1 + -0.92) / 2) with 0.09 by lra. apply mean_err_value. lra.
  - rewrite (Rabs_right (1.1 - -0.92)) by lra. rewrite Rabs_right by lra. lra.
Qed.

Lemma run5_errors2 :
  errors (uni_target 0) [] [] [[1]; [-0.92]] = Ok ((exp 0.04 - 1) * 100, 4).
Proof.
  rewrite pair_errors. f_equal. f_equal.
  - replace ((1 + -0.92) / 2) with 0.04 by lra. apply mean_err_value. lra.
  - rewrite (Rabs_right (1 - -0.92)) by lra. rewrite Rabs_left by lra. lra.
Qed.

Lemma run6_errors1 :
  errors (uni_target 0) [] [] [[0.92]; [-0.9]] = Ok ((exp 0.01 - 1) * 100, 9).
Proof.
  rewrite pair_errors. f_equal. f_equal.
  - replace ((0.92 + -0.9) / 2) with 0.01 by lra. apply mean_err_value. lra.
  - rewrite (Rabs_right (0.92 - -0.9)) by lra. rewrite Rabs_left by lra. lra.
Qed.

Lemma run6_errors2 :
  errors (uni_target 0) [] [] [[1.04]; [-0.9]] = Ok ((exp 0.07 - 1) * 100, 3).
Proof.
  rewrite pair_errors. f_equal. f_equal.
  - replace ((1.04 + -0.9) / 2) with 0.07 by lra. apply mean_err_value. lra.
  - rewrite (Rabs_right (1.04 - -0.9)) by lra. rewrite Rabs_left by lra. lra.
Qed.

Lemma run5_within_tol :
  within_tol default_pair_cfg ((exp 0.09 - 1) * 100, 1) = true.
Proof.
  unfold within_tol. cbn [fst snd default_pair_cfg tol].
  pose proof (exp_below 0.09 1.0995 ltac:(lra) ltac:(lra)) as H.
  assert (Hm : (exp 0.09 - 1) * 100 < 10) by lra.
  apply Rltb_true in Hm. rewrite Hm.
  assert (Hs : Np.Rltb 1 10 = true) by (apply Rltb_true; lra).
  now rewrite Hs.
Qed.

Lemma run6_within_tol :
  within_tol default_pair_cfg ((exp 0.01 - 1) * 100, 9) = true.
Proof.
  unfold within_tol. cbn [fst snd default_pair_cfg tol].
  pose proof (exp_below 0.01 1.02 ltac:(lra) ltac:(lra)) as H.
  assert (Hm : (exp 0.01 - 1) * 100 < 10) by lra.
  apply Rltb_true in Hm. rewrite Hm.
  assert (Hs : Np.Rltb 9 10 = true) by (apply Rltb_true; lra).
  now rewrite Hs.
Qed.

Lemma run5_select :
  select (uni_target 0) default_pair_cfg sims5 (pool pool5)
  = Ok {| rec_id := [0; 2]%Z; rec_scale := [1; 1];
          rec_spec := [[1.1]; [-0.92]];
          medianErr := (exp 0.09 - 1) * 100; stdErr := 1 |}.
Proof.
  unfold select, indices. cbn [uni_target cond Nat.eqb bind fst snd].
  rewrite run5_phase1. cbn [bind default_pair_cfg nLoop passes].
  rewrite run5_pass1. cbn [bind sampleSmall].
  rewrite run5_errors1. cbn [bind]. rewrite run5_within_tol. reflexivity.
Qed.

Lemma run6_select :
  select (uni_target 0) default_pair_cfg sims6 (pool pool6)
  = Ok {| rec_id := [0; 2]%Z; rec_scale := [1; 1];
          rec_spec := [[0.92]; [-0.9]];
          medianErr := (exp 0.01 - 1) * 100; stdErr := 9 |}.
Proof.
  unfold select, indices. cbn [uni_target cond Nat.eqb bind fst snd].
  rewrite run6_phase1. cbn [bind default_pair_cfg nLoop passes].
  rewrite run6_pass1. cbn [bind sampleSmall].
  rewrite run6_errors1. cbn [bind]. rewrite run6_within_tol. reflexivity.
Qed.

Lemma run5_dev_falls :
  dev_pen (uni_target 0) default_pair_cfg [[1]; [-0.92]]
  < dev_pen (uni_target 0) default_pair_cfg [[1.1]; [-0.92]].
Proof.
  rewrite !dpair_dev.
  rewrite (Rabs_right (1 - -0.92)), (Rabs_right (1.1 - -0.92)) by lra. lra.
Qed.

Lemma run6_dev_falls :
  dev_pen (uni_target 0) default_pair_cfg [[1.04]; [-0.9]]
  < dev_pen (uni_target 0) default_pair_cfg [[0.92]; [-0.9]].
Proof.
  rewrite !dpair_dev.
  rewrite (Rabs_right (1.04 - -0.9)), (Rabs_right (0.92 - -0.9)) by lra. lra.
Qed.

End DefaultRuns.

(** ** A run on the three-period conditional target *)

Section Run3.
Import Target Selector Invariant Demo.

Local Abbreviation tgt := demo_target3.
Local Abbreviation cfg := demo_cfg_short.

Lemma run3_scaleFac (i j : nat) :
  scaleFac2 tgt cfg demo_rows3 demo_rows3 [1%nat] 1 i j = 1.
Proof. reflexivity. Qed.

Lemma run3_cand_row_0 (i : nat) :
  cand_row tgt cfg demo_rows3 demo_rows3 [1%nat] 1 i 0 = [1; 0; 5].
Proof.
  unfold cand_row. rewrite run3_scaleFac, ln_1.
  cbn [demo_target3 nT T length seq map]. unfold big, demo_rows3. cbn [nth].
  repeat f_equal; lra.
Qed.

Lemma run3_cand_row_1 (i : nat) :
  cand_row tgt cfg demo_rows3 demo_rows3 [1%nat] 1 i 1 = [-1; 0; 5].
Proof.
  unfold cand_row. rewrite run3_scaleFac, ln_1.
  cbn [demo_target3 nT T length seq map]. unfold big, demo_rows3. cbn [nth].
  repeat f_equal; lra.
Qed.

Lemma run3_err1 (ids : list Z) (i j : nat) :
  err1 tgt cfg demo_rows3 demo_rows3 [1%nat] 1 ids i j
  = if selected ids j then 1000000
    else (big demo_rows3 j 0 - sim demo_rows3 i 0) ^ 2
         + (big demo_rows3 j 1 - sim demo_rows3 i 1) ^ 2
         + (big demo_rows3 j 2 - sim demo_rows3 i 2) ^ 2.
Proof.
  unfold err1. change (scaleFac1 _ _ _ _ _ _ i j) with 1.
  destruct (selected ids j); [reflexivity|]. cbn [orb demo_cfg_short maxScale].
  destruct (Np.Rltb 4 1) eqn:E; [apply Rltb_true in E; lra|].
  cbn [demo_target3 nT T length seq map Np.sum fold_right].
  rewrite !Rmult_1_r, !ln_exp. lra.
Qed.

(** Deviation of a two-row subset from the target (mean 0, dispersion 1
    at each of the three periods; weights 1 and 2). *)
Lemma run3_dev (a1 a2 a3 b1 b2 b3 : R) :
  dev_pen tgt cfg [[a1; a2; a3]; [b1; b2; b3]]
  = 1 * (((a1 + b1) / 2) ^ 2 + ((a2 + b2) / 2) ^ 2 + ((a3 + b3) / 2) ^ 2)
    + 2 * ((Rabs (a1 - b1) / 2 - 1) ^ 2 + (Rabs (a2 - b2) / 2 - 1) ^ 2
           + (Rabs (a3 - b3) / 2 - 1) ^ 2).
Proof.
  unfold dev_pen. cbn [demo_cfg_short penalty].
  destruct (Np.Rltb 0 0) eqn:E; [apply Rltb_true in E; lra|].
  unfold dev_base.
  cbn [demo_cfg_short weights demo_target3 nT T mu_ln sigma_ln length seq map nth
       Np.column Np.sum fold_right].
  rewrite !mean_pair, !std_pair. lra.
Qed.

Lemma run3_devTotal_0 (ids : list Z) (i : nat) (b1 b2 b3 : R) :
  devTotal tgt cfg demo_rows3 demo_rows3 [1%nat] 1 [[b1; b2; b3]] ids i 0
  = dev_pen tgt cfg [[b1; b2; b3]; [1; 0; 5]]
    + (if selected ids 0 then 1000000 else 0).
Proof.
  unfold devTotal. rewrite run3_cand_row_0, run3_scaleFac. cbn [app].
  cbn [demo_cfg_short maxScale].
  destruct (Np.Rltb 4 1) eqn:E; [apply Rltb_true in E; lra|]. cbn [orb].
  destruct (selected ids 0); lra.
Qed.

Lemma run3_devTotal_1 (ids : list Z) (i : nat) (b1 b2 b3 : R) :
  devTotal tgt cfg demo_rows3 demo_rows3 [1%nat] 1 [[b1; b2; b3]] ids i 1
  = dev_pen tgt cfg [[b1; b2; b3]; [-1; 0; 5]]
    + (if selected ids 1 then 1000000 else 0).
Proof.
  unfold devTotal. rewrite run3_cand_row_1, run3_scaleFac. cbn [app].
  cbn [demo_cfg_short maxScale].
  destruct (Np.Rltb 4 1) eqn:E; [apply Rltb_true in E; lra|]. cbn [orb].
  destruct (selected ids 1); lra.
Qed.

Ltac run3_abs :=
  repeat match goal with
  | |- context [Rabs ?x] =>
      first [ rewrite (Rabs_right x) by lra | rewrite (Rabs_left x) by lra ]
  end.

Ltac run3_scores :=
  cbn zeta; cbn [Np.delete firstn skipn app sampleSmall recID];
  intros;
  try match goal with
  | H : (?j < nBig demo_rows3)%nat |- _ =>
      is_var j; unfold nBig, demo_rows3 in H; cbn [length] in H;
      destruct j as [|[|j]]; try (exfalso; lia)
  end;
  rewrite ?run3_err1, ?run3_devTotal_0, ?run3_devTotal_1, ?run3_dev;
  repeat match goal with
  | |- context [selected ?ids ?j] =>
      let b := eval vm_compute in (selected ids j) in
      change (selected ids j) with b
  end;
  unfold big, sim, demo_rows3; cbn [nth];
  try (unfold nBig; cbn [length]; lia);
  run3_abs; try lra.

Lemma run3_phase1 :
  phase1 tgt cfg demo_rows3 demo_rows3 [1%nat] 1
  = Ok (mkState [0; 1]%Z [1; 1] demo_rows3 None).
Proof.
  unfold phase1. cbn [demo_cfg_short nGM seq for_each].
  rewrite (phase1_row_pick _ _ _ _ _ _ _ 0 0) by run3_scores.
  cbn [bind init_state demo_cfg_short nGM isScaled Nat.eqb repeat recID
       finalScaleFac sampleSmall minID Np.upd nth].
  rewrite (phase1_row_pick _ _ _ _ _ _ _ 1 1) by run3_scores.
  cbn [bind demo_cfg_short isScaled Nat.eqb recID finalScaleFac sampleSmall
       minID Np.upd nth].
  cbn [demo_target3 nT T length seq map]. unfold big, demo_rows3. cbn [nth].
  rewrite !Rmult_1_r, !ln_exp. reflexivity.
Qed.

Lemma run3_pass :
  phase2_pass tgt cfg demo_rows3 demo_rows3 [1%nat] 1
              (mkState [0; 1]%Z [1; 1] demo_rows3 None)
  = Ok (mkState [0; 1]%Z [1; 1] demo_rows3 (Some 1%nat)).
Proof.
  unfold phase2_pass. cbn [demo_cfg_short nGM seq for_each].
  unfold demo_rows3 at 3.
  rewrite (phase2_slot_pick _ _ _ _ _ _ _ 0 0) by run3_scores.
  cbn [bind demo_cfg_short isScaled Nat.eqb recID finalScaleFac sampleSmall minID
       Np.upd Np.insert Np.delete firstn skipn app Z.of_nat Pos.of_succ_nat
       Pos.succ].
  rewrite run3_cand_row_0.
  rewrite (phase2_slot_pick _ _ _ _ _ _ _ 1 1) by run3_scores.
  cbn [bind demo_cfg_short isScaled Nat.eqb recID finalScaleFac sampleSmall minID
       Np.upd Np.insert Np.delete firstn skipn app Z.of_nat Pos.of_succ_nat
       Pos.succ].
  rewrite run3_cand_row_1. reflexivity.
Qed.

(** [select] on the three-period target: one pass, both errors reported
    as zero. *)
Lemma run3_errors :
  errors tgt [1%nat] [O] demo_rows3 = Ok (0 * 100, 0 * 100).
Proof.
  unfold errors, checked_periods. cbn [demo_target3 cond length Nat.eqb andb].
  cbn [map Np.max bind]. now rewrite demo_median_err_0, demo_std_err_0.
Qed.

Lemma run3_select :
  exists sel,
    select tgt cfg demo_rows3 demo_rows3 = Ok sel
    /\ rec_spec sel = demo_rows3
    /\ medianErr sel = 0 /\ stdErr sel = 0.
Proof.
  unfold select. rewrite demo_indices3.
  cbn [bind demo_target3 cond im_Tstar Nat.eqb fst snd].
  rewrite run3_phase1. cbn [bind demo_cfg_short nLoop passes].
  rewrite run3_pass. cbn [bind sampleSmall]. rewrite run3_errors. cbn [bind].
  assert (E : within_tol cfg (0 * 100, 0 * 100) = true).
  { unfold within_tol. cbn [fst snd demo_cfg_short tol].
    assert (E : Np.Rltb (0 * 100) 10 = true) by (apply Rltb_true; lra).
    now rewrite E. }
  rewrite E. eexists. split; [reflexivity|].
  cbn [rec_spec medianErr stdErr fst snd]. repeat split; lra.
Qed.

End Run3.

(** ** The claim about the convergence check *)

Section ConvergenceClaim.
Import Target Selector Invariant Demo.

(** C2, the defect.  Outside the single-period conditional case the check
    covers every grid period.  When the target is conditioned on a single
    period the check looks at one period only, the first grid period that
    differs from T*, instead of all periods other than T*.  On the
    three-period target below the selection is off by a factor [exp 5] at
    the last period, the check of the code reports zero error, [select]
    stops after the first pass and returns that selection with both
    errors reported as 0, and the check over all periods but T* is far
    above the tolerance of 10 percent. *)
Theorem C2_convergence_check_single_period :
  (forall (tgt : target) (i1 i2 : list nat),
      indices tgt = Ok (i1, i2) ->
      ~ (cond tgt = 1%nat /\ exists t, Tstar tgt = Some [t]) ->
      checked_periods tgt i1 i2 = spec_checked_periods tgt)
  /\ (forall (tgt : target) (t : R) (i1 i2 : list nat),
      cond tgt = 1%nat -> Tstar tgt = Some [t] -> indices tgt = Ok (i1, i2) ->
      exists k, checked_periods tgt i1 i2 = [k] /\ (k < nT tgt)%nat
                /\ nth k (T tgt) 0 <> t)
  /\ indices demo_target3 = Ok ([1%nat], [O])
  /\ spec_checked_periods demo_target3 = [O; 2%nat]
  /\ (exists e, errors demo_target3 [1%nat] [O] demo_rows3 = Ok e
                /\ within_tol demo_cfg_short e = true)
  /\ (exists e, spec_errors demo_target3 demo_rows3 = Ok e
                /\ 500 <= fst e
                /\ within_tol demo_cfg_short e = false)
  /\ (exists sel,
        select demo_target3 demo_cfg_short demo_rows3 demo_rows3 = Ok sel
        /\ rec_spec sel = demo_rows3
        /\ medianErr sel = 0 /\ stdErr sel = 0).
Proof.
  split; [|split; [|split; [exact demo_indices3|split; [exact demo_spec_periods3|
    split; [|split; [|exact run3_select]]]]]].
  - intros tgt i1 i2 Hi Hns. now apply checked_periods_agree.
  - intros tgt t i1 i2 Hc HT Hi.
    destruct (indices_lengths tgt [t] i1 i2 Hc HT Hi) as [H1 H2].
    unfold checked_periods. rewrite Hc, H1. cbn [length Nat.eqb andb].
    unfold indices in Hi. rewrite Hc, HT in Hi. cbn [Nat.eqb mapM] in Hi.
    apply bind_Ok_inv in Hi. destruct Hi as (l & Hl & Hi). injection Hi as <- <-.
    apply bind_Ok_inv in Hl. destruct Hl as ([a b] & Hab & Hl).
    cbn [bind] in Hl. injection Hl as <-.
    apply bind_Ok_inv in Hab. destruct Hab as (a' & Ha & Hab).
    apply bind_Ok_inv in Hab. destruct Hab as (b' & Hb & Hab).
    injection Hab as <- <-.
    apply where_first_spec in Hb. destruct Hb as [Hlt Hne].
    exists b'. cbn. repeat split; [exact Hlt|].
    intros E. rewrite E, Reqb_refl in Hne. discriminate.
  - eexists. split.
    + unfold errors, checked_periods. cbn [demo_target3 cond length Nat.eqb andb].
      cbn [map Np.max bind]. reflexivity.
    + unfold within_tol. cbn [fst snd demo_cfg_short tol].
      change (median_err_at _ demo_rows3 0)
        with (median_err_at demo_target3 demo_rows3 0).
      change (std_err_at _ demo_rows3 0)
        with (std_err_at demo_target3 demo_rows3 0).
      rewrite demo_median_err_0, demo_std_err_0.
      assert (E : Np.Rltb (0 * 100) 10 = true) by (apply Rltb_true; lra).
      now rewrite E.
  - eexists. split; [|split].
    + unfold spec_errors. rewrite demo_spec_periods3.
      cbn [map Np.max bind]. reflexivity.
    + cbn [fst]. pose proof demo_median_err_2 as H2.
      pose proof (Rmax_r (median_err_at demo_target3 demo_rows3 0)
                         (median_err_at demo_target3 demo_rows3 2)). lra.
    + unfold within_tol. cbn [fst snd demo_cfg_short tol].
      pose proof demo_median_err_2 as H2.
      pose proof (Rmax_r (median_err_at demo_target3 demo_rows3 0)
                         (median_err_at demo_target3 demo_rows3 2)) as Hr.
      assert (E : Np.Rltb (Rmax (median_err_at demo_target3 demo_rows3 0)
                                (median_err_at demo_target3 demo_rows3 2) * 100) 10
                  = false) by (apply Rltb_false; lra).
      now rewrite E.
Qed.

Lemma C2_convergence_check_single_period_witness :
  exists k, checked_periods demo_target3 [1%nat] [O] = [k]
            /\ (k < nT demo_target3)%nat
            /\ nth k (T demo_target3) 0 <> 1.
Proof.
  destruct C2_convergence_check_single_period as (_ & H & _).
  apply (H demo_target3 1 [1%nat] [O]); [reflexivity|reflexivity|].
  apply demo_indices3.
Defined.

End ConvergenceClaim.

(** ** The claims about the refinement loop *)

Section RefinementClaims.
Import Target Selector Invariant Demo.





(** The level [select] works with: the stored one in conditional mode, 1
    when it is absent and never read, 0 outside conditional mode. *)
Lemma level_read_inv (tgt : target) (cfg : config) (n : nat) (im : R) :
  (if (cond tgt =? 1)%nat then
     match im_Tstar tgt with
     | Some v => Ok v
     | None =>
         if (isScaled cfg =? 1)%nat && (0 <? nGM cfg)%nat && (0 <? n)%nat
         then Raise AttributeError
         else Ok 1
     end
   else Ok 0) = Ok im ->
  if (cond tgt =? 1)%nat
  then im_Tstar tgt = Some im \/ (im_Tstar tgt = None /\ im = 1)
  else im = 0.
Proof.
  destruct (cond tgt =? 1)%nat.
  - destruct (im_Tstar tgt) as [v|].
    + intros H. injection H as <-. now left.
    + destruct (_ && _); [discriminate|]. intros H. injection H as <-. now right.
  - intros H. now injection H as <-.
Qed.

Lemma level_positive (tgt : target) (im : R) :
  (if (cond tgt =? 1)%nat
   then im_Tstar tgt = Some im \/ (im_Tstar tgt = None /\ im = 1)
   else im = 0) ->
  (cond tgt = 1%nat -> forall v, im_Tstar tgt = Some v -> 0 < v) ->
  cond tgt = 1%nat -> 0 < im.
Proof.
  intros H Him Hc. rewrite Hc in H. cbn [Nat.eqb] in H.
  destruct H as [H|[_ ->]]; [now apply (Him Hc)|lra].
Qed.

(** C4.  At the end of Phase 1 the selected indices are pairwise
    distinct pool indices and no scale factor exceeds [maxScale].  For the
    inputs the method is written for (non-negative weights on the mean and
    dispersion errors, a positive conditioning level in conditional mode,
    a non-empty period grid) the same holds at the end of every Phase 2
    pass, and so for the selection [select] returns. *)
Theorem C4_selection_invariant (tgt : target) (cfg : config)
  (sim_spec sampleBig : list (list R)) :
  (forall ind1 im st,
      phase1 tgt cfg sim_spec sampleBig ind1 im = Ok st ->
      selection_ok cfg sampleBig st)
  /\ (0 <= nth 0 (weights cfg) 0 -> 0 <= nth 1 (weights cfg) 0 ->
      (0 < nT tgt)%nat ->
      (forall ind1 im st,
          (cond tgt = 1%nat -> 0 < im) ->
          after_pass tgt cfg sim_spec sampleBig ind1 im st ->
          selection_ok cfg sampleBig st)
      /\ ((cond tgt = 1%nat -> forall v, im_Tstar tgt = Some v -> 0 < v) ->
          forall sel, select tgt cfg sim_spec sampleBig = Ok sel ->
            length (rec_id sel) = nGM cfg /\ NoDup (rec_id sel)
            /\ (forall x, In x (rec_id sel) ->
                  (0 <= x < Z.of_nat (nBig sampleBig))%Z)
            /\ forall s, In s (rec_scale sel) -> s <= maxScale cfg)).
Proof.
  split.
  - intros ind1 im st. apply phase1_selection_ok.
  - intros Hw0 Hw1 HnT. split.
    + intros ind1 im st Him Hst. apply (phase2_inv_selection_ok tgt cfg sim_spec _ ind1 im).
      now apply after_pass_inv.
    + intros Him sel Hsel. unfold select in Hsel.
      apply bind_Ok_inv in Hsel. destruct Hsel as (ii & Hii & Hsel).
      apply bind_Ok_inv in Hsel. destruct Hsel as (im & Himv & Hsel).
      apply bind_Ok_inv in Hsel. destruct Hsel as (st1 & H1 & Hsel).
      apply bind_Ok_inv in Hsel. destruct Hsel as ([st' last] & Hp & Hsel).
      cbn [fst snd] in Hsel. destruct last as [e|]; [|discriminate].
      injection Hsel as <-. cbn [rec_id rec_scale].
      assert (Hpos : cond tgt = 1%nat -> 0 < im).
      { intros Hc. apply (level_read_inv tgt cfg (nBig sampleBig)) in Himv.
        now apply (level_positive tgt im Himv Him). }
      assert (Hst' : after_pass tgt cfg sim_spec sampleBig (fst ii) im st').
      { apply (passes_after_pass _ _ _ _ _ _ _ _ _ _ _ _ (after_phase1 _ _ _ _ _ _ _ H1) Hp). }
      pose proof (phase2_inv_selection_ok tgt cfg sim_spec _ (fst ii) im st'
                    (after_pass_inv _ _ _ _ _ _ Hw0 Hw1 Hpos HnT _ Hst'))
        as (Ha & Hb & Hc & _ & Hd).
      auto.
Qed.

(** The refinement run gives a state at the end of a pass. *)
Lemma run4_after_pass1 :
  after_pass (uni_target 0) (pair_cfg 1) sims4 (pool pool4) [] 0
             (mkState [1; 2]%Z [1; 1] [[1.04]; [-1.06]] (Some 2%nat)).
Proof.
  eapply after_phase2; [apply after_phase1, run4_phase1|apply run4_pass1].
Qed.

Lemma C4_selection_invariant_witness :
  selection_ok (pair_cfg 1) (pool pool4)
               (mkState [1; 2]%Z [1; 1] [[1.04]; [-1.06]] (Some 2%nat)).
Proof.
  destruct (C4_selection_invariant (uni_target 0) (pair_cfg 1) sims4 (pool pool4))
    as [_ H].
  destruct H as [H _]; [cbn; lra|cbn; lra|cbn; lia|].
  apply (H [] 0); [discriminate|apply run4_after_pass1].
Defined.

(** The condition on the weights cannot be dropped: with a negative
    weight on the mean error the surcharge of an excluded record no longer
    keeps it away, the first pass ends with record 1 in both slots, and so
    does the selection [select] returns. *)
Lemma negative_weight_repeats_record :
  (exists st1 st2,
      phase1 (uni_target 0) (pair_cfg (-1000000)) [[0]; [2]] (pool [0; 2]) [] 0 = Ok st1
      /\ phase2_pass (uni_target 0) (pair_cfg (-1000000)) [[0]; [2]] (pool [0; 2]) [] 0 st1
         = Ok st2
      /\ recID st2 = [1; 1]%Z
      /\ ~ NoDup (recID st2))
  /\ (exists sel,
        select (uni_target 0) (pair_cfg (-1000000)) [[0]; [2]] (pool [0; 2]) = Ok sel
        /\ ~ NoDup (rec_id sel)).
Proof.
  assert (Hdup : ~ NoDup [1; 1]%Z).
  { intros H. inversion H as [|x l Hin _]. apply Hin. now left. }
  split.
  - eexists. eexists. split; [apply run_negative_phase1|].
    split; [apply run_negative_pass|]. split; [reflexivity|exact Hdup].
  - destruct run_negative_select as (sel & Hsel & Hid).
    exists sel. split; [exact Hsel|]. now rewrite Hid.
Qed.

(** C7 (as amended).  From a state at the end of a pass whose weighted
    deviation [devTotal] is below 100000 (it is after every completed
    Phase 2 pass), with non-negative weights, one more Phase 2 pass
    completes and does not increase that weighted deviation. *)
Theorem C7_extra_pass_deviation (tgt : target) (cfg : config)
  (sim_spec sampleBig : list (list R)) (ind1 : list nat) (im : R)
  (Hw0 : 0 <= nth 0 (weights cfg) 0) (Hw1 : 0 <= nth 1 (weights cfg) 0)
  (Him : cond tgt = 1%nat -> 0 < im) (HnT : (0 < nT tgt)%nat)
  (st : state) (Hst : after_pass tgt cfg sim_spec sampleBig ind1 im st) :
  (dev_pen tgt cfg (sampleSmall st) < 100000 ->
   exists st',
     phase2_pass tgt cfg sim_spec sampleBig ind1 im st = Ok st'
     /\ dev_pen tgt cfg (sampleSmall st') <= dev_pen tgt cfg (sampleSmall st))
  /\ (forall st', (0 < nGM cfg)%nat ->
        phase2_pass tgt cfg sim_spec sampleBig ind1 im st = Ok st' ->
        dev_pen tgt cfg (sampleSmall st') < 100000).
Proof.
  split.
  - intros Hd.
    destruct (extra_pass tgt cfg sim_spec sampleBig ind1 im Hw0 Hw1 Him HnT st Hst Hd)
      as (st' & H & Hle & _).
    now exists st'.
  - intros st' Hn H.
    now apply (pass_deviation_small tgt cfg sim_spec sampleBig ind1 im
                 Hw0 Hw1 Him HnT st st').
Qed.

Lemma C7_extra_pass_deviation_witness :
  exists st',
    phase2_pass (uni_target 0) (pair_cfg 1) sims4 (pool pool4) [] 0
                (mkState [1; 2]%Z [1; 1] [[1.04]; [-1.06]] (Some 2%nat)) = Ok st'
    /\ dev_pen (uni_target 0) (pair_cfg 1) (sampleSmall st')
       <= dev_pen (uni_target 0) (pair_cfg 1) [[1.04]; [-1.06]].
Proof.
  destruct (C7_extra_pass_deviation (uni_target 0) (pair_cfg 1) sims4 (pool pool4)
              [] 0) with (st := mkState [1; 2]%Z [1; 1] [[1.04]; [-1.06]] (Some 2%nat))
    as [H _].
  - cbn; lra.
  - cbn; lra.
  - discriminate.
  - cbn; lia.
  - apply run4_after_pass1.
  - apply H. cbn [sampleSmall]. rewrite pair_dev. lra.
Defined.

(** C7 as stated fails, with the default weights [[1, 2, 0.3]].  In
    the first run the first pass ends within the 10 percent tolerance
    ([select] stops there and returns that selection), and one more pass
    lowers the weighted deviation while raising the maximum percent error
    of the standard deviation from 1 to 4.  In the second run, converged
    after its first pass as well, one more pass lowers the weighted
    deviation while raising the maximum percent error of the mean. *)
Lemma C7_extra_pass_counterexample :
  (exists st1 st2 st3 e2 e3 sel,
      weights default_pair_cfg = [1; 2; 0.3]
      /\ phase1 (uni_target 0) default_pair_cfg sims5 (pool pool5) [] 0 = Ok st1
      /\ phase2_pass (uni_target 0) default_pair_cfg sims5 (pool pool5) [] 0 st1
         = Ok st2
      /\ errors (uni_target 0) [] [] (sampleSmall st2) = Ok e2
      /\ within_tol default_pair_cfg e2 = true
      /\ select (uni_target 0) default_pair_cfg sims5 (pool pool5) = Ok sel
      /\ rec_spec sel = sampleSmall st2
      /\ phase2_pass (uni_target 0) default_pair_cfg sims5 (pool pool5) [] 0 st2
         = Ok st3
      /\ errors (uni_target 0) [] [] (sampleSmall st3) = Ok e3
      /\ snd e2 = 1 /\ snd e3 = 4 /\ snd e2 < snd e3
      /\ dev_pen (uni_target 0) default_pair_cfg (sampleSmall st3)
         < dev_pen (uni_target 0) default_pair_cfg (sampleSmall st2))
  /\ (exists st1 st2 st3 e2 e3 sel,
        phase1 (uni_target 0) default_pair_cfg sims6 (pool pool6) [] 0 = Ok st1
        /\ phase2_pass (uni_target 0) default_pair_cfg sims6 (pool pool6) [] 0 st1
           = Ok st2
        /\ errors (uni_target 0) [] [] (sampleSmall st2) = Ok e2
        /\ within_tol default_pair_cfg e2 = true
        /\ select (uni_target 0) default_pair_cfg sims6 (pool pool6) = Ok sel
        /\ rec_spec sel = sampleSmall st2
        /\ phase2_pass (uni_target 0) default_pair_cfg sims6 (pool pool6) [] 0 st2
           = Ok st3
        /\ errors (uni_target 0) [] [] (sampleSmall st3) = Ok e3
        /\ fst e2 < fst e3
        /\ dev_pen (uni_target 0) default_pair_cfg (sampleSmall st3)
           < dev_pen (uni_target 0) default_pair_cfg (sampleSmall st2)).
Proof.
  split.
  - do 6 eexists. split; [reflexivity|].
    split; [apply run5_phase1|]. split; [apply run5_pass1|].
    split; [apply run5_errors1|]. split; [apply run5_within_tol|].
    split; [apply run5_select|]. split; [reflexivity|].
    split; [apply run5_pass2|]. split; [apply run5_errors2|].
    cbn [fst snd sampleSmall]. repeat (split; [lra|]). apply run5_dev_falls.
  - do 6 eexists.
    split; [apply run6_phase1|]. split; [apply run6_pass1|].
    split; [apply run6_errors1|]. split; [apply run6_within_tol|].
    split; [apply run6_select|]. split; [reflexivity|].
    split; [apply run6_pass2|]. split; [apply run6_errors2|].
    cbn [fst snd sampleSmall]. split; [|apply run6_dev_falls].
    assert (exp 0.01 < exp 0.07) by (apply exp_increasing; lra). lra.
Qed.

End RefinementClaims.

(** * Further properties of the target and of the selection *)

(** ** Shape of the correlation model above 0.109 s *)

Section CorrelationShape.
Import Correlation.

Lemma rho_value_long (T1 T2 : R) :
  0.109 < T1 -> T1 <= T2 ->
  rho_value T1 T2 = 1 - sin (0.366 * ln (T2 / T1)).
Proof.
  intros H1 H12. unfold rho_value.
  rewrite Rmin_left, Rmax_right by lra.
  destruct (Rle_dec T2 0.109) as [H|_]; [lra|].
  destruct (Rgt_dec T1 0.109) as [_|H]; [|lra].
  unfold c1. rewrite Rmax_left by lra.
  replace (PI / 2.0) with (PI / 2) by lra.
  rewrite cos_shift. replace 1.0 with 1 by lra.
  now rewrite Rmult_comm.
Qed.

Lemma ln_ratio_nonneg (a b : R) : 0 < a -> a <= b -> 0 <= ln (b / a).
Proof.
  intros Ha Hab. rewrite <- ln_1.
  destruct (Req_dec (b / a) 1) as [->|Hne]; [lra|].
  left. apply ln_increasing; [lra|].
  assert (1 <= b / a); [|lra].
  apply Rmult_le_reg_r with a; [lra|]. unfold Rdiv.
  rewrite Rmult_assoc, Rinv_l by lra. lra.
Qed.

(** X1.  When both periods are above 0.109 s the coefficient is
    [1 - sin (0.366 ln (T2 / T1))] for [T1 <= T2]: it depends on the ratio
    of the periods only, so scaling both periods up leaves it unchanged,
    and it decreases as the longer period moves away from the shorter one,
    as long as [0.366 ln (T3 / T1)] stays below [pi / 2]. *)
Theorem correlation_long_periods (T1 T2 : R)
  (H1 : 0.109 < T1) (H12 : T1 <= T2) :
  Baker_Jayaram_2008 T1 T2 = Some (1 - sin (0.366 * ln (T2 / T1)))
  /\ (forall k, 1 <= k ->
        Baker_Jayaram_2008 (k * T1) (k * T2) = Baker_Jayaram_2008 T1 T2)
  /\ (forall T3, T2 <= T3 -> 0.366 * ln (T3 / T1) <= PI / 2 ->
        exists r2 r3,
          Baker_Jayaram_2008 T1 T2 = Some r2
          /\ Baker_Jayaram_2008 T1 T3 = Some r3 /\ r3 <= r2).
Proof.
  assert (Hdef : forall a b, 0.109 < a -> a <= b ->
            Baker_Jayaram_2008 a b = Some (1 - sin (0.366 * ln (b / a)))).
  { intros a b Ha Hab. rewrite Baker_Jayaram_2008_defined.
    - now rewrite rho_value_long.
    - rewrite Rmax_right by lra. lra. }
  split; [now apply Hdef|split].
  - intros k Hk. rewrite !Hdef; try assumption; try nra.
    replace (k * T2 / (k * T1)) with (T2 / T1) by (field; lra). reflexivity.
  - intros T3 H23 Hpi.
    exists (1 - sin (0.366 * ln (T2 / T1))), (1 - sin (0.366 * ln (T3 / T1))).
    split; [now apply Hdef|]. split; [apply Hdef; lra|].
    assert (Hm : ln (T2 / T1) <= ln (T3 / T1)).
    { destruct (Req_dec T2 T3) as [->|Hne]; [lra|].
      left. apply ln_increasing.
      - apply Rdiv_lt_0_compat; lra.
      - unfold Rdiv. apply Rmult_lt_compat_r; [apply Rinv_0_lt_compat; lra|lra]. }
    assert (H0 : 0 <= ln (T2 / T1)) by (apply ln_ratio_nonneg; lra).
    pose proof PI_RGT_0.
    assert (sin (0.366 * ln (T2 / T1)) <= sin (0.366 * ln (T3 / T1))); [|lra].
    apply sin_incr_1; lra.
Qed.

Lemma correlation_long_periods_witness :
  Baker_Jayaram_2008 1 2 = Some (1 - sin (0.366 * ln (2 / 1)))
  /\ Baker_Jayaram_2008 (3 * 1) (3 * 2) = Baker_Jayaram_2008 1 2.
Proof.
  destruct (correlation_long_periods 1 2) as (H & Hk & _); [lra|lra|].
  split; [exact H|apply Hk; lra].
Defined.

End CorrelationShape.

(** ** Average spectral acceleration over a single period *)

Section AverageIM.
Import Correlation Target Demo.

Variable gmpe : nat -> R -> R * R.

Lemma avg_var_single (n : nat) (t : R) :
  avg_var gmpe n [t] = snd (gmpe n t) * snd (gmpe n t).
Proof.
  unfold avg_var, rho_BJ. cbn [map Np.sum fold_right length INR].
  rewrite rho_value_diag. lra.
Qed.

Lemma Sa_avg_single (n : nat) (t : R) :
  0 <= snd (gmpe n t) -> Sa_avg gmpe n [t] = gmpe n t.
Proof.
  intros Hs. rewrite (surjective_pairing (Sa_avg gmpe n [t])).
  rewrite Sa_avg_mean, Sa_avg_sigma, avg_var_single, sqrt_square by assumption.
  cbn [map Np.sum fold_right length INR].
  replace (1 / 1 * (fst (gmpe n t) + 0)) with (fst (gmpe n t)) by lra.
  symmetry. apply surjective_pairing.
Qed.

Lemma rho_AvgSA_SA_single (n : nat) (T t : R) :
  0 < snd (gmpe n t) -> rho_AvgSA_SA gmpe n T [t] = rho_value T t.
Proof.
  intros Hs. rewrite rho_AvgSA_SA_closed, avg_var_single, sqrt_square by lra.
  unfold cross_sum, rho_BJ. cbn [map Np.sum fold_right length INR].
  field. lra.
Qed.

End AverageIM.

Section AverageIMClaim.
Import Correlation Target Demo.

(** X2.  In exact arithmetic, averaging over a single period is no
    averaging: for a period with a positive GMPE sigma, [Sa_avg] over the
    one-element list returns the GMPE mean and sigma at that period, and
    [rho_AvgSA_SA] returns the correlation coefficient of the model
    between the two periods; at the period itself it is 1.  (In floating
    point the values agree up to rounding.) *)
Theorem average_over_one_period (gmpe : nat -> R -> R * R) (n : nat) (t : R)
  (Hs : 0 < snd (gmpe n t)) :
  Sa_avg gmpe n [t] = gmpe n t
  /\ (forall T, rho_AvgSA_SA gmpe n T [t] = rho_value T t)
  /\ rho_AvgSA_SA gmpe n t [t] = 1.
Proof.
  split; [apply Sa_avg_single; lra|]. split.
  - intros T. now apply rho_AvgSA_SA_single.
  - rewrite rho_AvgSA_SA_single by assumption. apply rho_value_diag.
Qed.

Lemma average_over_one_period_witness :
  Sa_avg demo_gmpe 0 [1] = (0, 1)
  /\ (forall T, rho_AvgSA_SA demo_gmpe 0 T [1] = rho_value T 1)
  /\ rho_AvgSA_SA demo_gmpe 0 1 [1] = 1.
Proof. apply (average_over_one_period demo_gmpe 0 1). cbn. lra. Defined.

End AverageIMClaim.

(** ** Shape of the target built by [create] *)

Section TargetShape.
Import Correlation Target Demo.

Variable gmpe : nat -> R -> R * R.

(** Entries of the stored arrays in terms of the formulas of [create]. *)
Lemma create_entries (c : call) (t : target) :
  create gmpe c = Ok t ->
  exists Ts,
    (if (cond_arg c =? 0)%nat then Ok [] else Tstar_self c) = Ok Ts
    /\ length (T t) = nT c
    /\ (forall i, (i < nT c)%nat ->
          nth i (mu_ln t) 0 = TgtMean_fin gmpe c Ts i)
    /\ (forall i, (i < nT c)%nat ->
          nth i (sigma_ln t) 0 = TgtSigma_fin gmpe c Ts i)
    /\ (forall i j, (i < nT c)%nat -> (j < nT c)%nat ->
          nth j (nth i (cov t) []) 0 = TgtCov_fin gmpe c Ts i j).
Proof.
  intros Hcreate.
  pose proof (create_Ok_inv gmpe _ _ Hcreate)
    as (Ts & HTs & HnS & Hcnd & Huv & HT & HH & HTstar & Hmu & Hsg & Hcv & Him).
  exists Ts. split; [exact HTs|]. split; [now rewrite HT|].
  split; [|split].
  - intros i Hi. rewrite Hmu. unfold mu_ln_fin. now rewrite nth_map_seq.
  - intros i Hi. rewrite Hsg. now rewrite nth_map_seq.
  - intros i j Hi Hj. rewrite Hcv.
    rewrite (nth_map_seq (fun i => map (TgtCov_fin gmpe c Ts i) (seq 0 (nT c))))
      by assumption.
    now rewrite nth_map_seq.
Qed.

Lemma Cov_sym (c : call) (Ts : list R) (n i j : nat) :
  Cov gmpe c Ts n i j = Cov gmpe c Ts n j i.
Proof.
  unfold Cov, rho_BJ. cbv zeta.
  rewrite (rho_value_sym (nth i (T_Tgt c) 0) (nth j (T_Tgt c) 0)).
  rewrite (Rmult_comm (sigma_lnSaT gmpe c n i ^ 2) (sigma_lnSaT gmpe c n j ^ 2)).
  rewrite (Rmult_comm (sigma_lnSaT gmpe c n i ^ 2) (snd (Sa_avg gmpe n Ts) ^ 2)).
  rewrite (Rmult_comm (sigma_lnSaT gmpe c n j ^ 2) (snd (Sa_avg gmpe n Ts) ^ 2)).
  destruct (cond_arg c =? 1)%nat; [|reflexivity].
  unfold Rdiv. ring.
Qed.

Lemma TgtCov_fin_sym (c : call) (Ts : list R) (i j : nat) :
  TgtCov_fin gmpe c Ts i j = TgtCov_fin gmpe c Ts j i.
Proof.
  unfold TgtCov_fin, TgtCov. rewrite (Nat.eqb_sym j i).
  destruct (Nat.eqb_spec i j) as [->|_]; [reflexivity|].
  now rewrite Cov_sym.
Qed.

Lemma floor_small_magnitude (v : R) : 1e-10 <= Rabs (floor_small v).
Proof.
  unfold floor_small. destruct (Np.Rltb (Rabs v) 1e-10) eqn:E.
  - rewrite Rabs_right; lra.
  - now apply Rltb_false in E.
Qed.

End TargetShape.

Section TargetShapeClaim.
Import Correlation Target Demo.

(** X3.  Whatever the arguments, a target that [create] builds is well
    shaped: [mu_ln] and [sigma_ln] have one entry per grid period, [cov] is
    a square matrix of that size, it is symmetric, none of its entries has
    a magnitude below the floor 1e-10, and [sigma_ln] is non-negative and
    is the square root of the diagonal wherever the diagonal is
    non-negative. *)
Theorem target_well_shaped (gmpe : nat -> R -> R * R) (c : call) (t : target) :
  create gmpe c = Ok t ->
  length (mu_ln t) = length (T t)
  /\ length (sigma_ln t) = length (T t)
  /\ length (cov t) = length (T t)
  /\ Forall (fun row => length row = length (T t)) (cov t)
  /\ (forall i j, (i < length (T t))%nat -> (j < length (T t))%nat ->
        nth j (nth i (cov t) []) 0 = nth i (nth j (cov t) []) 0
        /\ 1e-10 <= Rabs (nth j (nth i (cov t) []) 0))
  /\ (forall i, (i < length (T t))%nat ->
        0 <= nth i (sigma_ln t) 0
        /\ (0 <= nth i (nth i (cov t) []) 0 ->
            nth i (sigma_ln t) 0 = sqrt (nth i (nth i (cov t) []) 0))).
Proof.
  intros Hcreate.
  pose proof (create_Ok_inv gmpe _ _ Hcreate)
    as (Ts & HTs & HnS & Hcnd & Huv & HT & HH & HTstar & Hmu & Hsg & Hcv & Him).
  destruct (create_entries gmpe _ _ Hcreate)
    as (Ts' & HTs' & HlT & Em & Es & Ec).
  rewrite HTs in HTs'. injection HTs' as <-. rewrite HlT.
  split; [|split; [|split; [|split; [|split]]]].
  - rewrite Hmu. unfold mu_ln_fin. now rewrite length_map, length_seq.
  - rewrite Hsg. now rewrite length_map, length_seq.
  - rewrite Hcv. now rewrite length_map, length_seq.
  - rewrite Hcv. apply Forall_forall. intros row Hrow.
    apply in_map_iff in Hrow. destruct Hrow as (i & <- & _).
    now rewrite length_map, length_seq.
  - intros i j Hi Hj. rewrite !Ec by assumption. split.
    + apply TgtCov_fin_sym.
    + unfold TgtCov_fin. apply floor_small_magnitude.
  - intros i Hi. rewrite Es, Ec by assumption. unfold TgtSigma_fin. cbv zeta.
    destruct (Np.Rltb (TgtCov_fin gmpe c Ts i i) 0) eqn:E.
    + apply Rltb_true in E. split; [lra|intros; lra].
    + split; [apply sqrt_pos|reflexivity].
Qed.

Lemma target_well_shaped_witness :
  exists t,
    create demo_gmpe demo_call_cond = Ok t
    /\ length (mu_ln t) = length (T t)
    /\ length (cov t) = length (T t).
Proof.
  assert (H : exists t, create demo_gmpe demo_call_cond = Ok t).
  { unfold create, Tstar_self, demo_call_cond.
    cbn [length Nat.eqb bind T_Tgt Tstar0 nScenarios cond_arg epsilon].
    eexists. reflexivity. }
  destruct H as [t Ht]. exists t. split; [exact Ht|].
  destruct (target_well_shaped demo_gmpe demo_call_cond t Ht) as (H1 & _ & H3 & _).
  split; assumption.
Defined.

End TargetShapeClaim.

(** ** The target in its two simplest configurations *)

Section TargetValues.
Import Correlation Target Demo.

Variable gmpe : nat -> R -> R * R.

Lemma sqrt_sq_sq (a b : R) : sqrt (a ^ 2 * b ^ 2) = Rabs a * Rabs b.
Proof.
  replace (a ^ 2 * b ^ 2) with ((a * b) * (a * b)) by ring.
  rewrite sqrt_Rsqr_abs || (fold (Rsqr (a * b)); rewrite sqrt_Rsqr_abs).
  apply Rabs_mult.
Qed.

(** The default hazard weights are uniform and add up to one. *)
Lemma uniform_weights (n : nat) :
  (0 < n)%nat -> Np.sum (repeat (1 / INR n) n) = 1.
Proof.
  intros Hn.
  assert (H : forall k x, Np.sum (repeat x k) = INR k * x).
  { induction k as [|k IH]; intros x.
    - cbn. lra.
    - change (Np.sum (repeat x (S k))) with (x + Np.sum (repeat x k)).
      rewrite IH, S_INR. lra. }
  rewrite H. field. apply not_0_INR. lia.
Qed.

Lemma sum_nth_seq (l : list R) :
  Np.sum (map (fun n => nth n l 0) (seq 0 (length l))) = Np.sum l.
Proof. now rewrite (map_nth_seq (fun x => x) l 0), map_id. Qed.

(** The combined mean when every scenario has the same mean at a
    period. *)
Lemma TgtMean_fin_const (c : call) (Ts : list R) (i : nat) (m : R) :
  length (Hcont_self c) = nScenarios c -> Np.sum (Hcont_self c) = 1 ->
  (forall n, (n < nScenarios c)%nat -> TgtMean gmpe c Ts n i = m) ->
  TgtMean_fin gmpe c Ts i = m.
Proof.
  intros Hlen Hsum Hm. unfold TgtMean_fin.
  transitivity (Np.sum (map (fun n => m * nth n (Hcont_self c) 0)
                            (seq 0 (nScenarios c)))).
  - apply sum_map_ext. intros n Hn. apply in_seq in Hn. rewrite Hm by lia. lra.
  - rewrite sum_map_scal_l, <- Hlen, sum_nth_seq, Hsum. lra.
Qed.

(** The mixture variance when every scenario has the same mean and the
    same variance at a period. *)
Lemma cov_diag_const (c : call) (Ts : list R) (i : nat) (m v : R) :
  length (Hcont_self c) = nScenarios c -> Np.sum (Hcont_self c) = 1 ->
  (forall n, (n < nScenarios c)%nat -> TgtMean gmpe c Ts n i = m) ->
  (forall n, (n < nScenarios c)%nat -> TgtCov gmpe c Ts n i i = v) ->
  cov_diag gmpe c Ts i = v.
Proof.
  intros Hlen Hsum Hm Hv. unfold cov_diag.
  rewrite (TgtMean_fin_const c Ts i m Hlen Hsum Hm).
  transitivity (Np.sum (map (fun n => v * nth n (Hcont_self c) 0)
                            (seq 0 (nScenarios c)))).
  - apply sum_map_ext. intros n Hn. apply in_seq in Hn.
    rewrite Hm, Hv by lia. lra.
  - rewrite sum_map_scal_l, <- Hlen, sum_nth_seq, Hsum. lra.
Qed.

Lemma floor_small_id (v : R) : 1e-10 <= v -> floor_small v = v.
Proof.
  intros Hv. unfold floor_small.
  destruct (Np.Rltb (Rabs v) 1e-10) eqn:E; [|reflexivity].
  apply Rltb_true in E. rewrite Rabs_right in E; lra.
Qed.

(** Conditioned on a single period [tstar], the scenario covariance
    between the conditioning period and any other period vanishes. *)
Lemma Cov_conditioning_period (c : call) (tstar : R) (n k j : nat) :
  cond_arg c = 1%nat -> nth k (T_Tgt c) 0 = tstar ->
  0 < snd (gmpe n tstar) ->
  Cov gmpe c [tstar] n k j = 0.
Proof.
  intros Hc Hk Hs. unfold Cov, rho_T_Tstar, sigma_lnSaT, rho_BJ. cbv zeta.
  rewrite Hc. cbn [Nat.eqb]. rewrite Hk.
  rewrite !rho_AvgSA_SA_single, rho_value_diag by assumption.
  rewrite Sa_avg_single by lra.
  rewrite (rho_value_sym (nth j (T_Tgt c) 0) tstar).
  set (s := snd (gmpe n tstar)) in *.
  set (sj := snd (gmpe n (nth j (T_Tgt c) 0))).
  set (r := rho_value tstar (nth j (T_Tgt c) 0)).
  rewrite !sqrt_sq_sq. rewrite (Rabs_right s) by lra.
  field. lra.
Qed.

Lemma TgtMean_conditioning_period (c : call) (tstar : R) (n k : nat) :
  cond_arg c = 1%nat -> epsilon c = None -> nth k (T_Tgt c) 0 = tstar ->
  0 < snd (gmpe n tstar) ->
  TgtMean gmpe c [tstar] n k = ln (im_Tstar_arg c).
Proof.
  intros Hc He Hk Hs.
  unfold TgtMean, rho_T_Tstar, rup_eps, mu_lnSaT, sigma_lnSaT.
  rewrite Hc, He. cbn [Nat.eqb]. rewrite Hk.
  rewrite rho_AvgSA_SA_single, rho_value_diag, Sa_avg_single by lra.
  field. lra.
Qed.

End TargetValues.

Section TargetValuesClaims.
Import Correlation Target Demo Samples.

(** X4.  In exact arithmetic, an unconditional target for a single
    scenario of weight 1, with the variance kept, reproduces the
    ground-motion model: [mu_ln] is the GMPE mean at every grid period,
    [sigma_ln] is the GMPE sigma wherever that is at least 1e-5, and the
    covariance of two periods is the model correlation times the two
    sigmas, lifted to 1e-10 when its magnitude is smaller.  (In floating
    point [sigma_ln] agrees with the GMPE sigma up to rounding.) *)
Theorem unconditional_single_scenario (gmpe : nat -> R -> R * R) (c : call)
  (t : target)
  (Hcond : cond_arg c = O) (Huv : useVar_arg c <> O)
  (HnS : nScenarios c = 1%nat) (HH : Hcont_self c = [1])
  (Hcreate : create gmpe c = Ok t) :
  forall i, (i < length (T t))%nat ->
    nth i (mu_ln t) 0 = fst (gmpe O (nth i (T t) 0))
    /\ (1e-5 <= snd (gmpe O (nth i (T t) 0)) ->
        nth i (sigma_ln t) 0 = snd (gmpe O (nth i (T t) 0)))
    /\ forall j, (j < length (T t))%nat -> i <> j ->
         nth j (nth i (cov t) []) 0
         = floor_small (rho_value (nth i (T t) 0) (nth j (T t) 0)
                        * (Rabs (snd (gmpe O (nth i (T t) 0)))
                           * Rabs (snd (gmpe O (nth j (T t) 0))))).
Proof.
  pose proof (create_Ok_inv gmpe _ _ Hcreate)
    as (Ts & HTs & _ & _ & _ & HT & _).
  destruct (create_entries gmpe _ _ Hcreate) as (Ts' & HTs' & HlT & Em & Es & Ec).
  rewrite HTs in HTs'. injection HTs' as <-.
  rewrite HlT, HT. intros i Hi.
  assert (Hmean : forall k, TgtMean gmpe c Ts O k = fst (gmpe O (nth k (T_Tgt c) 0))).
  { intros k. unfold TgtMean, mu_lnSaT. now rewrite Hcond. }
  assert (Hcov : forall a b, TgtCov gmpe c Ts O a b
            = rho_value (nth a (T_Tgt c) 0) (nth b (T_Tgt c) 0)
              * (Rabs (snd (gmpe O (nth a (T_Tgt c) 0)))
                 * Rabs (snd (gmpe O (nth b (T_Tgt c) 0))))).
  { intros a b. unfold TgtCov, Cov, sigma_lnSaT, rho_BJ. cbv zeta.
    destruct (Nat.eqb_spec (useVar_arg c) 0) as [|_]; [contradiction|].
    rewrite Hcond. cbn [Nat.eqb]. now rewrite sqrt_sq_sq. }
  assert (Hfin : forall k, TgtMean_fin gmpe c Ts k = fst (gmpe O (nth k (T_Tgt c) 0))).
  { intros k. unfold TgtMean_fin. rewrite HnS, HH.
    cbn [seq map nth Np.sum fold_right]. rewrite Hmean. lra. }
  split; [|split].
  - rewrite Em by assumption. apply Hfin.
  - intros Hs. rewrite Es by assumption. unfold TgtSigma_fin, TgtCov_fin.
    cbv zeta. rewrite Nat.eqb_refl.
    assert (Hd : cov_diag gmpe c Ts i
                 = snd (gmpe O (nth i (T_Tgt c) 0)) * snd (gmpe O (nth i (T_Tgt c) 0))).
    { unfold cov_diag. rewrite HnS, HH. cbn [seq map nth Np.sum fold_right].
      rewrite Hcov, Hfin, Hmean, rho_value_diag, Rabs_right by lra. lra. }
    rewrite Hd, floor_small_id by nra.
    destruct (Np.Rltb _ 0) eqn:E; [apply Rltb_true in E; nra|].
    apply sqrt_square. lra.
  - intros j Hj Hij. rewrite Ec by assumption. unfold TgtCov_fin.
    destruct (Nat.eqb_spec i j) as [|_]; [contradiction|].
    now rewrite Hcov.
Qed.

Lemma call_uncond_created : exists t, create demo_gmpe call_uncond = Ok t.
Proof.
  unfold create. cbn [call_uncond cond_arg nScenarios Nat.eqb bind].
  eexists. reflexivity.
Qed.

Lemma unconditional_single_scenario_witness :
  exists t,
    create demo_gmpe call_uncond = Ok t
    /\ nth 0 (mu_ln t) 0 = 0 /\ nth 0 (sigma_ln t) 0 = 1.
Proof.
  destruct call_uncond_created as [t Ht]. exists t. split; [exact Ht|].
  pose proof (create_Ok_inv demo_gmpe _ _ Ht) as (Ts & _ & _ & _ & _ & HT & _).
  assert (Hw : Hcont_self call_uncond = [1]).
  { unfold Hcont_self. cbn [call_uncond Hcont_arg nScenarios repeat INR].
    f_equal. lra. }
  destruct (unconditional_single_scenario demo_gmpe call_uncond t eq_refl
              ltac:(cbn; discriminate) eq_refl Hw Ht O) as (Hm & Hs & _).
  - rewrite HT. cbn. lia.
  - split; [exact Hm|]. apply Hs. cbn. lra.
Defined.

(** X5.  Conditioned on a single period that is on the grid, with
    back-calculated epsilon, positive GMPE sigmas at that period and hazard
    weights (one per scenario) adding up to 1, the target at the
    conditioning period has mean [ln im_Tstar], its covariance with every
    period is the floor 1e-10 and its dispersion is 1e-5, not zero. *)
Theorem conditioning_period_is_pinned (gmpe : nat -> R -> R * R) (c : call)
  (t : target) (tstar : R) (k : nat)
  (Hcond : cond_arg c = 1%nat) (HTs : Tstar0 c = [tstar])
  (Heps : epsilon c = None)
  (Hk : (k < length (T_Tgt c))%nat) (Hkt : nth k (T_Tgt c) 0 = tstar)
  (Hsig : forall n, (n < nScenarios c)%nat -> 0 < snd (gmpe n tstar))
  (Hlen : length (Hcont_self c) = nScenarios c)
  (Hsum : Np.sum (Hcont_self c) = 1)
  (Hcreate : create gmpe c = Ok t) :
  nth k (mu_ln t) 0 = ln (im_Tstar_arg c)
  /\ nth k (sigma_ln t) 0 = 1e-5
  /\ forall j, (j < length (T t))%nat ->
       nth j (nth k (cov t) []) 0 = 1e-10 /\ nth k (nth j (cov t) []) 0 = 1e-10.
Proof.
  pose proof (create_Ok_inv gmpe _ _ Hcreate)
    as (Ts & HTs' & HnS & _ & _ & HT & _).
  destruct (create_entries gmpe _ _ Hcreate) as (Ts' & HTs'' & HlT & Em & Es & Ec).
  rewrite HTs' in HTs''. injection HTs'' as <-.
  rewrite Hcond in HTs'. cbn [Nat.eqb] in HTs'. unfold Tstar_self in HTs'.
  rewrite HTs in HTs'. cbn [length Nat.eqb] in HTs'. injection HTs' as <-.
  fold (nT c) in Hk. rewrite HlT.
  assert (Hmean : forall n, (n < nScenarios c)%nat ->
            TgtMean gmpe c [tstar] n k = ln (im_Tstar_arg c)).
  { intros n Hn. apply TgtMean_conditioning_period; auto. }
  assert (Hvar : forall n j, (n < nScenarios c)%nat ->
            TgtCov gmpe c [tstar] n k j = 0).
  { intros n j Hn. unfold TgtCov. destruct (useVar_arg c =? 0)%nat; [reflexivity|].
    apply Cov_conditioning_period; auto. }
  assert (Hentry : forall j, TgtCov_fin gmpe c [tstar] k j = 1e-10).
  { intros j. unfold TgtCov_fin. destruct (k =? j)%nat.
    - rewrite (cov_diag_const gmpe c [tstar] k (ln (im_Tstar_arg c)) 0); auto.
      apply floor_small_0.
    - rewrite Hvar by lia. apply floor_small_0. }
  split; [|split].
  - rewrite Em by assumption. now apply TgtMean_fin_const.
  - rewrite Es by assumption. unfold TgtSigma_fin. cbv zeta. rewrite Hentry.
    destruct (Np.Rltb 1e-10 0) eqn:E; [apply Rltb_true in E; lra|].
    apply sqrt_1e10.
  - intros j Hj. rewrite !Ec by assumption.
    rewrite (TgtCov_fin_sym gmpe c [tstar] j k). now rewrite Hentry.
Qed.

Lemma conditioning_period_is_pinned_witness :
  exists t,
    create demo_gmpe demo_call_cond = Ok t
    /\ nth 0 (mu_ln t) 0 = ln 2 /\ nth 0 (sigma_ln t) 0 = 1e-5.
Proof.
  assert (H : exists t, create demo_gmpe demo_call_cond = Ok t).
  { unfold create, Tstar_self, demo_call_cond.
    cbn [length Nat.eqb bind T_Tgt Tstar0 nScenarios cond_arg epsilon].
    eexists. reflexivity. }
  destruct H as [t Ht]. exists t. split; [exact Ht|].
  destruct (conditioning_period_is_pinned demo_gmpe demo_call_cond t 1 O)
    as (Hm & Hs & _); try reflexivity; try exact Ht.
  - cbn. lia.
  - intros n _. cbn. lra.
  - cbn. lra.
  - split; assumption.
Defined.

(** X6.  Called with [Hcont = None] for at least one scenario, [create]
    stores one hazard weight [1 / nScenarios] per scenario, the weights add
    up to 1, and every entry of [mu_ln] is the arithmetic mean of the
    scenario means at that period. *)
Theorem default_hazard_weights (gmpe : nat -> R -> R * R) (c : call)
  (t : target)
  (HH : Hcont_arg c = None) (Hcreate : create gmpe c = Ok t) :
  Hcont t = repeat (1 / INR (nScenarios c)) (nScenarios c)
  /\ length (Hcont t) = nScenarios c
  /\ Np.sum (Hcont t) = 1
  /\ exists Ts,
       (if (cond_arg c =? 0)%nat then Ts = [] else Tstar t = Some Ts)
       /\ forall i, (i < length (T t))%nat ->
            nth i (mu_ln t) 0
            = Np.sum (map (fun n => TgtMean gmpe c Ts n i) (seq 0 (nScenarios c)))
              / INR (nScenarios c).
Proof.
  pose proof (create_Ok_inv gmpe _ _ Hcreate)
    as (Ts & HTs & HnS & _ & _ & HT & HHc & HTstar & _).
  destruct (create_entries gmpe _ _ Hcreate) as (Ts' & HTs' & HlT & Em & _).
  rewrite HTs in HTs'. injection HTs' as <-.
  assert (Hw : Hcont_self c = repeat (1 / INR (nScenarios c)) (nScenarios c)).
  { unfold Hcont_self. now rewrite HH. }
  rewrite HHc, Hw. split; [reflexivity|]. split; [apply repeat_length|].
  split; [apply uniform_weights; lia|].
  exists Ts. split.
  - destruct (cond_arg c =? 0)%nat; [now injection HTs as <-|exact HTstar].
  - rewrite HlT. intros i Hi. rewrite Em by assumption. unfold TgtMean_fin.
    rewrite Hw. unfold Rdiv. rewrite <- sum_map_scal_r.
    apply sum_map_ext. intros n Hn. apply in_seq in Hn.
    rewrite nth_repeat_lt by lia. lra.
Qed.

Lemma default_hazard_weights_witness :
  exists t,
    create demo_gmpe call_uncond = Ok t
    /\ Np.sum (Hcont t) = 1.
Proof.
  destruct call_uncond_created as [t Ht]. exists t. split; [exact Ht|].
  now destruct (default_hazard_weights demo_gmpe call_uncond t eq_refl Ht)
    as (_ & _ & H & _).
Defined.

End TargetValuesClaims.

(** ** What the selection records, whatever the weights *)

Section ConsistencyFacts.
Import Target Selector Consistency.

Variable tgt : target.
Variable cfg : config.
Variable sim_spec sampleBig : list (list R).
Variable ind1 : list nat.
Variable im : R.

Local Abbreviation nBig := (nBig sampleBig).
Local Abbreviation scaleFac2 := (scaleFac2 tgt cfg sim_spec sampleBig ind1 im).
Local Abbreviation cand_row := (cand_row tgt cfg sim_spec sampleBig ind1 im).
Local Abbreviation phase1 := (phase1 tgt cfg sim_spec sampleBig ind1 im).
Local Abbreviation phase2_slot := (phase2_slot tgt cfg sim_spec sampleBig ind1 im).
Local Abbreviation phase2_pass := (phase2_pass tgt cfg sim_spec sampleBig ind1 im).
Local Abbreviation consistent :=
  (consistent tgt cfg sim_spec sampleBig ind1 im).

Hypothesis Him : cond tgt = 1%nat -> 0 < im.
Hypothesis HnT : (0 < nT tgt)%nat.

Lemma phase1_consistent (st : state) : phase1 = Ok st -> consistent st.
Proof.
  intros H.
  pose proof (phase1_inv_final tgt cfg sim_spec sampleBig ind1 im st H)
    as (_ & _ & _ & Hmin & _).
  pose proof (phase1_phase2_inv tgt cfg sim_spec sampleBig ind1 im st Him HnT H)
    as (Hl1 & Hl2 & Hl3 & _ & Hent & _).
  unfold Consistency.consistent. repeat (split; [assumption|]). split.
  - intros i Hi. destruct (Hent i Hi) as (r & H1 & H2 & _ & H4 & H5).
    exists r. auto.
  - intros m Hm. congruence.
Qed.

Lemma phase2_slot_consistent (st st' : state) (i : nat) :
  (i < nGM cfg)%nat -> consistent st -> phase2_slot st i = Ok st' ->
  consistent st'.
Proof.
  intros Hi (Hl1 & Hl2 & Hl3 & Hent & Hmin) H.
  unfold Selector.phase2_slot in H.
  destruct (scan_spec tgt cfg sim_spec sampleBig ind1 im
              (Np.delete i (sampleSmall st)) (Np.delete i (recID st)) i (minID st))
    as [[Hs _]|(j & Hj & Hs & _)]; rewrite Hs in H; cbn [fst] in H.
  - destruct (minID st) as [m|] eqn:Em; [|discriminate].
    injection H as <-. specialize (Hmin m eq_refl).
    rewrite !insert_delete by lia.
    unfold Consistency.consistent. cbn [recID finalScaleFac sampleSmall minID].
    rewrite !length_upd. repeat (split; [assumption|]). split.
    + intros k Hk. destruct (Nat.eq_dec i k) as [<-|Hne].
      * exists m. rewrite !nth_upd_eq by lia. repeat split; try assumption.
        destruct (Nat.eqb_spec (isScaled cfg) 1) as [|Hne]; [reflexivity|].
        symmetry. now apply scaleFac2_unscaled.
      * rewrite !nth_upd_neq by assumption. now apply Hent.
    + intros m' Hm'. now injection Hm' as <-.
  - injection H as <-.
    rewrite !insert_delete by lia.
    unfold Consistency.consistent. cbn [recID finalScaleFac sampleSmall minID].
    rewrite !length_upd. repeat (split; [assumption|]). split.
    + intros k Hk. destruct (Nat.eq_dec i k) as [<-|Hne].
      * exists j. rewrite !nth_upd_eq by lia. repeat split; try assumption.
        destruct (Nat.eqb_spec (isScaled cfg) 1) as [|Hne]; [reflexivity|].
        symmetry. now apply scaleFac2_unscaled.
      * rewrite !nth_upd_neq by assumption. now apply Hent.
    + intros m' Hm'. now injection Hm' as <-.
Qed.

Lemma phase2_pass_consistent (st st' : state) :
  consistent st -> phase2_pass st = Ok st' -> consistent st'.
Proof.
  intros Hst H.
  apply (for_each_seq_ind phase2_slot (fun _ => consistent) 0 (nGM cfg) st st');
    [assumption| |assumption].
  intros i x y Hi Hx Hy. apply (phase2_slot_consistent x y i); [lia|assumption..].
Qed.

Lemma passes_consistent (ind2 : list nat) (n : nat) (st st' : state)
  (last last' : option (R * R)) :
  consistent st ->
  passes tgt cfg sim_spec sampleBig ind1 ind2 im n st last = Ok (st', last') ->
  consistent st'.
Proof.
  revert st last. induction n as [|n IH]; intros st last Hst H; cbn [passes] in H.
  - now injection H as <- _.
  - apply bind_Ok_inv in H. destruct H as (st1 & H1 & H).
    apply bind_Ok_inv in H. destruct H as (e & He & H).
    pose proof (phase2_pass_consistent st st1 Hst H1) as Hst1.
    destruct (within_tol cfg e).
    + now injection H as <- _.
    + now apply (IH st1 (Some e)).
Qed.

End ConsistencyFacts.

Section SelectFacts.
Import Target Selector Consistency.

(** A successful [select] unfolds into its stages. *)
Lemma select_Ok_inv (tgt : target) (cfg : config)
  (sim_spec sampleBig : list (list R)) (sel : selection) :
  select tgt cfg sim_spec sampleBig = Ok sel ->
  exists i1 i2 im st1 st e,
    indices tgt = Ok (i1, i2)
    /\ (if (cond tgt =? 1)%nat
        then im_Tstar tgt = Some im \/ (im_Tstar tgt = None /\ im = 1)
        else im = 0)
    /\ phase1 tgt cfg sim_spec sampleBig i1 im = Ok st1
    /\ passes tgt cfg sim_spec sampleBig i1 i2 im (nLoop cfg) st1 None
       = Ok (st, Some e)
    /\ sel = {| rec_id := recID st; rec_scale := finalScaleFac st;
                rec_spec := sampleSmall st;
                medianErr := fst e; stdErr := snd e |}.
Proof.
  intros H. unfold select in H.
  apply bind_Ok_inv in H. destruct H as ([i1 i2] & Hii & H).
  apply bind_Ok_inv in H. destruct H as (im & Himv & H).
  apply bind_Ok_inv in H. destruct H as (st1 & H1 & H).
  apply bind_Ok_inv in H. destruct H as ([st last] & Hp & H).
  cbn [fst snd] in *. destruct last as [e|]; [|discriminate].
  injection H as <-.
  exists i1, i2, im, st1, st, e. split; [assumption|].
  split; [|auto].
  exact (level_read_inv tgt cfg (nBig sampleBig) im Himv).
Qed.

Lemma select_consistent (tgt : target) (cfg : config)
  (sim_spec sampleBig : list (list R)) (sel : selection) :
  (cond tgt = 1%nat -> forall v, im_Tstar tgt = Some v -> 0 < v) ->
  (0 < nT tgt)%nat ->
  select tgt cfg sim_spec sampleBig = Ok sel ->
  exists i1 i2 im st,
    indices tgt = Ok (i1, i2)
    /\ (if (cond tgt =? 1)%nat
        then im_Tstar tgt = Some im \/ (im_Tstar tgt = None /\ im = 1)
        else im = 0)
    /\ consistent tgt cfg sim_spec sampleBig i1 im st
    /\ rec_id sel = recID st /\ rec_scale sel = finalScaleFac st
    /\ rec_spec sel = sampleSmall st.
Proof.
  intros Him HnT H.
  destruct (select_Ok_inv _ _ _ _ _ H)
    as (i1 & i2 & im & st1 & st & e & Hii & Himv & H1 & Hp & ->).
  exists i1, i2, im, st. split; [assumption|]. split; [assumption|].
  split; [|auto].
  assert (Hpos : cond tgt = 1%nat -> 0 < im).
  { exact (level_positive tgt im Himv Him). }
  pose proof (phase1_consistent tgt cfg sim_spec sampleBig i1 im Hpos HnT st1 H1)
    as Hc1.
  exact (passes_consistent tgt cfg sim_spec sampleBig i1 im Hpos HnT i2
           _ _ _ _ _ Hc1 Hp).
Qed.

End SelectFacts.

Section SelectionClaims.
Import Target Selector Consistency Demo.

Lemma indices_in_grid (tgt : target) (i1 i2 : list nat) :
  indices tgt = Ok (i1, i2) ->
  Forall (fun k => (k < nT tgt)%nat) i1 /\ Forall (fun k => (k < nT tgt)%nat) i2.
Proof.
  unfold indices. destruct (cond tgt =? 1)%nat.
  - destruct (Tstar tgt) as [Ts|]; [|discriminate]. intros H.
    apply bind_Ok_inv in H. destruct H as (l & Hl & H). injection H as <- <-.
    revert l Hl. induction Ts as [|t Ts IH]; intros l Hl; cbn [mapM] in Hl.
    + injection Hl as <-. split; constructor.
    + apply bind_Ok_inv in Hl. destruct Hl as ([a b] & Hab & Hl).
      apply bind_Ok_inv in Hl. destruct Hl as (l' & Hl' & Hl). injection Hl as <-.
      apply bind_Ok_inv in Hab. destruct Hab as (a' & Ha & Hab).
      apply bind_Ok_inv in Hab. destruct Hab as (b' & Hb & Hab).
      injection Hab as <- <-.
      apply where_first_spec in Ha, Hb. destruct (IH _ Hl') as [F1 F2].
      cbn [map fst snd]. split; constructor; tauto.
  - intros H. injection H as <- <-. split; constructor.
Qed.

(** X7.  Whatever the weights, for a non-empty grid and a positive
    conditioning level, the three arrays a successful [select] returns
    describe the same records: entry [i] of [rec_id] is a pool index [r],
    [rec_scale[i]] is positive, and row [i] of [rec_spec] is the spectrum
    of record [r] times [rec_scale[i]], in logarithms, at every period. *)
Theorem selection_is_scaled_pool (tgt : target) (cfg : config)
  (sim_spec sampleBig : list (list R)) (sel : selection)
  (Him : cond tgt = 1%nat -> forall v, im_Tstar tgt = Some v -> 0 < v)
  (HnT : (0 < nT tgt)%nat)
  (Hsel : select tgt cfg sim_spec sampleBig = Ok sel) :
  length (rec_id sel) = nGM cfg /\ length (rec_scale sel) = nGM cfg
  /\ length (rec_spec sel) = nGM cfg
  /\ forall i, (i < nGM cfg)%nat ->
       exists r,
         nth i (rec_id sel) (-1)%Z = Z.of_nat r /\ (r < nBig sampleBig)%nat
         /\ 0 < nth i (rec_scale sel) 1
         /\ length (nth i (rec_spec sel) []) = nT tgt
         /\ forall k, (k < nT tgt)%nat ->
              exp (nth k (nth i (rec_spec sel) []) 0)
              = exp (big sampleBig r k) * nth i (rec_scale sel) 1.
Proof.
  destruct (select_consistent tgt cfg sim_spec sampleBig sel Him HnT Hsel)
    as (i1 & i2 & im & st & Hii & Himv & (Hl1 & Hl2 & Hl3 & Hent & _) & -> & -> & ->).
  repeat (split; [assumption|]).
  assert (Hpos : cond tgt = 1%nat -> 0 < im).
  { exact (level_positive tgt im Himv Him). }
  intros i Hi. destruct (Hent i Hi) as (r & H1 & H2 & H3 & H4).
  exists r. split; [assumption|]. split; [assumption|].
  pose proof (scaleFac2_pos tgt cfg sim_spec sampleBig i1 im i r Hpos HnT) as Hsf.
  rewrite H3, H4. split; [assumption|]. unfold cand_row.
  split; [now rewrite length_map, length_seq|].
  intros k Hk.
  rewrite (nth_map_seq
             (fun k => big sampleBig r k
                       + ln (scaleFac2 tgt cfg sim_spec sampleBig i1 im i r)))
    by assumption.
  now rewrite exp_plus, exp_ln.
Qed.

Lemma selection_is_scaled_pool_witness :
  exists sel,
    select (uni_target 0) (pair_cfg 1) sims4 (pool pool4) = Ok sel
    /\ length (rec_id sel) = 2%nat /\ length (rec_scale sel) = 2%nat.
Proof.
  pose proof run4_select as Hsel.
  match type of Hsel with _ = Ok ?s =>
    exists s; split; [exact Hsel|];
    destruct (selection_is_scaled_pool (uni_target 0) (pair_cfg 1) sims4
                (pool pool4) s) as (H1 & H2 & _);
      [discriminate|cbn; lia|exact Hsel|]
  end.
  split; assumption.
Defined.

(** X8.  In conditional mode with scaling, every spectrum of a
    successful selection meets the conditioning level exactly: the
    exponential of its average over the conditioning indices is the stored
    [im_Tstar]. *)
Theorem selected_spectra_meet_level (tgt : target) (cfg : config)
  (sim_spec sampleBig : list (list R)) (sel : selection) (v : R)
  (Ts : list R)
  (Hcond : cond tgt = 1%nat) (Hsc : isScaled cfg = 1%nat)
  (Hv : im_Tstar tgt = Some v) (Hpos : 0 < v)
  (HTs : Tstar tgt = Some Ts) (Hne : Ts <> [])
  (Hsel : select tgt cfg sim_spec sampleBig = Ok sel) :
  exists ind1 ind2,
    indices tgt = Ok (ind1, ind2)
    /\ forall i, (i < nGM cfg)%nat ->
         exp (Np.sum (Np.take ind1 (nth i (rec_spec sel) [])) / INR (length Ts))
         = v.
Proof.
  assert (HnT : (0 < nT tgt)%nat).
  { destruct (select_Ok_inv _ _ _ _ _ Hsel) as (i1 & i2 & _ & _ & _ & _ & Hii & _).
    destruct (indices_in_grid _ _ _ Hii) as [F1 _].
    destruct (indices_lengths tgt Ts i1 i2 Hcond HTs Hii) as [L1 _].
    destruct i1 as [|a i1]; [destruct Ts; [congruence|discriminate]|].
    inversion F1; subst. lia. }
  assert (Him : cond tgt = 1%nat -> forall w, im_Tstar tgt = Some w -> 0 < w).
  { intros _ w Hw. congruence. }
  destruct (select_consistent tgt cfg sim_spec sampleBig sel Him HnT Hsel)
    as (i1 & i2 & im & st & Hii & Himv & (Hl1 & Hl2 & Hl3 & Hent & _) & _ & _ & ->).
  rewrite Hcond in Himv. cbn [Nat.eqb] in Himv.
  assert (im = v) by (destruct Himv as [?|[? _]]; congruence). subst im.
  exists i1, i2. split; [assumption|]. intros i Hi.
  destruct (Hent i Hi) as (r & _ & _ & _ & ->).
  destruct (indices_in_grid _ _ _ Hii) as [F1 _].
  destruct (indices_lengths tgt Ts i1 i2 Hcond HTs Hii) as [L1 _].
  set (sf := scaleFac2 tgt cfg sim_spec sampleBig i1 v i r).
  set (S := Np.sum (Np.take i1 (nth r sampleBig []))).
  assert (Hm : 0 < INR (length Ts)).
  { apply lt_0_INR. destruct Ts; [congruence|cbn; lia]. }
  assert (Hsf : sf = v / exp (S / INR (length Ts))).
  { unfold sf, scaleFac2, lenTstar. now rewrite Hsc, Hcond, HTs. }
  assert (Hsum : Np.sum (Np.take i1 (cand_row tgt cfg sim_spec sampleBig i1 v i r))
                 = S + INR (length Ts) * ln sf).
  { unfold Np.take, cand_row. fold sf.
    transitivity (Np.sum (map (fun k => nth k (nth r sampleBig []) 0 + ln sf) i1)).
    - apply sum_map_ext. intros k Hk. rewrite Forall_forall in F1.
      now rewrite (nth_map_seq (fun k => big sampleBig r k + ln sf)) by now apply F1.
    - rewrite sum_map_plus, sum_map_const, L1. reflexivity. }
  rewrite Hsum, Hsf. unfold Rdiv at 2. rewrite ln_mult, ln_Rinv, ln_exp;
    [|apply exp_pos|assumption|apply Rinv_0_lt_compat, exp_pos].
  replace ((S + INR (length Ts) * (ln v + - (S / INR (length Ts))))
           / INR (length Ts)) with (ln v) by (field; lra).
  now apply exp_ln.
Qed.

(** X9.  With [isScaled] other than 1 a successful [select] returns
    scale factors that are all 1 and spectra that are the pool spectra of
    the selected records, unchanged. *)
Theorem unscaled_selection_is_pool (tgt : target) (cfg : config)
  (sim_spec sampleBig : list (list R)) (sel : selection)
  (Hsc : isScaled cfg <> 1%nat)
  (Him : cond tgt = 1%nat -> forall v, im_Tstar tgt = Some v -> 0 < v)
  (HnT : (0 < nT tgt)%nat)
  (Hsel : select tgt cfg sim_spec sampleBig = Ok sel) :
  rec_scale sel = repeat 1 (nGM cfg)
  /\ forall i, (i < nGM cfg)%nat ->
       exists r,
         nth i (rec_id sel) (-1)%Z = Z.of_nat r /\ (r < nBig sampleBig)%nat
         /\ nth i (rec_spec sel) [] = map (big sampleBig r) (seq 0 (nT tgt)).
Proof.
  destruct (select_consistent tgt cfg sim_spec sampleBig sel Him HnT Hsel)
    as (i1 & i2 & im & st & Hii & Himv & (Hl1 & Hl2 & Hl3 & Hent & _) & -> & -> & ->).
  split.
  - apply (nth_ext _ _ 1 1); [now rewrite repeat_length|].
    intros i Hi. rewrite Hl2 in Hi. destruct (Hent i Hi) as (r & _ & _ & -> & _).
    rewrite nth_repeat_lt by assumption. now apply scaleFac2_unscaled.
  - intros i Hi. destruct (Hent i Hi) as (r & H1 & H2 & _ & H4).
    exists r. split; [assumption|]. split; [assumption|].
    rewrite H4. unfold cand_row. apply map_ext. intros k.
    rewrite scaleFac2_unscaled by assumption. rewrite ln_1. lra.
Qed.

Lemma unscaled_selection_is_pool_witness :
  exists sel,
    select (uni_target 0) (pair_cfg 1) sims4 (pool pool4) = Ok sel
    /\ rec_scale sel = [1; 1].
Proof.
  pose proof run4_select as Hsel.
  match type of Hsel with _ = Ok ?s =>
    exists s; split; [exact Hsel|];
    destruct (unscaled_selection_is_pool (uni_target 0) (pair_cfg 1) sims4
                (pool pool4) s) as (H1 & _);
      [discriminate|discriminate|cbn; lia|exact Hsel|exact H1]
  end.
Defined.

(** X10.  With [nLoop = 0] the method never returns: when the index
    lookup and Phase 1 succeed, the report after the pass loop reads
    [medianErr], which no pass has bound, and raises [UnboundLocalError]. *)
Theorem select_without_passes (tgt : target) (cfg : config)
  (sim_spec sampleBig : list (list R)) (H0 : nLoop cfg = O) :
  (exists e, select tgt cfg sim_spec sampleBig = Raise e)
  /\ forall i1 i2 im st1,
       indices tgt = Ok (i1, i2) ->
       (if (cond tgt =? 1)%nat then im_Tstar tgt = Some im else im = 0) ->
       phase1 tgt cfg sim_spec sampleBig i1 im = Ok st1 ->
       select tgt cfg sim_spec sampleBig = Raise UnboundLocalError.
Proof.
  split.
  - destruct (select tgt cfg sim_spec sampleBig) as [sel|e] eqn:E; [|now exists e].
    destruct (select_Ok_inv _ _ _ _ _ E) as (i1 & i2 & im & st1 & st & e & _ & _ & _ & Hp & _).
    rewrite H0 in Hp. cbn in Hp. discriminate.
  - intros i1 i2 im st1 Hii Himv H1. unfold select. rewrite Hii. cbn [bind fst snd].
    destruct (cond tgt =? 1)%nat.
    + rewrite Himv. cbn [bind]. rewrite H1, H0. reflexivity.
    + subst im. cbn [bind]. rewrite H1, H0. reflexivity.
Qed.

End SelectionClaims.

(** ** A conditional run with scaling *)

Section RunLevel.
Import Target Selector Invariant Demo Samples.

Local Abbreviation tgt := target_level2.
Local Abbreviation cfg := cfg_scaled_one.

Lemma mean_single (x : R) : Np.mean [x] = x.
Proof. unfold Np.mean, Np.sum. cbn. lra. Qed.

Lemma std_single (x : R) : Np.std [x] = 0.
Proof.
  unfold Np.std. rewrite mean_single. cbn [map].
  replace (x - x) with 0 by lra. rewrite Rabs_R0, Rsqr_0, mean_single.
  apply sqrt_0.
Qed.

Lemma level2_indices : indices tgt = Ok ([0%nat], [1%nat]).
Proof.
  unfold indices. cbn [target_level2 cond Tstar T Nat.eqb mapM Np.where_first].
  rewrite Reqb_refl. cbn [negb bind].
  rewrite (Reqb_neq 2 1) by lra. reflexivity.
Qed.

Lemma level2_scaleFac (i : nat) :
  scaleFac2 tgt cfg sims_level2 rows_unit [0%nat] 2 i 0 = 2.
Proof.
  unfold scaleFac2, lenTstar, rows_unit.
  cbn [cfg_scaled_one isScaled target_level2 cond Tstar Nat.eqb length INR nth
       Np.take map Np.sum fold_right].
  replace ((0 + 0) / 1) with 0 by lra. rewrite exp_0. lra.
Qed.

Lemma level2_cand_row (i : nat) :
  cand_row tgt cfg sims_level2 rows_unit [0%nat] 2 i 0 = [ln 2; ln 2].
Proof.
  unfold cand_row. rewrite level2_scaleFac.
  cbn [target_level2 nT T length seq map]. unfold big, rows_unit. cbn [nth].
  repeat f_equal; lra.
Qed.

Lemma level2_dev : dev_pen tgt cfg [[ln 2; ln 2]] = 4.
Proof.
  unfold dev_pen. cbn [cfg_scaled_one penalty].
  destruct (Np.Rltb 0 0) eqn:E; [apply Rltb_true in E; lra|].
  unfold dev_base.
  cbn [cfg_scaled_one weights target_level2 nT T mu_ln sigma_ln length seq map
       nth Np.column].
  rewrite !mean_single, !std_single. unfold Np.sum. cbn [fold_right]. lra.
Qed.

Lemma level2_phase1 :
  phase1 tgt cfg sims_level2 rows_unit [0%nat] 2
  = Ok (mkState [0]%Z [2] [[ln 2; ln 2]] None).
Proof.
  unfold phase1. cbn [cfg_scaled_one nGM seq for_each].
  assert (Herr : err1 tgt cfg sims_level2 rows_unit [0%nat] 2
                   (recID (init_state tgt cfg)) 0 0 = 0).
  { unfold err1.
    change (scaleFac1 tgt cfg sims_level2 rows_unit [0%nat] 2 0 0)
      with (scaleFac2 tgt cfg sims_level2 rows_unit [0%nat] 2 0 0).
    rewrite level2_scaleFac.
    cbn [init_state recID cfg_scaled_one nGM repeat selected existsb Z.eqb
         Z.of_nat orb maxScale].
    destruct (Np.Rltb 4 2) eqn:E; [apply Rltb_true in E; lra|].
    cbn [target_level2 nT T length seq map].
    unfold big, sim, rows_unit, sims_level2. cbn [nth].
    rewrite exp_0, Rmult_1_l. unfold Np.sum. cbn [fold_right]. lra. }
  rewrite (phase1_row_pick _ _ _ _ _ _ _ 0 0).
  - change (scaleFac1 tgt cfg sims_level2 rows_unit [0%nat] 2 0 0)
      with (scaleFac2 tgt cfg sims_level2 rows_unit [0%nat] 2 0 0).
    rewrite level2_scaleFac.
    cbn [bind init_state cfg_scaled_one nGM isScaled Nat.eqb repeat recID
         finalScaleFac sampleSmall minID Np.upd nth].
    cbn [target_level2 nT T length seq map]. unfold big, rows_unit. cbn [nth].
    rewrite exp_0, Rmult_1_l. reflexivity.
  - unfold nBig, rows_unit. cbn. lia.
  - rewrite Herr. lra.
  - intros j Hj Hne. unfold nBig, rows_unit in Hj. cbn [length] in Hj. lia.
Qed.

Lemma level2_pass :
  phase2_pass tgt cfg sims_level2 rows_unit [0%nat] 2
              (mkState [0]%Z [2] [[ln 2; ln 2]] None)
  = Ok (mkState [0]%Z [2] [[ln 2; ln 2]] (Some 0%nat)).
Proof.
  unfold phase2_pass. cbn [cfg_scaled_one nGM seq for_each].
  rewrite (phase2_slot_pick _ _ _ _ _ _ _ 0 0).
  - rewrite level2_scaleFac, level2_cand_row.
    cbn [bind cfg_scaled_one isScaled Nat.eqb recID finalScaleFac sampleSmall
         minID Np.upd Np.insert Np.delete firstn skipn app Z.of_nat].
    reflexivity.
  - unfold nBig, rows_unit. cbn. lia.
  - cbn zeta. cbn [Np.delete firstn skipn app sampleSmall recID].
    unfold devTotal. rewrite level2_scaleFac, level2_cand_row. cbn [app].
    cbn [cfg_scaled_one maxScale selected existsb orb].
    destruct (Np.Rltb 4 2) eqn:E; [apply Rltb_true in E; lra|].
    unfold selected. cbn [existsb orb]. rewrite level2_dev. lra.
  - intros j Hj Hne. unfold nBig, rows_unit in Hj. cbn [length] in Hj. lia.
Qed.

Lemma level2_select :
  exists e,
    select tgt cfg sims_level2 rows_unit
    = Ok {| rec_id := [0]%Z; rec_scale := [2]; rec_spec := [[ln 2; ln 2]];
            medianErr := fst e; stdErr := snd e |}.
Proof.
  unfold select. rewrite level2_indices.
  cbn [bind target_level2 cond im_Tstar Nat.eqb fst snd].
  rewrite level2_phase1. cbn [bind cfg_scaled_one nLoop passes].
  rewrite level2_pass. cbn [bind sampleSmall].
  unfold errors, checked_periods.
  cbn [target_level2 cond Nat.eqb andb length map Np.max bind].
  destruct (within_tol _ _); eexists; cbn [fst snd]; reflexivity.
Qed.

End RunLevel.

Section SelectionWitnesses.
Import Target Selector Consistency Demo Samples.

Lemma selected_spectra_meet_level_witness :
  exists sel ind1 ind2,
    select target_level2 cfg_scaled_one sims_level2 rows_unit = Ok sel
    /\ rec_scale sel = [2]
    /\ indices target_level2 = Ok (ind1, ind2)
    /\ forall i, (i < 1)%nat ->
         exp (Np.sum (Np.take ind1 (nth i (rec_spec sel) [])) / INR 1) = 2.
Proof.
  destruct level2_select as (e & Hsel).
  destruct (selected_spectra_meet_level target_level2 cfg_scaled_one
              sims_level2 rows_unit _ 2 [1] eq_refl eq_refl eq_refl
              ltac:(lra) eq_refl ltac:(discriminate) Hsel)
    as (ind1 & ind2 & Hii & H).
  eexists. exists ind1, ind2. split; [exact Hsel|].
  split; [reflexivity|]. split; [exact Hii|]. exact H.
Defined.

Lemma select_without_passes_witness :
  select (uni_target 0)
         (mkConfig 2 0 4 [1; 0; 0.3] 0 10 0) sims4 (pool pool4)
  = Raise UnboundLocalError.
Proof.
  destruct (select_without_passes (uni_target 0)
              (mkConfig 2 0 4 [1; 0; 0.3] 0 10 0) sims4 (pool pool4) eq_refl)
    as [_ H].
  apply (H [] [] 0 (mkState [1; 0]%Z [1; 1] [[1.04]; [-1]] None));
    [reflexivity|reflexivity|exact run4_phase1].
Defined.

End SelectionWitnesses.

(** ** Nearest grid periods *)

Section GridFacts.
Import Target Grid.

Lemma where_first_first (p : R -> bool) (l : list R) (k : nat) :
  Np.where_first p l = Ok k ->
  (k < length l)%nat /\ p (nth k l 0) = true
  /\ forall m, (m < k)%nat -> p (nth m l 0) = false.
Proof.
  revert k. induction l as [|x l IH]; intros k H; cbn in H; [discriminate|].
  destruct (p x) eqn:Hp.
  - injection H as <-. cbn. split; [lia|]. split; [exact Hp|]. intros m Hm. lia.
  - apply bind_Ok_inv in H. destruct H as (k' & Hk' & H). injection H as <-.
    destruct (IH _ Hk') as (Hlt & Hpk & Hfirst). cbn [length nth].
    split; [lia|]. split; [exact Hpk|].
    intros [|m] Hm; [exact Hp|]. apply Hfirst. lia.
Qed.

Lemma where_first_defined (p : R -> bool) (l : list R) (x : R) :
  In x l -> p x = true -> exists k, Np.where_first p l = Ok k.
Proof.
  induction l as [|y l IH]; intros Hin Hp; [destruct Hin|]. cbn.
  destruct (p y) eqn:Hy; [now exists O|].
  destruct Hin as [->|Hin]; [congruence|].
  destruct (IH Hin Hp) as (k & ->). now exists (S k).
Qed.

Lemma nearest_index_def (c : call) (x : R) :
  nearest c x = nearest_index (T_Tgt c) x.
Proof. reflexivity. Qed.

(** The index found is the first one whose period is nearest to [x]. *)
Lemma nearest_index_spec (g : list R) (x : R) (k : nat) :
  nearest_index g x = Ok k ->
  (k < length g)%nat
  /\ (forall m, (m < length g)%nat -> Rabs (nth k g 0 - x) <= Rabs (nth m g 0 - x))
  /\ (forall m, (m < k)%nat -> Rabs (nth k g 0 - x) < Rabs (nth m g 0 - x)).
Proof.
  unfold nearest_index. intros H.
  apply bind_Ok_inv in H. destruct H as (mn & Hmn & H).
  set (temp := map (fun t => Rabs (t - x)) g) in *.
  assert (Hne : temp <> []) by (intros E; rewrite E in Hmn; discriminate).
  destruct (min_spec temp Hne) as (mn' & Hmn' & Hin & Hle).
  rewrite Hmn in Hmn'. injection Hmn' as <-.
  destruct (where_first_first _ _ _ H) as (Hlt & Hp & Hfirst).
  unfold temp in Hlt. rewrite length_map in Hlt.
  assert (Hnth : forall m, (m < length g)%nat ->
            nth m temp 0 = Rabs (nth m g 0 - x)).
  { intros m Hm. unfold temp.
    rewrite (nth_indep _ 0 (Rabs (0 - x))) by now rewrite length_map.
    exact (map_nth (fun t => Rabs (t - x)) g 0 m). }
  apply Reqb_true in Hp. rewrite Hnth in Hp by assumption.
  split; [assumption|]. split.
  - intros m Hm. rewrite Hp, <- Hnth by assumption.
    apply Hle, nth_In. unfold temp. now rewrite length_map.
  - intros m Hm. specialize (Hfirst m Hm).
    assert (Hm' : (m < length g)%nat) by lia.
    rewrite Hnth in Hfirst by assumption.
    assert (Hge : mn <= Rabs (nth m g 0 - x)).
    { rewrite <- Hnth by assumption. apply Hle, nth_In. unfold temp.
      now rewrite length_map. }
    destruct (Req_dec (Rabs (nth m g 0 - x)) mn) as [E|E].
    + apply Reqb_true in E. congruence.
    + lra.
Qed.

Lemma nearest_index_defined (g : list R) (x : R) :
  g <> [] -> exists k, nearest_index g x = Ok k.
Proof.
  intros Hne. unfold nearest_index.
  set (temp := map (fun t => Rabs (t - x)) g).
  assert (Hne' : temp <> []).
  { unfold temp. destruct g; [congruence|discriminate]. }
  destruct (min_spec temp Hne') as (mn & Hmn & Hin & _).
  rewrite Hmn. cbn [bind].
  apply (where_first_defined _ _ mn Hin). apply Reqb_refl.
Qed.

(** On a non-decreasing grid the nearest index is monotone in the
    point. *)
Lemma nearest_index_mono (g : list R) (x y : R) (i j : nat) :
  nondecreasing g -> x <= y ->
  nearest_index g x = Ok i -> nearest_index g y = Ok j -> (i <= j)%nat.
Proof.
  intros Hg Hxy Hi Hj.
  destruct (nearest_index_spec _ _ _ Hi) as (Li & Mi & Fi).
  destruct (nearest_index_spec _ _ _ Hj) as (Lj & Mj & Fj).
  destruct (Nat.le_gt_cases i j) as [|Hlt]; [assumption|exfalso].
  specialize (Fi j Hlt). specialize (Mj i Li).
  assert (Hji : nth j g 0 <= nth i g 0) by (apply Hg; lia).
  revert Fi Mj. unfold Rabs.
  repeat match goal with |- context [Rcase_abs ?a] => destruct (Rcase_abs a) end;
    intros; lra.
Qed.

(** A point of an increasing grid is its own nearest period. *)
Lemma nearest_index_exact (g : list R) (k : nat) :
  increasing g -> (k < length g)%nat -> nearest_index g (nth k g 0) = Ok k.
Proof.
  intros Hg Hk.
  destruct (nearest_index_defined g (nth k g 0)) as (k' & Hk');
    [destruct g; [cbn in Hk; lia|discriminate]|].
  rewrite Hk'. f_equal.
  destruct (nearest_index_spec _ _ _ Hk') as (L & M & _).
  specialize (M k Hk). replace (nth k g 0 - nth k g 0) with 0 in M by lra.
  rewrite Rabs_R0 in M.
  assert (E : nth k' g 0 = nth k g 0).
  { pose proof (Rabs_pos (nth k' g 0 - nth k g 0)).
    assert (Rabs (nth k' g 0 - nth k g 0) = 0) by lra.
    destruct (Req_dec (nth k' g 0 - nth k g 0) 0) as [|Hne]; [lra|].
    apply Rabs_no_R0 in Hne. contradiction. }
  destruct (Nat.lt_trichotomy k' k) as [Hlt|[->|Hgt]]; [|reflexivity|].
  - assert (nth k' g 0 < nth k g 0) by (apply Hg; lia). lra.
  - assert (nth k g 0 < nth k' g 0) by (apply Hg; lia). lra.
Qed.

Lemma increasing_nondecreasing (g : list R) : increasing g -> nondecreasing g.
Proof.
  intros Hg i j Hij. destruct (Nat.eq_dec i j) as [->|Hne]; [lra|].
  left. apply Hg. lia.
Qed.

Lemma max_spec (l : list R) :
  l <> [] -> exists m, Np.max l = Ok m /\ In m l /\ forall x, In x l -> x <= m.
Proof.
  induction l as [|x l IH]; intros Hne; [congruence|].
  destruct l as [|y l].
  - exists x. cbn. repeat split; auto. intros z [<-|[]]. lra.
  - destruct IH as (m & Hm & Hin & Hle); [discriminate|].
    exists (Rmax x m). change (Np.max (x :: y :: l))
      with (m0 <- Np.max (y :: l) ;; Ok (Rmax x m0)).
    rewrite Hm. cbn [bind]. split; [reflexivity|]. split.
    + unfold Rmax. destruct (Rle_dec x m); [now right|now left].
    + intros z [<-|Hz]; [apply Rmax_l|].
      apply Rle_trans with m; [now apply Hle|apply Rmax_r].
Qed.

(** The slice [l[a : b + 1]]. *)
Lemma slice_length {A : Type} (a b : nat) (l : list A) :
  (a <= b < length l)%nat ->
  length (skipn a (firstn (b + 1) l)) = (b + 1 - a)%nat.
Proof. intros H. rewrite length_skipn, length_firstn. lia. Qed.

Lemma slice_nth {A : Type} (a b i : nat) (l : list A) (d : A) :
  (a + i <= b)%nat ->
  nth i (skipn a (firstn (b + 1) l)) d = nth (a + i) l d.
Proof.
  intros Hi. rewrite nth_skipn, nth_firstn.
  destruct (Nat.ltb_spec (a + i) (b + 1)); [reflexivity|lia].
Qed.

Lemma slice_In (a b : nat) (l : list R) (x : R) :
  (a <= b < length l)%nat ->
  In x (skipn a (firstn (b + 1) l))
  <-> exists k, (a <= k <= b)%nat /\ nth k l 0 = x.
Proof.
  intros Hab. split.
  - intros Hin. apply (In_nth _ _ 0) in Hin. destruct Hin as (i & Hi & <-).
    rewrite slice_length in Hi by assumption.
    exists (a + i)%nat. split; [lia|]. symmetry. apply slice_nth. lia.
  - intros (k & Hk & <-).
    replace k with (a + (k - a))%nat at 1 by lia.
    rewrite <- (slice_nth a b (k - a) l 0) by lia.
    apply nth_In. rewrite slice_length by assumption. lia.
Qed.

Lemma where_first_absent (p : R -> bool) (l : list R) :
  (forall x, In x l -> p x = false) -> Np.where_first p l = Raise IndexError.
Proof.
  induction l as [|y l IH]; intros H; [reflexivity|]. cbn.
  rewrite (H y) by now left. rewrite IH; [reflexivity|].
  intros x Hx. apply H. now right.
Qed.

Lemma cond_indices_defined (grid Ts : list R) :
  (forall t, In t Ts -> In t grid) -> exists ind, cond_indices grid Ts = Ok ind.
Proof.
  unfold cond_indices. induction Ts as [|t Ts IH]; intros H; cbn [mapM].
  - now exists [].
  - destruct (where_first_defined (fun x => Np.Reqb x t) grid t) as (k & ->);
      [apply H; now left|apply Reqb_refl|].
    destruct IH as (ind & ->); [intros u Hu; apply H; now right|].
    cbn [bind]. now eexists.
Qed.

End GridFacts.

(** Order of the entries of a short list of numerals. *)
Ltac grid_order :=
  let i := fresh "i" in let j := fresh "j" in let H := fresh "H" in
  intros i j H; cbn [length] in H;
  do 5 (try (destruct i as [|i]; [|]));
  do 5 (try (destruct j as [|j]; [|]));
  cbn [nth]; try lia; try lra.

Section GridClaims.
Import Target Selector Grid Demo Samples.

(** X11.  Conditioning on an average over several periods: on a
    non-empty grid in non-decreasing order [create] replaces [Tstar] by the
    slice of the grid between the grid period nearest to the smallest
    given period and the one nearest to the largest.  The slice is not
    empty, all its periods are grid periods, so the index lookups of the
    conditioning periods succeed, and [create] returns for at least one
    scenario, with one hazard weight per scenario and, when epsilon is
    given, one value per scenario. *)
Theorem averaging_range_is_snapped (gmpe : nat -> R -> R * R) (c : call)
  (Hcond : cond_arg c = 1%nat)
  (Hlen : length (Tstar0 c) <> 1%nat) (Hne : Tstar0 c <> [])
  (Hgrid : T_Tgt c <> []) (Hsorted : nondecreasing (T_Tgt c))
  (HnS : nScenarios c <> O) (Hshape : Shapes.well_shaped c) :
  exists t Ts a b ind lo hi,
    create gmpe c = Ok t /\ T t = T_Tgt c /\ Tstar t = Some Ts
    /\ (a <= b < length (T t))%nat
    /\ Ts = skipn a (firstn (b + 1) (T t)) /\ Ts <> []
    /\ (forall x, In x Ts -> In x (T t))
    /\ Np.min (Tstar0 c) = Ok lo /\ Np.max (Tstar0 c) = Ok hi
    /\ (forall m, (m < length (T t))%nat ->
          Rabs (nth a (T t) 0 - lo) <= Rabs (nth m (T t) 0 - lo)
          /\ Rabs (nth b (T t) 0 - hi) <= Rabs (nth m (T t) 0 - hi))
    /\ cond_indices (T t) Ts = Ok ind.
Proof.
  destruct (min_spec _ Hne) as (lo & Hlo & Hlo_in & Hlo_le).
  destruct (max_spec _ Hne) as (hi & Hhi & Hhi_in & Hhi_le).
  destruct (nearest_index_defined (T_Tgt c) lo Hgrid) as (a & Ha).
  destruct (nearest_index_defined (T_Tgt c) hi Hgrid) as (b & Hb).
  assert (Hlohi : lo <= hi) by now apply Hhi_le.
  pose proof (nearest_index_mono _ _ _ _ _ Hsorted Hlohi Ha Hb) as Hab.
  destruct (nearest_index_spec _ _ _ Ha) as (La & Ma & _).
  destruct (nearest_index_spec _ _ _ Hb) as (Lb & Mb & _).
  set (Ts := skipn a (firstn (b + 1) (T_Tgt c))).
  assert (HTs : Tstar_self c = Ok Ts).
  { unfold Tstar_self. destruct (Nat.eqb_spec (length (Tstar0 c)) 1); [contradiction|].
    rewrite Hlo. cbn [bind]. rewrite nearest_index_def, Ha. cbn [bind].
    rewrite Hhi. cbn [bind]. rewrite nearest_index_def, Hb. reflexivity. }
  assert (Hin : forall x, In x Ts -> In x (T_Tgt c)).
  { intros x Hx. apply slice_In in Hx; [|lia]. destruct Hx as (k & Hk & <-).
    apply nth_In. lia. }
  destruct (cond_indices_defined (T_Tgt c) Ts Hin) as (ind & Hind).
  assert (Hcreate : exists t, create gmpe c = Ok t).
  { unfold create. rewrite Hcond. cbn [Nat.eqb]. rewrite HTs. cbn [bind].
    destruct (Nat.eqb_spec (nScenarios c) 0); [contradiction|].
    destruct (epsilon c); [rewrite Hind|]; cbn [bind]; eexists; reflexivity. }
  destruct Hcreate as (t & Ht).
  pose proof (create_Ok_inv gmpe _ _ Ht)
    as (Ts' & HTs' & _ & _ & _ & HT & _ & HTstar & _).
  rewrite Hcond in HTs', HTstar. cbn [Nat.eqb] in HTs', HTstar.
  rewrite HTs in HTs'. injection HTs' as <-.
  exists t, Ts, a, b, ind, lo, hi. rewrite HT.
  repeat (split; [first [assumption|reflexivity|lia]|]).
  split.
  - intros E. assert (Hl : length Ts = (b + 1 - a)%nat) by (apply slice_length; lia).
    rewrite E in Hl. cbn in Hl. lia.
  - repeat (split; [assumption|]). split; [|assumption].
    intros m Hm. split; [now apply Ma|now apply Mb].
Qed.

Lemma call_range_well_shaped : Shapes.well_shaped call_range.
Proof.
  unfold Shapes.well_shaped, Hcont_self, call_range.
  cbn [Hcont_arg nScenarios epsilon].
  split; [try rewrite repeat_length; reflexivity|].
  intros e H; try discriminate; injection H as <-; cbn; lia.
Qed.

Lemma averaging_range_is_snapped_witness :
  exists t, create demo_gmpe call_range = Ok t /\ Tstar t = Some [2; 3].
Proof.
  destruct (averaging_range_is_snapped demo_gmpe call_range)
    as (t & Ts & a & b & ind & lo & hi & Ht & HT & HTs & Hab & E & _ & _
        & Hlo & Hhi & Hnear & _);
    [reflexivity|cbn; lia|discriminate|discriminate| |cbn; lia| |].
  - unfold nondecreasing, call_range. cbn [T_Tgt]. grid_order.
  - exact call_range_well_shaped.
  - exists t. split; [exact Ht|]. rewrite HTs. f_equal.
    rewrite HT in *. cbn [call_range T_Tgt Tstar0 length] in *.
    cbn in Hlo, Hhi. injection Hlo as <-. injection Hhi as <-.
    assert (Ea : a = 1%nat).
    { destruct (Hnear 1%nat ltac:(lia)) as [H1 _]. cbn [nth] in H1.
      destruct a as [|[|[|[|a]]]]; cbn [nth] in H1; try lia; try reflexivity;
        exfalso; revert H1; unfold Rabs, Rmin;
        repeat match goal with |- context [Rcase_abs ?a] => destruct (Rcase_abs a) end;
        repeat match goal with |- context [Rle_dec ?a ?b] => destruct (Rle_dec a b) end;
        intros; lra. }
    assert (Eb : b = 2%nat).
    { destruct (Hnear 2%nat ltac:(lia)) as [_ H1]. cbn [nth] in H1.
      destruct b as [|[|[|[|b]]]]; cbn [nth] in H1; try lia; try reflexivity;
        exfalso; revert H1; unfold Rabs, Rmax;
        repeat match goal with |- context [Rcase_abs ?a] => destruct (Rcase_abs a) end;
        repeat match goal with |- context [Rle_dec ?a ?b] => destruct (Rle_dec a b) end;
        intros; lra. }
    subst a b. rewrite E. reflexivity.
Defined.

(** X12.  The period grid of the target: for database periods in
    increasing order, [create] cuts a non-empty slice of database periods
    out of them, the order of the two bounds of [T_Tgt_range] does not
    matter, and when both bounds are database periods the grid consists of
    exactly the database periods between them, bounds included. *)
Theorem target_grid_from_range (periods : list R) (a b : R)
  (Hinc : increasing periods) (Hne : periods <> []) :
  T_Tgt_of periods [a; b] = T_Tgt_of periods [b; a]
  /\ exists grid,
       T_Tgt_of periods [a; b] = Ok grid /\ grid <> []
       /\ (forall x, In x grid -> In x periods)
       /\ (In (Rmin a b) periods -> In (Rmax a b) periods ->
           forall x, In x grid <-> In x periods /\ Rmin a b <= x <= Rmax a b).
Proof.
  assert (Hform : forall u v,
            T_Tgt_of periods [u; v]
            = (idx1 <- nearest_index periods (Rmin u v) ;;
               idx2 <- nearest_index periods (Rmax u v) ;;
               Ok (skipn idx1 (firstn (idx2 + 1) periods)))).
  { intros u v. unfold T_Tgt_of. cbn [Np.min Np.max bind].
    destruct (nearest_index periods (Rmin u v)); reflexivity. }
  split.
  { now rewrite !Hform, (Rmin_comm b a), (Rmax_comm b a). }
  rewrite Hform.
  destruct (nearest_index_defined periods (Rmin a b) Hne) as (i & Hi).
  destruct (nearest_index_defined periods (Rmax a b) Hne) as (j & Hj).
  rewrite Hi, Hj. cbn [bind].
  assert (Hlohi : Rmin a b <= Rmax a b).
  { apply Rle_trans with a; [apply Rmin_l|apply Rmax_l]. }
  pose proof (nearest_index_mono _ _ _ _ _ (increasing_nondecreasing _ Hinc)
                Hlohi Hi Hj) as Hij.
  destruct (nearest_index_spec _ _ _ Hj) as (Lj & _ & _).
  eexists. split; [reflexivity|]. split; [|split].
  - intros E.
    assert (Hl : length (skipn i (firstn (j + 1) periods)) = (j + 1 - i)%nat)
      by (apply slice_length; lia).
    rewrite E in Hl. cbn in Hl. lia.
  - intros x Hx. apply slice_In in Hx; [|lia]. destruct Hx as (k & Hk & <-).
    apply nth_In. lia.
  - intros Hlo Hhi x.
    apply (In_nth _ _ 0) in Hlo, Hhi.
    destruct Hlo as (i' & Li' & Ei'). destruct Hhi as (j' & Lj' & Ej').
    rewrite <- Ei' in Hi. rewrite <- Ej' in Hj.
    rewrite nearest_index_exact in Hi, Hj by assumption.
    injection Hi as <-. injection Hj as <-.
    rewrite slice_In by lia. split.
    + intros (k & Hk & <-). split; [apply nth_In; lia|].
      rewrite <- Ei', <- Ej'.
      pose proof (increasing_nondecreasing _ Hinc) as Hnd.
      split; apply Hnd; lia.
    + intros (Hin & Hx). apply (In_nth _ _ 0) in Hin.
      destruct Hin as (k & Lk & <-). exists k. split; [|reflexivity].
      rewrite <- Ei', <- Ej' in Hx.
      destruct (Nat.lt_ge_cases k i') as [Hlt|Hge].
      { assert (nth k periods 0 < nth i' periods 0) by (apply Hinc; lia). lra. }
      destruct (Nat.lt_ge_cases j' k) as [Hlt|Hle]; [|lia].
      assert (nth j' periods 0 < nth k periods 0) by (apply Hinc; lia). lra.
Qed.

Lemma target_grid_from_range_witness :
  T_Tgt_of [1; 2; 3; 4] [3; 2] = T_Tgt_of [1; 2; 3; 4] [2; 3]
  /\ exists grid, T_Tgt_of [1; 2; 3; 4] [3; 2] = Ok grid /\ grid <> [].
Proof.
  destruct (target_grid_from_range [1; 2; 3; 4] 3 2) as (H1 & grid & H2 & H3 & _).
  - unfold increasing. grid_order.
  - discriminate.
  - split; [exact H1|]. exists grid. split; assumption.
Defined.

(** X13.  Conditioning on a single period that is not on the target
    grid, with at least one scenario, one hazard weight per scenario and,
    when epsilon is given, one value per scenario: with a given epsilon
    list [create] raises [IndexError] when it looks the period up; with
    back-calculated epsilon [create] returns, and the method [select] on
    that target never returns: whatever fails first stops it, and once
    the simulation and the search of the database have succeeded it is
    the [IndexError] of the same lookup, before any record is selected. *)
Theorem conditioning_period_off_grid (gmpe : nat -> R -> R * R) (c : call)
  (tstar : R)
  (Hcond : cond_arg c = 1%nat) (HTs : Tstar0 c = [tstar])
  (Hoff : ~ In tstar (T_Tgt c)) (HnS : nScenarios c <> O)
  (Hshape : Shapes.well_shaped c) :
  match epsilon c with
  | Some _ => create gmpe c = Raise IndexError
  | None =>
      exists t, create gmpe c = Ok t
        /\ (forall cfg sim_spec sampleBig,
              select t cfg sim_spec sampleBig = Raise IndexError)
        /\ forall mvn skew py_int cfg nTrials db f seedValue clock,
             exists e,
               Method.select_method mvn skew py_int t cfg nTrials db f
                 seedValue clock = Raise e
               /\ ((exists s, Method.simulate_spectra mvn skew t cfg nTrials
                                seedValue clock = Ok s) ->
                   (exists pl,
                       Database.search_database py_int db
                         (if String.prefix "EXSIM" (Database.Name db)
                          then Method.with_selection f 1 else f) (T t)
                       = Ok pl) ->
                   e = IndexError)
  end.
Proof.
  assert (Hw : Np.where_first (fun x => Np.Reqb x tstar) (T_Tgt c)
               = Raise IndexError).
  { apply where_first_absent. intros x Hx. apply Reqb_neq. intros ->. contradiction. }
  assert (Hself : Tstar_self c = Ok [tstar]).
  { unfold Tstar_self. now rewrite HTs. }
  unfold create. rewrite Hcond. cbn [Nat.eqb]. rewrite Hself. cbn [bind].
  destruct (Nat.eqb_spec (nScenarios c) 0); [contradiction|].
  destruct (epsilon c) as [e|].
  - unfold cond_indices. cbn [mapM]. rewrite Hw. reflexivity.
  - cbn [bind]. eexists. split; [reflexivity|].
    match goal with |- (forall cfg sim_spec sampleBig, select ?t _ _ _ = _) /\ _ =>
      assert (Hsel : forall cfg sim_spec sampleBig,
                select t cfg sim_spec sampleBig = Raise IndexError)
    end.
    { intros cfg sim_spec sampleBig. unfold select, indices.
      cbn [cond Tstar T Nat.eqb mapM]. rewrite Hw. reflexivity. }
    split; [exact Hsel|].
    intros mvn skew py_int cfg nTrials db f seedValue clock.
    unfold Method.select_method.
    destruct (Method.simulate_spectra _ _ _ _ _ _ _) as [s|e1] eqn:Es;
      cbn [bind].
    + destruct (Database.search_database _ _ _ _) as [pl|e2] eqn:Ep;
        cbn [bind].
      * rewrite Hsel. cbn [bind]. exists IndexError. split; [reflexivity|auto].
      * exists e2. split; [reflexivity|].
        intros _ (pl & Hpl). cbn [T] in Hpl. congruence.
    + exists e1. split; [reflexivity|]. intros (s & Hs). discriminate.
Qed.

Lemma call_off_grid_well_shaped :
  Shapes.well_shaped (mkCall [1; 2] [5] 1 None 2 None 1 1).
Proof. split; [reflexivity|]. intros e H. discriminate. Qed.

Lemma conditioning_period_off_grid_witness :
  exists t,
    create demo_gmpe (mkCall [1; 2] [5] 1 None 2 None 1 1) = Ok t
    /\ forall cfg sim_spec sampleBig,
         select t cfg sim_spec sampleBig = Raise IndexError.
Proof.
  destruct (conditioning_period_off_grid demo_gmpe
              (mkCall [1; 2] [5] 1 None 2 None 1 1) 5)
    as (t & Ht & Hsel & _);
    [reflexivity|reflexivity| |discriminate|exact call_off_grid_well_shaped|].
  - cbn. intros [H|[H|[]]]; lra.
  - exists t. split; assumption.
Defined.

End GridClaims.

(** ** Filtering the database *)

Section SearchFacts.
Import Database.

Lemma bind_Raise_inv {A B : Type} (m : res A) (k : A -> res B) (e : exn) :
  bind m k = Raise e -> m = Raise e \/ exists a, m = Ok a /\ k a = Raise e.
Proof.
  destruct m as [a|e']; cbn; intros H; [right; eauto|left].
  now injection H as ->.
Qed.

Lemma index_Ok {A : Type} (l : list A) (k : nat) (a d : A) :
  index l k = Ok a -> (k < length l)%nat /\ nth k l d = a.
Proof.
  unfold index. destruct (nth_error l k) as [b|] eqn:E; [|discriminate].
  intros H. injection H as <-. split.
  - apply nth_error_Some. congruence.
  - now apply nth_error_nth.
Qed.

Lemma index_lt {A : Type} (l : list A) (k : nat) (d : A) :
  (k < length l)%nat -> index l k = Ok (nth k l d).
Proof.
  intros H. unfold index. destruct (nth_error l k) as [b|] eqn:E.
  - f_equal. symmetry. now apply nth_error_nth.
  - apply nth_error_None in E. lia.
Qed.

Lemma mapM_Ok_map {A B : Type} (f : A -> res B) (g : A -> B) (l : list A)
  (r : list B) :
  mapM f l = Ok r -> (forall a b, In a l -> f a = Ok b -> b = g a) -> r = map g l.
Proof.
  revert r. induction l as [|a l IH]; intros r H Hg; cbn [mapM] in H.
  - now injection H as <-.
  - apply bind_Ok_inv in H. destruct H as (b & Hb & H).
    apply bind_Ok_inv in H. destruct H as (bs & Hbs & H). injection H as <-.
    cbn [map]. f_equal.
    + apply Hg; [now left|assumption].
    + apply IH; [assumption|]. intros x y Hx. apply Hg. now right.
Qed.

Lemma mapM_Ok_each {A B : Type} (f : A -> res B) (l : list A) (r : list B) :
  mapM f l = Ok r -> forall a, In a l -> exists b, f a = Ok b.
Proof.
  revert r. induction l as [|a l IH]; intros r H x Hx; cbn [mapM] in H.
  - destruct Hx.
  - apply bind_Ok_inv in H. destruct H as (b & Hb & H).
    apply bind_Ok_inv in H. destruct H as (bs & Hbs & H).
    destruct Hx as [<-|Hx]; [now exists b|]. now apply (IH bs).
Qed.

Lemma mapM_defined {A B : Type} (f : A -> res B) (g : A -> B) (l : list A) :
  (forall a, In a l -> f a = Ok (g a)) -> mapM f l = Ok (map g l).
Proof.
  induction l as [|a l IH]; intros H; cbn [mapM map]; [reflexivity|].
  rewrite H by now left. cbn [bind]. rewrite IH; [reflexivity|].
  intros x Hx. apply H. now right.
Qed.

Lemma fancy_Ok {A : Type} (l : list A) (ks : list nat) (r : list A) (d : A) :
  fancy l ks = Ok r ->
  r = map (fun k => nth k l d) ks /\ forall k, In k ks -> (k < length l)%nat.
Proof.
  intros H. split.
  - apply (mapM_Ok_map _ _ _ _ H). intros k a _ Hk.
    now destruct (index_Ok l k a d Hk) as [_ <-].
  - intros k Hk. destruct (mapM_Ok_each _ _ _ H k Hk) as (a & Ha).
    now destruct (index_Ok l k a d Ha).
Qed.

Lemma fancy_defined {A : Type} (l : list A) (ks : list nat) (d : A) :
  (forall k, In k ks -> (k < length l)%nat) ->
  fancy l ks = Ok (map (fun k => nth k l d) ks).
Proof. intros H. apply mapM_defined. intros k Hk. apply index_lt. now apply H. Qed.

Lemma mem_true (i : nat) (l : list nat) : mem i l = true <-> In i l.
Proof.
  unfold mem. rewrite existsb_exists. split.
  - intros (x & Hx & E). apply Nat.eqb_eq in E. now subst.
  - intros H. exists i. split; [assumption|apply Nat.eqb_refl].
Qed.

Lemma mem_false (i : nat) (l : list nat) : mem i l = false <-> ~ In i l.
Proof.
  rewrite <- mem_true. destruct (mem i l); split; congruence.
Qed.

Lemma list_remove_Ok (i : nat) (l : list nat) :
  NoDup l -> In i l ->
  list_remove i l = Ok (filter (fun x => negb (x =? i)%nat) l).
Proof.
  induction l as [|x l IH]; intros Hnd Hin; [destruct Hin|].
  inversion Hnd as [|? ? Hx Hnd']; subst. cbn [list_remove filter].
  destruct (Nat.eqb_spec x i) as [->|Hne]; cbn [negb].
  - f_equal. symmetry. apply forallb_filter_id. apply forallb_forall.
    intros y Hy. destruct (Nat.eqb_spec y i) as [->|]; [contradiction|reflexivity].
  - destruct Hin as [|Hin]; [contradiction|].
    rewrite IH by assumption. reflexivity.
Qed.

Lemma list_remove_absent (i : nat) (l : list nat) :
  ~ In i l -> list_remove i l = Raise ValueError.
Proof.
  induction l as [|x l IH]; intros Hin; [reflexivity|]. cbn [list_remove].
  destruct (Nat.eqb_spec x i) as [->|Hne]; [exfalso; apply Hin; now left|].
  rewrite IH; [reflexivity|]. intros H. apply Hin. now right.
Qed.

Lemma remove_fold_Raise (l : list nat) (e : exn) :
  fold_left (fun acc i => a <- acc ;; list_remove i a) l (Raise e) = Raise e.
Proof. induction l as [|x l IH]; cbn; [reflexivity|exact IH]. Qed.

Lemma forallb_eq_in {A : Type} (p q : A -> bool) (l : list A) :
  (forall a, In a l -> p a = q a) -> forallb p l = forallb q l.
Proof.
  induction l as [|a l IH]; intros H; cbn; [reflexivity|].
  rewrite H by now left. f_equal. apply IH. intros x Hx. apply H. now right.
Qed.

Lemma filter_twice {A : Type} (p q : A -> bool) (l : list A) :
  filter p (filter q l) = filter (fun x => q x && p x) l.
Proof.
  induction l as [|a l IH]; cbn; [reflexivity|].
  destruct (q a); cbn; [destruct (p a)|]; now rewrite IH.
Qed.

(** The removal loop: every element must be a row number, and then the
    rows that stay are those that are not listed, in their order. *)
Lemma remove_fold (l acc : list nat) :
  NoDup l -> NoDup acc ->
  fold_left (fun acc i => a <- acc ;; list_remove i a) l (Ok acc)
  = if forallb (fun i => mem i acc) l
    then Ok (filter (fun x => negb (mem x l)) acc)
    else Raise ValueError.
Proof.
  revert acc. induction l as [|i l IH]; intros acc Hl Hacc.
  - cbn. f_equal. symmetry. apply forallb_filter_id. now apply forallb_forall.
  - inversion Hl as [|? ? Hi Hl']; subst. cbn [fold_left forallb bind].
    destruct (mem i acc) eqn:Ei.
    + apply mem_true in Ei. rewrite list_remove_Ok by assumption.
      rewrite IH by (try assumption; now apply NoDup_filter). cbn [andb].
      assert (E1 : forallb (fun j => mem j (filter (fun x => negb (x =? i)%nat) acc)) l
                   = forallb (fun j => mem j acc) l).
      { apply forallb_eq_in. intros j Hj.
        destruct (mem j acc) eqn:Ej.
        - apply mem_true. apply mem_true in Ej. apply filter_In. split; [assumption|].
          destruct (Nat.eqb_spec j i) as [->|]; [contradiction|reflexivity].
        - apply mem_false. apply mem_false in Ej. intros H. apply filter_In in H. tauto. }
      rewrite E1. destruct (forallb (fun j => mem j acc) l); [|reflexivity].
      f_equal. rewrite filter_twice. apply filter_ext. intros x.
      unfold mem. cbn [existsb]. now rewrite negb_orb.
    + apply mem_false in Ei. rewrite list_remove_absent by assumption.
      cbn [andb]. apply remove_fold_Raise.
Qed.

Lemma allowed_rows_spec (n : nat) (na : list nat) :
  allowed_rows n na
  = if forallb (fun i => (i <? n)%nat) na
    then Ok (filter (fun x => negb (mem x na)) (seq 0 n))
    else Raise ValueError.
Proof.
  unfold allowed_rows.
  rewrite remove_fold by (try apply NoDup_nodup; apply seq_NoDup).
  assert (E1 : forallb (fun i => mem i (seq 0 n)) (nodup Nat.eq_dec na)
               = forallb (fun i => (i <? n)%nat) na).
  { apply eq_true_iff_eq. rewrite !forallb_forall. split.
    - intros H i Hi. apply Nat.ltb_lt.
      assert (Hm : mem i (seq 0 n) = true) by (apply H, nodup_In; assumption).
      apply mem_true, in_seq in Hm. lia.
    - intros H i Hi. apply nodup_In in Hi. apply mem_true, in_seq.
      specialize (H i Hi). apply Nat.ltb_lt in H. lia. }
  rewrite E1. destruct (forallb _ na); [|reflexivity].
  f_equal. apply filter_ext. intros x. f_equal.
  apply eq_true_iff_eq. rewrite !mem_true. apply nodup_In.
Qed.

Lemma allowed_rows_Ok (n : nat) (na al : list nat) :
  allowed_rows n na = Ok al ->
  al = filter (fun x => negb (mem x na)) (seq 0 n)
  /\ (forall i, In i na -> (i < n)%nat)
  /\ (forall i, In i al <-> (i < n)%nat /\ ~ In i na).
Proof.
  rewrite allowed_rows_spec.
  destruct (forallb (fun i => (i <? n)%nat) na) eqn:E; [|discriminate].
  intros H. injection H as <-. split; [reflexivity|]. split.
  - intros i Hi. rewrite forallb_forall in E. now apply Nat.ltb_lt, E.
  - intros i. rewrite filter_In, in_seq, negb_true_iff, mem_false. intuition lia.
Qed.

Lemma outside_Ok (lim : option (list R)) (xs : list R) (o : list nat) :
  outside lim xs = Ok o ->
  match lim with
  | None => o = []
  | Some l =>
      exists lo hi,
        Np.min l = Ok lo /\ Np.max l = Ok hi
        /\ forall i, In i o <-> (i < length xs)%nat
                               /\ ~ (lo < nth i xs 0 < hi)
  end.
Proof.
  unfold outside. destruct lim as [l|]; [|intros H; now injection H as <-].
  intros H. apply bind_Ok_inv in H. destruct H as (lo & Hlo & H).
  apply bind_Ok_inv in H. destruct H as (hi & Hhi & H). injection H as <-.
  exists lo, hi. split; [assumption|]. split; [assumption|].
  intros i. rewrite filter_In, in_seq, negb_true_iff, andb_false_iff.
  rewrite !Rltb_false. split.
  - intros (Hi & Hc). split; [lia|]. lra.
  - intros (Hi & Hc). split; [lia|].
    destruct (Rlt_dec lo (nth i xs 0)); [right|left]; lra.
Qed.

(** A successful search unfolds into its stages. *)
Lemma search_database_Ok_inv (py_int : String.string -> res Z) (db : database)
  (f : filters) (T : list R) (out : pool) :
  search_database py_int db f T = Ok out ->
  exists kn na al rp,
    gather py_int db f = Ok kn
    /\ not_allowed db f kn = Ok na
    /\ allowed_rows (length (SaKnown kn)) na = Ok al
    /\ recPer db T = Ok rp
    /\ fancy (k_Vs30 kn) al = Ok (p_Vs30 out)
    /\ fancy (k_Mw kn) al = Ok (p_Mw out)
    /\ fancy (k_Rjb kn) al = Ok (p_Rjb out)
    /\ fancy (k_fault kn) al = Ok (p_fault out)
    /\ fancy (k_Filename_1 kn) al = Ok (p_Filename_1 out)
    /\ (forall l, p_Filename_2 out = Some l ->
          exists l0, k_Filename_2 kn = Some l0 /\ fancy l0 al = Ok l)
    /\ (forall l, p_NGA_num out = Some l ->
          exists l0, k_NGA_num kn = Some l0 /\ fancy l0 al = Ok l)
    /\ exists sa, fancy (SaKnown kn) al = Ok sa
                  /\ mapM (fun row => fancy row rp) sa = Ok (sampleBig out).
Proof.
  unfold search_database. intros H.
  apply bind_Ok_inv in H. destruct H as (kn & Hkn & H).
  apply bind_Ok_inv in H. destruct H as (na & Hna & H).
  apply bind_Ok_inv in H. destruct H as (al & Hal & H).
  apply bind_Ok_inv in H. destruct H as (sa & Hsa & H).
  apply bind_Ok_inv in H. destruct H as (vs & Hvs & H).
  apply bind_Ok_inv in H. destruct H as (mw & Hmw & H).
  apply bind_Ok_inv in H. destruct H as (rj & Hrj & H).
  apply bind_Ok_inv in H. destruct H as (fl & Hfl & H).
  apply bind_Ok_inv in H. destruct H as (f1 & Hf1 & H).
  apply bind_Ok_inv in H. destruct H as (f2 & Hf2 & H).
  apply bind_Ok_inv in H. destruct H as (ng & Hng & H).
  apply bind_Ok_inv in H. destruct H as (rp & Hrp & H).
  apply bind_Ok_inv in H. destruct H as (big & Hbig & H).
  injection H as <-.
  cbn [sampleBig p_Vs30 p_Mw p_Rjb p_fault p_Filename_1 p_Filename_2 p_NGA_num].
  exists kn, na, al, rp. repeat (split; [assumption|]).
  split; [|split; [|now exists sa]].
  - intros l ->. destruct (selection f =? 1)%nat; [discriminate|].
    destruct (k_Filename_2 kn) as [l0|]; [|discriminate].
    apply bind_Ok_inv in Hf2. destruct Hf2 as (l' & Hl' & E). injection E as <-.
    now exists l0.
  - intros l ->. destruct (is_W2 db); [|discriminate].
    destruct (k_NGA_num kn) as [l0|]; [|discriminate].
    apply bind_Ok_inv in Hng. destruct Hng as (l' & Hl' & E). injection E as <-.
    now exists l0.
Qed.

Lemma not_allowed_Ok_inv (db : database) (f : filters) (kn : known)
  (na : list nat) :
  not_allowed db f kn = Ok na ->
  exists w2 vs mw rj,
    w2_rows db f = Ok w2
    /\ outside (Vs30_lim f) (k_Vs30 kn) = Ok vs
    /\ outside (Mw_lim f) (k_Mw kn) = Ok mw
    /\ outside (Rjb_lim f) (k_Rjb kn) = Ok rj
    /\ na = nonpositive_rows (SaKnown kn) ++ w2 ++ vs ++ mw ++ rj
             ++ other_fault (fault_lim f) (k_fault kn).
Proof.
  unfold not_allowed. intros H.
  apply bind_Ok_inv in H. destruct H as (w2 & Hw2 & H).
  apply bind_Ok_inv in H. destruct H as (vs & Hvs & H).
  apply bind_Ok_inv in H. destruct H as (mw & Hmw & H).
  apply bind_Ok_inv in H. destruct H as (rj & Hrj & H).
  injection H as <-. exists w2, vs, mw, rj. auto.
Qed.

Lemma nonpositive_rows_spec (Sa : list (list R)) (i : nat) :
  In i (nonpositive_rows Sa)
  <-> (i < length Sa)%nat /\ exists v, In v (nth i Sa []) /\ v <= 0.
Proof.
  unfold nonpositive_rows. rewrite filter_In, in_seq, existsb_exists.
  split.
  - intros (Hi & v & Hv & E). apply Rleb_true in E. split; [lia|]. now exists v.
  - intros (Hi & v & Hv & E). split; [lia|]. exists v. split; [assumption|].
    now apply Rleb_true.
Qed.

Lemma other_fault_spec (lim : option Z) (xs : list Z) (i : nat) :
  In i (other_fault lim xs)
  <-> exists m, lim = Some m /\ (i < length xs)%nat /\ nth i xs 0%Z <> m.
Proof.
  unfold other_fault. destruct lim as [m|].
  - rewrite filter_In, in_seq, negb_true_iff, Z.eqb_neq. split.
    + intros (Hi & Hne). exists m. repeat split; [lia|assumption].
    + intros (m' & E & Hi & Hne). injection E as <-. split; [lia|assumption].
  - split; [intros []|intros (m & E & _); discriminate].
Qed.

Lemma Ok_inj {A : Type} (a b : A) : Ok a = Ok b -> a = b.
Proof. intros H. now injection H. Qed.

Lemma w2_rows_last_block (db : database) (f : filters) (w2 : list nat) :
  is_W2 db = true -> w2_rows db f = Ok w2 -> In (Z.to_nat 9193) w2.
Proof.
  intros HW H. unfold w2_rows in H. rewrite HW in H.
  assert (Hex : In (Z.to_nat 9193) w2_excluded).
  { unfold w2_excluded. apply in_or_app. right. apply in_or_app. right. now left. }
  destruct (selection f =? 1)%nat.
  - destruct (NGA_num db) as [|n ns]; [discriminate|].
    apply Ok_inj in H. subst w2. apply in_or_app. now left.
  - apply Ok_inj in H. now subst w2.
Qed.

End SearchFacts.

(** ** What a successful search guarantees *)

Section SearchSound.
Import Database.

Variable py_int : String.string -> res Z.
Variable db : database.
Variable f : filters.
Variable T : list R.
Variable out : pool.
Hypothesis Hsearch : search_database py_int db f T = Ok out.

Lemma search_aligned :
  let n := length (sampleBig out) in
  length (p_Vs30 out) = n /\ length (p_Mw out) = n /\ length (p_Rjb out) = n
  /\ length (p_fault out) = n /\ length (p_Filename_1 out) = n
  /\ (forall l, p_Filename_2 out = Some l -> length l = n)
  /\ (forall l, p_NGA_num out = Some l -> length l = n).
Proof.
  intros n.
  destruct (search_database_Ok_inv _ _ _ _ _ Hsearch)
    as (kn & na & al & rp & Hkn & Hna & Hal & Hrp & Hvs & Hmw & Hrj & Hfl & Hf1
        & Hf2 & Hng & sa & Hsa & Hbig).
  assert (Hn : n = length al).
  { unfold n. rewrite (mapM_length _ _ _ Hbig). apply (mapM_length _ _ _ Hsa). }
  rewrite Hn.
  rewrite (mapM_length _ _ _ Hvs), (mapM_length _ _ _ Hmw),
    (mapM_length _ _ _ Hrj), (mapM_length _ _ _ Hfl), (mapM_length _ _ _ Hf1).
  repeat (split; [reflexivity|]). split.
  - intros l Hl. destruct (Hf2 l Hl) as (l0 & _ & E). apply (mapM_length _ _ _ E).
  - intros l Hl. destruct (Hng l Hl) as (l0 & _ & E). apply (mapM_length _ _ _ E).
Qed.

Lemma mapM_In {A B : Type} (g : A -> res B) (l : list A) (r : list B) (b : B) :
  mapM g l = Ok r -> In b r -> exists a, In a l /\ g a = Ok b.
Proof.
  revert r. induction l as [|a l IH]; intros r H Hb; cbn [mapM] in H.
  - injection H as <-. destruct Hb.
  - apply bind_Ok_inv in H. destruct H as (b0 & Hb0 & H).
    apply bind_Ok_inv in H. destruct H as (bs & Hbs & H).
    injection H as <-. destruct Hb as [<-|Hb].
    + exists a. split; [now left|assumption].
    + destruct (IH _ Hbs Hb) as (a1 & Ha1 & E). exists a1.
      split; [now right|assumption].
Qed.

(** Every spectrum of the pool has one positive ordinate per grid
    period. *)
Lemma search_rows_positive (row : list R) :
  In row (sampleBig out) ->
  length row = length T /\ forall v, In v row -> 0 < v.
Proof.
  intros Hrow.
  destruct (search_database_Ok_inv _ _ _ _ _ Hsearch)
    as (kn & na & al & rp & Hkn & Hna & Hal & Hrp & _ & _ & _ & _ & _
        & _ & _ & sa & Hsa & Hbig).
  destruct (not_allowed_Ok_inv _ _ _ _ Hna)
    as (w2 & ovs & omw & orj & _ & _ & _ & _ & Ena).
  destruct (allowed_rows_Ok _ _ _ Hal) as (_ & _ & Hin_al).
  destruct (fancy_Ok _ _ _ [] Hsa) as [Esa _].
  destruct (mapM_In _ _ _ _ Hbig Hrow) as (r0 & Hr0 & Erow).
  split.
  - rewrite (mapM_length _ _ _ Erow). apply (mapM_length _ _ _ Hrp).
  - intros v Hv. destruct (fancy_Ok _ _ _ 0 Erow) as [-> Hlt].
    apply in_map_iff in Hv. destruct Hv as (k & <- & Hk).
    rewrite Esa in Hr0. apply in_map_iff in Hr0. destruct Hr0 as (i & <- & Hi).
    destruct (Rlt_dec 0 (nth k (nth i (SaKnown kn) []) 0)) as [|Hle];
      [assumption|exfalso].
    apply (proj1 (Hin_al i) Hi). rewrite Ena. apply in_or_app. left.
    apply nonpositive_rows_spec. split; [now apply Hin_al|].
    exists (nth k (nth i (SaKnown kn) []) 0). split; [|lra].
    apply nth_In. now apply Hlt.
Qed.

(** The kept entries of an array lie strictly inside a limit whose
    outsiders all belong to [notAllowed]. *)
Lemma kept_within (lim : list R) (xs : list R) (o na al : list nat)
  (ys : list R) (lo hi : R) :
  outside (Some lim) xs = Ok o -> fancy xs al = Ok ys ->
  (forall i, In i o -> In i na) -> (forall i, In i al -> ~ In i na) ->
  Np.min lim = Ok lo -> Np.max lim = Ok hi ->
  forall v, In v ys -> lo < v < hi.
Proof.
  intros Ho Hys Hsub Hnotin Hlo Hhi v Hv.
  destruct (fancy_Ok _ _ _ 0 Hys) as [-> Hlt].
  apply in_map_iff in Hv. destruct Hv as (i & <- & Hi).
  apply outside_Ok in Ho. destruct Ho as (lo' & hi' & Hlo' & Hhi' & Ho).
  assert (lo' = lo) by congruence. assert (hi' = hi) by congruence. subst.
  destruct (Rlt_dec lo (nth i xs 0)) as [H1|H1];
    [destruct (Rlt_dec (nth i xs 0) hi) as [H2|H2]; [lra|]|];
    exfalso; apply (Hnotin i Hi), Hsub, Ho; split; try (now apply Hlt); lra.
Qed.

Lemma search_within_limits :
  (forall lim lo hi, Vs30_lim f = Some lim ->
     Np.min lim = Ok lo -> Np.max lim = Ok hi ->
     forall v, In v (p_Vs30 out) -> lo < v < hi)
  /\ (forall lim lo hi, Mw_lim f = Some lim ->
        Np.min lim = Ok lo -> Np.max lim = Ok hi ->
        forall v, In v (p_Mw out) -> lo < v < hi)
  /\ (forall lim lo hi, Rjb_lim f = Some lim ->
        Np.min lim = Ok lo -> Np.max lim = Ok hi ->
        forall v, In v (p_Rjb out) -> lo < v < hi)
  /\ (forall m, fault_lim f = Some m -> forall x, In x (p_fault out) -> x = m).
Proof.
  destruct (search_database_Ok_inv _ _ _ _ _ Hsearch)
    as (kn & na & al & rp & Hkn & Hna & Hal & Hrp & Hvs & Hmw & Hrj & Hfl & _).
  destruct (not_allowed_Ok_inv _ _ _ _ Hna)
    as (w2 & ovs & omw & orj & Hw2 & Hovs & Homw & Horj & Ena).
  destruct (allowed_rows_Ok _ _ _ Hal) as (_ & _ & Hin_al).
  assert (Hnotin : forall i, In i al -> ~ In i na) by (intros i Hi; now apply Hin_al).
  split; [|split; [|split]].
  - intros lim lo hi E Hlo Hhi. rewrite E in Hovs.
    apply (kept_within lim _ _ na al _ lo hi Hovs Hvs); try assumption.
    intros i Hi. rewrite Ena. apply in_or_app. right.
    apply in_or_app. right. apply in_or_app. now left.
  - intros lim lo hi E Hlo Hhi. rewrite E in Homw.
    apply (kept_within lim _ _ na al _ lo hi Homw Hmw); try assumption.
    intros i Hi. rewrite Ena. apply in_or_app. right.
    apply in_or_app. right. apply in_or_app. right. apply in_or_app. now left.
  - intros lim lo hi E Hlo Hhi. rewrite E in Horj.
    apply (kept_within lim _ _ na al _ lo hi Horj Hrj); try assumption.
    intros i Hi. rewrite Ena. apply in_or_app. right.
    apply in_or_app. right. apply in_or_app. right. apply in_or_app. right.
    apply in_or_app. now left.
  - intros m Em x Hx.
    destruct (fancy_Ok _ _ _ 0%Z Hfl) as [E Hlt]. rewrite E in Hx.
    apply in_map_iff in Hx. destruct Hx as (i & <- & Hi).
    destruct (Z.eq_dec (nth i (k_fault kn) 0%Z) m) as [|Hne]; [assumption|exfalso].
    apply (Hnotin i Hi). rewrite Ena. do 5 (apply in_or_app; right).
    apply other_fault_spec. exists m. repeat split; [assumption|now apply Hlt|assumption].
Qed.

End SearchSound.

(** Comparisons of numerals. *)
Ltac decide_R :=
  repeat match goal with
  | |- context [Np.Rltb ?a ?b] =>
      first [ rewrite (proj2 (Rltb_true a b)) by lra
            | rewrite (proj2 (Rltb_false a b)) by lra ]
  | |- context [Np.Rleb ?a ?b] =>
      first [ rewrite (proj2 (Rleb_true a b)) by lra
            | rewrite (proj2 (Rleb_false a b)) by lra ]
  | |- context [Np.Reqb ?a ?b] =>
      first [ rewrite (Reqb_refl a) | rewrite (Reqb_neq a b) by lra ]
  end.

Section SearchClaims.
Import Database Samples.

(** X14.  Whatever the database and the settings, the arrays that a
    successful [search_database] returns are aligned (one entry per kept
    record), every spectrum handed on has one ordinate per grid period and
    all of them positive, so that their logarithm exists, and every kept
    record respects the limits that are set: its Vs30, magnitude and
    distance lie strictly between the smallest and the largest element of
    the limit list, and its mechanism equals [fault_lim]. *)
Theorem search_database_respects_limits (py_int : String.string -> res Z)
  (db : database) (f : filters) (T : list R) (out : pool) :
  search_database py_int db f T = Ok out ->
  let n := length (sampleBig out) in
  (length (p_Vs30 out) = n /\ length (p_Mw out) = n /\ length (p_Rjb out) = n
   /\ length (p_fault out) = n /\ length (p_Filename_1 out) = n
   /\ (forall l, p_Filename_2 out = Some l -> length l = n)
   /\ (forall l, p_NGA_num out = Some l -> length l = n))
  /\ (forall row, In row (sampleBig out) ->
        length row = length T /\ forall v, In v row -> 0 < v)
  /\ (forall lim lo hi, Vs30_lim f = Some lim ->
        Np.min lim = Ok lo -> Np.max lim = Ok hi ->
        forall v, In v (p_Vs30 out) -> lo < v < hi)
  /\ (forall lim lo hi, Mw_lim f = Some lim ->
        Np.min lim = Ok lo -> Np.max lim = Ok hi ->
        forall v, In v (p_Mw out) -> lo < v < hi)
  /\ (forall lim lo hi, Rjb_lim f = Some lim ->
        Np.min lim = Ok lo -> Np.max lim = Ok hi ->
        forall v, In v (p_Rjb out) -> lo < v < hi)
  /\ (forall m, fault_lim f = Some m -> forall x, In x (p_fault out) -> x = m).
Proof.
  intros H n.
  split; [exact (search_aligned py_int db f T out H)|].
  split; [exact (search_rows_positive py_int db f T out H)|].
  exact (search_within_limits py_int db f T out H).
Qed.

Lemma search_small :
  search_database no_int db_small f_small [1; 2]
  = Ok {| sampleBig := [[1; 2]]; p_Vs30 := [500]; p_Mw := [6]; p_Rjb := [10];
          p_fault := [1%Z]; p_Filename_1 := ["a_acc.txt"%string];
          p_Filename_2 := None; p_NGA_num := None |}.
Proof.
  unfold search_database.
  assert (Hg : gather no_int db_small f_small
               = Ok {| SaKnown := Sa_1 db_small; k_Vs30 := soil_Vs30 db_small;
                       k_Mw := magnitude db_small; k_Rjb := Rjb db_small;
                       k_fault := mechanism db_small;
                       k_Filename_1 := Filename_1 db_small;
                       k_Filename_2 := None; k_NGA_num := None |})
    by reflexivity.
  rewrite Hg. cbn [bind].
  assert (Hna : forall kn, kn = {| SaKnown := Sa_1 db_small; k_Vs30 := soil_Vs30 db_small;
                       k_Mw := magnitude db_small; k_Rjb := Rjb db_small;
                       k_fault := mechanism db_small;
                       k_Filename_1 := Filename_1 db_small;
                       k_Filename_2 := None; k_NGA_num := None |} ->
                not_allowed db_small f_small kn = Ok [1; 2]%nat).
  { intros kn ->. unfold not_allowed, w2_rows, outside, nonpositive_rows, other_fault.
    change (is_W2 db_small) with false.
    cbn [f_small db_small Vs30_lim Mw_lim Rjb_lim fault_lim SaKnown k_Vs30 k_Mw
         k_Rjb k_fault Sa_1 soil_Vs30 bind Np.min Np.max length seq filter nth
         existsb].
    rewrite (Rmin_right 800 400), (Rmax_left 800 400) by lra.
    decide_R. cbn [orb andb negb app]. reflexivity. }
  rewrite (Hna _ eq_refl). cbn [bind SaKnown db_small Sa_1 length].
  rewrite allowed_rows_spec. cbn [forallb Nat.ltb Nat.leb andb seq filter mem existsb
                                  Nat.eqb orb negb].
  cbn [bind fancy mapM index nth_error k_Vs30 k_Mw k_Rjb k_fault k_Filename_1
       k_Filename_2 k_NGA_num soil_Vs30 magnitude Rjb mechanism Filename_1
       f_small selection Nat.eqb].
  change (is_W2 db_small) with false.
  unfold recPer. cbn [db_small Periods mapM Np.where_first].
  decide_R. cbn [bind fancy mapM index nth_error]. reflexivity.
Qed.

Lemma search_database_respects_limits_witness :
  Rmin 800 400 < 500 < Rmax 800 400.
Proof.
  destruct (search_database_respects_limits no_int db_small f_small [1; 2] _
              search_small) as (_ & _ & H & _).
  apply (H [800; 400] (Rmin 800 400) (Rmax 800 400) eq_refl eq_refl eq_refl).
  now left.
Defined.

(** X15.  The pool is the database in its order with the rows of
    [notAllowed] left out: every returned array is the corresponding
    database array read at the kept row numbers, in increasing order, the
    spectra are read at the database columns of the grid periods, no row
    appears twice, and every admissible record is kept. *)
Theorem search_database_keeps_admissible (py_int : String.string -> res Z)
  (db : database) (f : filters) (T : list R) (kn : known) (out : pool) :
  gather py_int db f = Ok kn ->
  search_database py_int db f T = Ok out ->
  exists na rows rp,
    not_allowed db f kn = Ok na /\ recPer db T = Ok rp
    /\ rows = filter (fun i => negb (mem i na)) (seq 0 (length (SaKnown kn)))
    /\ NoDup rows
    /\ p_Vs30 out = map (fun i => nth i (k_Vs30 kn) 0) rows
    /\ p_Mw out = map (fun i => nth i (k_Mw kn) 0) rows
    /\ p_Rjb out = map (fun i => nth i (k_Rjb kn) 0) rows
    /\ p_fault out = map (fun i => nth i (k_fault kn) 0%Z) rows
    /\ p_Filename_1 out = map (fun i => nth i (k_Filename_1 kn) ""%string) rows
    /\ sampleBig out
       = map (fun i => map (fun k => nth k (nth i (SaKnown kn) []) 0) rp) rows
    /\ forall i, (i < length (SaKnown kn))%nat -> admissible db f kn i ->
         In i rows.
Proof.
  intros Hg H.
  destruct (search_database_Ok_inv _ _ _ _ _ H)
    as (kn' & na & al & rp & Hkn & Hna & Hal & Hrp & Hvs & Hmw & Hrj & Hfl & Hf1
        & Hf2 & Hng & sa & Hsa & Hbig).
  rewrite Hg in Hkn. injection Hkn as <-.
  destruct (not_allowed_Ok_inv _ _ _ _ Hna)
    as (w2 & ovs & omw & orj & Hw2 & Hovs & Homw & Horj & Ena).
  destruct (allowed_rows_Ok _ _ _ Hal) as (Eal & _ & Hin_al).
  exists na, al, rp. split; [assumption|]. split; [assumption|].
  split; [assumption|]. split.
  { rewrite Eal. apply NoDup_filter, seq_NoDup. }
  split; [now destruct (fancy_Ok _ _ _ 0 Hvs)|].
  split; [now destruct (fancy_Ok _ _ _ 0 Hmw)|].
  split; [now destruct (fancy_Ok _ _ _ 0 Hrj)|].
  split; [now destruct (fancy_Ok _ _ _ 0%Z Hfl)|].
  split; [now destruct (fancy_Ok _ _ _ ""%string Hf1)|].
  split.
  - destruct (fancy_Ok _ _ _ [] Hsa) as [-> _].
    clear - Hbig. revert Hbig. generalize (sampleBig out).
    induction al as [|i al IH]; intros big Hbig; cbn [map mapM] in *.
    + now injection Hbig as <-.
    + apply bind_Ok_inv in Hbig. destruct Hbig as (b & Hb & Hbig).
      apply bind_Ok_inv in Hbig. destruct Hbig as (bs & Hbs & Hbig).
      injection Hbig as <-. f_equal; [now destruct (fancy_Ok _ _ _ 0 Hb)|].
      now apply IH.
  - intros i Hi (Hpos & Hnw2 & HV & HM & HR & HF). apply Hin_al.
    split; [assumption|]. rewrite Ena. intros Hin.
    repeat (apply in_app_or in Hin; destruct Hin as [Hin|Hin]).
    + apply nonpositive_rows_spec in Hin. destruct Hin as (_ & v & Hv & Hle).
      specialize (Hpos v Hv). lra.
    + now apply (Hnw2 w2).
    + apply outside_Ok in Hovs. destruct (Vs30_lim f) as [l|]; [|now subst].
      destruct Hovs as (lo & hi & Hlo & Hhi & Ho). apply Ho in Hin.
      destruct Hin as [_ Hc]. apply Hc. now apply (HV l).
    + apply outside_Ok in Homw. destruct (Mw_lim f) as [l|]; [|now subst].
      destruct Homw as (lo & hi & Hlo & Hhi & Ho). apply Ho in Hin.
      destruct Hin as [_ Hc]. apply Hc. now apply (HM l).
    + apply outside_Ok in Horj. destruct (Rjb_lim f) as [l|]; [|now subst].
      destruct Horj as (lo & hi & Hlo & Hhi & Ho). apply Ho in Hin.
      destruct Hin as [_ Hc]. apply Hc. now apply (HR l).
    + apply other_fault_spec in Hin. destruct Hin as (m & Em & _ & Hne).
      now apply Hne, HF.
Qed.

Lemma search_database_keeps_admissible_witness :
  exists na rows,
    not_allowed db_small f_small
      {| SaKnown := Sa_1 db_small; k_Vs30 := soil_Vs30 db_small;
         k_Mw := magnitude db_small; k_Rjb := Rjb db_small;
         k_fault := mechanism db_small; k_Filename_1 := Filename_1 db_small;
         k_Filename_2 := None; k_NGA_num := None |} = Ok na
    /\ rows = filter (fun i => negb (mem i na)) (seq 0 3)
    /\ [500] = map (fun i => nth i [500; 600; 900] 0) rows.
Proof.
  destruct (search_database_keeps_admissible no_int db_small f_small [1; 2] _ _
              eq_refl search_small)
    as (na & rows & rp & Hna & _ & Hrows & _ & Hvs & _).
  exists na, rows. split; [exact Hna|]. split; [exact Hrows|exact Hvs].
Defined.

(** X16.  Two-component selection never rotates the spectra: the
    condition of the second branch is the constant string ['RotD50'], which
    is true, so the spectra searched are the geometric mean for
    [Sa_def = 'GeoMean'] and the stored RotD50 spectra for every other
    definition; the branch that calls [get_RotDxx] is never reached, and
    the outcome of the search is the same for any two definitions other
    than ['GeoMean']. *)
Theorem two_component_spectra (py_int : String.string -> res Z)
  (db : database) (f : filters) (Hsel : selection f = 2%nat) :
  (exists kn,
      gather py_int db f = Ok kn
      /\ SaKnown kn = if String.eqb (Sa_def f) "GeoMean"
                      then geo_mean (Sa_1 db) (Sa_2 db) else Sa_RotD50 db)
  /\ forall s T,
       String.eqb (Sa_def f) "GeoMean" = false ->
       String.eqb s "GeoMean" = false ->
       search_database py_int db (with_Sa_def f s) T
       = search_database py_int db f T.
Proof.
  split.
  - unfold gather. rewrite Hsel. cbn [Nat.eqb].
    destruct (String.eqb (Sa_def f) "GeoMean"); cbn [truthy bind];
      eexists; split; reflexivity.
  - intros s T Hf Hs.
    assert (Hg : gather py_int db (with_Sa_def f s) = gather py_int db f).
    { unfold gather. cbn [with_Sa_def selection Sa_def]. rewrite Hsel.
      cbn [Nat.eqb]. now rewrite Hf, Hs. }
    unfold search_database. rewrite Hg. reflexivity.
Qed.

Lemma two_component_spectra_witness :
  exists kn,
    gather no_int db_w2_empty f_two = Ok kn
    /\ SaKnown kn = Sa_RotD50 db_w2_empty.
Proof.
  destruct (two_component_spectra no_int db_w2_empty f_two eq_refl)
    as [(kn & Hkn & Hsa) _].
  exists kn. split; [exact Hkn|exact Hsa].
Defined.

(** X17.  The row blocks removed for [NGA_W2] are fixed numbers: when
    the database is named [NGA_W2] and the searched array has no row 9193,
    removing that row number from [Allowed] fails and the search raises
    [ValueError]. *)
Theorem nga_w2_needs_all_rows (py_int : String.string -> res Z)
  (db : database) (f : filters) (T : list R) (kn : known) (na : list nat)
  (HW2 : Name db = "NGA_W2"%string)
  (Hkn : gather py_int db f = Ok kn)
  (Hna : not_allowed db f kn = Ok na)
  (Hsmall : (Z.of_nat (length (SaKnown kn)) <= 9193)%Z) :
  search_database py_int db f T = Raise ValueError.
Proof.
  unfold search_database. rewrite Hkn. cbn [bind]. rewrite Hna. cbn [bind].
  rewrite allowed_rows_spec.
  destruct (forallb (fun i => (i <? length (SaKnown kn))%nat) na) eqn:E;
    [exfalso|reflexivity].
  rewrite forallb_forall in E.
  destruct (not_allowed_Ok_inv _ _ _ _ Hna) as (w2 & vs & mw & rj & Hw2 & _ & _ & _ & Ena).
  assert (Hin : In (Z.to_nat 9193) w2).
  { apply (w2_rows_last_block db f); [|assumption].
    unfold is_W2. rewrite HW2. reflexivity. }
  assert (Hlt : (Z.to_nat 9193 <? length (SaKnown kn))%nat = true).
  { apply E. rewrite Ena. apply in_or_app. right. apply in_or_app. now left. }
  apply Nat.ltb_lt in Hlt. lia.
Qed.

Lemma nga_w2_needs_all_rows_witness :
  search_database no_int db_w2_empty f_two [1] = Raise ValueError.
Proof.
  eapply (nga_w2_needs_all_rows no_int db_w2_empty f_two [1]);
    [reflexivity|reflexivity|reflexivity|cbn; lia].
Defined.

End SearchClaims.

(** ** The simulated spectra and the whole method *)

Section MethodFacts.
Import Target Selector Database Method.

Lemma mapM_nth {A B : Type} (g : A -> res B) (l : list A) (r : list B)
  (da : A) (db : B) :
  mapM g l = Ok r ->
  length r = length l
  /\ forall k, (k < length l)%nat -> g (nth k l da) = Ok (nth k r db).
Proof.
  revert r. induction l as [|a l IH]; intros r H; cbn [mapM] in H.
  - injection H as <-. split; [reflexivity|]. cbn. intros k Hk. lia.
  - apply bind_Ok_inv in H. destruct H as (b & Hb & H).
    apply bind_Ok_inv in H. destruct H as (bs & Hbs & H). injection H as <-.
    destruct (IH _ Hbs) as [Hl Hn]. split; [cbn; now rewrite Hl|].
    intros [|k] Hk; cbn [nth]; [assumption|]. apply Hn. cbn in Hk. lia.
Qed.

Lemma np_argmin_spec (l : list R) (r : nat) :
  np_argmin l = Ok r ->
  (r < length l)%nat /\ forall x, In x l -> nth r l 0 <= x.
Proof.
  destruct l as [|x l]; [discriminate|]. intros H. injection H as <-.
  apply (argmin_from_spec [x] l O); cbn; [lia|].
  intros z [<-|[]]. lra.
Qed.

Lemma map_ln_exp (v : list R) : map ln (map exp v) = v.
Proof.
  rewrite map_map. rewrite <- (map_id v) at 2. apply map_ext. intros x.
  apply ln_exp.
Qed.

Section Sampler.
Variable mvn : Z -> list R -> list (list R) -> nat -> list R.
Variable skew : list R -> R.
Variable tgt : target.
Variable cfg : config.
Variable seed : Z.

(** The logarithm of a set of simulated spectra is the set of vectors
    drawn. *)
Lemma specDict_Ok (j : nat) (spec : list (list R)) :
  specDict mvn tgt cfg seed j = Ok spec ->
  map (map ln) spec
  = map (fun i => mvn seed (mu_ln tgt) (cov tgt) (j * nGM cfg + i)%nat)
        (seq 0 (nGM cfg))
  /\ Forall (fun row => length row = nT tgt) spec.
Proof.
  unfold specDict. generalize (seq 0 (nGM cfg)). intros l. revert spec.
  induction l as [|i l IH]; intros spec H; cbn [mapM] in H.
  - injection H as <-. split; [reflexivity|constructor].
  - apply bind_Ok_inv in H. destruct H as (b & Hb & H).
    apply bind_Ok_inv in H. destruct H as (bs & Hbs & H). injection H as <-.
    destruct (IH _ Hbs) as [E F]. cbv zeta in Hb.
    destruct (Nat.eqb_spec (length (mvn seed (mu_ln tgt) (cov tgt) (j * nGM cfg + i)%nat))
                (nT tgt)) as [El|]; [|discriminate].
    injection Hb as <-. cbn [map]. split.
    + now rewrite map_ln_exp, E.
    + constructor; [now rewrite length_map|assumption].
Qed.

End Sampler.
Lemma index_int_nat {A : Type} (l : list A) (r : nat) :
  index_int l (Z.of_nat r) = index l r.
Proof.
  unfold index_int. destruct (Z.ltb_spec (Z.of_nat r) 0) as [H|_]; [lia|].
  now rewrite Nat2Z.id.
Qed.

Lemma index_int_In {A : Type} (l : list A) (z : Z) (a : A) :
  index_int l z = Ok a -> In a l.
Proof.
  unfold index_int, index. intros H.
  destruct (z <? 0)%Z; [destruct (z <? - Z.of_nat (length l))%Z; [discriminate|]|];
    match type of H with
    | match nth_error ?l ?k with _ => _ end = _ =>
        destruct (nth_error l k) as [b|] eqn:E; [|discriminate];
        injection H as <-; now apply nth_error_In in E
    end.
Qed.

Lemma fancy_int_In {A : Type} (l : list A) (ids : list Z) (r : list A) (a : A) :
  fancy_int l ids = Ok r -> In a r -> In a l.
Proof.
  intros H Ha. destruct (mapM_In _ _ _ _ H Ha) as (z & _ & Hz).
  now apply index_int_In in Hz.
Qed.

(** A successful call of the method unfolds into its stages. *)
Lemma select_method_Ok_inv
  (mvn : Z -> list R -> list (list R) -> nat -> list R) (skew : list R -> R)
  (py_int : String.string -> res Z) (tgt : target) (cfg : config)
  (nTrials : nat) (db : database) (f : filters) (seedValue clock : Z)
  (ch : chosen) :
  select_method mvn skew py_int tgt cfg nTrials db f seedValue clock = Ok ch ->
  let f' := if String.prefix "EXSIM" (Name db) then with_selection f 1 else f in
  exists sim_spec pl,
    simulate_spectra mvn skew tgt cfg nTrials seedValue clock = Ok sim_spec
    /\ search_database py_int db f' (T tgt) = Ok pl
    /\ select tgt cfg sim_spec (map (map ln) (sampleBig pl)) = Ok (picked ch)
    /\ fancy_int (p_Vs30 pl) (rec_id (picked ch)) = Ok (rec_Vs30 ch)
    /\ fancy_int (p_Rjb pl) (rec_id (picked ch)) = Ok (rec_Rjb ch)
    /\ fancy_int (p_Mw pl) (rec_id (picked ch)) = Ok (rec_Mw ch)
    /\ fancy_int (p_fault pl) (rec_id (picked ch)) = Ok (rec_fault ch)
    /\ fancy_int (p_Filename_1 pl) (rec_id (picked ch)) = Ok (rec_h1 ch).
Proof.
  intros H f'. unfold select_method in H. fold f' in H.
  apply bind_Ok_inv in H. destruct H as (sim & Hsim & H).
  apply bind_Ok_inv in H. destruct H as (pl & Hpl & H).
  apply bind_Ok_inv in H. destruct H as (sel & Hsel & H).
  apply bind_Ok_inv in H. destruct H as (vs & Hvs & H).
  apply bind_Ok_inv in H. destruct H as (rj & Hrj & H).
  apply bind_Ok_inv in H. destruct H as (mw & Hmw & H).
  apply bind_Ok_inv in H. destruct H as (fl & Hfl & H).
  apply bind_Ok_inv in H. destruct H as (h1 & Hh1 & H).
  apply bind_Ok_inv in H. destruct H as (h2 & Hh2 & H).
  apply bind_Ok_inv in H. destruct H as (rsn & Hrsn & H).
  injection H as <-. cbn [picked rec_Vs30 rec_Rjb rec_Mw rec_fault rec_h1].
  exists sim, pl. auto 10.
Qed.

End MethodFacts.

Section MethodClaims.
Import Target Selector Database Method Demo Samples.

(** X18.  Without trials [simulate_spectra] raises [ValueError].  When it
    returns, [sim_spec] is the set of vectors drawn for one of the trials,
    [nGM] rows of one entry per grid period, unchanged by the exponential
    and the logarithm in between, and no trial has a combined deviation of
    smaller magnitude than the trial kept. *)
Theorem simulated_set_is_best_trial
  (mvn : Z -> list R -> list (list R) -> nat -> list R) (skew : list R -> R)
  (tgt : target) (cfg : config) (nTrials : nat) (seedValue clock : Z) :
  (nTrials = O ->
   simulate_spectra mvn skew tgt cfg nTrials seedValue clock = Raise ValueError)
  /\ forall sim,
       simulate_spectra mvn skew tgt cfg nTrials seedValue clock = Ok sim ->
       exists j spec d,
         (j < nTrials)%nat
         /\ trial mvn skew tgt cfg (seed_of seedValue clock) j = Ok (spec, d)
         /\ sim = map (fun i => mvn (seed_of seedValue clock) (mu_ln tgt) (cov tgt)
                                    (j * nGM cfg + i)%nat)
                      (seq 0 (nGM cfg))
         /\ length sim = nGM cfg
         /\ Forall (fun row => length row = nT tgt) sim
         /\ forall j', (j' < nTrials)%nat ->
              exists spec' d',
                trial mvn skew tgt cfg (seed_of seedValue clock) j' = Ok (spec', d')
                /\ Rabs d <= Rabs d'.
Proof.
  split.
  - intros ->. reflexivity.
  - intros sim H. unfold simulate_spectra, simulate_seeded in H.
    set (seed := seed_of seedValue clock) in *.
    apply bind_Ok_inv in H. destruct H as (trials & Htr & H).
    apply bind_Ok_inv in H. destruct H as (j & Hj & H). injection H as <-.
    destruct (mapM_nth _ _ _ O ([], 0) Htr) as [Hlen Hnth].
    rewrite length_seq in Hlen, Hnth.
    destruct (np_argmin_spec _ _ Hj) as [Hjlt Hmin].
    rewrite length_map, Hlen in Hjlt.
    assert (Htrial : forall k, (k < nTrials)%nat ->
              trial mvn skew tgt cfg seed k = Ok (nth k trials ([], 0))).
    { intros k Hk. rewrite <- (Hnth k Hk). now rewrite seq_nth. }
    destruct (nth j trials ([], 0)) as [spec d] eqn:Ej.
    exists j, spec, d. split; [assumption|].
    split; [rewrite (Htrial j Hjlt); now rewrite Ej|].
    pose proof (Htrial j Hjlt) as Hsp. rewrite Ej in Hsp. unfold trial in Hsp.
    apply bind_Ok_inv in Hsp. destruct Hsp as (spec0 & Hspec & Hsp).
    apply bind_Ok_inv in Hsp. destruct Hsp as (d0 & Hd & Hsp).
    injection Hsp as <- <-.
    destruct (specDict_Ok _ _ _ _ _ _ Hspec) as [E F]. cbn [fst].
    split; [exact E|]. split; [rewrite E; now rewrite length_map, length_seq|].
    split.
    + rewrite E. apply Forall_forall. intros row Hrow.
      apply in_map_iff in Hrow. destruct Hrow as (i & <- & Hi).
      unfold specDict in Hspec.
      destruct (mapM_Ok_each _ _ _ Hspec i Hi) as (b & Hb). cbv zeta in Hb.
      destruct (Nat.eqb_spec (length (mvn seed (mu_ln tgt) (cov tgt) (j * nGM cfg + i)%nat))
                  (nT tgt)) as [El|]; [assumption|discriminate].
    + intros j' Hj'. destruct (nth j' trials ([], 0)) as [spec' d'] eqn:Ej'.
      exists spec', d'. split; [rewrite (Htrial j' Hj'); now rewrite Ej'|].
      assert (Hd0 : nth j (map (fun t => Rabs (snd t)) trials) 0 = Rabs d0).
      { rewrite (nth_indep _ 0 (Rabs (snd (([] : list (list R)), 0))))
          by (rewrite length_map; lia).
        rewrite (map_nth (fun t => Rabs (snd t)) trials ([], 0) j). now rewrite Ej. }
      rewrite <- Hd0. apply Hmin.
      apply in_map_iff. exists (nth j' trials ([], 0)).
      split; [now rewrite Ej'|apply nth_In; lia].
Qed.

(** X19.  The seed of the simulation: every [seedValue] other than 0
    seeds the generator with 0, so that the simulated spectra and the whole
    outcome of [select] are the same for any two non-zero seed values,
    whatever the time of the call; only [seedValue = 0] uses the clock. *)
Theorem nonzero_seeds_coincide
  (mvn : Z -> list R -> list (list R) -> nat -> list R) (skew : list R -> R)
  (py_int : String.string -> res Z) (tgt : target) (cfg : config)
  (nTrials : nat) (db : database) (f : filters) (s1 s2 c1 c2 : Z)
  (H1 : s1 <> 0%Z) (H2 : s2 <> 0%Z) :
  simulate_spectra mvn skew tgt cfg nTrials s1 c1
  = simulate_seeded mvn skew tgt cfg nTrials 0
  /\ simulate_spectra mvn skew tgt cfg nTrials s1 c1
     = simulate_spectra mvn skew tgt cfg nTrials s2 c2
  /\ select_method mvn skew py_int tgt cfg nTrials db f s1 c1
     = select_method mvn skew py_int tgt cfg nTrials db f s2 c2
  /\ simulate_spectra mvn skew tgt cfg nTrials 0 c1
     = simulate_seeded mvn skew tgt cfg nTrials c1.
Proof.
  assert (Hseed : forall s c, s <> 0%Z -> seed_of s c = 0%Z).
  { intros s c Hs. unfold seed_of. now destruct (Z.eqb_spec s 0). }
  assert (Hsim : simulate_spectra mvn skew tgt cfg nTrials s1 c1
                 = simulate_spectra mvn skew tgt cfg nTrials s2 c2).
  { unfold simulate_spectra. now rewrite !Hseed. }
  split; [unfold simulate_spectra; now rewrite Hseed|].
  split; [exact Hsim|]. split; [|reflexivity].
  unfold select_method. now rewrite Hsim.
Qed.

Lemma nonzero_seeds_coincide_witness :
  select_method mvn_pair skew_zero no_int (uni_target 0) (pair_cfg 1) 1
                db_four f_open 1 0
  = select_method mvn_pair skew_zero no_int (uni_target 0) (pair_cfg 1) 1
                  db_four f_open 2 5.
Proof.
  destruct (nonzero_seeds_coincide mvn_pair skew_zero no_int (uni_target 0)
              (pair_cfg 1) 1 db_four f_open 1 2 0 5) as (_ & _ & H & _);
    [discriminate|discriminate|exact H].
Defined.

(** X20.  What [select] stores about the selected records belongs to
    them: for a non-empty grid and a positive conditioning level, each of
    the metadata arrays has [nGM] entries, entry [i] of every array is the
    entry of the filtered pool at the row [rec_id[i]], and the selected
    spectrum is, in linear units, the pool spectrum at that row times
    [rec_scale[i]]. *)
Theorem selected_metadata_belongs_to_records
  (mvn : Z -> list R -> list (list R) -> nat -> list R) (skew : list R -> R)
  (py_int : String.string -> res Z) (tgt : target) (cfg : config)
  (nTrials : nat) (db : database) (f : filters) (seedValue clock : Z)
  (ch : chosen)
  (Him : cond tgt = 1%nat -> forall v, im_Tstar tgt = Some v -> 0 < v)
  (HnT : (0 < nT tgt)%nat)
  (Hrun : select_method mvn skew py_int tgt cfg nTrials db f seedValue clock
          = Ok ch) :
  exists pl,
    search_database py_int db
      (if String.prefix "EXSIM" (Name db) then with_selection f 1 else f) (T tgt)
    = Ok pl
    /\ length (rec_Vs30 ch) = nGM cfg /\ length (rec_Rjb ch) = nGM cfg
    /\ length (rec_Mw ch) = nGM cfg /\ length (rec_fault ch) = nGM cfg
    /\ length (rec_h1 ch) = nGM cfg
    /\ forall i, (i < nGM cfg)%nat ->
         exists r,
           nth i (rec_id (picked ch)) (-1)%Z = Z.of_nat r
           /\ (r < length (sampleBig pl))%nat
           /\ nth i (rec_Vs30 ch) 0 = nth r (p_Vs30 pl) 0
           /\ nth i (rec_Rjb ch) 0 = nth r (p_Rjb pl) 0
           /\ nth i (rec_Mw ch) 0 = nth r (p_Mw pl) 0
           /\ nth i (rec_fault ch) 0%Z = nth r (p_fault pl) 0%Z
           /\ nth i (rec_h1 ch) ""%string = nth r (p_Filename_1 pl) ""%string
           /\ forall k, (k < nT tgt)%nat ->
                exp (nth k (nth i (rec_spec (picked ch)) []) 0)
                = nth k (nth r (sampleBig pl) []) 0
                  * nth i (rec_scale (picked ch)) 1.
Proof.
  destruct (select_method_Ok_inv _ _ _ _ _ _ _ _ _ _ _ Hrun)
    as (sim & pl & Hsim & Hpl & Hsel & Hvs & Hrj & Hmw & Hfl & Hh1).
  exists pl. split; [exact Hpl|].
  set (big := map (map ln) (sampleBig pl)) in *.
  destruct (select_consistent tgt cfg sim big (picked ch) Him HnT Hsel)
    as (i1 & i2 & im & st & Hii & Himv & (Hl1 & Hl2 & Hl3 & Hent & _) & Eid & Esc & Esp).
  assert (Hids : length (rec_id (picked ch)) = nGM cfg) by now rewrite Eid.
  rewrite (mapM_length _ _ _ Hvs), (mapM_length _ _ _ Hrj), (mapM_length _ _ _ Hmw),
    (mapM_length _ _ _ Hfl), (mapM_length _ _ _ Hh1).
  repeat (split; [exact Hids|]).
  assert (Hpos : cond tgt = 1%nat -> 0 < im).
  { exact (level_positive tgt im Himv Him). }
  intros i Hi. destruct (Hent i Hi) as (r & H1 & H2 & H3 & H4).
  exists r. rewrite Eid, Esc, Esp.
  assert (Hr : (r < length (sampleBig pl))%nat).
  { unfold nBig, big in H2. now rewrite length_map in H2. }
  split; [assumption|]. split; [assumption|].
  assert (Hget : forall (A : Type) (l : list A) (out : list A) (d : A),
            fancy_int l (rec_id (picked ch)) = Ok out ->
            (r < length l)%nat -> nth i out d = nth r l d).
  { intros A l out d Hf Hlt.
    destruct (mapM_nth _ _ _ 0%Z d Hf) as [_ Hn].
    specialize (Hn i ltac:(lia)). rewrite Eid, (nth_indep _ 0%Z (-1)%Z) in Hn by lia.
    rewrite H1, index_int_nat, (index_lt l r d Hlt) in Hn. now injection Hn as <-. }
  destruct (search_aligned _ _ _ _ _ Hpl) as (A1 & A2 & A3 & A4 & A5 & _).
  cbv zeta in A1, A2, A3, A4, A5.
  split; [apply (Hget _ _ _ _ Hvs); lia|].
  split; [apply (Hget _ _ _ _ Hrj); lia|].
  split; [apply (Hget _ _ _ _ Hmw); lia|].
  split; [apply (Hget _ _ _ _ Hfl); lia|].
  split; [apply (Hget _ _ _ _ Hh1); lia|].
  intros k Hk.
  pose proof (scaleFac2_pos tgt cfg sim big i1 im i r Hpos HnT) as Hsf.
  rewrite H3, H4. unfold cand_row.
  rewrite (nth_map_seq
             (fun k => Selector.big big r k
                       + ln (scaleFac2 tgt cfg sim big i1 im i r)))
    by assumption.
  rewrite exp_plus, exp_ln by assumption. f_equal.
  destruct (search_rows_positive _ _ _ _ _ Hpl (nth r (sampleBig pl) []))
    as [Hlen Hrowpos]; [now apply nth_In|].
  assert (Hk' : (k < length (nth r (sampleBig pl) []))%nat).
  { rewrite Hlen. exact Hk. }
  unfold Selector.big, big.
  rewrite (nth_indep _ [] (map ln [])) by (rewrite length_map; lia).
  rewrite (map_nth (map ln) (sampleBig pl) [] r).
  rewrite (nth_indep _ 0 (ln 0)) by (rewrite length_map; lia).
  rewrite (map_nth ln (nth r (sampleBig pl) []) 0 k).
  apply exp_ln, Hrowpos, nth_In, Hk'.
Qed.

Lemma sim_pair (s c : Z) :
  simulate_spectra mvn_pair skew_zero (uni_target 0) (pair_cfg 1) 1 s c
  = Ok sims4.
Proof.
  unfold simulate_spectra, simulate_seeded. cbn [seq mapM].
  unfold trial, specDict. cbn [pair_cfg nGM seq mapM].
  unfold mvn_pair, sims4, Selector.nT.
  cbn [Nat.mul Nat.add nth length uni_target T Nat.eqb bind map].
  unfold devTotalSim_of. cbn [pair_cfg weights index nth_error bind].
  cbn [map snd np_argmin Np.argmin_from bind nth fst].
  now rewrite !ln_exp.
Qed.

Lemma search_four :
  search_database no_int db_four (with_selection f_open 1) [1]
  = Ok {| sampleBig := Sa_1 db_four; p_Vs30 := soil_Vs30 db_four;
          p_Mw := magnitude db_four; p_Rjb := Rjb db_four;
          p_fault := mechanism db_four; p_Filename_1 := Filename_1 db_four;
          p_Filename_2 := None; p_NGA_num := None |}.
Proof.
  unfold search_database.
  assert (Hg : gather no_int db_four (with_selection f_open 1)
               = Ok {| SaKnown := Sa_1 db_four; k_Vs30 := soil_Vs30 db_four;
                       k_Mw := magnitude db_four; k_Rjb := Rjb db_four;
                       k_fault := mechanism db_four;
                       k_Filename_1 := Filename_1 db_four;
                       k_Filename_2 := None; k_NGA_num := None |})
    by reflexivity.
  rewrite Hg. cbn [bind].
  assert (Hna : not_allowed db_four (with_selection f_open 1)
                  {| SaKnown := Sa_1 db_four; k_Vs30 := soil_Vs30 db_four;
                     k_Mw := magnitude db_four; k_Rjb := Rjb db_four;
                     k_fault := mechanism db_four;
                     k_Filename_1 := Filename_1 db_four;
                     k_Filename_2 := None; k_NGA_num := None |} = Ok []).
  { unfold not_allowed, w2_rows, outside, nonpositive_rows, other_fault.
    change (is_W2 db_four) with false.
    cbn [with_selection f_open db_four Vs30_lim Mw_lim Rjb_lim fault_lim SaKnown
         Sa_1 bind length seq filter nth existsb].
    rewrite !(proj2 (Rleb_false _ 0)) by apply exp_pos.
    reflexivity. }
  rewrite Hna. cbn [bind SaKnown db_four Sa_1 length].
  rewrite allowed_rows_spec.
  cbn [forallb seq filter mem existsb negb].
  cbn [bind fancy mapM index nth_error k_Vs30 k_Mw k_Rjb k_fault k_Filename_1
       k_Filename_2 k_NGA_num soil_Vs30 magnitude Rjb mechanism Filename_1
       with_selection f_open selection Nat.eqb].
  change (is_W2 db_four) with false.
  unfold recPer. cbn [db_four Periods mapM Np.where_first].
  decide_R. cbn [bind fancy mapM index nth_error]. reflexivity.
Qed.

Lemma method_four :
  select_method mvn_pair skew_zero no_int (uni_target 0) (pair_cfg 1) 1
                db_four f_open 1 0
  = Ok {| picked :=
            {| rec_id := [1; 2]%Z; rec_scale := [1; 1];
               rec_spec := [[1.04]; [-1.06]];
               medianErr := Rabs (exp ((1.04 + -1.06) / 2) - exp 0) / exp 0 * 100;
               stdErr := Rabs (Rabs (1.04 - -1.06) / 2 - 1) / 1 * 100 |};
          rec_Vs30 := [600; 700]; rec_Rjb := [20; 30]; rec_Mw := [6.5; 7];
          rec_fault := [2; 3]%Z; rec_h1 := ["b_acc.txt"; "c_acc.txt"]%string;
          rec_h2 := None; rec_rsn := None |}.
Proof.
  unfold select_method.
  change (String.prefix "EXSIM" (Name db_four)) with true. cbv iota.
  rewrite sim_pair. cbn [bind uni_target T].
  rewrite search_four. cbn [bind sampleBig db_four Sa_1 map].
  rewrite !ln_exp. change [[-1]; [1.04]; [-1.06]; [1.07]] with (pool pool4).
  rewrite run4_select. cbn [bind rec_id].
  unfold fancy_int, index_int, index.
  cbn [p_Vs30 p_Rjb p_Mw p_fault p_Filename_1 p_Filename_2 p_NGA_num
       soil_Vs30 Rjb magnitude mechanism Filename_1 mapM Z.ltb Z.compare
       Z.to_nat Pos.to_nat Pos.iter_op Nat.add nth_error bind
       with_selection selection f_open Nat.eqb].
  change (is_W2 db_four) with false. reflexivity.
Qed.

Lemma selected_metadata_belongs_to_records_witness :
  exists pl,
    search_database no_int db_four (with_selection f_open 1) [1] = Ok pl
    /\ length [600; 700] = 2%nat
    /\ exists r, nth 0 [1; 2]%Z (-1)%Z = Z.of_nat r
                 /\ nth 0 [600; 700] 0 = nth r (p_Vs30 pl) 0.
Proof.
  destruct (selected_metadata_belongs_to_records mvn_pair skew_zero no_int
              (uni_target 0) (pair_cfg 1) 1 db_four f_open 1 0 _
              ltac:(discriminate) ltac:(cbn; lia) method_four)
    as (pl & Hpl & Hl & _ & _ & _ & _ & Hent).
  exists pl. split; [exact Hpl|]. split; [exact Hl|].
  destruct (Hent O ltac:(cbn; lia)) as (r & H1 & _ & H2 & _).
  exists r. split; [exact H1|exact H2].
Defined.

End MethodClaims.

(** ** The object across calls *)

Section ObjectFacts.
Import Target Selector Database Grid Object.

Lemma where_first_exact (g : list R) (k : nat) :
  increasing g -> (k < length g)%nat ->
  Np.where_first (fun x => Np.Reqb x (nth k g 0)) g = Ok k.
Proof.
  intros Hg Hk.
  destruct (where_first_defined (fun x => Np.Reqb x (nth k g 0)) g (nth k g 0))
    as (k' & Hk'); [now apply nth_In|apply Reqb_refl|].
  rewrite Hk'. f_equal.
  destruct (where_first_first _ _ _ Hk') as (L & E & _). apply Reqb_true in E.
  destruct (Nat.lt_trichotomy k' k) as [Hlt|[->|Hgt]]; [|reflexivity|].
  - assert (nth k' g 0 < nth k g 0) by (apply Hg; lia). lra.
  - assert (nth k g 0 < nth k' g 0) by (apply Hg; lia). lra.
Qed.

Lemma slice_as_map (a b : nat) (l : list R) :
  (a <= b < length l)%nat ->
  skipn a (firstn (b + 1) l) = map (fun k => nth k l 0) (seq a (b + 1 - a)).
Proof.
  intros H. apply (nth_ext _ _ 0 0).
  - rewrite slice_length, length_map, length_seq by assumption. reflexivity.
  - intros i Hi. rewrite slice_length in Hi by assumption.
    rewrite slice_nth by lia.
    rewrite (nth_indep (map (fun k => nth k l 0) (seq a (b + 1 - a))) 0
               ((fun k => nth k l 0) O))
      by (rewrite length_map, length_seq; lia).
    rewrite (map_nth (fun k => nth k l 0) (seq a (b + 1 - a)) O i).
    now rewrite seq_nth.
Qed.

Lemma mapM_map {A B C : Type} (g : B -> res C) (h : A -> B) (l : list A) :
  mapM g (map h l) = mapM (fun a => g (h a)) l.
Proof.
  induction l as [|a l IH]; cbn [map mapM]; [reflexivity|]. now rewrite IH.
Qed.

(** The grid that [create] cuts out of the database periods. *)
Lemma T_Tgt_of_Ok (periods range grid : list R) :
  nondecreasing periods -> T_Tgt_of periods range = Ok grid ->
  exists i j,
    (i <= j < length periods)%nat
    /\ grid = skipn i (firstn (j + 1) periods).
Proof.
  intros Hnd H. unfold T_Tgt_of in H.
  apply bind_Ok_inv in H. destruct H as (lo & Hlo & H).
  apply bind_Ok_inv in H. destruct H as (i & Hi & H).
  apply bind_Ok_inv in H. destruct H as (hi & Hhi & H).
  apply bind_Ok_inv in H. destruct H as (j & Hj & H). injection H as <-.
  exists i, j. split; [|reflexivity].
  assert (Hne : range <> []) by (intros ->; discriminate).
  destruct (min_spec _ Hne) as (lo' & Hlo' & Hin & _).
  destruct (max_spec _ Hne) as (hi' & Hhi' & _ & Hle).
  assert (lo' = lo) by congruence. assert (hi' = hi) by congruence. subst.
  destruct (nearest_index_spec _ _ _ Hj) as (Lj & _).
  pose proof (nearest_index_mono _ _ _ _ _ Hnd (Hle _ Hin) Hi Hj). lia.
Qed.

Lemma create_method_Ok_inv (gmpe : nat -> R -> R * R) (self self' : cs_master)
  (a : create_args) :
  create_method gmpe self a = Ok self' ->
  exists grid ts t,
    T_Tgt_of (Periods (self_database self)) (T_Tgt_range a) = Ok grid
    /\ self_Tstar self = Some ts
    /\ create gmpe {| T_Tgt := grid; Tstar0 := ts; nScenarios := n_scenarios a;
                      Hcont_arg := Hcont_a a; im_Tstar_arg := im_Tstar_a a;
                      epsilon := epsilon_a a; cond_arg := cond_a a;
                      useVar_arg := useVar_a a |} = Ok t
    /\ self' = {| self_Tstar := Tstar t; self_database := self_database self;
                  self_target := Some t |}.
Proof.
  unfold create_method. intros H.
  apply bind_Ok_inv in H. destruct H as (grid & Hgrid & H).
  apply bind_Ok_inv in H. destruct H as (ts & Hts & H).
  apply bind_Ok_inv in H. destruct H as (t & Ht & H). injection H as <-.
  exists grid, ts, t. repeat split; try assumption.
  destruct (self_Tstar self); [now injection Hts as <-|discriminate].
Qed.

End ObjectFacts.

Section ObjectClaims.
Import Target Selector Database Grid Object Demo Samples.

(** X21.  An unconditional target uses the object up: [create] with
    [cond = 0] deletes [self.Tstar]; the target it leaves needs no
    conditioning indices in [select], but any further call of [create] on
    the same object, conditional or not, raises [AttributeError] as soon as
    the grid has been cut. *)
Theorem unconditional_create_deletes_Tstar (gmpe : nat -> R -> R * R)
  (self self' : cs_master) (a : create_args)
  (Hc : cond_a a = O) (Hrun : create_method gmpe self a = Ok self') :
  self_Tstar self' = None
  /\ (exists t, self_target self' = Some t /\ cond t = O /\ Tstar t = None
                /\ indices t = Ok ([], []))
  /\ forall a' grid,
       T_Tgt_of (Periods (self_database self')) (T_Tgt_range a') = Ok grid ->
       create_method gmpe self' a' = Raise AttributeError.
Proof.
  destruct (create_method_Ok_inv _ _ _ _ Hrun) as (grid & ts & t & Hg & Hts & Ht & ->).
  pose proof (create_Ok_inv gmpe _ _ Ht)
    as (Ts & _ & _ & Hcnd & _ & _ & _ & HTstar & _).
  cbn [cond_arg] in Hcnd, HTstar. rewrite Hc in Hcnd, HTstar.
  cbn [Nat.eqb] in HTstar. cbn [self_Tstar self_target self_database].
  split; [assumption|]. split.
  - exists t. repeat split; try assumption. unfold indices. now rewrite Hcnd.
  - intros a' grid' Hg'. unfold create_method.
    cbn [self_Tstar self_database]. rewrite Hg', HTstar. reflexivity.
Qed.

Lemma grid_order_1234 : increasing [1; 2; 3; 4].
Proof. unfold increasing. grid_order. Qed.

Lemma cut_23 : T_Tgt_of [1; 2; 3; 4] [2; 3] = Ok [2; 3].
Proof.
  unfold T_Tgt_of. cbn [Np.min Np.max bind].
  rewrite (Rmin_left 2 3), (Rmax_right 2 3) by lra.
  assert (E1 : nearest_index [1; 2; 3; 4] 2 = Ok 1%nat)
    by exact (nearest_index_exact [1; 2; 3; 4] 1 grid_order_1234 ltac:(cbn; lia)).
  assert (E2 : nearest_index [1; 2; 3; 4] 3 = Ok 2%nat)
    by exact (nearest_index_exact [1; 2; 3; 4] 2 grid_order_1234 ltac:(cbn; lia)).
  rewrite E1. cbn [bind]. rewrite E2. reflexivity.
Qed.

Lemma fresh_object_created :
  exists self', create_method demo_gmpe fresh_object args_uncond = Ok self'.
Proof.
  unfold create_method. cbn [fresh_object self_database db_grid Periods
                             args_uncond T_Tgt_range self_Tstar].
  rewrite cut_23. cbn [bind]. unfold create.
  cbn [args_uncond cond_a n_scenarios cond_arg nScenarios Nat.eqb bind].
  eexists. reflexivity.
Qed.

Lemma unconditional_create_deletes_Tstar_witness :
  exists self',
    create_method demo_gmpe fresh_object args_uncond = Ok self'
    /\ self_Tstar self' = None
    /\ create_method demo_gmpe self' args_uncond = Raise AttributeError.
Proof.
  destruct fresh_object_created as (self' & Hrun). exists self'.
  split; [exact Hrun|].
  destruct (unconditional_create_deletes_Tstar demo_gmpe fresh_object self'
              args_uncond eq_refl Hrun) as (H1 & _ & H2).
  split; [exact H1|]. apply (H2 args_uncond [2; 3]).
  destruct (create_method_Ok_inv _ _ _ _ Hrun) as (g0 & ts0 & t0 & _ & _ & _ & ->).
  exact cut_23.
Defined.

(** X22.  The grid of a target built on a database with increasing
    periods is a run of consecutive database periods, so the filtering can
    never miss a grid period: [recPer] is the run of their column
    numbers, and the pool spectra are those database columns. *)
Theorem grid_periods_are_database_columns (gmpe : nat -> R -> R * R)
  (self self' : cs_master) (a : create_args)
  (Hinc : increasing (Periods (self_database self)))
  (Hrun : create_method gmpe self a = Ok self') :
  exists t i j,
    self_target self' = Some t
    /\ (i <= j < length (Periods (self_database self')))%nat
    /\ T t = skipn i (firstn (j + 1) (Periods (self_database self')))
    /\ recPer (self_database self') (T t) = Ok (seq i (j + 1 - i)).
Proof.
  destruct (create_method_Ok_inv _ _ _ _ Hrun) as (grid & ts & t & Hg & Hts & Ht & ->).
  pose proof (create_Ok_inv gmpe _ _ Ht) as (Ts & _ & _ & _ & _ & HT & _).
  cbn [T_Tgt] in HT. cbn [self_target self_database].
  destruct (T_Tgt_of_Ok _ _ _ (increasing_nondecreasing _ Hinc) Hg)
    as (i & j & Hij & Egrid).
  exists t, i, j. split; [reflexivity|]. split; [assumption|].
  split; [congruence|].
  unfold recPer. rewrite HT, Egrid, slice_as_map by assumption.
  rewrite mapM_map. rewrite <- (map_id (seq i (j + 1 - i))) at 2.
  apply mapM_defined. intros k Hk. apply in_seq in Hk.
  apply where_first_exact; [assumption|lia].
Qed.

Lemma grid_periods_are_database_columns_witness :
  exists self' t,
    create_method demo_gmpe fresh_object args_uncond = Ok self'
    /\ self_target self' = Some t
    /\ exists i j, recPer db_grid (T t) = Ok (seq i (j + 1 - i)).
Proof.
  destruct fresh_object_created as (self' & Hrun).
  destruct (grid_periods_are_database_columns demo_gmpe fresh_object self'
              args_uncond grid_order_1234 Hrun) as (t & i & j & Ht & _ & _ & Hrp).
  exists self', t. split; [exact Hrun|]. split; [exact Ht|].
  exists i, j.
  destruct (create_method_Ok_inv _ _ _ _ Hrun) as (g0 & ts0 & t0 & _ & _ & _ & E).
  rewrite E in Hrp. exact Hrp.
Defined.

End ObjectClaims.

(** * Rotated spectra *)

Section RotationFacts.
Import Grid Rotation.

Lemma insert_sorted_perm (x : R) (l : list R) :
  Permutation (insert_sorted x l) (x :: l).
Proof.
  induction l as [|y l IH]; cbn [insert_sorted]; [reflexivity|].
  destruct (Rle_dec x y); [reflexivity|].
  rewrite IH. apply perm_swap.
Qed.

Lemma sort_perm (l : list R) : Permutation (sort l) l.
Proof.
  induction l as [|x l IH]; cbn; [reflexivity|].
  fold (sort l). rewrite insert_sorted_perm. now constructor.
Qed.

Lemma nondecreasing_cons (x : R) (l : list R) :
  (forall y, In y l -> x <= y) -> nondecreasing l -> nondecreasing (x :: l).
Proof.
  intros Hx Hl [|i] [|j] [Hij Hj]; cbn [length nth] in *; try lia; try lra.
  - apply Hx, nth_In. lia.
  - apply Hl. lia.
Qed.

Lemma nondecreasing_tail (x : R) (l : list R) :
  nondecreasing (x :: l) -> nondecreasing l /\ forall y, In y l -> x <= y.
Proof.
  intros H. split.
  - intros i j Hij. apply (H (S i) (S j)). cbn [length]. lia.
  - intros y Hy. destruct (In_nth _ _ 0 Hy) as (k & Hk & <-).
    apply (H 0%nat (S k)). cbn [length]. lia.
Qed.

Lemma insert_sorted_sorted (x : R) (l : list R) :
  nondecreasing l -> nondecreasing (insert_sorted x l).
Proof.
  induction l as [|y l IH]; intros Hl; cbn [insert_sorted].
  - apply nondecreasing_cons; [now intros ? []|].
    intros i j [_ Hj]. cbn in Hj. lia.
  - destruct (nondecreasing_tail _ _ Hl) as [Hl' Hy].
    destruct (Rle_dec x y) as [Hxy|Hxy].
    + apply nondecreasing_cons; [|exact Hl].
      intros z [<-|Hz]; [exact Hxy|]. specialize (Hy z Hz). lra.
    + apply nondecreasing_cons; [|now apply IH].
      intros z Hz.
      apply (Permutation_in _ (insert_sorted_perm x l)) in Hz.
      destruct Hz as [<-|Hz]; [lra | now apply Hy].
Qed.

Lemma sort_sorted (l : list R) : nondecreasing (sort l).
Proof.
  induction l as [|x l IH]; cbn.
  - intros i j [_ Hj]. cbn in Hj. lia.
  - now apply insert_sorted_sorted.
Qed.

Lemma sort_length (l : list R) : length (sort l) = length l.
Proof. apply Permutation_length, sort_perm. Qed.

(** The two order statistics that [percentile] interpolates between lie in
    the array, and the weight of the upper one lies in [0, 1). *)
Lemma percentile_position (n : nat) (q : Z) :
  (1 <= n)%nat -> (0 <= q <= 100)%Z ->
  let pos := (q * Z.of_nat (n - 1))%Z in
  (Z.to_nat (pos / 100) <= n - 1)%nat /\ 0 <= IZR (pos mod 100) / 100 < 1.
Proof.
  intros Hn Hq pos. split.
  - assert (pos / 100 <= Z.of_nat (n - 1))%Z.
    { apply Z.div_le_upper_bound; [lia|]. unfold pos. nia. }
    lia.
  - pose proof (Z.mod_pos_bound pos 100 ltac:(lia)) as [H0 H1].
    apply IZR_le in H0. apply IZR_lt in H1. lra.
Qed.

Lemma percentile_Ok (a : list R) (q : Z) :
  (0 <= q <= 100)%Z ->
  percentile a q
  = let s := sort a in
    let n := length a in
    let pos := (q * Z.of_nat (n - 1))%Z in
    let lo := Z.to_nat (pos / 100) in
    Ok (nth lo s 0
        + IZR (pos mod 100) / 100
          * (nth (Nat.min (lo + 1) (n - 1)) s 0 - nth lo s 0)).
Proof.
  intros Hq. unfold percentile.
  destruct (Z.ltb_spec q 0); [lia|]. destruct (Z.ltb_spec 100 q); [lia|].
  reflexivity.
Qed.

Lemma percentile_0 (a : list R) : percentile a 0 = Ok (nth 0 (sort a) 0).
Proof.
  rewrite percentile_Ok by lia. cbn zeta.
  change (0 * Z.of_nat (length a - 1))%Z with 0%Z.
  change (0 / 100)%Z with 0%Z. change (0 mod 100)%Z with 0%Z.
  change (Z.to_nat 0) with 0%nat. f_equal. lra.
Qed.

Lemma percentile_100 (a : list R) :
  percentile a 100 = Ok (nth (length a - 1) (sort a) 0).
Proof.
  rewrite percentile_Ok by lia. cbn zeta.
  rewrite (Z.mul_comm 100), Z.div_mul, Z.mod_mul, Nat2Z.id by lia.
  f_equal. lra.
Qed.

(** Every percentile of a non-empty array lies between its percentile 0,
    which is its smallest element, and its percentile 100, which is its
    largest. *)
Lemma percentile_between (a : list R) (q : Z) :
  a <> [] -> (0 <= q <= 100)%Z ->
  exists v lo hi,
    percentile a q = Ok v /\ percentile a 0 = Ok lo
    /\ percentile a 100 = Ok hi
    /\ lo <= v <= hi /\ In lo a /\ In hi a
    /\ forall x, In x a -> lo <= x <= hi.
Proof.
  intros Ha Hq.
  assert (Hn : (1 <= length a)%nat) by (destruct a; [congruence | cbn; lia]).
  pose proof (sort_sorted a) as Hs. pose proof (sort_length a) as Hl.
  destruct (percentile_position (length a) q Hn Hq) as [Hlo Hg].
  rewrite (percentile_Ok a q Hq), percentile_0, percentile_100. cbn zeta.
  set (pos := (q * Z.of_nat (length a - 1))%Z) in *.
  set (lo := Z.to_nat (pos / 100)) in *.
  set (hi := Nat.min (lo + 1) (length a - 1)).
  set (g := IZR (pos mod 100) / 100) in *.
  do 3 eexists. repeat (split; [reflexivity|]).
  assert (H0 : nth 0 (sort a) 0 <= nth lo (sort a) 0) by (apply Hs; lia).
  assert (H1 : nth lo (sort a) 0 <= nth hi (sort a) 0)
    by (apply Hs; unfold hi; lia).
  assert (H2 : nth hi (sort a) 0 <= nth (length a - 1) (sort a) 0)
    by (apply Hs; unfold hi; lia).
  assert (H3 : 0 <= g * (nth hi (sort a) 0 - nth lo (sort a) 0))
    by (apply Rmult_le_pos; lra).
  assert (H4 : 0 <= (1 - g) * (nth hi (sort a) 0 - nth lo (sort a) 0))
    by (apply Rmult_le_pos; lra).
  split; [split; lra|].
  split; [apply (Permutation_in _ (sort_perm a)), nth_In; lia|].
  split; [apply (Permutation_in _ (sort_perm a)), nth_In; lia|].
  intros x Hx.
  apply (Permutation_in _ (Permutation_sym (sort_perm a))) in Hx.
  destruct (In_nth _ _ 0 Hx) as (k & Hk & <-).
  split; apply Hs; lia.
Qed.

(** A rotated ordinate never exceeds the vector sum of the two ordinates. *)
Lemma rotated_bound (a b th : R) :
  Rabs (a * cos th + b * sin th) <= sqrt (a * a + b * b).
Proof.
  pose proof (sin2_cos2 th) as H. unfold Rsqr in H.
  assert (Hr : 0 <= a * a + b * b) by nra.
  pose proof (sqrt_pos (a * a + b * b)) as Hs.
  pose proof (sqrt_sqrt _ Hr) as Hss.
  set (r := sqrt (a * a + b * b)) in *.
  set (c := cos th) in *. set (s := sin th) in *.
  assert (Hx : (a * c + b * s) * (a * c + b * s) <= r * r).
  { rewrite Hss.
    pose proof (Rle_0_sqr (a * s - b * c)) as Hsq. unfold Rsqr in Hsq.
    replace ((a * c + b * s) * (a * c + b * s))
      with ((a * a + b * b) * (s * s + c * c)
            - (a * s - b * c) * (a * s - b * c)) by ring.
    rewrite H. lra. }
  apply Rabs_le. split; nra.
Qed.

(** The angles start at 0 and, when there are at least two, end at pi. *)
Lemma linspace_ends (num : nat) :
  (2 <= num)%nat ->
  length (linspace 0 PI num) = num
  /\ In 0 (linspace 0 PI num) /\ In PI (linspace 0 PI num).
Proof.
  intros Hn. unfold linspace.
  destruct num as [|[|m]]; try lia.
  set (n := S (S m)) in *.
  split; [now rewrite length_map, length_seq|].
  split; apply in_map_iff.
  - exists 0%nat. split; [cbn [INR]; lra | apply in_seq; lia].
  - exists (n - 1)%nat. split; [|apply in_seq; lia].
    assert (INR (n - 1) <> 0) by (apply not_0_INR; lia).
    field. assumption.
Qed.

Lemma rot_column (Sa_1 Sa_2 : list (list R)) (i k nT : nat) (theta : list R) :
  (k < nT)%nat ->
  Np.column k (map (fun th => map (rotated Sa_1 Sa_2 i th) (seq 0 nT)) theta)
  = map (fun th => rotated Sa_1 Sa_2 i th k) theta.
Proof.
  intros Hk. unfold Np.column. rewrite map_map. apply map_ext.
  intros th. now apply nth_map_seq.
Qed.

End RotationFacts.

Section RotationClaims.
Import Grid Rotation.

Lemma get_RotDxx_Ok (Sa_1 Sa_2 : list (list R)) (q : Z) (num_theta : nat) :
  (0 <= q <= 100)%Z ->
  get_RotDxx Sa_1 Sa_2 q num_theta
  = Ok (map (fun i =>
          map (fun k =>
                 match percentile
                         (map (fun th => rotated Sa_1 Sa_2 i th k)
                              (linspace 0 PI num_theta)) q with
                 | Ok v => v
                 | Raise _ => 0
                 end)
              (seq 0 (length (hd [] Sa_1))))
          (seq 0 (length Sa_1))).
Proof.
  intros Hq. unfold get_RotDxx. apply mapM_defined. intros i _.
  apply mapM_defined. intros k Hk. apply in_seq in Hk.
  rewrite rot_column by lia.
  now rewrite (percentile_Ok _ q Hq).
Qed.

(** X23.  The rotated spectra of [get_RotDxx] for at least two angles and
    a percentile between 0 and 100: the result has one row per record and
    one entry per period; at every record and period the value lies
    between the values for the percentiles 0 and 100; the value for 100 is
    at least the magnitude of the first component (the angles 0 and pi are
    both used, and the rotated ordinates are not taken in magnitude) and at
    most the vector sum of the two components; the value for 0 is at most
    minus the magnitude of the first component, hence never positive. *)
Theorem rotated_percentiles_are_ordered (Sa_1 Sa_2 : list (list R)) (xx : Z)
  (num_theta : nat) :
  (2 <= num_theta)%nat -> (0 <= xx <= 100)%Z ->
  exists R0 Rxx R100,
    get_RotDxx Sa_1 Sa_2 0 num_theta = Ok R0
    /\ get_RotDxx Sa_1 Sa_2 xx num_theta = Ok Rxx
    /\ get_RotDxx Sa_1 Sa_2 100 num_theta = Ok R100
    /\ length Rxx = length Sa_1
    /\ forall i k, (i < length Sa_1)%nat -> (k < length (hd [] Sa_1))%nat ->
         let a := nth k (nth i Sa_1 []) 0 in
         let b := nth k (nth i Sa_2 []) 0 in
         let v0 := nth k (nth i R0 []) 0 in
         let v := nth k (nth i Rxx []) 0 in
         let v100 := nth k (nth i R100 []) 0 in
         length (nth i Rxx []) = length (hd [] Sa_1)
         /\ v0 <= v <= v100
         /\ Rabs a <= v100 <= sqrt (a * a + b * b)
         /\ - sqrt (a * a + b * b) <= v0 <= - Rabs a.
Proof.
  intros Hn Hq.
  do 3 eexists.
  split; [apply get_RotDxx_Ok; lia|].
  split; [apply get_RotDxx_Ok; lia|].
  split; [apply get_RotDxx_Ok; lia|].
  split; [now rewrite length_map, length_seq|].
  intros i k Hi Hk. cbn zeta.
  rewrite !(nth_map_seq _ _ i []) by exact Hi.
  rewrite !(nth_map_seq _ _ k 0) by exact Hk.
  split; [now rewrite length_map, length_seq|].
  destruct (linspace_ends num_theta Hn) as (Hlen & Hin0 & HinPI).
  set (theta := linspace 0 PI num_theta) in *.
  set (col := map (fun th => rotated Sa_1 Sa_2 i th k) theta).
  assert (Hcol : col <> []).
  { intros E. apply (f_equal (@length R)) in E. unfold col in E.
    rewrite length_map, Hlen in E. cbn in E. lia. }
  destruct (percentile_between col xx Hcol Hq)
    as (v & lo & hi & -> & -> & -> & Hv & Hlo & Hhi & Hall).
  set (a := nth k (nth i Sa_1 []) 0) in *.
  set (b := nth k (nth i Sa_2 []) 0) in *.
  assert (Ha : In a col).
  { apply in_map_iff. exists 0. split; [|exact Hin0].
    unfold rotated. fold a b. rewrite cos_0, sin_0. ring. }
  assert (Hma : In (- a) col).
  { apply in_map_iff. exists PI. split; [|exact HinPI].
    unfold rotated. fold a b. rewrite cos_PI, sin_PI. ring. }
  assert (Hb : forall x, In x col -> Rabs x <= sqrt (a * a + b * b)).
  { intros x Hx. apply in_map_iff in Hx. destruct Hx as (th & <- & _).
    apply rotated_bound. }
  pose proof (Hall _ Ha) as H1. pose proof (Hall _ Hma) as H2.
  pose proof (Hb _ Hlo) as H3. pose proof (Hb _ Hhi) as H4.
  assert (Habs : forall x s, Rabs x <= s -> - s <= x <= s).
  { intros x s. unfold Rabs. destruct (Rcase_abs x); lra. }
  apply Habs in H3, H4.
  split; [exact Hv|].
  unfold Rabs. destruct (Rcase_abs a); repeat split; lra.
Qed.

Lemma rotated_percentiles_are_ordered_witness :
  exists R100,
    get_RotDxx [[3]] [[4]] 100 2 = Ok R100
    /\ Rabs 3 <= nth 0 (nth 0 R100 []) 0 <= sqrt (3 * 3 + 4 * 4).
Proof.
  destruct (rotated_percentiles_are_ordered [[3]] [[4]] 50 2
              ltac:(lia) ltac:(lia))
    as (R0 & Rxx & R100 & _ & _ & H100 & _ & H).
  exists R100. split; [exact H100|].
  destruct (H 0%nat 0%nat ltac:(cbn; lia) ltac:(cbn; lia)) as (_ & _ & Hb & _).
  exact Hb.
Defined.

End RotationClaims.

(** * The constructor *)

Section LoaderFacts.
Import Grid Database Object Loader.

Lemma insert_by_head (p : R * nat) (l : list (R * nat)) :
  (forall q, In q l -> fst p <= fst q) -> insert_by p l = p :: l.
Proof.
  destruct l as [|q l]; intros H; cbn [insert_by]; [reflexivity|].
  destruct (Rle_dec (fst p) (fst q)) as [|n]; [reflexivity|].
  exfalso. apply n, H. now left.
Qed.

Lemma map_snd_combine_seq (x : list R) (k : nat) :
  map snd (combine x (seq k (length x))) = seq k (length x).
Proof.
  revert k. induction x as [|a x IH]; intros k; cbn; [reflexivity|].
  now rewrite IH.
Qed.

Lemma in_combine_seq (x : list R) (k : nat) (q : R * nat) :
  In q (combine x (seq k (length x))) -> In (fst q) x.
Proof. destruct q as [v i]. apply in_combine_l. Qed.

(** An array in non-decreasing order is its own sorting. *)
Lemma sort_pairs_sorted (x : list R) (k : nat) :
  nondecreasing x ->
  fold_right insert_by [] (combine x (seq k (length x)))
  = combine x (seq k (length x)).
Proof.
  revert k. induction x as [|a x IH]; intros k Hx; [reflexivity|].
  destruct (nondecreasing_tail _ _ Hx) as [Hx' Ha].
  cbn [length seq combine fold_right]. rewrite (IH (S k) Hx').
  apply insert_by_head. intros q Hq. apply Ha. now apply in_combine_seq in Hq.
Qed.

Lemma argsort_sorted (x : list R) :
  nondecreasing x -> argsort x = seq 0 (length x).
Proof.
  intros Hx. unfold argsort. rewrite sort_pairs_sorted by exact Hx.
  apply map_snd_combine_seq.
Qed.

Lemma take_seq (l : list R) : Np.take (seq 0 (length l)) l = l.
Proof.
  unfold Np.take. rewrite (map_nth_seq (fun v => v) l 0). apply map_id.
Qed.

Lemma nth_take_seq (n k : nat) (l : list R) :
  (k < n)%nat -> nth k (Np.take (seq 0 n) l) 0 = nth k l 0.
Proof.
  intros Hk. unfold Np.take.
  exact (nth_map_seq (fun j => nth j l 0) n k 0 Hk).
Qed.

(** On an array in non-decreasing order [searchsorted] separates the
    entries below [t] from the others. *)
Lemma searchsorted_spec (x : list R) (t : R) :
  nondecreasing x ->
  (searchsorted x t <= length x)%nat
  /\ (forall i, (i < searchsorted x t)%nat -> nth i x 0 < t)
  /\ (forall i, (searchsorted x t <= i < length x)%nat -> t <= nth i x 0).
Proof.
  unfold searchsorted.
  induction x as [|a x IH]; intros Hx.
  - cbn. repeat split; intros; lia.
  - destruct (nondecreasing_tail _ _ Hx) as [Hx' Ha].
    destruct (IH Hx') as (Hm & Hlt & Hge).
    cbn [filter].
    destruct (Np.Rltb a t) eqn:Hat;
      [apply Rltb_true in Hat | apply Rltb_false in Hat]; cbn [length].
    + split; [lia|]. split.
      * intros [|i] Hi; cbn [nth]; [exact Hat | apply Hlt; lia].
      * intros [|i] Hi; cbn [nth]; [lia | apply Hge; lia].
    + assert (Hz : length (filter (fun t0 => Np.Rltb t0 t) x) = 0%nat).
      { destruct (length (filter (fun t0 => Np.Rltb t0 t) x)) eqn:E;
          [reflexivity|].
        exfalso. specialize (Hlt 0%nat ltac:(lia)).
        assert (0 < length x)%nat by lia.
        specialize (Ha (nth 0 x 0) ltac:(apply nth_In; lia)). lra. }
      rewrite Hz in *. split; [lia|]. split; [intros; lia|].
      intros [|i] Hi; cbn [nth]; [lra | apply Hge; lia].
Qed.

(** The sorting of the period array with [t] appended: [t] goes between
    the periods below it and the others. *)
Lemma sort_pairs_app (P : list R) (t : R) (k : nat) :
  nondecreasing P -> ~ In t P ->
  fold_right insert_by []
    (combine (P ++ [t]) (seq k (length P + 1)))
  = combine (firstn (searchsorted P t) P) (seq k (searchsorted P t))
    ++ (t, (k + length P)%nat)
       :: combine (skipn (searchsorted P t) P)
            (seq (k + searchsorted P t) (length P - searchsorted P t)).
Proof.
  revert k. induction P as [|p P IH]; intros k HP Hin.
  - cbn. now rewrite Nat.add_0_r.
  - destruct (nondecreasing_tail _ _ HP) as [HP' Hp].
    assert (Hin' : ~ In t P) by (intros H; apply Hin; now right).
    assert (Hpt : p <> t) by (intros H; apply Hin; now left).
    destruct (searchsorted_spec P t HP') as (Hm & Hlt & Hge).
    cbn [app length Nat.add seq combine fold_right].
    rewrite (IH (S k) HP' Hin').
    assert (Hs : searchsorted (p :: P) t
                 = if Np.Rltb p t then S (searchsorted P t)
                   else searchsorted P t).
    { unfold searchsorted. cbn [filter]. now destruct (Np.Rltb p t). }
    rewrite Hs. clear Hs.
    destruct (Np.Rltb p t) eqn:Hpt';
      [apply Rltb_true in Hpt' | apply Rltb_false in Hpt'].
    + cbn [length firstn skipn seq combine app Nat.sub].
      rewrite insert_by_head.
      * now rewrite <- !Nat.add_succ_comm.
      * intros q Hq. cbn [fst]. apply in_app_or in Hq.
        destruct Hq as [Hq|[<-|Hq]].
        -- destruct q as [v i]. apply in_combine_l, In_firstn in Hq.
           now apply Hp.
        -- cbn [fst]. lra.
        -- destruct q as [v i]. apply in_combine_l in Hq.
           apply Hp. rewrite <- (firstn_skipn (searchsorted P t) P).
           apply in_or_app. now right.
    + assert (Hz : searchsorted P t = 0%nat).
      { destruct (searchsorted P t) eqn:E; [reflexivity|].
        exfalso. specialize (Hlt 0%nat ltac:(lia)).
        assert (0 < length P)%nat by lia.
        specialize (Hp (nth 0 P 0) ltac:(apply nth_In; lia)). lra. }
      rewrite Hz. cbn [length firstn skipn seq combine app].
      rewrite Nat.add_0_r, Nat.sub_0_r.
      cbn [insert_by fst]. destruct (Rle_dec p t) as [Hle|_]; [lra|].
      rewrite insert_by_head.
      * cbn [length Nat.sub seq combine].
        now rewrite <- Nat.add_succ_comm, !Nat.add_0_r.
      * intros q Hq. apply Hp. now apply in_combine_seq in Hq.
Qed.

Lemma map_snd_combine_len (x : list R) (k n : nat) :
  length x = n -> map snd (combine x (seq k n)) = seq k n.
Proof. intros <-. apply map_snd_combine_seq. Qed.

Lemma argsort_app (P : list R) (t : R) :
  nondecreasing P -> ~ In t P ->
  argsort (P ++ [t])
  = seq 0 (searchsorted P t)
    ++ length P :: seq (searchsorted P t) (length P - searchsorted P t).
Proof.
  intros HP Hin. unfold argsort.
  destruct (searchsorted_spec P t HP) as (Hm & _).
  rewrite length_app. cbn [length].
  rewrite (sort_pairs_app P t 0 HP Hin), map_app. cbn [map snd Nat.add].
  rewrite !map_snd_combine_len; [reflexivity| |].
  - rewrite length_skipn. reflexivity.
  - rewrite length_firstn. lia.
Qed.

(** Reading an array with one entry appended in the order that puts the
    appended entry at position [m]. *)
Lemma take_inserted (l : list R) (v : R) (m : nat) :
  (m <= length l)%nat ->
  Np.take (seq 0 m ++ length l :: seq m (length l - m)) (l ++ [v])
  = Np.insert m v l.
Proof.
  intros Hm. unfold Np.take, Np.insert. rewrite map_app. cbn [map].
  rewrite app_nth2, Nat.sub_diag by lia. cbn [nth].
  assert (Hext : forall a n, (a + n <= length l)%nat ->
            map (fun k => nth k (l ++ [v]) 0) (seq a n)
            = map (fun k => nth k l 0) (seq a n)).
  { intros a n Han. apply map_ext_in. intros k Hk. apply in_seq in Hk.
    apply app_nth1. lia. }
  rewrite !Hext by lia. f_equal; [|f_equal].
  - destruct m as [|m]; [reflexivity|].
    pose proof (slice_as_map 0 m l ltac:(lia)) as H.
    cbn [skipn] in H. rewrite Nat.add_1_r, Nat.sub_0_r in H. now rewrite H.
  - destruct (Nat.eq_dec m (length l)) as [->|Hne].
    + rewrite Nat.sub_diag, skipn_all. reflexivity.
    + pose proof (slice_as_map m (length l - 1) l ltac:(lia)) as H.
      replace (length l - 1 + 1)%nat with (length l) in H by lia.
      rewrite firstn_all in H. now rewrite H.
Qed.

Lemma map_combine_map {A B C : Type} (f : A -> B) (g : A * B -> C)
  (l : list A) :
  map g (combine l (map f l)) = map (fun a => g (a, f a)) l.
Proof. induction l as [|a l IH]; cbn; [reflexivity | now rewrite IH]. Qed.

Lemma rectangular_forallb (x : list R) (y : list (list R)) :
  rectangular x y ->
  forallb (fun row => (length row =? length x)%nat) y = true.
Proof.
  intros H. apply forallb_forall. intros row Hrow.
  apply Nat.eqb_eq. now apply H.
Qed.

(** On abscissae in non-decreasing order [interp1d] reads the rows as they
    are. *)
Lemma interp1d_sorted (x : list R) (y : list (list R)) (t : R) :
  nondecreasing x -> x <> [] -> rectangular x y ->
  interp1d x y t
  = if Np.Rltb t (nth 0 x 0) || Np.Rltb (nth (length x - 1) x 0) t
    then Raise ValueError
    else Ok (map (on_segment x
                    (Nat.min (Nat.max (searchsorted x t) 1) (length x - 1)) t)
               y).
Proof.
  intros Hx Hne Hrect. unfold interp1d.
  rewrite (rectangular_forallb x y Hrect). cbn [negb].
  destruct x as [|a x']; [congruence|].
  set (x := a :: x') in *.
  rewrite (argsort_sorted x Hx), take_seq.
  destruct (_ || _); [reflexivity|]. f_equal.
  apply map_ext. intros row. unfold on_segment.
  assert (Hn : (1 <= length x)%nat) by (unfold x; cbn; lia).
  rewrite !nth_take_seq by lia. reflexivity.
Qed.

(** Outside the range of the abscissae, or on rows of another length,
    [interp1d] raises [ValueError]. *)
Lemma interp1d_outside (x : list R) (y : list (list R)) (t : R) :
  nondecreasing x -> x <> [] ->
  t < nth 0 x 0 \/ nth (length x - 1) x 0 < t ->
  interp1d x y t = Raise ValueError.
Proof.
  intros Hx Hne Hout. unfold interp1d.
  destruct (negb _); [reflexivity|].
  destruct x as [|a x']; [congruence|].
  set (x := a :: x') in *.
  rewrite (argsort_sorted x Hx), take_seq.
  destruct Hout as [H|H]; apply Rltb_true in H; rewrite H;
    [|rewrite orb_true_r]; reflexivity.
Qed.

Lemma add_column_unfold (P : list R) (t : R) (Sa : list (list R)) :
  length Sa <> 1%nat ->
  add_column P t Sa
  = (Sa_int <- interp1d P Sa t ;;
     Ok (map (fun p => Np.take (argsort (P ++ [t])) (fst p ++ [snd p]))
             (combine Sa Sa_int))).
Proof.
  intros H. unfold add_column.
  destruct Sa as [|r [|r' Sa]]; [reflexivity|now cbn in H|reflexivity].
Qed.

(** A period that is not in the array and not outside its range lies
    strictly between two neighbouring periods. *)
Lemma searchsorted_inside (x : list R) (t : R) :
  nondecreasing x -> x <> [] -> ~ In t x ->
  nth 0 x 0 <= t <= nth (length x - 1) x 0 ->
  (1 <= searchsorted x t < length x)%nat
  /\ nth (searchsorted x t - 1) x 0 < t < nth (searchsorted x t) x 0.
Proof.
  intros Hx Hne Hin [Hlo Hhi].
  assert (Hn : (1 <= length x)%nat) by (destruct x; [congruence | cbn; lia]).
  destruct (searchsorted_spec x t Hx) as (Hm & Hlt & Hge).
  assert (Hneq : forall i, (i < length x)%nat -> nth i x 0 <> t).
  { intros i Hi E. apply Hin. rewrite <- E. now apply nth_In. }
  assert (H1 : (1 <= searchsorted x t)%nat).
  { destruct (searchsorted x t) eqn:E; [|lia]. exfalso.
    specialize (Hge 0%nat ltac:(lia)). apply (Hneq 0%nat); [lia | lra]. }
  assert (H2 : (searchsorted x t < length x)%nat).
  { destruct (Nat.eq_dec (searchsorted x t) (length x)) as [E|E]; [|lia].
    exfalso. specialize (Hlt (length x - 1)%nat ltac:(lia)). lra. }
  split; [lia|]. split; [apply Hlt; lia|].
  specialize (Hge (searchsorted x t) ltac:(lia)).
  specialize (Hneq (searchsorted x t) H2). lra.
Qed.

Lemma add_column_inside (P : list R) (t : R) (Sa : list (list R)) :
  nondecreasing P -> P <> [] -> ~ In t P ->
  nth 0 P 0 <= t <= nth (length P - 1) P 0 ->
  rectangular P Sa -> length Sa <> 1%nat ->
  add_column P t Sa = Ok (with_column P (searchsorted P t) t Sa).
Proof.
  intros HP Hne Hin Hr Hrect Hrows.
  destruct (searchsorted_inside P t HP Hne Hin Hr) as (Hm & _).
  rewrite (add_column_unfold P t Sa Hrows).
  rewrite (interp1d_sorted P Sa t HP Hne Hrect).
  destruct Hr as [Hlo Hhi].
  rewrite (proj2 (Rltb_false _ _) Hlo), (proj2 (Rltb_false _ _) Hhi).
  cbn [orb bind].
  replace (Nat.min (Nat.max (searchsorted P t) 1) (length P - 1))
    with (searchsorted P t) by lia.
  rewrite (argsort_app P t HP Hin), map_combine_map. f_equal.
  unfold with_column. apply map_ext_in. intros row Hrow. cbn [fst snd].
  rewrite <- (Hrect row Hrow). apply take_inserted.
  rewrite (Hrect row Hrow). lia.
Qed.

Lemma add_column_outside (P : list R) (t : R) (Sa : list (list R)) :
  nondecreasing P -> P <> [] -> length Sa <> 1%nat ->
  t < nth 0 P 0 \/ nth (length P - 1) P 0 < t ->
  add_column P t Sa = Raise ValueError.
Proof.
  intros HP Hne Hrows Hout.
  rewrite (add_column_unfold P t Sa Hrows).
  now rewrite (interp1d_outside P Sa t HP Hne Hout).
Qed.

Lemma add_column_one_record (P : list R) (t : R) (row : list R) :
  add_column P t [row] = Raise IndexError.
Proof. reflexivity. Qed.

Lemma existsb_Reqb (t : R) (l : list R) :
  existsb (Np.Reqb t) l = true <-> In t l.
Proof.
  rewrite existsb_exists. split.
  - intros (x & Hx & E). apply Reqb_true in E. now subst.
  - intros H. exists t. split; [exact H | apply Reqb_refl].
Qed.

(** Putting an entry between two neighbours keeps the order. *)
Lemma insert_increasing (P : list R) (t : R) (m : nat) :
  increasing P -> (1 <= m < length P)%nat ->
  nth (m - 1) P 0 < t < nth m P 0 ->
  increasing (Np.insert m t P) /\ nth m (Np.insert m t P) 0 = t
  /\ length (Np.insert m t P) = S (length P).
Proof.
  intros HP Hm Ht. unfold Np.insert.
  assert (Hlf : length (firstn m P) = m) by (rewrite length_firstn; lia).
  assert (Hnth : forall i,
            nth i (firstn m P ++ t :: skipn m P) 0
            = if (i <? m)%nat then nth i P 0
              else if (i =? m)%nat then t else nth (i - 1) P 0).
  { intros i. destruct (Nat.ltb_spec i m).
    - rewrite app_nth1, nth_firstn by lia.
      now destruct (Nat.ltb_spec i m); [|lia].
    - rewrite app_nth2, Hlf by lia.
      destruct (Nat.eqb_spec i m) as [->|Hne].
      + now rewrite Nat.sub_diag.
      + replace (i - m)%nat with (S (i - m - 1)) by lia. cbn [nth].
        rewrite nth_skipn. f_equal. lia. }
  assert (Hlen : length (firstn m P ++ t :: skipn m P) = S (length P)).
  { rewrite length_app, Hlf. cbn [length]. rewrite length_skipn. lia. }
  assert (Hbelow : forall i, (i < m)%nat -> nth i P 0 < t).
  { intros i Hi. destruct (Nat.eq_dec i (m - 1)) as [->|Hne]; [lra|].
    specialize (HP i (m - 1)%nat ltac:(lia)). lra. }
  assert (Habove : forall i, (m <= i < length P)%nat -> t < nth i P 0).
  { intros i Hi. destruct (Nat.eq_dec i m) as [->|Hne]; [lra|].
    specialize (HP m i ltac:(lia)). lra. }
  split; [|split; [|exact Hlen]].
  - intros i j Hij. rewrite Hlen in Hij. rewrite !Hnth.
    destruct (Nat.ltb_spec i m), (Nat.ltb_spec j m); try lia.
    + apply HP. lia.
    + destruct (Nat.eqb_spec j m); [now apply Hbelow|].
      destruct (Nat.eq_dec i (j - 1)); [lia|]. apply HP. lia.
    + destruct (Nat.eqb_spec i m), (Nat.eqb_spec j m); try lia.
      * apply Habove. lia.
      * apply HP. lia.
  - rewrite Hnth. destruct (Nat.ltb_spec m m); [lia|].
    now rewrite Nat.eqb_refl.
Qed.

End LoaderFacts.

Section LoaderClaims.
Import Target Grid Database Object Loader Demo Samples.

Lemma on_segment_between (P row : list R) (m : nat) (t : R) :
  nth (m - 1) P 0 < t < nth m P 0 ->
  Rmin (nth (m - 1) row 0) (nth m row 0) <= on_segment P m t row
  <= Rmax (nth (m - 1) row 0) (nth m row 0).
Proof.
  intros Ht. unfold on_segment.
  set (x0 := nth (m - 1) P 0) in *. set (x1 := nth m P 0) in *.
  set (y0 := nth (m - 1) row 0). set (y1 := nth m row 0).
  set (l := (t - x0) / (x1 - x0)).
  assert (Hl : 0 < l < 1).
  { unfold l. split.
    - apply Rdiv_lt_0_compat; lra.
    - apply Rmult_lt_reg_r with (x1 - x0); [lra|].
      unfold Rdiv. rewrite Rmult_assoc, Rinv_l by lra. lra. }
  replace ((y1 - y0) / (x1 - x0) * (t - x0) + y0) with (y0 + l * (y1 - y0))
    by (unfold l; field; lra).
  unfold Rmin, Rmax. destruct (Rle_dec y0 y1); split; nra.
Qed.

Lemma with_column_rectangular (P : list R) (m : nat) (t : R)
  (Sa : list (list R)) :
  (m <= length P)%nat -> rectangular P Sa ->
  rectangular (Np.insert m t P) (with_column P m t Sa).
Proof.
  intros Hm Hr row Hrow. unfold with_column in Hrow.
  apply in_map_iff in Hrow. destruct Hrow as (r & <- & Hin).
  specialize (Hr r Hin). unfold Np.insert.
  rewrite !length_app. cbn [length].
  rewrite !length_firstn, !length_skipn. lia.
Qed.

Lemma add_column_defined (P : list R) (t : R) (Sa : list (list R)) :
  nondecreasing P -> P <> [] ->
  nth 0 P 0 <= t <= nth (length P - 1) P 0 ->
  rectangular P Sa -> length Sa <> 1%nat ->
  exists s, add_column P t Sa = Ok s.
Proof.
  intros HP Hne [Hlo Hhi] Hrect Hrows.
  rewrite (add_column_unfold P t Sa Hrows).
  rewrite (interp1d_sorted P Sa t HP Hne Hrect).
  rewrite (proj2 (Rltb_false _ _) Hlo), (proj2 (Rltb_false _ _) Hhi).
  cbn [orb bind]. eexists. reflexivity.
Qed.

Lemma well_formed_nonempty (name : String.string) (db : database) :
  well_formed name db -> Periods db <> [].
Proof.
  intros (H & _) E. rewrite E in H. cbn in H. lia.
Qed.

Lemma periods_inserted (P : list R) (t : R) :
  nondecreasing P -> ~ In t P ->
  Np.take (argsort (P ++ [t])) (P ++ [t]) = Np.insert (searchsorted P t) t P.
Proof.
  intros HP Hin. rewrite (argsort_app P t HP Hin).
  apply take_inserted. now destruct (searchsorted_spec P t HP).
Qed.

(** The constructor returns for a single period within the range of the
    database periods. *)
Lemma init_single_Ok (t : R) (name : String.string) (loaded : database) :
  nondecreasing (Periods loaded) -> well_formed name loaded ->
  nth 0 (Periods loaded) 0 <= t
  <= nth (length (Periods loaded) - 1) (Periods loaded) 0 ->
  exists self,
    init_Tstar (TNumber t) name loaded = Ok self
    /\ self_Tstar self = Some [t] /\ self_target self = None
    /\ (In t (Periods loaded) ->
        Periods (self_database self) = Periods loaded)
    /\ (~ In t (Periods loaded) ->
        Periods (self_database self)
        = Np.insert (searchsorted (Periods loaded) t) t (Periods loaded)).
Proof.
  intros HP Hwf Hr. pose proof (well_formed_nonempty _ _ Hwf) as Hne.
  destruct Hwf as (_ & Hrect1 & Hrows1 & Hnga).
  unfold init_Tstar. cbn [bind length Nat.eqb].
  destruct (existsb (Np.Reqb t) (Periods loaded)) eqn:E; cbn [negb andb].
  - apply existsb_Reqb in E. cbn [bind]. eexists.
    split; [reflexivity|]. cbn [self_Tstar self_target self_database Periods].
    repeat split. intros H. contradiction.
  - assert (Hin : ~ In t (Periods loaded)).
    { intros H. apply existsb_Reqb in H. congruence. }
    destruct (add_column_defined _ t (Sa_1 loaded) HP Hne Hr Hrect1 Hrows1)
      as (s1 & ->).
    cbn [bind].
    destruct (String.prefix "NGA" name) eqn:Hn.
    + destruct (Hnga eq_refl) as (Hrect2 & Hrows2 & Hrect3 & Hrows3).
      destruct (add_column_defined _ t (Sa_2 loaded) HP Hne Hr Hrect2 Hrows2)
        as (s2 & ->).
      destruct (add_column_defined _ t (Sa_RotD50 loaded) HP Hne Hr Hrect3
                  Hrows3) as (s3 & ->).
      cbn [bind]. eexists. split; [reflexivity|].
      cbn [self_Tstar self_target self_database Periods].
      repeat split; [contradiction|]. intros _. now apply periods_inserted.
    + cbn [bind]. eexists. split; [reflexivity|].
      cbn [self_Tstar self_target self_database Periods].
      repeat split; [contradiction|]. intros _. now apply periods_inserted.
Qed.

Lemma init_list_as_number (t : R) (name : String.string) (loaded : database) :
  init_Tstar (TList [t]) name loaded = init_Tstar (TNumber t) name loaded.
Proof. reflexivity. Qed.

(** X24.  The constructor with a single conditioning period [t] that is
    not a database period but lies within their range, on a database of
    increasing periods whose spectral arrays are two-dimensional with one
    column per period (in exact arithmetic): [t] is put between its two
    neighbours [m - 1] and [m] of the period array, which stays
    increasing; every row of [Sa_1] gets at the same column the ordinate on
    the straight segment between the neighbouring ordinates, which lies
    between them, and keeps its other ordinates; for a database whose name
    starts with [NGA] the second component and the RotD50 spectra are
    extended alike, otherwise they are left with their old columns; the
    metadata are untouched.  A number and a one-element list give the same
    object. *)
Theorem constructor_adds_conditioning_period (t : R) (name : String.string)
  (loaded : database) :
  let P := Periods loaded in
  increasing P -> well_formed name loaded -> ~ In t P ->
  nth 0 P 0 <= t <= nth (length P - 1) P 0 ->
  exists self m,
    init_Tstar (TNumber t) name loaded = Ok self
    /\ init_Tstar (TList [t]) name loaded = Ok self
    /\ self_Tstar self = Some [t] /\ self_target self = None
    /\ (1 <= m < length P)%nat /\ nth (m - 1) P 0 < t < nth m P 0
    /\ Periods (self_database self) = Np.insert m t P
    /\ increasing (Periods (self_database self))
    /\ nth m (Periods (self_database self)) 0 = t
    /\ Sa_1 (self_database self) = with_column P m t (Sa_1 loaded)
    /\ rectangular (Periods (self_database self)) (Sa_1 (self_database self))
    /\ (forall row, In row (Sa_1 loaded) ->
          Rmin (nth (m - 1) row 0) (nth m row 0) <= on_segment P m t row
          <= Rmax (nth (m - 1) row 0) (nth m row 0))
    /\ (if String.prefix "NGA" name
        then Sa_2 (self_database self) = with_column P m t (Sa_2 loaded)
             /\ Sa_RotD50 (self_database self)
                = with_column P m t (Sa_RotD50 loaded)
        else Sa_2 (self_database self) = Sa_2 loaded
             /\ Sa_RotD50 (self_database self) = Sa_RotD50 loaded)
    /\ Name (self_database self) = name
    /\ soil_Vs30 (self_database self) = soil_Vs30 loaded
    /\ magnitude (self_database self) = magnitude loaded
    /\ Rjb (self_database self) = Rjb loaded
    /\ mechanism (self_database self) = mechanism loaded
    /\ Filename_1 (self_database self) = Filename_1 loaded
    /\ Filename_2 (self_database self) = Filename_2 loaded.
Proof.
  intros P Hinc Hwf Hin Hr.
  pose proof (well_formed_nonempty _ _ Hwf) as Hne. fold P in Hne.
  destruct Hwf as (_ & Hrect1 & Hrows1 & Hnga). fold P in Hrect1, Hnga.
  pose proof (increasing_nondecreasing P Hinc) as HP.
  destruct (searchsorted_inside P t HP Hne Hin Hr) as (Hm & Ht).
  set (m := searchsorted P t) in *.
  destruct (insert_increasing P t m Hinc Hm Ht) as (Hinc' & Hnth & _).
  assert (E : existsb (Np.Reqb t) P = false).
  { destruct (existsb (Np.Reqb t) P) eqn:E; [|reflexivity].
    apply existsb_Reqb in E. contradiction. }
  assert (Hinit : exists db,
            init_Tstar (TNumber t) name loaded
            = Ok {| self_Tstar := Some [t]; self_database := db;
                    self_target := None |}
            /\ Periods db = Np.insert m t P
            /\ Sa_1 db = with_column P m t (Sa_1 loaded)
            /\ (if String.prefix "NGA" name
                then Sa_2 db = with_column P m t (Sa_2 loaded)
                     /\ Sa_RotD50 db = with_column P m t (Sa_RotD50 loaded)
                else Sa_2 db = Sa_2 loaded /\ Sa_RotD50 db = Sa_RotD50 loaded)
            /\ Name db = name
            /\ soil_Vs30 db = soil_Vs30 loaded
            /\ magnitude db = magnitude loaded
            /\ Rjb db = Rjb loaded
            /\ mechanism db = mechanism loaded
            /\ Filename_1 db = Filename_1 loaded
            /\ Filename_2 db = Filename_2 loaded).
  { unfold init_Tstar. cbn [bind length Nat.eqb]. fold P. rewrite E.
    cbn [negb andb].
    rewrite (add_column_inside P t (Sa_1 loaded) HP Hne Hin Hr Hrect1 Hrows1).
    cbn [bind]. fold m.
    destruct (String.prefix "NGA" name) eqn:Hn.
    - destruct (Hnga eq_refl) as (Hrect2 & Hrows2 & Hrect3 & Hrows3).
      rewrite (add_column_inside P t (Sa_2 loaded) HP Hne Hin Hr Hrect2 Hrows2).
      cbn [bind].
      rewrite (add_column_inside P t (Sa_RotD50 loaded) HP Hne Hin Hr Hrect3
                 Hrows3).
      cbn [bind fst snd]. fold m. eexists. split; [reflexivity|].
      cbn [Periods Sa_1 Sa_2 Sa_RotD50 Name soil_Vs30 magnitude Rjb mechanism
           Filename_1 Filename_2].
      split; [now apply periods_inserted|]. repeat split.
    - cbn [bind fst snd]. eexists. split; [reflexivity|].
      cbn [Periods Sa_1 Sa_2 Sa_RotD50 Name soil_Vs30 magnitude Rjb mechanism
           Filename_1 Filename_2].
      split; [now apply periods_inserted|]. repeat split. }
  destruct Hinit as (db & Hinit & HPer & HSa1 & HSa23 & Hmeta).
  eexists. exists m.
  split; [exact Hinit|]. split; [exact Hinit|].
  cbn [self_Tstar self_target self_database].
  rewrite HPer, HSa1.
  repeat (split; [first [reflexivity | assumption | lia | lra]|]).
  split; [apply with_column_rectangular; [lia | exact Hrect1]|].
  split; [intros row _; now apply on_segment_between|].
  split; [exact HSa23 | exact Hmeta].
Qed.

Lemma grid_order_124 : increasing [1; 2; 4].
Proof. unfold increasing. grid_order. Qed.

Lemma db_loaded_well_formed : well_formed "NGA_W1" db_loaded.
Proof.
  unfold well_formed, rectangular, db_loaded.
  cbn [Periods Sa_1 Sa_2 Sa_RotD50 length].
  split; [lia|]. split; [intros row [<-|[<-|[]]]; reflexivity|].
  split; [lia|]. intros _.
  split; [intros row [<-|[<-|[]]]; reflexivity|]. split; [lia|].
  split; [intros row [<-|[<-|[]]]; reflexivity|]. lia.
Qed.

Lemma constructor_adds_conditioning_period_witness :
  exists self,
    init_Tstar (TNumber 3) "NGA_W1" db_loaded = Ok self
    /\ increasing (Periods (self_database self))
    /\ In 3 (Periods (self_database self))
    /\ Sa_1 (self_database self) = [[10; 20; 30; 40]; [5; 6; 7; 8]].
Proof.
  destruct (constructor_adds_conditioning_period 3 "NGA_W1" db_loaded)
    as (self & m & H & _ & _ & _ & Hm & Hbt & HP & Hinc & Hnth & HSa & _).
  - exact grid_order_124.
  - exact db_loaded_well_formed.
  - cbn. intros [H|[H|[H|[]]]]; lra.
  - cbn. lra.
  - exists self. split; [exact H|]. split; [exact Hinc|].
    split.
    + rewrite <- Hnth. apply nth_In. rewrite HP.
      unfold Np.insert. rewrite length_app. cbn [length].
      rewrite length_firstn, length_skipn. cbn [db_loaded Periods length] in *.
      lia.
    + rewrite HSa. cbn [db_loaded Periods Sa_1 length] in *.
      assert (Em : m = 2%nat).
      { destruct m as [|[|[|m]]]; cbn [nth Nat.sub] in Hbt; try lia;
          try reflexivity; lra. }
      subst m. unfold with_column, on_segment, Np.insert.
      cbn [map nth firstn skipn app Nat.sub].
      repeat f_equal; lra.
Defined.

(** X25.  The constructor on a database of periods in non-decreasing
    order whose spectral arrays are two-dimensional with one column per
    period: a single conditioning period below the first or above the last
    database period makes it raise [ValueError] (the interpolation refuses
    it), given as a number or as a one-element list; a single period
    within the range is accepted and is a database period afterwards; a
    list of two or more periods is accepted as it is and leaves the
    periods and the spectra alone, whether its entries are database periods
    or not; an empty list raises [IndexError], and an argument that is
    neither a number nor a list raises [AttributeError].  On a database of
    a single record, whose spectra are loaded as one-dimensional arrays, a
    single period that is not a database period raises [IndexError]. *)
Theorem constructor_edge_cases (name : String.string) (loaded : database) :
  let P := Periods loaded in
  nondecreasing P -> well_formed name loaded ->
  (forall t, t < nth 0 P 0 \/ nth (length P - 1) P 0 < t ->
     init_Tstar (TNumber t) name loaded = Raise ValueError
     /\ init_Tstar (TList [t]) name loaded = Raise ValueError)
  /\ (forall t, nth 0 P 0 <= t <= nth (length P - 1) P 0 ->
        exists self,
          init_Tstar (TNumber t) name loaded = Ok self
          /\ self_Tstar self = Some [t]
          /\ In t (Periods (self_database self)))
  /\ (forall t t' ts,
        exists self,
          init_Tstar (TList (t :: t' :: ts)) name loaded = Ok self
          /\ self_Tstar self = Some (t :: t' :: ts)
          /\ Periods (self_database self) = P
          /\ Sa_1 (self_database self) = Sa_1 loaded)
  /\ init_Tstar (TList []) name loaded = Raise IndexError
  /\ init_Tstar TOther name loaded = Raise AttributeError
  /\ (forall t row other,
        (2 <= length (Periods other))%nat ->
        ~ In t (Periods other) -> Sa_1 other = [row] ->
        init_Tstar (TNumber t) name other = Raise IndexError).
Proof.
  intros P HP Hwf.
  pose proof (well_formed_nonempty _ _ Hwf) as Hne. fold P in Hne.
  assert (Hn : (1 <= length P)%nat) by (destruct P; [congruence | cbn; lia]).
  split; [|split; [|split; [|split; [|split]]]]; try reflexivity.
  - intros t Hout. rewrite init_list_as_number.
    assert (H : init_Tstar (TNumber t) name loaded = Raise ValueError);
      [|now split].
    assert (E : existsb (Np.Reqb t) P = false).
    { destruct (existsb (Np.Reqb t) P) eqn:E; [|reflexivity]. exfalso.
      apply existsb_Reqb in E. destruct (In_nth _ _ 0 E) as (k & Hk & Hkt).
      pose proof (HP 0%nat k ltac:(lia)).
      pose proof (HP k (length P - 1)%nat ltac:(lia)). lra. }
    destruct Hwf as (_ & _ & Hrows1 & _).
    unfold init_Tstar. cbn [bind length Nat.eqb]. fold P. rewrite E.
    cbn [negb andb].
    now rewrite (add_column_outside P t (Sa_1 loaded) HP Hne Hrows1 Hout).
  - intros t Hr.
    destruct (init_single_Ok t name loaded HP Hwf Hr)
      as (self & H & HT & _ & Hin & Hnin).
    exists self. split; [exact H|]. split; [exact HT|].
    destruct (in_dec Req_dec_T t P) as [Ht|Ht].
    + now rewrite (Hin Ht).
    + rewrite (Hnin Ht). unfold Np.insert. apply in_or_app. right. now left.
  - intros t t' ts. unfold init_Tstar. cbn [bind length Nat.eqb].
    rewrite andb_false_r. cbn [bind]. eexists. repeat split.
  - intros t row other _ Hin Hrow.
    assert (E : existsb (Np.Reqb t) (Periods other) = false).
    { destruct (existsb (Np.Reqb t) (Periods other)) eqn:E; [|reflexivity].
      apply existsb_Reqb in E. contradiction. }
    unfold init_Tstar. cbn [bind length Nat.eqb]. rewrite E, Hrow.
    reflexivity.
Qed.

Lemma constructor_edge_cases_witness :
  init_Tstar (TNumber 5) "NGA_W1" db_loaded = Raise ValueError
  /\ init_Tstar (TList [5]) "NGA_W1" db_loaded = Raise ValueError.
Proof.
  destruct (constructor_edge_cases "NGA_W1" db_loaded) as (H & _).
  - exact (increasing_nondecreasing _ grid_order_124).
  - exact db_loaded_well_formed.
  - apply (H 5). right. cbn. lra.
Defined.

Lemma slice_increasing (i j : nat) (l : list R) :
  increasing l -> (i <= j < length l)%nat ->
  increasing (skipn i (firstn (j + 1) l)).
Proof.
  intros Hl Hij a b Hab. rewrite slice_length in Hab by exact Hij.
  rewrite !slice_nth by lia. apply Hl. lia.
Qed.

(** X26.  Constructor and [create] together: after the constructor has
    accepted a single conditioning period [t] (database periods
    increasing, spectral arrays two-dimensional with one column per
    period, [t] within the range of the periods), a conditional [create]
    whose range [T_Tgt_range] contains [t], with at least one scenario,
    one hazard weight per scenario and, when epsilon is given, one value
    per scenario, returns; [t] is a period of the target grid and its
    index there is found, so the lookup of the conditioning period in
    [create] and later in [select] does not fail. *)
Theorem constructed_period_is_on_target_grid (gmpe : nat -> R -> R * R)
  (t : R) (name : String.string) (loaded : database) (a : create_args)
  (lo hi : R) :
  let P := Periods loaded in
  increasing P -> well_formed name loaded ->
  nth 0 P 0 <= t <= nth (length P - 1) P 0 ->
  Np.min (T_Tgt_range a) = Ok lo -> Np.max (T_Tgt_range a) = Ok hi ->
  lo <= t <= hi ->
  cond_a a = 1%nat -> n_scenarios a <> 0%nat ->
  (forall h, Hcont_a a = Some h -> length h = n_scenarios a) ->
  (forall e, epsilon_a a = Some e -> (n_scenarios a <= length e)%nat) ->
  exists self self' tgt k,
    init_Tstar (TNumber t) name loaded = Ok self
    /\ create_method gmpe self a = Ok self'
    /\ self_target self' = Some tgt
    /\ self_Tstar self' = Some [t] /\ Tstar tgt = Some [t]
    /\ increasing (T tgt)
    /\ (forall x, In x (T tgt) -> In x (Periods (self_database self)))
    /\ cond_indices (T tgt) [t] = Ok [k]
    /\ (k < length (T tgt))%nat /\ nth k (T tgt) 0 = t.
Proof.
  intros P Hinc Hwf Hr Hlo Hhi Hrange Hcond HnS _ _.
  pose proof (well_formed_nonempty _ _ Hwf) as Hne. fold P in Hne.
  pose proof (increasing_nondecreasing P Hinc) as HP.
  destruct (init_single_Ok t name loaded HP Hwf Hr)
    as (self & Hinit & HT & _ & Hin & Hnin).
  set (P' := Periods (self_database self)) in *.
  assert (HP' : increasing P' /\ In t P').
  { destruct (in_dec Req_dec_T t P) as [Ht|Ht].
    - rewrite (Hin Ht). now split.
    - rewrite (Hnin Ht).
      destruct (searchsorted_inside P t HP Hne Ht Hr) as (Hm & Hbt).
      destruct (insert_increasing P t _ Hinc Hm Hbt) as (Hi & _).
      split; [exact Hi|]. unfold Np.insert. apply in_or_app. right. now left. }
  destruct HP' as [Hinc' Hint].
  pose proof (increasing_nondecreasing P' Hinc') as Hnd'.
  assert (Hne' : P' <> []) by (intros E; rewrite E in Hint; contradiction).
  destruct (In_nth _ _ 0 Hint) as (kt & Hkt & Hnth).
  destruct (nearest_index_defined P' lo Hne') as (i & Hi).
  destruct (nearest_index_defined P' hi Hne') as (j & Hj).
  pose proof (nearest_index_exact P' kt Hinc' Hkt) as Hk. rewrite Hnth in Hk.
  pose proof (nearest_index_mono _ _ _ _ _ Hnd' (proj1 Hrange) Hi Hk) as Hik.
  pose proof (nearest_index_mono _ _ _ _ _ Hnd' (proj2 Hrange) Hk Hj) as Hkj.
  destruct (nearest_index_spec _ _ _ Hj) as (Hjl & _).
  set (grid := skipn i (firstn (j + 1) P')).
  assert (Hgrid : T_Tgt_of P' (T_Tgt_range a) = Ok grid).
  { unfold T_Tgt_of. rewrite Hlo. cbn [bind]. rewrite Hi. cbn [bind].
    rewrite Hhi. cbn [bind]. rewrite Hj. reflexivity. }
  assert (Hgi : increasing grid) by (apply slice_increasing; [assumption|lia]).
  assert (Hgt : In t grid).
  { apply slice_In; [lia|]. exists kt. split; [lia | exact Hnth]. }
  destruct (In_nth _ _ 0 Hgt) as (k & Hkl & Hknth).
  pose proof (where_first_exact grid k Hgi Hkl) as Hw. rewrite Hknth in Hw.
  assert (Hind : cond_indices grid [t] = Ok [k]).
  { unfold cond_indices. cbn [mapM]. rewrite Hw. reflexivity. }
  set (c := {| T_Tgt := grid; Tstar0 := [t]; nScenarios := n_scenarios a;
               Hcont_arg := Hcont_a a; im_Tstar_arg := im_Tstar_a a;
               epsilon := epsilon_a a; cond_arg := cond_a a;
               useVar_arg := useVar_a a |}).
  assert (Hcreate : exists tgt, create gmpe c = Ok tgt).
  { unfold create, Tstar_self. unfold c.
    cbn [cond_arg nScenarios epsilon T_Tgt Tstar0 length].
    rewrite Hcond. cbn [Nat.eqb bind].
    destruct (Nat.eqb_spec (n_scenarios a) 0); [contradiction|].
    destruct (epsilon_a a); [rewrite Hind|]; cbn [bind]; eexists; reflexivity. }
  destruct Hcreate as (tgt & Htgt).
  pose proof (create_Ok_inv gmpe _ _ Htgt)
    as (Ts & HTs & _ & _ & _ & HTg & _ & HTstar & _).
  unfold Tstar_self in HTs. unfold c in HTs, HTg, HTstar.
  cbn [cond_arg T_Tgt Tstar0 length] in HTs, HTg, HTstar.
  rewrite Hcond in HTs, HTstar. cbn [Nat.eqb] in HTs, HTstar.
  injection HTs as <-.
  exists self, {| self_Tstar := Tstar tgt; self_database := self_database self;
                  self_target := Some tgt |}, tgt, k.
  split; [exact Hinit|].
  split.
  { unfold create_method. fold P'. rewrite Hgrid. cbn [bind]. rewrite HT.
    cbn [bind]. fold c. rewrite Htgt. reflexivity. }
  cbn [self_target self_Tstar]. rewrite HTg, HTstar.
  repeat (split; [first [reflexivity | assumption]|]).
  split; [|repeat split; assumption].
  intros x Hx. apply slice_In in Hx; [|lia].
  destruct Hx as (q & Hq & <-). apply nth_In. unfold P' in *. lia.
Qed.

Lemma constructed_period_is_on_target_grid_witness :
  exists self self' tgt,
    init_Tstar (TNumber 3) "NGA_W1" db_loaded = Ok self
    /\ create_method demo_gmpe self args_cond = Ok self'
    /\ self_target self' = Some tgt /\ In 3 (T tgt).
Proof.
  destruct (constructed_period_is_on_target_grid demo_gmpe 3 "NGA_W1"
              db_loaded args_cond 2 4)
    as (self & self' & tgt & k & H1 & H2 & H3 & _ & _ & _ & _ & _ & Hk & Hn).
  - exact grid_order_124.
  - exact db_loaded_well_formed.
  - cbn. lra.
  - cbn. f_equal. apply Rmin_left. lra.
  - cbn. f_equal. apply Rmax_right. lra.
  - lra.
  - reflexivity.
  - discriminate.
  - discriminate.
  - intros e H. injection H as <-. cbn. lia.
  - exists self, self', tgt. repeat (split; [assumption|]).
    rewrite <- Hn. now apply nth_In.
Defined.

End LoaderClaims.

(** * Elapsed time *)

Section ClockClaims.
Import Clock.

Lemma int_of_float_nonneg (x : R) :
  0 <= x -> int_of_float x = Zfloor x.
Proof. intros H. unfold int_of_float. now destruct (Rle_dec 0 x). Qed.

Lemma int_of_float_nonpos (x : R) :
  x <= 0 -> int_of_float x = Zceil x.
Proof.
  intros H. unfold int_of_float. destruct (Rle_dec 0 x) as [H0|]; [|reflexivity].
  replace x with (IZR 0) by lra.
  now rewrite ZfloorZ, <- (Ropp_involutive (IZR 0)), ZceilN, <- opp_IZR,
    ZfloorZ.
Qed.

(** X27.  [RunTime] splits the elapsed time into hours, minutes and
    seconds that add up to it.  When the clock has not gone backwards the
    hours are not negative and the minutes and the seconds lie in
    [0, 60); when it has, none of the three parts is positive and the
    minutes and the seconds lie in (-60, 0]. *)
Theorem RunTime_parts (startTime finishTime : R) :
  let '(h, m, s) := RunTime startTime finishTime in
  finishTime - startTime = IZR h * 3600 + IZR m * 60 + s
  /\ (startTime <= finishTime ->
      (0 <= h)%Z /\ (0 <= m < 60)%Z /\ 0 <= s < 60)
  /\ (finishTime <= startTime ->
      (h <= 0)%Z /\ (-60 < m <= 0)%Z /\ -60 < s <= 0).
Proof.
  unfold RunTime. set (e := finishTime - startTime).
  split; [lra|]. split; intros Hle.
  - assert (He : 0 <= e) by (unfold e; lra).
    rewrite !int_of_float_nonneg by lra.
    pose proof (Zfloor_bound (e / 60)) as [HM1 HM2].
    pose proof (Zfloor_bound (e / 3600)) as [Hh1 Hh2].
    set (M := Zfloor (e / 60)) in *. set (h := Zfloor (e / 3600)) in *.
    assert (H0 : (0 <= h)%Z) by (apply Zfloor_lub; lra).
    assert (H1 : (h * 60 <= M)%Z).
    { apply Zfloor_lub. rewrite mult_IZR. lra. }
    assert (H2 : (M < h * 60 + 60)%Z).
    { apply lt_IZR. rewrite plus_IZR, mult_IZR. lra. }
    split; [exact H0|]. split; [lia|].
    rewrite minus_IZR, mult_IZR. lra.
  - assert (He : e <= 0) by (unfold e; lra).
    rewrite !int_of_float_nonpos by lra.
    pose proof (Zceil_bound (e / 60)) as [HM1 HM2].
    pose proof (Zceil_bound (e / 3600)) as [Hh1 Hh2].
    set (M := Zceil (e / 60)) in *. set (h := Zceil (e / 3600)) in *.
    assert (H0 : (h <= 0)%Z).
    { apply Z.lt_succ_r, lt_IZR. rewrite succ_IZR. lra. }
    assert (H1 : (M <= h * 60)%Z).
    { apply Z.lt_succ_r, lt_IZR. rewrite succ_IZR, mult_IZR. lra. }
    assert (H2 : (h * 60 - 60 < M)%Z).
    { apply lt_IZR. rewrite minus_IZR, mult_IZR. lra. }
    split; [exact H0|]. split; [lia|].
    rewrite minus_IZR, mult_IZR. lra.
Qed.

End ClockClaims.

(** * The stored conditioning level *)

Section StoredLevel.
Import Target Selector Invariant Consistency Demo.




End StoredLevel.
